(** * golongtail: the remote block store ([longtailstorelib/remotestore.go])

    A shallow embedding of the remote block store: the block path scheme,
    the retry ladders around the blob store, the prefetch cache, the I/O
    worker loop and the optimistic update of the store index, together
    with the properties the store's specification states about them. *)

From Stdlib Require Import ZArith Ascii String List Lia.
From stdpp Require Import gmap strings list fin_maps.

Local Open Scope Z_scope.

(** ** Go strings as byte lists *)

(** A Go string is a sequence of bytes.  The path functions below work on
    [list ascii]; [str] and [bytes_of] convert from and to [string]. *)
Definition str (l : list ascii) : string := string_of_list_ascii l.
Definition bytes_of (s : string) : list ascii := list_ascii_of_string s.

Definition slash : ascii := "/"%char.
Definition backslash : ascii := "\"%char.
Definition dot : ascii := "."%char.

(** ** [path/filepath] on a slash-separated target *)

Module Filepath.

(** The elements of a path: the pieces between separators (empty pieces
    included, as in [strings.Split(path, "/")]). *)
Fixpoint splitSlash (p : list ascii) : list (list ascii) :=
  match p with
  | [] => [[]]
  | c :: p' =>
      if decide (c = slash) then [] :: splitSlash p'
      else match splitSlash p' with
           | x :: xs => (c :: x) :: xs
           | [] => [[c]]
           end
  end.

Fixpoint joinSlash (xs : list (list ascii)) : list ascii :=
  match xs with
  | [] => []
  | [x] => x
  | x :: xs' => x ++ slash :: joinSlash xs'
  end.

Definition dotdot : list ascii := [dot; dot].

(** One element of [Clean]'s scan.  [out] is the output so far as a stack
    of elements (last written element first).  Empty and [.] elements
    are dropped; [..] removes the last real element when there is one,
    is dropped at the root, and is kept in front of a relative path;
    any other element is written. *)
Definition cleanStep (rooted : bool) (out : list (list ascii))
    (e : list ascii) : list (list ascii) :=
  if decide (e = []) then out
  else if decide (e = [dot]) then out
  else if decide (e = dotdot) then
    match out with
    | top :: rest =>
        if decide (top = dotdot) then dotdot :: out else rest
    | [] => if rooted then out else [dotdot]
    end
  else e :: out.

Definition isRooted (p : list ascii) : bool :=
  match p with
  | c :: _ => bool_decide (c = slash)
  | [] => false
  end.

(** [filepath.Clean]: the shortest path equivalent to [p] by purely
    lexical processing.  The empty result is turned into ["."]. *)
Definition Clean (p : list ascii) : list ascii :=
  let rooted := isRooted p in
  let out := fold_left (cleanStep rooted) (splitSlash p) [] in
  let body := joinSlash (rev out) in
  let res := if rooted then slash :: body else body in
  match res with
  | [] => [dot]
  | _ => res
  end.

(** The two halves of [Clean]: the scan of the elements, and the
    output written from the stack of kept elements. *)
Definition scan (p : list ascii) : list (list ascii) :=
  fold_left (cleanStep (isRooted p)) (splitSlash p) [].

Definition render (rooted : bool) (out : list (list ascii)) : list ascii :=
  let body := joinSlash (rev out) in
  let res := if rooted then slash :: body else body in
  match res with
  | [] => [dot]
  | _ => res
  end.

(** A real path element: not empty, not [.] or [..], without slash. *)
Definition plain (e : list ascii) : Prop :=
  e <> [] /\ e <> [dot] /\ e <> dotdot /\ slash ∉ e.

(** [strings.Join(elem, "/")]. *)
Fixpoint stringsJoin (elem : list (list ascii)) : list ascii :=
  match elem with
  | [] => []
  | [e] => e
  | e :: rest => e ++ slash :: stringsJoin rest
  end.

(** [filepath.Join]: leading empty elements are ignored, the rest is
    joined with the separator and cleaned; all empty gives [""]. *)
Fixpoint Join (elem : list (list ascii)) : list ascii :=
  match elem with
  | [] => []
  | e :: rest =>
      if decide (e = []) then Join rest else Clean (stringsJoin elem)
  end.

End Filepath.

(** [strings.Replace(s, "\\", "/", -1)]: every backslash becomes a slash. *)
Definition replaceBackslash (s : list ascii) : list ascii :=
  map (fun c => if decide (c = backslash) then slash else c) s.

(** ** Block path scheme *)

Definition hexDigit (d : Z) : ascii :=
  nth (Z.to_nat d) (bytes_of "0123456789abcdef") "0"%char.

(** The [n] low hexadecimal digits of [h], most significant first.  For a
    [uint64] and [n = 16] this is what the verb [%016x] prints: lower-case
    digits, padded with zeros to sixteen characters. *)
Fixpoint hexOfZ (n : nat) (h : Z) : list ascii :=
  match n with
  | O => []
  | S n' => hexOfZ n' (Z.shiftr h 4) ++ [hexDigit (Z.land h 15)]
  end.

Definition hex16 (blockHash : Z) : list ascii := hexOfZ 16 blockHash.

(** [fmt.Sprintf("0x%016x.lsb", blockHash)] *)
Definition blockFileName (blockHash : Z) : list ascii :=
  bytes_of "0x" ++ hex16 blockHash ++ bytes_of ".lsb".

(** [s[lo:hi]] on a string that is long enough. *)
Definition slice (lo hi : nat) (s : list ascii) : list ascii :=
  take (hi - lo) (drop lo s).

Definition GetBlockPathBytes (basePath : list ascii) (blockHash : Z)
    : list ascii :=
  let fileName := blockFileName blockHash in
  let dir := Filepath.Join [basePath; slice 2 6 fileName] in
  let name := Filepath.Join [dir; fileName] in
  replaceBackslash name.

Definition GetBlockPath (basePath : string) (blockHash : Z) : string :=
  str (GetBlockPathBytes (bytes_of basePath) blockHash).

(** The characters of a formatted hash. *)
Definition hexChar (c : ascii) : Prop :=
  c ∈ bytes_of "0123456789abcdef".

(** The directory shard of a block: the first four digits of [hex16]. *)
Definition hex4 (blockHash : Z) : list ascii := take 4 (hex16 blockHash).

(** A base path that [filepath.Join] extends as it stands: [Clean] leaves
    it alone, it is neither ["."] nor the root, and has no backslash. *)
Definition cleanBase (basePath : string) : Prop :=
  Filepath.Clean (bytes_of basePath) = bytes_of basePath
  /\ basePath <> "." /\ basePath <> "/"
  /\ backslash ∉ bytes_of basePath.

(** The block path in the words of the specification: the base, a
    directory made of characters 2..5 of the sixteen digits, and the file
    name. *)
Definition spec_block_path (basePath : string) (blockHash : Z) : string :=
  basePath +:+ "/" +:+ str (slice 2 6 (hex16 blockHash))
    +:+ "/0x" +:+ str (hex16 blockHash) +:+ ".lsb".

(** Reading a hash back from a block path: the sixteen characters in front
    of the [".lsb"] extension, as a hexadecimal number. *)
Definition hexValue (c : ascii) : option Z :=
  let n := Z.of_nat (nat_of_ascii c) in
  if (48 <=? n) && (n <=? 57) then Some (n - 48)
  else if (97 <=? n) && (n <=? 102) then Some (n - 87)
  else None.

Fixpoint parseHexFrom (acc : Z) (s : list ascii) : option Z :=
  match s with
  | [] => Some acc
  | c :: s' =>
      match hexValue c with
      | Some d => parseHexFrom (acc * 16 + d) s'
      | None => None
      end
  end.

Definition blockHashOfPath (p : string) : option Z :=
  let b := bytes_of p in
  let n := length b in
  parseHexFrom 0 (take 16 (drop (n - 20) b)).

(** ** The parts of [longtaillib] the store uses *)

(** [errno] values named by the store. *)
Definition ENOENT : Z := 2.
Definition EIO : Z := 5.
Definition EBADF : Z := 9.
Definition ENOMEM : Z := 12.
Definition EACCES : Z := 13.

(** A non-nil Go [error]: the sentinel error of an [errno], an error made
    by a blob store driver, or an error wrapped with a message
    ([errors.Wrap]).  A Go [error] value is an [option error], [None]
    being [nil]. *)
Inductive error : Type :=
| ErrErrno (errno : Z)
| ErrDriver (msg : string)
| ErrWrap (cause : error) (msg : string).

Definition ErrENOENT : error := ErrErrno ENOENT.
Definition ErrEIO : error := ErrErrno EIO.
Definition ErrEBADF : error := ErrErrno EBADF.
Definition ErrENOMEM : error := ErrErrno ENOMEM.

Record Longtail_BlockIndex : Type := mkBlockIndex {
  blockHash : Z;
  chunkHashes : list Z
}.

Definition GetBlockHash (bi : Longtail_BlockIndex) : Z := blockHash bi.
Definition GetChunkCount (bi : Longtail_BlockIndex) : Z :=
  Z.of_nat (length (chunkHashes bi)).

(** What a valid [Longtail_StoredBlock] points to. *)
Record storedBlockData : Type := mkStoredBlock {
  blockIndex : Longtail_BlockIndex;
  blockData : list Byte.byte
}.

(** [longtaillib.Longtail_StoredBlock]: a handle that is either valid or
    the zero value [Longtail_StoredBlock{}]. *)
Definition Longtail_StoredBlock : Type := option storedBlockData.

Definition isSome {A} (o : option A) : bool :=
  match o with
  | Some _ => true
  | None => false
  end.

Definition IsValid (sb : Longtail_StoredBlock) : bool := isSome sb.

(** [longtaillib.Longtail_StoreIndex], the zero value being [None]. *)
Definition Longtail_StoreIndex : Type := option (list Longtail_BlockIndex).

(** The codec and index primitives of the library, which the store treats
    as opaque.  Each returns its result with an [errno], [0] on success.
    [errnoSentinel] is the table of the [errno] values for which the
    library has a sentinel error. *)
Class Longtail : Type := {
  GetBlockSize : storedBlockData -> Z;
  WriteStoredBlockToBuffer : Longtail_StoredBlock -> list Byte.byte * Z;
  ReadStoredBlockFromBuffer : list Byte.byte -> Longtail_StoredBlock * Z;
  BlockIndexCopy : Longtail_BlockIndex -> Longtail_BlockIndex * option error;
  ReadStoreIndexFromBuffer : list Byte.byte -> Longtail_StoreIndex * Z;
  MergeStoreIndex :
    Longtail_StoreIndex -> Longtail_StoreIndex -> Longtail_StoreIndex * Z;
  WriteStoreIndexToBuffer : Longtail_StoreIndex -> list Byte.byte * Z;
  errnoSentinel : Z -> bool
}.

(** Modelled from the spec: [longtaillib.ErrnoToError] and
    [longtaillib.ErrorToErrno] live in package [longtaillib], outside the
    store's source file.  Status [0] is the nil error and the nil error
    is status [0]; an [errno] with a sentinel maps to it and back;
    anything else becomes the fallback given by the caller. *)
Definition ErrnoToError `{Longtail} (errno : Z) (fallback : error)
    : option error :=
  if errno =? 0 then None
  else if errnoSentinel errno then Some (ErrErrno errno)
  else Some fallback.

Definition ErrorToErrno (err : option error) (fallback : Z) : Z :=
  match err with
  | None => 0
  | Some (ErrErrno errno) => errno
  | Some _ => fallback
  end.

(** ** Fixed-width integers *)

Definition wrapUint64 (x : Z) : Z := x mod 2 ^ 64.
Definition wrapInt64 (x : Z) : Z := (x + 2 ^ 63) mod 2 ^ 64 - 2 ^ 63.

(** ** Statistics *)

Inductive StatU64 : Type :=
| GetStoredBlock_Count
| GetStoredBlock_RetryCount
| GetStoredBlock_FailCount
| GetStoredBlock_Chunk_Count
| GetStoredBlock_Byte_Count
| PutStoredBlock_Count
| PutStoredBlock_RetryCount
| PutStoredBlock_FailCount
| PutStoredBlock_Chunk_Count
| PutStoredBlock_Byte_Count.

#[global] Instance StatU64_eq_dec : EqDecision StatU64.
Proof. solve_decision. Defined.

(** [BlockStoreStats.StatU64], an array of [uint64] counters. *)
Definition BlockStoreStats : Type := StatU64 -> Z.

(** ** The blob store *)

(** Modelled from the spec: the [BlobStore], [BlobClient] and [BlobObject]
    interfaces and their drivers are declared outside the store's source
    file.  Following the backend abstraction of the specification, the
    store is a map from keys to blobs whose calls can fail: every call
    takes the next entry of a script supplied with the state, which lets
    the call go through, makes it fail with an error, or has another
    writer replace the object first (a conditional [Write] then reports
    [false]).  An exhausted script lets every call through. *)
Inductive fault : Type :=
| Proceed
| Fail (e : error)
| Raced (blob : list Byte.byte).

Record BlobStore : Type := mkBlobStore {
  objects : gmap string (list Byte.byte);
  script : list fault
}.

Inductive blobCall : Type :=
| CallNewObject (key : string)
| CallExists (key : string)
| CallRead (key : string)
| CallWrite (key : string) (blob : list Byte.byte)
| CallLockWriteVersion (key : string)
| CallNewClient.

(** ** Messages, cache slots and the store *)

(** A completion callback ([Longtail_Async...API]) is identified by a
    number; invoking it is recorded in the trace. *)
Definition callback : Type := nat.

Record putBlockMessage : Type := mkPut {
  put_storedBlock : storedBlockData;
  put_asyncCompleteAPI : callback
}.

Record getBlockMessage : Type := mkGet {
  get_blockHash : Z;
  get_asyncCompleteAPI : callback
}.

Record prefetchBlockMessage : Type := mkPrefetch {
  prefetch_blockHash : Z
}.

Record blockIndexMessage : Type := mkBlockIndexMessage {
  msg_blockIndex : Longtail_BlockIndex
}.

Record pendingPrefetchedBlock : Type := mkPending {
  storedBlock : Longtail_StoredBlock;
  completeCallbacks : list callback
}.

Inductive AccessType : Type := Init | ReadWrite | ReadOnly.

#[global] Instance AccessType_eq_dec : EqDecision AccessType.
Proof. solve_decision. Defined.

(** What the store does to the outside, in order. *)
Inductive event : Type :=
| EvCall (c : blobCall)
| EvSleep (milliseconds : Z)
| EvLogKey (msg : string) (key : string)
| EvLogHash (msg : string) (h : Z)
| EvPutComplete (c : callback) (errno : Z)
| EvGetComplete (c : callback) (sb : Longtail_StoredBlock) (errno : Z)
| EvDispose (sb : Longtail_StoredBlock)
| EvSendBlockIndex (bi : Longtail_BlockIndex)
| EvFlushReply (v : Z).

(** The channels of the store; a channel is the queue of its pending
    messages, the oldest first.  [putClosed] is set by [close]. *)
Record channels : Type := mkChannels {
  putBlockChan : list putBlockMessage;
  putClosed : bool;
  getBlockChan : list getBlockMessage;
  prefetchBlockChan : list prefetchBlockMessage;
  blockIndexChan : list blockIndexMessage;
  workerFlushChan : list Z;
  workerFlushReplyChan : list Z
}.

(** [remoteStore].  In [prefetchBlocks] a key bound to [None] is a nil
    slot (a tombstone), as opposed to a key that is absent.  [trace] is
    not a field of the Go struct: it records the observable effects. *)
Record remoteStore : Type := mkStore {
  blobStore : BlobStore;
  chans : channels;
  prefetchMemory : Z;
  maxPrefetchMemory : Z;
  prefetchBlocks : gmap Z (option pendingPrefetchedBlock);
  stats : BlockStoreStats;
  trace : list event
}.

Definition with_blobStore (b : BlobStore) (s : remoteStore) : remoteStore :=
  mkStore b (chans s) (prefetchMemory s) (maxPrefetchMemory s)
    (prefetchBlocks s) (stats s) (trace s).
Definition with_chans (c : channels) (s : remoteStore) : remoteStore :=
  mkStore (blobStore s) c (prefetchMemory s) (maxPrefetchMemory s)
    (prefetchBlocks s) (stats s) (trace s).
Definition with_prefetchMemory (m : Z) (s : remoteStore) : remoteStore :=
  mkStore (blobStore s) (chans s) m (maxPrefetchMemory s)
    (prefetchBlocks s) (stats s) (trace s).
Definition with_prefetchBlocks (m : gmap Z (option pendingPrefetchedBlock))
    (s : remoteStore) : remoteStore :=
  mkStore (blobStore s) (chans s) (prefetchMemory s) (maxPrefetchMemory s)
    m (stats s) (trace s).
Definition with_stats (st : BlockStoreStats) (s : remoteStore) : remoteStore :=
  mkStore (blobStore s) (chans s) (prefetchMemory s) (maxPrefetchMemory s)
    (prefetchBlocks s) st (trace s).
Definition with_trace (t : list event) (s : remoteStore) : remoteStore :=
  mkStore (blobStore s) (chans s) (prefetchMemory s) (maxPrefetchMemory s)
    (prefetchBlocks s) (stats s) t.

(** ** A state monad over the store *)

(** A computation on the store either returns a value or panics (a nil
    dereference stops the goroutine); the state reached is kept in both
    cases. *)
Definition M (A : Type) : Type := remoteStore -> option A * remoteStore.

Definition ret {A} (a : A) : M A := fun s => (Some a, s).
Definition panic {A} : M A := fun s => (None, s).
Definition bind {A B} (m : M A) (k : A -> M B) : M B :=
  fun s =>
    match m s with
    | (Some a, s') => k a s'
    | (None, s') => (None, s')
    end.

Notation "'let*' p ':=' c1 'in' c2" := (bind c1 (fun p => c2))
  (at level 10, p pattern, c1 at level 200, c2 at level 200,
   only parsing).
Notation "c1 ';;;' c2" := (bind c1 (fun _ => c2))
  (at level 100, c2 at level 200, right associativity, only parsing).

Definition emit (e : event) : M unit :=
  fun s => (Some tt, with_trace (trace s ++ [e]) s).

(** [atomic.AddUint64(&s.stats.StatU64[k], n)] *)
Definition addStat (st : BlockStoreStats) (k : StatU64) (n : Z)
    : BlockStoreStats :=
  fun k' => if decide (k' = k) then wrapUint64 (st k' + n) else st k'.

Definition AddStat (k : StatU64) (n : Z) : M unit :=
  fun s => (Some tt, with_stats (addStat (stats s) k n) s).

(** [atomic.AddInt64(&s.prefetchMemory, d)] *)
Definition AddPrefetchMemory (d : Z) : M unit :=
  fun s =>
    (Some tt, with_prefetchMemory (wrapInt64 (prefetchMemory s + d)) s).

(** *** Calls on the blob store *)

Definition nextFault (b : BlobStore) : fault * BlobStore :=
  match script b with
  | [] => (Proceed, b)
  | f :: rest => (f, mkBlobStore (objects b) rest)
  end.

Definition storeObject (key : string) (blob : list Byte.byte)
    (b : BlobStore) : BlobStore :=
  mkBlobStore (<[key := blob]> (objects b)) (script b).

Definition blobCallM {A} (c : blobCall)
    (f : fault -> BlobStore -> A * BlobStore) : M A :=
  fun s =>
    let (flt, b) := nextFault (blobStore s) in
    let (a, b') := f flt b in
    (Some a, with_trace (trace s ++ [EvCall c]) (with_blobStore b' s)).

(** [client.NewObject(key)]: the handle of an object is its key. *)
Definition NewObject (key : string) : M (string * option error) :=
  blobCallM (CallNewObject key) (fun flt b =>
    match flt with
    | Fail e => ((key, Some e), b)
    | _ => ((key, None), b)
    end).

Definition ObjExists (key : string) : M (bool * option error) :=
  blobCallM (CallExists key) (fun flt b =>
    match flt with
    | Proceed => ((isSome (objects b !! key), None), b)
    | Fail e => ((false, Some e), b)
    | Raced blob => ((true, None), storeObject key blob b)
    end).

(** [objHandle.Read()]; the data is [None] for a nil slice. *)
Definition ObjRead (key : string)
    : M (option (list Byte.byte) * option error) :=
  blobCallM (CallRead key) (fun flt b =>
    match flt with
    | Proceed =>
        match objects b !! key with
        | Some blob => ((Some blob, None), b)
        | None => ((None, Some ErrENOENT), b)
        end
    | Fail e => ((None, Some e), b)
    | Raced blob => ((Some blob, None), storeObject key blob b)
    end).

(** [objHandle.Write(blob)]: [false] without an error means that the
    version of the object changed since it was locked. *)
Definition ObjWrite (key : string) (blob : list Byte.byte)
    : M (bool * option error) :=
  blobCallM (CallWrite key blob) (fun flt b =>
    match flt with
    | Proceed => ((true, None), storeObject key blob b)
    | Fail e => ((false, Some e), b)
    | Raced other => ((false, None), storeObject key other b)
    end).

Definition ObjLockWriteVersion (key : string) : M (bool * option error) :=
  blobCallM (CallLockWriteVersion key) (fun flt b =>
    match flt with
    | Proceed => ((isSome (objects b !! key), None), b)
    | Fail e => ((false, Some e), b)
    | Raced blob => ((true, None), storeObject key blob b)
    end).

(** Modelled from the spec: [BlobStore.NewClient] is declared outside
    the store's source file.  Like the calls on objects it takes the
    next entry of the script, and fails when the entry is an error; the
    client it returns is not kept, as every call of the model is made on
    the one blob store. *)
Definition NewClientM : M (option error) :=
  blobCallM CallNewClient (fun flt b =>
    match flt with
    | Fail e => (Some e, b)
    | _ => (None, b)
    end).

(** [err != nil] *)
Definition isErr (err : option error) : bool := isSome err.

(** [errors.Wrap] and [errors.Wrapf]: the nil error stays nil. *)
Definition Wrapf (err : option error) (msg : string) : option error :=
  match err with
  | Some e => Some (ErrWrap e msg)
  | None => None
  end.

(** [s.blobStore.String()], the name of the blob store in messages. *)
Definition blobStoreName : string := "blobStore".

(** ** The store's operations *)

Section Store.
Context `{LT : Longtail}.

(** [s.String()] is the name of the store in log lines; it is left out
    of the logged event. *)
Definition logRetry (msg key : string) : M unit := emit (EvLogKey msg key).

Definition readBlobWithRetry (key : string)
    : M (option (list Byte.byte) * Z * option error) :=
  let retryCount := 0 in
  let* (objHandle, err) := NewObject key in
  if isErr err then ret (None, retryCount, err) else
  let* (exists_, err) := ObjExists objHandle in
  if isErr err then ret (None, retryCount, err) else
  if negb exists_ then ret (None, retryCount, Some ErrENOENT) else
  let* (blobData, err) := ObjRead objHandle in
  let* (blobData, retryCount, err) :=
    if isErr err then
      logRetry "Retrying getBlob" key ;;;
      let* (blobData, err) := ObjRead objHandle in
      ret (blobData, retryCount + 1, err)
    else ret (blobData, retryCount, err) in
  let* (blobData, retryCount, err) :=
    if isErr err then
      logRetry "Retrying 500 ms delayed getBlob" key ;;;
      emit (EvSleep 500) ;;;
      let* (blobData, err) := ObjRead objHandle in
      ret (blobData, retryCount + 1, err)
    else ret (blobData, retryCount, err) in
  let* (blobData, retryCount, err) :=
    if isErr err then
      logRetry "Retrying 2 s delayed getBlob" key ;;;
      emit (EvSleep 2000) ;;;
      let* (blobData, err) := ObjRead objHandle in
      ret (blobData, retryCount + 1, err)
    else ret (blobData, retryCount, err) in
  if isErr err then ret (None, retryCount, err)
  else ret (blobData, retryCount, None).

(** [blockIndexMessages <- msg] *)
Definition sendBlockIndex (bi : Longtail_BlockIndex) : M unit :=
  fun s =>
    let c := chans s in
    (Some tt, with_trace (trace s ++ [EvSendBlockIndex bi])
           (with_chans
              (mkChannels (putBlockChan c) (putClosed c) (getBlockChan c)
                 (prefetchBlockChan c)
                 (blockIndexChan c ++ [mkBlockIndexMessage bi])
                 (workerFlushChan c) (workerFlushReplyChan c)) s)).

(** The condition [err != nil || !ok] after a [Write]. *)
Definition writeFailed (r : bool * option error) : bool :=
  isErr r.2 || negb r.1.

Definition putStoredBlock (storedBlock : storedBlockData)
    : M (option error) :=
  AddStat PutStoredBlock_Count 1 ;;;
  let blockIndex := blockIndex storedBlock in
  let blockHash := GetBlockHash blockIndex in
  let key := GetBlockPath "chunks" blockHash in
  let* (objHandle, err) := NewObject key in
  if isErr err then ret err else
  let* (exists_, err) := ObjExists objHandle in
  let* early :=
    if negb (isErr err) && negb exists_ then
      let '(blob, errno) := WriteStoredBlockToBuffer (Some storedBlock) in
      if negb (errno =? 0) then ret (Some (ErrnoToError errno ErrEIO))
      else
        let* r := ObjWrite objHandle blob in
        let* r :=
          if writeFailed r then
            logRetry "Retrying putBlob" key ;;;
            AddStat PutStoredBlock_RetryCount 1 ;;;
            ObjWrite objHandle blob
          else ret r in
        let* r :=
          if writeFailed r then
            logRetry "Retrying 500 ms delayed putBlob" key ;;;
            emit (EvSleep 500) ;;;
            AddStat PutStoredBlock_RetryCount 1 ;;;
            ObjWrite objHandle blob
          else ret r in
        let* r :=
          if writeFailed r then
            logRetry "Retrying 2 s delayed putBlob" key ;;;
            emit (EvSleep 2000) ;;;
            AddStat PutStoredBlock_RetryCount 1 ;;;
            ObjWrite objHandle blob
          else ret r in
        if writeFailed r then
          AddStat PutStoredBlock_FailCount 1 ;;;
          ret (Some (ErrnoToError errno ErrEIO))
        else
          AddStat PutStoredBlock_Byte_Count (Z.of_nat (length blob)) ;;;
          AddStat PutStoredBlock_Chunk_Count (GetChunkCount blockIndex) ;;;
          ret None
    else ret None in
  match early with
  | Some result => ret result
  | None =>
      let '(blockIndexCopy, err) := BlockIndexCopy blockIndex in
      if isErr err then ret err else
      sendBlockIndex blockIndexCopy ;;;
      ret None
  end.

Definition getStoredBlock (blockHash : Z)
    : M (Longtail_StoredBlock * option error) :=
  AddStat GetStoredBlock_Count 1 ;;;
  let key := GetBlockPath "chunks" blockHash in
  let* (storedBlockData, retryCount, err) := readBlobWithRetry key in
  AddStat GetStoredBlock_RetryCount retryCount ;;;
  match err, storedBlockData with
  | None, Some data =>
      let '(storedBlock, errno) := ReadStoredBlockFromBuffer data in
      if negb (errno =? 0) then
        AddStat GetStoredBlock_FailCount 1 ;;;
        ret (None, ErrnoToError errno ErrEIO)
      else
        AddStat GetStoredBlock_Byte_Count (Z.of_nat (length data)) ;;;
        match storedBlock with
        | Some sb =>
            let blockIndex := blockIndex sb in
            if negb (GetBlockHash blockIndex =? blockHash) then
              AddStat GetStoredBlock_FailCount 1 ;;;
              ret (None, ErrnoToError EBADF ErrEBADF)
            else
              AddStat GetStoredBlock_Chunk_Count (GetChunkCount blockIndex) ;;;
              ret (storedBlock, None)
        | None =>
            (* [GetBlockIndex] on a block that is not valid *)
            panic
        end
  | _, _ =>
      AddStat GetStoredBlock_FailCount 1 ;;;
      ret (None, err)
  end.

(** *** The prefetch cache *)

Definition getSlot (h : Z) : M (option (option pendingPrefetchedBlock)) :=
  fun s => (Some (prefetchBlocks s !! h), s).
Definition setSlot (h : Z) (v : option pendingPrefetchedBlock) : M unit :=
  fun s => (Some tt, with_prefetchBlocks (<[h := v]> (prefetchBlocks s)) s).
Definition deleteSlot (h : Z) : M unit :=
  fun s => (Some tt, with_prefetchBlocks (delete h (prefetchBlocks s)) s).

(** [c.OnComplete(storedBlock, errno)] *)
Definition OnGetComplete (c : callback) (sb : Longtail_StoredBlock)
    (errno : Z) : M unit :=
  emit (EvGetComplete c sb errno).

(** [storedBlock.Dispose()] *)
Definition Dispose (sb : Longtail_StoredBlock) : M unit :=
  emit (EvDispose sb).

Fixpoint forM_ {A} (l : list A) (body : A -> M unit) : M unit :=
  match l with
  | [] => ret tt
  | a :: l' => body a ;;; forM_ l' body
  end.

(** The body of the loops over the waiting callbacks, the same text in
    [fetchBlock] and [prefetchBlock]: a waiter gets the error of the
    read, or a copy of the block made by encoding and decoding it. *)
Definition deliverCopy (storedBlock : Longtail_StoredBlock)
    (getErr : option error) (c : callback) : M unit :=
  if isErr getErr then OnGetComplete c None (ErrorToErrno getErr EIO)
  else
    let '(buf, errno) := WriteStoredBlockToBuffer storedBlock in
    if negb (errno =? 0) then OnGetComplete c None errno
    else
      let '(blockCopy, errno) := ReadStoredBlockFromBuffer buf in
      if negb (errno =? 0) then OnGetComplete c None errno
      else OnGetComplete c blockCopy 0.

(** [fetchBlock], first critical section.  Returns [true] when the
    caller has to read the block itself. *)
Definition fetchBlock_enter (getMsg : getBlockMessage) : M bool :=
  let h := get_blockHash getMsg in
  let* slot := getSlot h in
  match slot with
  | Some (Some prefetchedBlock) =>
      match storedBlock prefetchedBlock with
      | Some sb =>
          setSlot h None ;;;
          let blockSize := wrapInt64 (- GetBlockSize sb) in
          AddPrefetchMemory blockSize ;;;
          OnGetComplete (get_asyncCompleteAPI getMsg) (Some sb) 0 ;;;
          ret false
      | None =>
          setSlot h
            (Some (mkPending (storedBlock prefetchedBlock)
                     (completeCallbacks prefetchedBlock
                        ++ [get_asyncCompleteAPI getMsg]))) ;;;
          ret false
      end
  | _ =>
      setSlot h (Some (mkPending None [])) ;;;
      ret true
  end.

(** [fetchBlock], second critical section and the delivery, once
    [getStoredBlock] has returned. *)
Definition fetchBlock_leave (getMsg : getBlockMessage)
    (storedBlock : Longtail_StoredBlock)
    (getStoredBlockErr : option error) : M unit :=
  let h := get_blockHash getMsg in
  let* slot := getSlot h in
  match slot with
  | Some None => Dispose storedBlock
  | None => panic (* [prefetchedBlock.completeCallbacks] on nil *)
  | Some (Some prefetchedBlock) =>
      let completeCallbacks := completeCallbacks prefetchedBlock in
      setSlot h None ;;;
      forM_ completeCallbacks (deliverCopy storedBlock getStoredBlockErr) ;;;
      OnGetComplete (get_asyncCompleteAPI getMsg) storedBlock
        (ErrorToErrno getStoredBlockErr EIO)
  end.

Definition fetchBlock (getMsg : getBlockMessage) : M unit :=
  let* read := fetchBlock_enter getMsg in
  if read then
    let* (storedBlock, getStoredBlockErr) :=
      getStoredBlock (get_blockHash getMsg) in
    fetchBlock_leave getMsg storedBlock getStoredBlockErr
  else ret tt.

(** [prefetchBlock], first critical section.  Returns [true] when the
    block has to be read. *)
Definition prefetchBlock_enter (prefetchMsg : prefetchBlockMessage)
    : M bool :=
  let h := prefetch_blockHash prefetchMsg in
  let* slot := getSlot h in
  match slot with
  | Some _ => ret false (* already pre-fetched *)
  | None => setSlot h (Some (mkPending None [])) ;;; ret true
  end.

(** [prefetchBlock], second critical section and the delivery. *)
Definition prefetchBlock_leave (prefetchMsg : prefetchBlockMessage)
    (storedBlock : Longtail_StoredBlock) (getErr : option error)
    : M unit :=
  let h := prefetch_blockHash prefetchMsg in
  let* slot := getSlot h in
  match slot with
  | Some (Some prefetchedBlock) =>
      let completeCallbacks := completeCallbacks prefetchedBlock in
      if (length completeCallbacks =? 0)%nat then
        (* nobody is actively waiting for the block *)
        match storedBlock with
        | Some sb =>
            let blockSize := GetBlockSize sb in
            setSlot h (Some (mkPending storedBlock completeCallbacks)) ;;;
            AddPrefetchMemory blockSize
        | None => panic (* [GetBlockSize] on a block that is not valid *)
        end
      else
        setSlot h None ;;;
        forM_ (seq 1 (length completeCallbacks - 1 - 1))
          (fun i =>
             match completeCallbacks !! i with
             | Some c => deliverCopy storedBlock getErr c
             | None => panic
             end) ;;;
        match completeCallbacks !! 0%nat with
        | Some c => OnGetComplete c storedBlock (ErrorToErrno getErr EIO)
        | None => panic
        end
  | _ => Dispose storedBlock
  end.

Definition prefetchBlock (prefetchMsg : prefetchBlockMessage) : M unit :=
  let* read := prefetchBlock_enter prefetchMsg in
  if read then
    let* (storedBlock, getErr) :=
      getStoredBlock (prefetch_blockHash prefetchMsg) in
    if isErr getErr then ret tt
    else prefetchBlock_leave prefetchMsg storedBlock getErr
  else ret tt.

(** The loop [L] of [flushPrefetch]: receive until nothing is queued. *)
Definition drainPrefetchChan : M unit :=
  fun s =>
    let c := chans s in
    (Some tt,
     with_chans
       (mkChannels (putBlockChan c) (putClosed c) (getBlockChan c) []
          (blockIndexChan c) (workerFlushChan c) (workerFlushReplyChan c))
       s).

Definition hasWaiters (v : option pendingPrefetchedBlock) : bool :=
  match v with
  | Some b => (0 <? length (completeCallbacks b))%nat
  | None => false
  end.

(** The first loop under the lock: the keys to flush, with a line
    printed for every slot somebody still waits for.  The map is
    visited in the order of [map_to_list]. *)
Fixpoint collectFlushBlocks
    (entries : list (Z * option pendingPrefetchedBlock))
    (flushBlocks : list Z) : M (list Z) :=
  match entries with
  | [] => ret flushBlocks
  | (k, v) :: rest =>
      if hasWaiters v then
        emit (EvLogHash "Somebody is still waiting for prefetch" k) ;;;
        collectFlushBlocks rest flushBlocks
      else collectFlushBlocks rest (flushBlocks ++ [k])
  end.

Definition flushOne (h : Z) : M unit :=
  let* b := getSlot h in
  match b with
  | Some (Some b) =>
      match storedBlock b with
      | Some sb =>
          let blockSize := wrapInt64 (- GetBlockSize sb) in
          AddPrefetchMemory blockSize ;;;
          Dispose (Some sb)
      | None => ret tt
      end
  | _ => ret tt
  end ;;;
  deleteSlot h.

Definition flushPrefetch : M unit :=
  drainPrefetchChan ;;;
  let* entries := (fun s => (Some (map_to_list (prefetchBlocks s)), s)) in
  let* flushBlocks := collectFlushBlocks entries [] in
  forM_ flushBlocks flushOne.

(** *** The worker loop *)

(** [putMsg.asyncCompleteAPI.OnComplete(errno)] *)
Definition OnPutComplete (c : callback) (errno : Z) : M unit :=
  emit (EvPutComplete c errno).

(** What a receive finds on the put channel. *)
Inductive received (A : Type) : Type :=
| Message (a : A)
| ChannelClosed
| NotReady.
Arguments Message {A} a.
Arguments ChannelClosed {A}.
Arguments NotReady {A}.

Definition peekPut (s : remoteStore) : received putBlockMessage :=
  match putBlockChan (chans s) with
  | m :: _ => Message m
  | [] => if putClosed (chans s) then ChannelClosed else NotReady
  end.

Definition popPut : M unit :=
  fun s =>
    let c := chans s in
    (Some tt,
     with_chans
       (mkChannels (tail (putBlockChan c)) (putClosed c) (getBlockChan c)
          (prefetchBlockChan c) (blockIndexChan c) (workerFlushChan c)
          (workerFlushReplyChan c)) s).

Definition popGet : M unit :=
  fun s =>
    let c := chans s in
    (Some tt,
     with_chans
       (mkChannels (putBlockChan c) (putClosed c) (tail (getBlockChan c))
          (prefetchBlockChan c) (blockIndexChan c) (workerFlushChan c)
          (workerFlushReplyChan c)) s).

Definition popPrefetch : M unit :=
  fun s =>
    let c := chans s in
    (Some tt,
     with_chans
       (mkChannels (putBlockChan c) (putClosed c) (getBlockChan c)
          (tail (prefetchBlockChan c)) (blockIndexChan c)
          (workerFlushChan c) (workerFlushReplyChan c)) s).

Definition popFlush : M unit :=
  fun s =>
    let c := chans s in
    (Some tt,
     with_chans
       (mkChannels (putBlockChan c) (putClosed c) (getBlockChan c)
          (prefetchBlockChan c) (blockIndexChan c)
          (tail (workerFlushChan c)) (workerFlushReplyChan c)) s).

(** [flushReplyMessages <- v] *)
Definition sendFlushReply (v : Z) : M unit :=
  fun s =>
    let c := chans s in
    (Some tt,
     with_trace (trace s ++ [EvFlushReply v])
       (with_chans
          (mkChannels (putBlockChan c) (putClosed c) (getBlockChan c)
             (prefetchBlockChan c) (blockIndexChan c) (workerFlushChan c)
             (workerFlushReplyChan c ++ [v])) s)).

(** The case a [select] takes.  Go picks among the cases that are
    ready; the choice is an input of the model. *)
Inductive pollCase : Type := PollPut | PollGet | PollDefault.
Inductive waitCase : Type := WaitFlush | WaitPut | WaitGet | WaitPrefetch.

(** How the first [select] of an iteration ends: with the [continue]
    statement, or by falling out of the [select] with the values of
    [run] and [received]. *)
Inductive pollResult : Type :=
| PollContinue
| PollEnd (run : bool) (received : Z).

(** The first, non-blocking [select] of the loop body.  The result is
    [None] when the chosen case is not ready in [s]. *)
Definition workerPoll (accessType : AccessType) (c : pollCase)
    (s : remoteStore) : option (option pollResult * remoteStore) :=
  let received := 0 in
  match c with
  | PollPut =>
      match peekPut s with
      | Message putMsg =>
          Some ((popPut ;;;
            let received := received + 1 in
            if decide (accessType = ReadOnly) then
              OnPutComplete (put_asyncCompleteAPI putMsg) EACCES ;;;
              ret PollContinue
            else
              let* err := putStoredBlock (put_storedBlock putMsg) in
              OnPutComplete (put_asyncCompleteAPI putMsg)
                (ErrorToErrno err EIO) ;;;
              ret (PollEnd true received)) s)
      | ChannelClosed => Some (ret (PollEnd false received) s)
      | NotReady => None
      end
  | PollGet =>
      match getBlockChan (chans s) with
      | getMsg :: _ =>
          Some ((popGet ;;;
            let received := received + 1 in
            fetchBlock getMsg ;;;
            ret (PollEnd true received)) s)
      | [] => None
      end
  | PollDefault =>
      match peekPut s, getBlockChan (chans s) with
      | NotReady, [] => Some (ret (PollEnd true received) s)
      | _, _ => None
      end
  end.

(** The blocking [select] taken when nothing was received.  [run] is
    the value of the loop variable on entry; the result is its value
    at the end of the iteration.  The case for the prefetch channel
    exists only while [prefetchMemory] is below [maxPrefetchMemory]. *)
Definition workerWait (accessType : AccessType) (c : waitCase)
    (run : bool) (s : remoteStore) : option (option bool * remoteStore) :=
  if prefetchMemory s <? maxPrefetchMemory s then
    match c with
    | WaitFlush =>
        match workerFlushChan (chans s) with
        | _ :: _ =>
            Some ((popFlush ;;; flushPrefetch ;;; sendFlushReply 0 ;;;
                   ret run) s)
        | [] => None
        end
    | WaitPut =>
        match peekPut s with
        | Message putMsg =>
            Some ((popPut ;;;
              if decide (accessType = ReadOnly) then
                OnPutComplete (put_asyncCompleteAPI putMsg) EACCES ;;;
                ret run
              else
                let* err := putStoredBlock (put_storedBlock putMsg) in
                OnPutComplete (put_asyncCompleteAPI putMsg)
                  (ErrorToErrno err EIO) ;;;
                ret run) s)
        | ChannelClosed => Some (ret false s)
        | NotReady => None
        end
    | WaitGet =>
        match getBlockChan (chans s) with
        | getMsg :: _ => Some ((popGet ;;; fetchBlock getMsg ;;; ret run) s)
        | [] => None
        end
    | WaitPrefetch =>
        match prefetchBlockChan (chans s) with
        | prefetchMsg :: _ =>
            Some ((popPrefetch ;;; prefetchBlock prefetchMsg ;;; ret run) s)
        | [] => None
        end
    end
  else
    match c with
    | WaitFlush =>
        match workerFlushChan (chans s) with
        | _ :: _ =>
            Some ((popFlush ;;; flushPrefetch ;;; sendFlushReply 0 ;;;
                   ret run) s)
        | [] => None
        end
    | WaitPut =>
        match peekPut s with
        | Message putMsg =>
            Some ((popPut ;;;
              if decide (accessType = ReadOnly) then
                OnPutComplete (put_asyncCompleteAPI putMsg) EACCES ;;;
                ret run
              else
                let* err := putStoredBlock (put_storedBlock putMsg) in
                OnPutComplete (put_asyncCompleteAPI putMsg)
                  (ErrorToErrno err EIO) ;;;
                ret run) s)
        | ChannelClosed => Some (ret false s)
        | NotReady => None
        end
    | WaitGet =>
        match getBlockChan (chans s) with
        | getMsg :: _ => Some ((popGet ;;; fetchBlock getMsg ;;; ret run) s)
        | [] => None
        end
    | WaitPrefetch => None
    end.

(** One iteration of the loop [for run { ... }]: the value of [run]
    after it. *)
Definition workerIteration (accessType : AccessType) (c1 : pollCase)
    (c2 : waitCase) (s : remoteStore)
    : option (option bool * remoteStore) :=
  match workerPoll accessType c1 s with
  | None => None
  | Some (None, s') => Some (None, s')
  | Some (Some PollContinue, s') => Some (Some true, s')
  | Some (Some (PollEnd run received), s') =>
      if received =? 0 then workerWait accessType c2 run s'
      else Some (Some run, s')
  end.

(** The loop [for run { ... }] of [remoteWorker] under a schedule, the
    list of the cases its selects take, with what follows it: the loop
    runs while [run] holds, then [flushPrefetch] is called and the nil
    error returned.  [None] when the schedule ends before the loop does
    or asks for a case that is not ready. *)
Fixpoint workerLoop (accessType : AccessType)
    (schedule : list (pollCase * waitCase)) (s : remoteStore)
    : option (option (option error) * remoteStore) :=
  match schedule with
  | [] => None
  | (c1, c2) :: rest =>
      match workerIteration accessType c1 c2 s with
      | None => None
      | Some (None, s') => Some (None, s')
      | Some (Some true, s') => workerLoop accessType rest s'
      | Some (Some false, s') =>
          Some ((flushPrefetch ;;; ret None) s')
      end
  end.

(** [remoteWorker]: the worker creates its client first, and returns
    the error of [NewClient], wrapped, before it receives anything. *)
Definition remoteWorker (accessType : AccessType)
    (schedule : list (pollCase * waitCase)) (s : remoteStore)
    : option (option (option error) * remoteStore) :=
  match NewClientM s with
  | (Some err, s') =>
      if isErr err then Some (Some (Wrapf err blobStoreName), s')
      else workerLoop accessType schedule s'
  | (None, s') => Some (None, s')
  end.

(** *** Updating the store index *)

Definition tryUpdateRemoteStoreIndex
    (updatedStoreIndex : Longtail_StoreIndex) (objHandle : string)
    : M (bool * Longtail_StoreIndex * option error) :=
  let* (exists_, err) := ObjLockWriteVersion objHandle in
  if isErr err then ret (false, None, err) else
  if exists_ then
    let* (blob, err) := ObjRead objHandle in
    match err, blob with
    | Some _, _ =>
        ret (false, None,
             Wrapf err "updateRemoteStoreIndex: objHandle.Read() failed")
    | None, blob =>
        let '(remoteStoreIndex, errno) :=
          ReadStoreIndexFromBuffer (default [] blob) in
        if negb (errno =? 0) then
          ret (false, None,
               Wrapf (ErrnoToError errno ErrEIO)
                 "updateRemoteStoreIndex: longtaillib.ReadStoreIndexFromBuffer() failed")
        else
          let '(newStoreIndex, errno) :=
            MergeStoreIndex updatedStoreIndex remoteStoreIndex in
          if negb (errno =? 0) then
            ret (false, None,
                 Wrapf (ErrnoToError errno ErrENOMEM)
                   "updateRemoteStoreIndex: longtaillib.MergeStoreIndex() failed")
          else
            let '(storeBlob, errno) :=
              WriteStoreIndexToBuffer newStoreIndex in
            if negb (errno =? 0) then
              ret (false, None,
                   Wrapf (ErrnoToError errno ErrENOMEM)
                     "updateRemoteStoreIndex: longtaillib.WriteStoreIndexToBuffer() kfailed")
            else
              let* (ok, err) := ObjWrite objHandle storeBlob in
              if isErr err then
                ret (false, None,
                     Wrapf err
                       "updateRemoteStoreIndex: objHandle.Write() failed")
              else if negb ok then ret (false, None, None)
              else ret (ok, newStoreIndex, None)
    end
  else
    let '(storeBlob, errno) := WriteStoreIndexToBuffer updatedStoreIndex in
    if negb (errno =? 0) then
      ret (false, None,
           Wrapf (ErrnoToError errno ErrENOMEM)
             "updateRemoteStoreIndex: WriteStoreIndexToBuffer() failed")
    else
      let* (ok, err) := ObjWrite objHandle storeBlob in
      if isErr err then
        ret (false, None,
             Wrapf err "updateRemoteStoreIndex: objHandle.Write() failed")
      else ret (ok, None, None).

(** The loop [for { ... }] of [updateRemoteStoreIndex], with a bound on
    the number of attempts: [None] when the bound is reached. *)
Fixpoint updateLoop (fuel : nat) (key : string)
    (updatedStoreIndex : Longtail_StoreIndex) (objHandle : string)
    : M (option (Longtail_StoreIndex * option error)) :=
  match fuel with
  | O => ret None
  | S fuel' =>
      let* (ok, newStoreIndex, err) :=
        tryUpdateRemoteStoreIndex updatedStoreIndex objHandle in
      if ok then ret (Some (newStoreIndex, None))
      else if isErr err then
        ret (Some (None,
               Wrapf err
                 "updateRemoteStoreIndex: tryUpdateRemoteStoreIndex(store.lsi) failed"))
      else
        logRetry "Retrying updating remote store index" key ;;;
        updateLoop fuel' key updatedStoreIndex objHandle
  end.

Definition updateRemoteStoreIndex (fuel : nat)
    (updatedStoreIndex : Longtail_StoreIndex)
    : M (option (Longtail_StoreIndex * option error)) :=
  let key := "store.lsi" in
  let* (objHandle, err) := NewObject key in
  if isErr err then
    ret (Some (None,
           Wrapf err
             "updateRemoteStoreIndex: blobClient.NewObject(store.lsi) failed"))
  else updateLoop fuel key updatedStoreIndex objHandle.

End Store.

(** ** Interleaved workers *)

(** The workers of a store share the cache; the mutex makes each critical
    section atomic, and a read of the blob store separates the two
    critical sections of a fetch or of a prefetch.  A worker is idle, or
    between the sections of an operation. *)
Inductive workerState : Type :=
| Idle
| FetchReading (getMsg : getBlockMessage)
| FetchRead (getMsg : getBlockMessage) (sb : Longtail_StoredBlock)
    (err : option error)
| PrefetchReading (prefetchMsg : prefetchBlockMessage)
| PrefetchRead (prefetchMsg : prefetchBlockMessage)
    (sb : Longtail_StoredBlock) (err : option error).

(** What a worker does next: take up an operation (running its first
    critical section, or all of [flushPrefetch]), or go on with the
    operation it is in. *)
Inductive workerAction : Type :=
| StartFetch (getMsg : getBlockMessage)
| StartPrefetch (prefetchMsg : prefetchBlockMessage)
| StartFlush
| GoOn.

Section Workers.
Context `{LT : Longtail}.

(** One atomic step of a worker; [None] when the action does not apply
    to the state of the worker, or when the step panics. *)
Definition workerStep (a : workerAction) (w : workerState)
    (s : remoteStore) : option (workerState * remoteStore) :=
  match a, w with
  | StartFetch getMsg, Idle =>
      match fetchBlock_enter getMsg s with
      | (Some true, s') => Some (FetchReading getMsg, s')
      | (Some false, s') => Some (Idle, s')
      | (None, _) => None
      end
  | StartPrefetch prefetchMsg, Idle =>
      match prefetchBlock_enter prefetchMsg s with
      | (Some true, s') => Some (PrefetchReading prefetchMsg, s')
      | (Some false, s') => Some (Idle, s')
      | (None, _) => None
      end
  | StartFlush, Idle =>
      match flushPrefetch s with
      | (Some _, s') => Some (Idle, s')
      | (None, _) => None
      end
  | GoOn, FetchReading getMsg =>
      match getStoredBlock (get_blockHash getMsg) s with
      | (Some (sb, err), s') => Some (FetchRead getMsg sb err, s')
      | (None, _) => None
      end
  | GoOn, FetchRead getMsg sb err =>
      match fetchBlock_leave getMsg sb err s with
      | (Some _, s') => Some (Idle, s')
      | (None, _) => None
      end
  | GoOn, PrefetchReading prefetchMsg =>
      match getStoredBlock (prefetch_blockHash prefetchMsg) s with
      | (Some (sb, err), s') =>
          if isErr err then Some (Idle, s')
          else Some (PrefetchRead prefetchMsg sb err, s')
      | (None, _) => None
      end
  | GoOn, PrefetchRead prefetchMsg sb err =>
      match prefetchBlock_leave prefetchMsg sb err s with
      | (Some _, s') => Some (Idle, s')
      | (None, _) => None
      end
  | _, _ => None
  end.

(** A run of several workers: each entry of the schedule names the
    worker that takes the next step. *)
Fixpoint runWorkers (schedule : list (nat * workerAction))
    (ws : list workerState) (s : remoteStore)
    : option (list workerState * remoteStore) :=
  match schedule with
  | [] => Some (ws, s)
  | (i, a) :: rest =>
      match ws !! i with
      | Some w =>
          match workerStep a w s with
          | Some (w', s') => runWorkers rest (<[i := w']> ws) s'
          | None => None
          end
      | None => None
      end
  end.

(** No fetch or prefetch is inside or between its critical sections. *)
Definition quiescent (ws : list workerState) : Prop :=
  Forall (fun w => w = Idle) ws.

(** The bytes a cache slot holds: the size of its block when it has a
    completed block nobody claimed yet. *)
Definition heldSize (v : option pendingPrefetchedBlock) : Z :=
  match v with
  | Some b =>
      match storedBlock b with
      | Some sb => GetBlockSize sb
      | None => 0
      end
  | None => 0
  end.

Definition sumSizes (entries : list (Z * option pendingPrefetchedBlock))
    : Z :=
  foldr (fun kv acc => heldSize kv.2 + acc) 0 entries.

(** The sum of the block sizes of the completed slots of the cache. *)
Definition cachedBytes (m : gmap Z (option pendingPrefetchedBlock)) : Z :=
  sumSizes (map_to_list m).

(** *** The retry ladder in the words of the specification *)

(** After the first read: one immediate retry, one after 500 ms, one
    after 2 s; the first success ends the ladder. *)
Definition retryLadder : list (string * Z) :=
  [("Retrying getBlob", 0);
   ("Retrying 500 ms delayed getBlob", 500);
   ("Retrying 2 s delayed getBlob", 2000)].

Fixpoint readRetries (ladder : list (string * Z)) (key : string)
    (retryCount : Z) (last : option (list Byte.byte) * option error)
    : M (option (list Byte.byte) * Z * option error) :=
  if isErr last.2 then
    match ladder with
    | [] => ret (None, retryCount, last.2)
    | (msg, delay) :: rest =>
        logRetry msg key ;;;
        (if delay =? 0 then ret tt else emit (EvSleep delay)) ;;;
        let* r := ObjRead key in
        readRetries rest key (retryCount + 1) r
    end
  else ret (last.1, retryCount, None).

Definition read_with_retry (key : string)
    : M (option (list Byte.byte) * Z * option error) :=
  let* (objHandle, err) := NewObject key in
  if isErr err then ret (None, 0, err) else
  let* (exists_, err) := ObjExists objHandle in
  if isErr err then ret (None, 0, err) else
  if negb exists_ then ret (None, 0, Some ErrENOENT) else
  let* r := ObjRead objHandle in
  readRetries retryLadder objHandle 0 r.

End Workers.

(** *** Two workers and one block *)

Section ConcurrentPuts.
Context `{LT : Longtail}.

(** The calls of [putStoredBlock] on the blob store are not made under
    a lock: other workers run between the answer of [Exists] and the
    [Write].  [putStoredBlock_check] is the function up to the answer of
    [Exists]: the early return with the error of [NewObject], or the
    handle and the answer. *)
Definition putStoredBlock_check (storedBlock : storedBlockData)
    : M (option error + string * bool * option error) :=
  AddStat PutStoredBlock_Count 1 ;;;
  let blockIndex := blockIndex storedBlock in
  let blockHash := GetBlockHash blockIndex in
  let key := GetBlockPath "chunks" blockHash in
  let* (objHandle, err) := NewObject key in
  if isErr err then ret (inl err) else
  let* (exists_, err) := ObjExists objHandle in
  ret (inr (objHandle, exists_, err)).

(** The rest of [putStoredBlock], from the test of that answer on. *)
Definition putStoredBlock_write (storedBlock : storedBlockData)
    (objHandle : string) (exists_ : bool) (err : option error)
    : M (option error) :=
  let blockIndex := blockIndex storedBlock in
  let blockHash := GetBlockHash blockIndex in
  let key := GetBlockPath "chunks" blockHash in
  let* early :=
    if negb (isErr err) && negb exists_ then
      let '(blob, errno) := WriteStoredBlockToBuffer (Some storedBlock) in
      if negb (errno =? 0) then ret (Some (ErrnoToError errno ErrEIO))
      else
        let* r := ObjWrite objHandle blob in
        let* r :=
          if writeFailed r then
            logRetry "Retrying putBlob" key ;;;
            AddStat PutStoredBlock_RetryCount 1 ;;;
            ObjWrite objHandle blob
          else ret r in
        let* r :=
          if writeFailed r then
            logRetry "Retrying 500 ms delayed putBlob" key ;;;
            emit (EvSleep 500) ;;;
            AddStat PutStoredBlock_RetryCount 1 ;;;
            ObjWrite objHandle blob
          else ret r in
        let* r :=
          if writeFailed r then
            logRetry "Retrying 2 s delayed putBlob" key ;;;
            emit (EvSleep 2000) ;;;
            AddStat PutStoredBlock_RetryCount 1 ;;;
            ObjWrite objHandle blob
          else ret r in
        if writeFailed r then
          AddStat PutStoredBlock_FailCount 1 ;;;
          ret (Some (ErrnoToError errno ErrEIO))
        else
          AddStat PutStoredBlock_Byte_Count (Z.of_nat (length blob)) ;;;
          AddStat PutStoredBlock_Chunk_Count (GetChunkCount blockIndex) ;;;
          ret None
    else ret None in
  match early with
  | Some result => ret result
  | None =>
      let '(blockIndexCopy, err) := BlockIndexCopy blockIndex in
      if isErr err then ret err else
      sendBlockIndex blockIndexCopy ;;;
      ret None
  end.

(** A worker that has taken a put message from the channel of a store
    that accepts puts: it has not called the blob store yet, it has the
    answer of [Exists], or it has invoked the callback. *)
Inductive putProgress : Type :=
| PutTaken (putMsg : putBlockMessage)
| PutChecked (putMsg : putBlockMessage) (objHandle : string)
    (exists_ : bool) (err : option error)
| PutDone.

(** One step of such a worker; [None] when it is done, or when the step
    panics. *)
Definition putStep (w : putProgress) (s : remoteStore)
    : option (putProgress * remoteStore) :=
  match w with
  | PutTaken putMsg =>
      match putStoredBlock_check (put_storedBlock putMsg) s with
      | (Some (inl err), s') =>
          match OnPutComplete (put_asyncCompleteAPI putMsg)
                  (ErrorToErrno err EIO) s' with
          | (Some _, s'') => Some (PutDone, s'')
          | (None, _) => None
          end
      | (Some (inr (objHandle, exists_, err)), s') =>
          Some (PutChecked putMsg objHandle exists_ err, s')
      | (None, _) => None
      end
  | PutChecked putMsg objHandle exists_ err =>
      match (let* err :=
               putStoredBlock_write (put_storedBlock putMsg) objHandle
                 exists_ err in
             OnPutComplete (put_asyncCompleteAPI putMsg)
               (ErrorToErrno err EIO)) s with
      | (Some _, s') => Some (PutDone, s')
      | (None, _) => None
      end
  | PutDone => None
  end.

(** A run of several such workers: each entry of the schedule names the
    worker that takes the next step. *)
Fixpoint runPuts (schedule : list nat) (ws : list putProgress)
    (s : remoteStore) : option (list putProgress * remoteStore) :=
  match schedule with
  | [] => Some (ws, s)
  | i :: rest =>
      match ws !! i with
      | Some w =>
          match putStep w s with
          | Some (w', s') => runPuts rest (<[i := w']> ws) s'
          | None => None
          end
      | None => None
      end
  end.

End ConcurrentPuts.

(** The [Write] calls among events. *)
Definition writeCalls (evs : list event) : list (string * list Byte.byte) :=
  omap (fun e =>
          match e with
          | EvCall (CallWrite key blob) => Some (key, blob)
          | _ => None
          end) evs.

(** The statuses given to the put callbacks among events. *)
Definition putCompletions (evs : list event) : list (callback * Z) :=
  omap (fun e =>
          match e with
          | EvPutComplete c errno => Some (c, errno)
          | _ => None
          end) evs.

(** Put idempotence in the words of the specification, for two workers
    that each took a put of the block [sb] on the store [s]: however
    their steps interleave, when both are done there was at most one
    [Write] and both puts completed with status 0. *)
Definition spec_put_idempotence `{Longtail} (sb : storedBlockData)
    (c1 c2 : callback) (s : remoteStore) : Prop :=
  forall schedule s',
    runPuts schedule [PutTaken (mkPut sb c1); PutTaken (mkPut sb c2)] s
    = Some ([PutDone; PutDone], s') ->
    (length (writeCalls (trace s')) <= length (writeCalls (trace s)) + 1)%nat
    /\ putCompletions (trace s')
       ≡ₚ putCompletions (trace s) ++ [(c1, 0); (c2, 0)].

(** The calls, log lines and sleeps of a read that goes through the
    existence check and is retried [retries] times. *)
Definition retryEvents (key : string) (i : nat) : list event :=
  match i with
  | 0%nat => [EvLogKey "Retrying getBlob" key]
  | 1%nat => [EvLogKey "Retrying 500 ms delayed getBlob" key; EvSleep 500]
  | _ => [EvLogKey "Retrying 2 s delayed getBlob" key; EvSleep 2000]
  end ++ [EvCall (CallRead key)].

Definition ladderEvents (key : string) (retries : nat) : list event :=
  [EvCall (CallNewObject key); EvCall (CallExists key);
   EvCall (CallRead key)]
  ++ concat (map (retryEvents key) (seq 0 retries)).

(** The store after blob store calls: the events [evs] appended to the
    trace, the objects [objs'] and the rest of the script. *)
Definition afterCalls (evs : list event)
    (objs' : gmap string (list Byte.byte)) (rest : list fault)
    (s : remoteStore) : remoteStore :=
  with_trace (trace s ++ evs) (with_blobStore (mkBlobStore objs' rest) s).

(** The key of a block in the blob store. *)
Definition blockKey (sb : storedBlockData) : string :=
  GetBlockPath "chunks" (GetBlockHash (blockIndex sb)).

(** The events of a put whose object is absent and whose four writes
    fail. *)
Definition failedPutEvents (key : string) (blob : list Byte.byte)
    : list event :=
  [EvCall (CallNewObject key); EvCall (CallExists key);
   EvCall (CallWrite key blob);
   EvLogKey "Retrying putBlob" key; EvCall (CallWrite key blob);
   EvLogKey "Retrying 500 ms delayed putBlob" key; EvSleep 500;
   EvCall (CallWrite key blob);
   EvLogKey "Retrying 2 s delayed putBlob" key; EvSleep 2000;
   EvCall (CallWrite key blob)].

(** The events of a put that goes through: the existence check, the
    write when the object was absent, and the block index sent to the
    maintainer. *)
Definition putEvents (key : string) (written : option (list Byte.byte))
    (copy : Longtail_BlockIndex) : list event :=
  [EvCall (CallNewObject key); EvCall (CallExists key)]
  ++ match written with
     | Some blob => [EvCall (CallWrite key blob)]
     | None => []
     end
  ++ [EvSendBlockIndex copy].

(** The store after a put message was refused: the message is taken
    from the put channel and its callback is invoked with [EACCES]. *)
Definition deniedPut (m : putBlockMessage) (s : remoteStore) : remoteStore :=
  let c := chans s in
  with_trace (trace s ++ [EvPutComplete (put_asyncCompleteAPI m) EACCES])
    (with_chans
       (mkChannels (tail (putBlockChan c)) (putClosed c) (getBlockChan c)
          (prefetchBlockChan c) (blockIndexChan c) (workerFlushChan c)
          (workerFlushReplyChan c)) s).

(** What a waiter served from the loop receives when the read went
    well: a copy of the block made by encoding and decoding it, or the
    status of the step that failed. *)
Definition copyResult `{Longtail} (sb : Longtail_StoredBlock)
    : Longtail_StoredBlock * Z :=
  let '(buf, errno) := WriteStoredBlockToBuffer sb in
  if negb (errno =? 0) then (None, errno)
  else
    let '(blockCopy, errno) := ReadStoredBlockFromBuffer buf in
    if negb (errno =? 0) then (None, errno) else (blockCopy, 0).

Definition copyCompletion `{Longtail} (sb : Longtail_StoredBlock)
    (c : callback) : event :=
  EvGetComplete c (copyResult sb).1 (copyResult sb).2.

(** The waiters [prefetchBlock] serves, in the order it serves them:
    those at the indices from 1 up to, but not including, the last
    index, and then the one at index 0. *)
Definition servedByPrefetch (completeCallbacks : list callback)
    : list callback :=
  take (length completeCallbacks - 2) (drop 1 completeCallbacks)
  ++ take 1 completeCallbacks.

(** What flushing a slot does: the block it holds, if any, is disposed
    and its size is taken off [prefetchMemory]. *)
Definition disposed (v : option pendingPrefetchedBlock) : list event :=
  match v with
  | Some b =>
      match storedBlock b with
      | Some sb => [EvDispose (Some sb)]
      | None => []
      end
  | None => []
  end.

Definition releaseMemory `{Longtail} (pm : Z)
    (v : option pendingPrefetchedBlock) : Z :=
  match v with
  | Some b =>
      match storedBlock b with
      | Some sb => wrapInt64 (pm + wrapInt64 (- GetBlockSize sb))
      | None => pm
      end
  | None => pm
  end.

Definition waitedFor (kv : Z * option pendingPrefetchedBlock) : Prop :=
  hasWaiters kv.2 = true.

Definition stillWaitingLog (kv : Z * option pendingPrefetchedBlock) : event :=
  EvLogHash "Somebody is still waiting for prefetch" kv.1.

(** *** Racing writers of the store index *)

(** The index an attempt writes when the object holds [cur] ([None] when
    it is absent): the merge of the new index with the decoded content,
    or the new index itself. *)
Definition mergedIndex `{Longtail} (updatedStoreIndex : Longtail_StoreIndex)
    (blob : list Byte.byte) : Longtail_StoreIndex :=
  (MergeStoreIndex updatedStoreIndex (ReadStoreIndexFromBuffer blob).1).1.

Definition writtenIndex `{Longtail} (updatedStoreIndex : Longtail_StoreIndex)
    (cur : option (list Byte.byte)) : Longtail_StoreIndex :=
  match cur with
  | Some blob => mergedIndex updatedStoreIndex blob
  | None => updatedStoreIndex
  end.

Definition writtenBlob `{Longtail} (updatedStoreIndex : Longtail_StoreIndex)
    (cur : option (list Byte.byte)) : list Byte.byte :=
  (WriteStoreIndexToBuffer (writtenIndex updatedStoreIndex cur)).1.

(** What [updateRemoteStoreIndex] returns after a successful write: the
    merged index, or the zero value when the object did not exist. *)
Definition returnedIndex `{Longtail} (updatedStoreIndex : Longtail_StoreIndex)
    (cur : option (list Byte.byte)) : Longtail_StoreIndex :=
  match cur with
  | Some blob => mergedIndex updatedStoreIndex blob
  | None => None
  end.

(** The codec accepts the content [cur]: decoding, merging and encoding
    all return status 0. *)
Definition codecAccepts `{Longtail} (updatedStoreIndex : Longtail_StoreIndex)
    (cur : option (list Byte.byte)) : Prop :=
  match cur with
  | Some blob =>
      (ReadStoreIndexFromBuffer blob).2 = 0
      /\ (MergeStoreIndex updatedStoreIndex
            (ReadStoreIndexFromBuffer blob).1).2 = 0
      /\ (WriteStoreIndexToBuffer (mergedIndex updatedStoreIndex blob)).2 = 0
  | None => (WriteStoreIndexToBuffer updatedStoreIndex).2 = 0
  end.

(** The script of one attempt on an object with content [cur]: the lock
    and, when the object exists, the read go through; [w] decides the
    write. *)
Definition attemptScript (cur : option (list Byte.byte)) (w : fault)
    : list fault :=
  Proceed :: (if isSome cur then [Proceed] else []) ++ [w].

(** A run in which each blob of [racers] is stored by another writer
    between the lock and the write of one attempt. *)
Fixpoint raceScript (cur : option (list Byte.byte))
    (racers : list (list Byte.byte)) : list fault :=
  match racers with
  | [] => []
  | r :: rs => attemptScript cur (Raced r) ++ raceScript (Some r) rs
  end.

Definition contentAfter (cur : option (list Byte.byte))
    (racers : list (list Byte.byte)) : option (list Byte.byte) :=
  foldl (fun _ r => Some r) cur racers.

Definition attemptEvents `{Longtail} (updatedStoreIndex : Longtail_StoreIndex)
    (key : string) (cur : option (list Byte.byte)) : list event :=
  EvCall (CallLockWriteVersion key)
  :: (if isSome cur then [EvCall (CallRead key)] else [])
  ++ [EvCall (CallWrite key (writtenBlob updatedStoreIndex cur))].

Fixpoint raceEvents `{Longtail} (updatedStoreIndex : Longtail_StoreIndex)
    (key : string) (cur : option (list Byte.byte))
    (racers : list (list Byte.byte)) : list event :=
  match racers with
  | [] => attemptEvents updatedStoreIndex key cur
  | r :: rs =>
      attemptEvents updatedStoreIndex key cur
      ++ EvLogKey "Retrying updating remote store index" key
      :: raceEvents updatedStoreIndex key (Some r) rs
  end.

Definition isLock (e : event) : bool :=
  match e with
  | EvCall (CallLockWriteVersion _) => true
  | _ => false
  end.

(** *** The counter and the cache *)

(** The memory counter agrees with the cache: [prefetchMemory] is the
    sum of the sizes of the completed slots, as an [int64]. *)
Definition cacheInvariant `{Longtail} (s : remoteStore) : Prop :=
  prefetchMemory s = wrapInt64 (cachedBytes (prefetchBlocks s)).

(** [keepsCache m]: [m] changes neither the cache nor its counter. *)
Definition keepsCache {A} (m : M A) : Prop :=
  forall s,
    prefetchBlocks (m s).2 = prefetchBlocks s
    /\ prefetchMemory (m s).2 = prefetchMemory s.

(** ** What a computation emits *)

(** [emits P m]: [m] only appends to the trace, and only events that
    satisfy [P]. *)
Definition emits {A} (P : event -> Prop) (m : M A) : Prop :=
  forall s, exists evs, trace (m s).2 = trace s ++ evs /\ Forall P evs.

Definition isWrite (e : event) : Prop :=
  match e with
  | EvCall (CallWrite _ _) => True
  | _ => False
  end.

Definition isSendBlockIndex (e : event) : Prop :=
  match e with
  | EvSendBlockIndex _ => True
  | _ => False
  end.

(** The events of a worker that neither writes to the blob store nor
    sends a block index. *)
Definition readOnlyEvent (e : event) : Prop :=
  ~ isWrite e /\ ~ isSendBlockIndex e.

(** The callback a completion event belongs to. *)
Definition callbackOf (e : event) : option callback :=
  match e with
  | EvPutComplete c _ => Some c
  | EvGetComplete c _ _ => Some c
  | _ => None
  end.

(** ** A small codec to run the model *)

(** A block is encoded as one byte for its hash followed by its data;
    blocks with chunks or with a hash above 255 are not encodable.  An
    index is encoded as the bytes of its block hashes.  The size of a
    block is the length of its data. *)
Definition testEncodeBlock (sb : Longtail_StoredBlock)
    : list Byte.byte * Z :=
  match sb with
  | Some b =>
      match Byte.of_N (Z.to_N (blockHash (blockIndex b))),
            chunkHashes (blockIndex b) with
      | Some x, [] => (x :: blockData b, 0)
      | _, _ => ([], ENOMEM)
      end
  | None => ([], EBADF)
  end.

Definition testDecodeBlock (blob : list Byte.byte)
    : Longtail_StoredBlock * Z :=
  match blob with
  | x :: d => (Some (mkStoredBlock (mkBlockIndex (Z.of_N (Byte.to_N x)) []) d), 0)
  | [] => (None, EBADF)
  end.

Definition testDecodeIndex (blob : list Byte.byte) : Longtail_StoreIndex * Z :=
  (Some (map (fun x => mkBlockIndex (Z.of_N (Byte.to_N x)) []) blob), 0).

Definition testEncodeIndex (idx : Longtail_StoreIndex) : list Byte.byte * Z :=
  match idx with
  | Some l =>
      (omap (fun bi => Byte.of_N (Z.to_N (blockHash bi))) l, 0)
  | None => ([], EBADF)
  end.

Definition testMergeIndex (a b : Longtail_StoreIndex)
    : Longtail_StoreIndex * Z :=
  match a, b with
  | Some x, Some y => (Some (x ++ y), 0)
  | _, _ => (None, EBADF)
  end.

Definition testLongtail : Longtail := {|
  GetBlockSize := fun sb => Z.of_nat (length (blockData sb));
  WriteStoredBlockToBuffer := testEncodeBlock;
  ReadStoredBlockFromBuffer := testDecodeBlock;
  BlockIndexCopy := fun bi => (bi, None);
  ReadStoreIndexFromBuffer := testDecodeIndex;
  MergeStoreIndex := testMergeIndex;
  WriteStoreIndexToBuffer := testEncodeIndex;
  errnoSentinel := fun e => (0 <? e) && (e <? 134)
|}.

Definition emptyChannels : channels := mkChannels [] false [] [] [] [] [].

Definition noStats : BlockStoreStats := fun _ => 0.

(** A store over the objects [objs] with the fault script [scr], an empty
    cache and no traffic. *)
Definition testStore (objs : gmap string (list Byte.byte))
    (scr : list fault) : remoteStore :=
  mkStore (mkBlobStore objs scr) emptyChannels 0 (512 * 1024 * 1024)
    ∅ noStats [].

(** ** Sequences of cache operations *)

(** The operations of a worker that touch the prefetch cache. *)
Inductive cacheOp : Type :=
| OpFetch (getMsg : getBlockMessage)
| OpPrefetch (prefetchMsg : prefetchBlockMessage)
| OpFlush.

Definition runCacheOp `{Longtail} (op : cacheOp) : M unit :=
  match op with
  | OpFetch getMsg => fetchBlock getMsg
  | OpPrefetch prefetchMsg => prefetchBlock prefetchMsg
  | OpFlush => flushPrefetch
  end.

(** [keepsEntry h m]: a cache that has an entry for [h] has one after
    [m]. *)
Definition keepsEntry {A} (h : Z) (m : M A) : Prop :=
  forall s, is_Some (prefetchBlocks s !! h) ->
            is_Some (prefetchBlocks (m s).2 !! h).

(** The log line, the sleep and the call of the retry number [i] of a
    write in [putStoredBlock]. *)
Definition putRetryEvents (key : string) (blob : list Byte.byte) (i : nat)
    : list event :=
  match i with
  | 0%nat => [EvLogKey "Retrying putBlob" key]
  | 1%nat => [EvLogKey "Retrying 500 ms delayed putBlob" key; EvSleep 500]
  | _ => [EvLogKey "Retrying 2 s delayed putBlob" key; EvSleep 2000]
  end ++ [EvCall (CallWrite key blob)].

(** The statistics after [k] retries of a write. *)
Fixpoint retriedPut (k : nat) (st : BlockStoreStats) : BlockStoreStats :=
  match k with
  | O => st
  | S k' => addStat (retriedPut k' st) PutStoredBlock_RetryCount 1
  end.

(** ** The put channel over a run of the worker *)

(** [keepsPuts m]: [m] neither receives from the put channel nor closes
    it. *)
Definition keepsPuts {A} (m : M A) : Prop :=
  forall s,
    putBlockChan (chans (m s).2) = putBlockChan (chans s)
    /\ putClosed (chans (m s).2) = putClosed (chans s).

(** From [s] to [s']: the trace has grown by [evs], the put messages
    [handled] were taken from the head of the put channel, each with a
    completion among [evs], and the channel was not closed in
    between. *)
Definition putsHandled (s s' : remoteStore) : Prop :=
  putClosed (chans s') = putClosed (chans s)
  /\ exists evs handled,
       trace s' = trace s ++ evs
       /\ putBlockChan (chans s) = handled ++ putBlockChan (chans s')
       /\ Forall (fun m => exists errno,
                    EvPutComplete (put_asyncCompleteAPI m) errno ∈ evs)
            handled.

Definition anyEvent (e : event) : Prop := True.

(** ** Splitting a URI *)

(** [strings.LastIndex(s, sep)] for a separator [c] of one byte: the
    index of its last occurrence, or [-1]. *)
Fixpoint LastIndex (s : list ascii) (c : ascii) : Z :=
  match s with
  | [] => -1
  | x :: s' =>
      let i := LastIndex s' c in
      if i =? -1 then (if decide (x = c) then 0 else -1) else i + 1
  end.

Definition splitURIBytes (uri : list ascii) : list ascii * list ascii :=
  let i := LastIndex uri slash in
  let i := if i =? -1 then LastIndex uri backslash else i in
  if i =? -1 then ([], uri)
  else (take (Z.to_nat i) uri, drop (Z.to_nat (i + 1)) uri).

Definition splitURI (uri : string) : string * string :=
  let '(parent, name) := splitURIBytes (bytes_of uri) in
  (str parent, str name).

(** ** Rebuilding the store index from the blocks *)

(** A [Longtail_BlockIndex] handle, [None] being the zero value, which
    is not valid. *)
Definition blockIndexHandle : Type := option Longtail_BlockIndex.

(** The loop that moves the valid entries of [batchBlockIndexes] to its
    front: [n] iterations are left, [i] is the index of the [range]
    loop, [writeIndex] the number of entries kept so far.  The element
    is read from the slice when its iteration starts. *)
Fixpoint compactLoop (n i : nat) (batchBlockIndexes : list blockIndexHandle)
    (writeIndex : nat) : list blockIndexHandle * nat :=
  match n with
  | O => (batchBlockIndexes, writeIndex)
  | S n' =>
      match batchBlockIndexes !! i with
      | Some (Some blockIndex) =>
          let batchBlockIndexes :=
            if (writeIndex <? i)%nat
            then <[writeIndex := Some blockIndex]> batchBlockIndexes
            else batchBlockIndexes in
          compactLoop n' (S i) batchBlockIndexes (S writeIndex)
      | _ => compactLoop n' (S i) batchBlockIndexes writeIndex
      end
  end.

(** [batchBlockIndexes[:writeIndex]] after the loop. *)
Definition compactBlockIndexes (batchBlockIndexes : list blockIndexHandle)
    : list blockIndexHandle :=
  let '(moved, writeIndex) :=
    compactLoop (length batchBlockIndexes) 0 batchBlockIndexes 0 in
  take writeIndex moved.

(** ** The maintainer of the store index *)

Definition EINVAL : Z := 22.
Definition ErrEACCES : error := ErrErrno EACCES.

Record preflightGetMessage : Type := mkPreflight {
  preflight_blockHashes : list Z;
  preflight_asyncCompleteAPI : callback
}.

Record getExistingContentMessage : Type := mkGetExisting {
  existing_chunkHashes : list Z;
  existing_minBlockUsagePercent : Z;
  existing_asyncCompleteAPI : callback
}.

(** The primitives of the library that only the maintainer uses; like
    those of [Longtail] they are opaque and return an [errno]. *)
Class LongtailIndex : Type := {
  CreateStoreIndexFromBlocks :
    list blockIndexHandle -> Longtail_StoreIndex * Z;
  ReadBlockIndexFromBuffer : list Byte.byte -> blockIndexHandle * Z;
  GetExistingStoreIndex :
    Longtail_StoreIndex -> list Z -> Z -> Longtail_StoreIndex * Z
}.

(** What the maintainer and the API do to the outside, besides the calls
    on objects of the blob store, which are recorded in [trace]. *)
Inductive indexEvent : Type :=
| IxNewClient
| IxGetObjects
| IxLog (msg : string)
| IxPreflightComplete (c : callback) (blockHashes : list Z) (errno : Z)
| IxExistingContentComplete (c : callback)
    (storeIndex : Longtail_StoreIndex) (errno : Z)
| IxFlushReply (v : Z)
| IxFlushComplete (c : callback) (errno : Z).

(** The fields of the Go [remoteStore] that the workers do not use,
    around the part they do use: the number of workers, the channels of
    the maintainer, and whether [blockIndexChan] was closed. *)
Record indexState : Type := mkIndexState {
  workers : remoteStore;
  workerCount : Z;
  preflightGetChan : list preflightGetMessage;
  getExistingContentChan : list getExistingContentMessage;
  indexFlushChan : list Z;
  indexFlushReplyChan : list Z;
  blockIndexClosed : bool;
  indexTrace : list indexEvent
}.

Definition with_workers (s : remoteStore) (t : indexState) : indexState :=
  mkIndexState s (workerCount t) (preflightGetChan t)
    (getExistingContentChan t) (indexFlushChan t) (indexFlushReplyChan t)
    (blockIndexClosed t) (indexTrace t).
Definition with_indexTrace (tr : list indexEvent) (t : indexState)
    : indexState :=
  mkIndexState (workers t) (workerCount t) (preflightGetChan t)
    (getExistingContentChan t) (indexFlushChan t) (indexFlushReplyChan t)
    (blockIndexClosed t) tr.

(** How a computation of the maintainer ends: with a value, with a
    panic, or not within the bound given for its loops. *)
Inductive outcome (A : Type) : Type :=
| Done (a : A)
| Panicked
| OutOfFuel.
Arguments Done {A} a.
Arguments Panicked {A}.
Arguments OutOfFuel {A}.

Definition IM (A : Type) : Type := indexState -> outcome A * indexState.

Definition iret {A} (a : A) : IM A := fun t => (Done a, t).
Definition ipanic {A} : IM A := fun t => (Panicked, t).
Definition outOfFuel {A} : IM A := fun t => (OutOfFuel, t).
Definition ibind {A B} (m : IM A) (k : A -> IM B) : IM B :=
  fun t =>
    match m t with
    | (Done a, t') => k a t'
    | (Panicked, t') => (Panicked, t')
    | (OutOfFuel, t') => (OutOfFuel, t')
    end.

Notation "'let+' p ':=' c1 'in' c2" := (ibind c1 (fun p => c2))
  (at level 10, p pattern, c1 at level 200, c2 at level 200,
   only parsing).
Notation "c1 ';;+' c2" := (ibind c1 (fun _ => c2))
  (at level 100, c2 at level 200, right associativity, only parsing).

(** A computation of the workers' part of the store. *)
Definition liftM {A} (m : M A) : IM A :=
  fun t =>
    match m (workers t) with
    | (Some a, s') => (Done a, with_workers s' t)
    | (None, s') => (Panicked, with_workers s' t)
    end.

(** A loop of the workers' part that is bounded by fuel. *)
Definition liftFuel {A} (m : M (option A)) : IM A :=
  fun t =>
    match m (workers t) with
    | (Some (Some a), s') => (Done a, with_workers s' t)
    | (Some None, s') => (OutOfFuel, with_workers s' t)
    | (None, s') => (Panicked, with_workers s' t)
    end.

Definition iemit (e : indexEvent) : IM unit :=
  fun t => (Done tt, with_indexTrace (indexTrace t ++ [e]) t).

(** [log.Printf]: the line is recorded by its text, without the values
    formatted into it. *)
Definition ilog (msg : string) : IM unit := iemit (IxLog msg).

Fixpoint imapM {A B} (f : A -> IM B) (l : list A) : IM (list B) :=
  match l with
  | [] => iret []
  | a :: l' =>
      let+ b := f a in
      let+ bs := imapM f l' in
      iret (b :: bs)
  end.

Fixpoint iforM_ {A} (l : list A) (body : A -> IM unit) : IM unit :=
  match l with
  | [] => iret tt
  | a :: l' => body a ;;+ iforM_ l' body
  end.

(** *** More calls on the blob store *)

(** Modelled from the spec: [BlobStore.NewClient] and
    [BlobClient.GetObjects] are declared outside the store's source
    file.  Like the calls on objects they take the next entry of the
    script; [GetObjects] lists the objects with their sizes, in the
    order of [map_to_list]. *)
Definition newClientOn (b : BlobStore) : option error * BlobStore :=
  let '(flt, b') := nextFault b in
  (match flt with
   | Fail e => Some e
   | _ => None
   end, b').

Definition getObjectsOn (b : BlobStore)
    : (list (string * Z) * option error) * BlobStore :=
  let '(flt, b') := nextFault b in
  (match flt with
   | Fail e => ([], Some e)
   | _ =>
       ((fun kv : string * list Byte.byte => (kv.1, Z.of_nat (length kv.2)))
          <$> map_to_list (objects b'), None)
   end, b').

Definition iblobCall {A} (e : indexEvent) (f : BlobStore -> A * BlobStore)
    : IM A :=
  fun t =>
    let '(a, b') := f (blobStore (workers t)) in
    (Done a,
     with_indexTrace (indexTrace t ++ [e])
       (with_workers (with_blobStore b' (workers t)) t)).

Definition NewClient : IM (option error) := iblobCall IxNewClient newClientOn.
Definition GetObjects : IM (list (string * Z) * option error) :=
  iblobCall IxGetObjects getObjectsOn.

(** Calls on a blob store that is not the one of the store: they are
    run on a store of their own, and the blob store is handed back. *)
Definition onStore {A} (b : BlobStore) (m : M A) : option A * BlobStore :=
  let '(r, s') := m (mkStore b emptyChannels 0 0 ∅ noStats []) in
  (r, blobStore s').

(** *** Blob stores by URI *)

(** What [url.Parse] gives and the constructors of the drivers, all
    outside the store's source file, are parameters. *)
Record URL : Type := mkURL {
  Scheme : string;
  Path : string
}.

(** A constructor returns a blob store or an error. *)
Inductive created : Type :=
| Created (blobStore : BlobStore)
| CreateFailed (err : error).

Class BlobBackends : Type := {
  urlParse : string -> option URL;
  NewGCSBlobStore : URL -> created;
  NewS3BlobStore : URL -> created;
  NewFSBlobStore : string -> created
}.

(** [createBlobStoreForURI]; [None] is the panic of [Path[1:]] on an
    empty path. *)
Definition createBlobStoreForURI `{BlobBackends} (uri : string)
    : option created :=
  match urlParse uri with
  | Some blobStoreURL =>
      if decide (Scheme blobStoreURL = "gs") then
        Some (NewGCSBlobStore blobStoreURL)
      else if decide (Scheme blobStoreURL = "s3") then
        Some (NewS3BlobStore blobStoreURL)
      else if decide (Scheme blobStoreURL = "abfs") then
        Some (CreateFailed
                (ErrDriver "azure Gen1 storage not yet implemented"))
      else if decide (Scheme blobStoreURL = "abfss") then
        Some (CreateFailed
                (ErrDriver "azure Gen2 storage not yet implemented"))
      else if decide (Scheme blobStoreURL = "file") then
        match bytes_of (Path blobStoreURL) with
        | [] => None
        | _ :: rest => Some (NewFSBlobStore (str rest))
        end
      else Some (NewFSBlobStore uri)
  | None => Some (NewFSBlobStore uri)
  end.

(** [ReadFromURI]; [None] when [createBlobStoreForURI] panics. *)
Definition ReadFromURI `{BlobBackends} (uri : string)
    : option (option (list Byte.byte) * option error) :=
  let '(uriParent, uriName) := splitURI uri in
  match createBlobStoreForURI uriParent with
  | None => None
  | Some (CreateFailed err) => Some (None, Some err)
  | Some (Created blobStore) =>
      let '(err, blobStore) := newClientOn blobStore in
      if isErr err then Some (None, err) else
      (onStore blobStore
         (let* (object, err) := NewObject uriName in
          if isErr err then ret (None, err) else
          let* (vbuffer, err) := ObjRead object in
          if isErr err then ret (None, err) else
          ret (vbuffer, None))).1
  end.

(** [WriteToURI], with the blob store as the write leaves it when the
    store was created. *)
Definition WriteToURI `{BlobBackends} (uri : string) (data : list Byte.byte)
    : option (option error * option BlobStore) :=
  let '(uriParent, uriName) := splitURI uri in
  match createBlobStoreForURI uriParent with
  | None => None
  | Some (CreateFailed err) => Some (Some err, None)
  | Some (Created blobStore) =>
      let '(err, blobStore) := newClientOn blobStore in
      if isErr err then Some (err, Some blobStore) else
      let '(r, blobStore) :=
        onStore blobStore
          (let* (object, err) := NewObject uriName in
           if isErr err then ret err else
           let* (_, err) := ObjWrite object data in
           if isErr err then ret err else
           ret None) in
      match r with
      | Some err => Some (err, Some blobStore)
      | None => None
      end
  end.
(** *** Loading and rebuilding the store index *)

(** [strings.HasSuffix] *)
Definition HasSuffix (s suffix : string) : bool :=
  let b := bytes_of s in
  let x := bytes_of suffix in
  (length x <=? length b)%nat
  && bool_decide (drop (length b - length x) b = x).

(** The loop of [buildStoreIndexFromStoreBlocks] over the listed blobs:
    the names of the blobs that are not empty and end in [".lsb"]. *)
Fixpoint blockItems (blobs : list (string * Z)) (items : list string)
    : list string :=
  match blobs with
  | [] => items
  | (name, size) :: rest =>
      if size =? 0 then blockItems rest items
      else if HasSuffix name ".lsb" then blockItems rest (items ++ [name])
      else blockItems rest items
  end.

(** The outcome of a part of a function that can end the function with
    [return]. *)
Inductive flow (R A : Type) : Type :=
| Return (r : R)
| Continue (a : A).
Arguments Return {R A} r.
Arguments Continue {R A} a.

Section Maintainer.
Context `{LT : Longtail} `{LI : LongtailIndex} `{BB : BlobBackends}.

Definition readStoreStoreIndex : IM (Longtail_StoreIndex * option error) :=
  let key := "store.lsi" in
  let+ (blobData, _, err) := liftM (readBlobWithRetry key) in
  if isErr err then iret (None, err) else
  match blobData with
  | None => iret (None, None)
  | Some blobData =>
      let '(storeIndex, errno) := ReadStoreIndexFromBuffer blobData in
      if negb (errno =? 0) then
        iret (None,
              Wrapf (ErrnoToError errno ErrEIO)
                "contentIndexWorker: longtaillib.ReadStoreIndexFromBuffer() for store.lsi")
      else iret (storeIndex, None)
  end.

Definition updateStoreIndex (storeIndex : Longtail_StoreIndex)
    (addedBlockIndexes : list Longtail_BlockIndex)
    : Longtail_StoreIndex * option error :=
  let '(addedStoreIndex, errno) :=
    CreateStoreIndexFromBlocks (Some <$> addedBlockIndexes) in
  if negb (errno =? 0) then
    (None,
     Wrapf (ErrnoToError errno ErrENOMEM)
       "contentIndexWorker: longtaillib.CreateStoreIndexFromBlocks() failed")
  else if negb (isSome storeIndex) then (addedStoreIndex, None)
  else
    let '(updatedStoreIndex, errno) :=
      MergeStoreIndex addedStoreIndex storeIndex in
    if negb (errno =? 0) then
      (None,
       Wrapf (ErrnoToError errno ErrENOMEM)
         "contentIndexWorker: longtaillib.MergeStoreIndex() failed")
    else (updatedStoreIndex, None).

(** The goroutine started for one block key of a batch: the handle it
    leaves in its slot of [batchBlockIndexes], the zero value when the
    block was not loaded. *)
Definition loadBlockIndex (blockKey : string) : IM blockIndexHandle :=
  let+ (storedBlockData, _, err) := liftM (readBlobWithRetry blockKey) in
  if isErr err then iret None else
  let '(blockIndex, errno) :=
    ReadBlockIndexFromBuffer (default [] storedBlockData) in
  if negb (errno =? 0) then iret None else
  match blockIndex with
  | None => ipanic (* [GetBlockHash] on a handle that is not valid *)
  | Some bi =>
      let blockPath := GetBlockPath "chunks" (GetBlockHash bi) in
      if decide (blockPath = blockKey) then iret (Some bi)
      else
        ilog "Block name does not match content hash" ;;+
        iret None
  end.

(** The loop [for batchStart < len(blockKeys)], bounded by [fuel].  The
    goroutines of a batch share the blob store and the log only, and
    each fills a slot of its own; they are run one after the other, in
    the order of the batch. *)
Fixpoint scanBatches (fuel : nat) (batchCount : Z) (blockKeys : list string)
    (batchStart : Z) (storeIndex : Longtail_StoreIndex)
    : IM (Longtail_StoreIndex * option error) :=
  let len := Z.of_nat (length blockKeys) in
  if negb (batchStart <? len) then iret (storeIndex, None)
  else
    match fuel with
    | O => outOfFuel
    | S fuel' =>
        let batchLength :=
          if len <? batchStart + batchCount then len - batchStart
          else batchCount in
        let batchKeys :=
          take (Z.to_nat batchLength) (drop (Z.to_nat batchStart) blockKeys) in
        let+ batchBlockIndexes := imapM loadBlockIndex batchKeys in
        let batchBlockIndexes := compactBlockIndexes batchBlockIndexes in
        let '(batchStoreIndex, errno) :=
          CreateStoreIndexFromBlocks batchBlockIndexes in
        if negb (errno =? 0) then
          iret (None, ErrnoToError errno ErrENOMEM)
        else
          let '(newStoreIndex, errno) :=
            MergeStoreIndex storeIndex batchStoreIndex in
          if negb (errno =? 0) then
            iret (None, ErrnoToError errno ErrENOMEM)
          else
            let storeIndex := newStoreIndex in
            let batchStart := batchStart + batchLength in
            ilog "Scanned blocks" ;;+
            scanBatches fuel' batchCount blockKeys batchStart storeIndex
    end.

(** The loop that creates one client for each goroutine of a batch. *)
Fixpoint newClients (n : nat) : IM (option error) :=
  match n with
  | O => iret None
  | S n' =>
      let+ err := NewClient in
      if isErr err then iret err else newClients n'
  end.

Definition getStoreIndexFromBlocks (fuel : nat) (blockKeys : list string)
    : IM (Longtail_StoreIndex * option error) :=
  let '(storeIndex, errno) := CreateStoreIndexFromBlocks [] in
  if negb (errno =? 0) then iret (None, ErrnoToError errno ErrENOMEM) else
  let+ batchCount := (fun t => (Done (workerCount t), t)) in
  let batchStart := 0 in
  let batchCount :=
    if Z.of_nat (length blockKeys) <? batchCount
    then Z.of_nat (length blockKeys) else batchCount in
  if batchCount <? 0 then ipanic (* [make] with a negative length *) else
  let+ err := newClients (Z.to_nat batchCount) in
  if isErr err then iret (None, err) else
  scanBatches fuel batchCount blockKeys batchStart storeIndex.

Definition buildStoreIndexFromStoreBlocks (fuel : nat)
    : IM (Longtail_StoreIndex * option error) :=
  let+ (blobs, err) := GetObjects in
  if isErr err then iret (None, err) else
  getStoreIndexFromBlocks fuel (blockItems blobs []).

(** *** Serving the requests *)

(** [prefetchBlockMessages <- prefetchBlockMessage{blockHash}] *)
Definition sendPrefetch (blockHash : Z) : M unit :=
  fun s =>
    let c := chans s in
    (Some tt,
     with_chans
       (mkChannels (putBlockChan c) (putClosed c) (getBlockChan c)
          (prefetchBlockChan c ++ [mkPrefetch blockHash])
          (blockIndexChan c) (workerFlushChan c) (workerFlushReplyChan c))
       s).

Definition onPreflighMessage (storeIndex : Longtail_StoreIndex)
    (message : preflightGetMessage) : IM unit :=
  iforM_ (preflight_blockHashes message)
    (fun blockHash => liftM (sendPrefetch blockHash)) ;;+
  iemit (IxPreflightComplete (preflight_asyncCompleteAPI message)
           (preflight_blockHashes message) 0).

Definition onGetExistingContentMessage (storeIndex : Longtail_StoreIndex)
    (message : getExistingContentMessage) : IM unit :=
  let '(existingStoreIndex, errno) :=
    GetExistingStoreIndex storeIndex (existing_chunkHashes message)
      (existing_minBlockUsagePercent message) in
  if negb (errno =? 0) then
    iemit (IxExistingContentComplete (existing_asyncCompleteAPI message)
             None errno)
  else
    iemit (IxExistingContentComplete (existing_asyncCompleteAPI message)
             existingStoreIndex 0).

(** [getStoreIndex] when [storeIndex] is not valid, first part: unless
    the access type is [Init], the index is read from the local file,
    on a read-only store that was given one, and otherwise from the
    blob store.  [errno] is the variable of that name, which is 0 when
    the function is entered. *)
Definition readKnownStoreIndex (optionalStoreIndexPath : string)
    (accessType : AccessType) (storeIndex : Longtail_StoreIndex)
    (saveStoreIndex : bool) : IM (Longtail_StoreIndex * bool * Z) :=
  let errno := 0 in
  if decide (accessType = Init) then iret (storeIndex, true, errno)
  else
    let+ (storeIndex, errno) :=
      if bool_decide (accessType = ReadOnly)
         && (0 <? String.length optionalStoreIndexPath)%nat
      then
        match ReadFromURI optionalStoreIndexPath with
        | None => ipanic
        | Some (sbuffer, err) =>
            if negb (isErr err) then
              let '(storeIndex, errno) :=
                ReadStoreIndexFromBuffer (default [] sbuffer) in
              (if negb (errno =? 0)
               then ilog "Failed parsing local store index"
               else iret tt) ;;+
              iret (storeIndex, errno)
            else
              ilog "Failed reading local store index" ;;+
              iret (storeIndex, errno)
        end
      else iret (storeIndex, errno) in
    let+ storeIndex :=
      if negb (isSome storeIndex) then
        let+ (storeIndex, err) := readStoreStoreIndex in
        (if isErr err
         then ilog "contentIndexWorker: readStoreStoreIndex() failed"
         else iret tt) ;;+
        iret storeIndex
      else iret storeIndex in
    iret (storeIndex, saveStoreIndex, errno).

(** Second part: an index that is still not valid is created empty on
    a read-only store, and otherwise rebuilt from the blocks and
    written to the blob store. *)
Definition loadStoreIndex (fuel : nat) (optionalStoreIndexPath : string)
    (accessType : AccessType) (storeIndex : Longtail_StoreIndex)
    (saveStoreIndex : bool)
    : IM (flow (Longtail_StoreIndex * bool * option error)
               (Longtail_StoreIndex * bool)) :=
  let+ (storeIndex, saveStoreIndex, errno) :=
    readKnownStoreIndex optionalStoreIndexPath accessType storeIndex
      saveStoreIndex in
  if negb (isSome storeIndex) then
    if decide (accessType = ReadOnly) then
      let '(storeIndex, errno) := CreateStoreIndexFromBlocks [] in
      if negb (errno =? 0) then
        iret (Return
                (None, false,
                 Wrapf (ErrnoToError EACCES ErrEACCES)
                   "contentIndexWorker: CreateStoreIndexFromBlocks() failed"))
      else iret (Continue (storeIndex, saveStoreIndex))
    else
      let+ (storeIndex, err) := buildStoreIndexFromStoreBlocks fuel in
      if isErr err then
        iret (Return
                (None, false,
                 Wrapf (ErrnoToError errno ErrENOMEM)
                   "contentIndexWorker: buildStoreIndexFromStoreBlocks() failed"))
      else
        ilog "Rebuilt remote index" ;;+
        let+ (newStoreIndex, err) :=
          liftFuel (updateRemoteStoreIndex fuel storeIndex) in
        let+ saveStoreIndex :=
          if isErr err then
            ilog "Failed to update store index in store" ;;+ iret true
          else iret saveStoreIndex in
        let storeIndex :=
          if isSome newStoreIndex then newStoreIndex else storeIndex in
        iret (Continue (storeIndex, saveStoreIndex))
  else iret (Continue (storeIndex, saveStoreIndex)).

Definition getStoreIndex (fuel : nat) (optionalStoreIndexPath : string)
    (accessType : AccessType) (storeIndex : Longtail_StoreIndex)
    (saveStoreIndex : bool) (addedBlockIndexes : list Longtail_BlockIndex)
    : IM (Longtail_StoreIndex * bool * option error) :=
  let+ loaded :=
    if negb (isSome storeIndex) then
      loadStoreIndex fuel optionalStoreIndexPath accessType storeIndex
        saveStoreIndex
    else iret (Continue (storeIndex, saveStoreIndex)) in
  match loaded with
  | Return r => iret r
  | Continue (storeIndex, saveStoreIndex) =>
      if (0 <? length addedBlockIndexes)%nat then
        let '(updatedStoreIndex, err) :=
          updateStoreIndex storeIndex addedBlockIndexes in
        if isErr err then
          ilog "WARNING: Failed to update store index with added blocks" ;;+
          iret (None, false, err)
        else iret (updatedStoreIndex, true, None)
      else iret (storeIndex, saveStoreIndex, None)
  end.

End Maintainer.
(** *** The loop of the maintainer *)

(** The variables of [contentIndexWorker] that live across the
    iterations of its loop. *)
Record maintainerVars : Type := mkVars {
  var_storeIndex : Longtail_StoreIndex;
  var_saveStoreIndex : bool;
  var_addedBlockIndexes : list Longtail_BlockIndex
}.

(** The cases of the [select] statements of the maintainer; as for the
    workers, the case taken is an input of the model. *)
Inductive errorCase : Type :=
| ErrFlush
| ErrBlockIndex
| ErrGetExistingContent.

Inductive indexPoll : Type :=
| IPollPreflight
| IPollBlockIndex
| IPollGetExistingContent
| IPollDefault.

Inductive indexWait : Type :=
| IWaitFlush
| IWaitPreflight
| IWaitBlockIndex
| IWaitGetExistingContent.

(** How an iteration of the loop ends: the loop goes on with its
    variables and the value of [run], or the function answers the
    request with an error, serves the error state and returns. *)
Inductive iterationEnd : Type :=
| Next (vars : maintainerVars) (run : bool)
| Failed (err : option error).

Definition popPreflight (t : indexState) : indexState :=
  mkIndexState (workers t) (workerCount t) (tail (preflightGetChan t))
    (getExistingContentChan t) (indexFlushChan t) (indexFlushReplyChan t)
    (blockIndexClosed t) (indexTrace t).

Definition popGetExistingContent (t : indexState) : indexState :=
  mkIndexState (workers t) (workerCount t) (preflightGetChan t)
    (tail (getExistingContentChan t)) (indexFlushChan t)
    (indexFlushReplyChan t) (blockIndexClosed t) (indexTrace t).

Definition popIndexFlush (t : indexState) : indexState :=
  mkIndexState (workers t) (workerCount t) (preflightGetChan t)
    (getExistingContentChan t) (tail (indexFlushChan t))
    (indexFlushReplyChan t) (blockIndexClosed t) (indexTrace t).

Definition popBlockIndex : M unit :=
  fun s =>
    let c := chans s in
    (Some tt,
     with_chans
       (mkChannels (putBlockChan c) (putClosed c) (getBlockChan c)
          (prefetchBlockChan c) (tail (blockIndexChan c))
          (workerFlushChan c) (workerFlushReplyChan c)) s).

(** [flushReplyMessages <- v] *)
Definition sendIndexFlushReply (v : Z) : IM unit :=
  fun t =>
    (Done tt,
     mkIndexState (workers t) (workerCount t) (preflightGetChan t)
       (getExistingContentChan t) (indexFlushChan t)
       (indexFlushReplyChan t ++ [v]) (blockIndexClosed t)
       (indexTrace t ++ [IxFlushReply v])).

(** One iteration of the loop of [storeIndexWorkerReplyErrorState]:
    [false] when the function returns; [None] when the case is not
    ready. *)
Definition errorStateStep (c : errorCase) (t : indexState)
    : option (bool * indexState) :=
  match c with
  | ErrFlush =>
      match indexFlushChan t with
      | _ :: _ =>
          Some (true, (sendIndexFlushReply 0 (popIndexFlush t)).2)
      | [] => None
      end
  | ErrBlockIndex =>
      match blockIndexChan (chans (workers t)) with
      | _ :: _ => Some (true, with_workers (popBlockIndex (workers t)).2 t)
      | [] => if blockIndexClosed t then Some (false, t) else None
      end
  | ErrGetExistingContent =>
      match getExistingContentChan t with
      | getExistingContentMessage :: _ =>
          Some (true,
                (iemit
                   (IxExistingContentComplete
                      (existing_asyncCompleteAPI getExistingContentMessage)
                      None EINVAL)
                   (popGetExistingContent t)).2)
      | [] => None
      end
  end.

(** [storeIndexWorkerReplyErrorState] under a schedule: the state in
    which it returns; [None] when the schedule ends before the loop
    does or asks for a case that is not ready. *)
Fixpoint storeIndexWorkerReplyErrorState (schedule : list errorCase)
    (t : indexState) : option indexState :=
  match schedule with
  | [] => None
  | c :: rest =>
      match errorStateStep c t with
      | None => None
      | Some (true, t') => storeIndexWorkerReplyErrorState rest t'
      | Some (false, t') => Some t'
      end
  end.

Section MaintainerLoop.
Context `{LT : Longtail} `{LI : LongtailIndex} `{BB : BlobBackends}.
Variables (fuel : nat) (optionalStoreIndexPath : string)
  (accessType : AccessType).

(** The body of the two cases that receive a preflight message. *)
Definition servePreflight (vars : maintainerVars)
    (preflightGetMsg : preflightGetMessage) : IM iterationEnd :=
  let+ (storeIndex, saveStoreIndex, err) :=
    getStoreIndex fuel optionalStoreIndexPath accessType
      (var_storeIndex vars) (var_saveStoreIndex vars)
      (var_addedBlockIndexes vars) in
  if isErr err then
    iemit (IxPreflightComplete (preflight_asyncCompleteAPI preflightGetMsg)
             [] (ErrorToErrno err EIO)) ;;+
    iret (Failed err)
  else
    onPreflighMessage storeIndex preflightGetMsg ;;+
    iret (Next (mkVars storeIndex saveStoreIndex
                  (var_addedBlockIndexes vars)) true).

(** The body of the two cases that receive a query for the existing
    content. *)
Definition serveGetExistingContent (vars : maintainerVars)
    (getExistingContentMessage : getExistingContentMessage)
    : IM iterationEnd :=
  let+ (storeIndex, saveStoreIndex, err) :=
    getStoreIndex fuel optionalStoreIndexPath accessType
      (var_storeIndex vars) (var_saveStoreIndex vars)
      (var_addedBlockIndexes vars) in
  if isErr err then
    iemit (IxExistingContentComplete
             (existing_asyncCompleteAPI getExistingContentMessage)
             None (ErrorToErrno err EIO)) ;;+
    iret (Failed err)
  else
    onGetExistingContentMessage storeIndex getExistingContentMessage ;;+
    iret (Next (mkVars storeIndex saveStoreIndex
                  (var_addedBlockIndexes vars)) true).

(** The case [<-flushMessages] of the blocking [select]; the variables
    it leaves. *)
Definition serveFlush (vars : maintainerVars) : IM maintainerVars :=
  let+ merged :=
    if (0 <? length (var_addedBlockIndexes vars))%nat
       && negb (bool_decide (accessType = ReadOnly))
    then
      let '(updatedStoreIndex, err) :=
        updateStoreIndex (var_storeIndex vars)
          (var_addedBlockIndexes vars) in
      if isErr err then
        sendIndexFlushReply (ErrorToErrno err ENOMEM) ;;+
        iret (Return vars)
      else iret (Continue (mkVars updatedStoreIndex true []))
    else iret (Continue vars) in
  match merged with
  | Return vars => iret vars
  | Continue vars =>
      let+ saved :=
        if var_saveStoreIndex vars then
          let+ (newStoreIndex, err) :=
            liftFuel (updateRemoteStoreIndex fuel (var_storeIndex vars)) in
          if isErr err then
            sendIndexFlushReply (ErrorToErrno err ENOMEM) ;;+
            iret (Return vars)
          else
            iret (Continue
                    (mkVars
                       (if isSome newStoreIndex then newStoreIndex
                        else var_storeIndex vars)
                       false (var_addedBlockIndexes vars)))
        else iret (Continue vars) in
      match saved with
      | Return vars => iret vars
      | Continue vars => sendIndexFlushReply 0 ;;+ iret vars
      end
  end.

(** A receive from [blockIndexMessages], in either [select]: the
    message is appended to [addedBlockIndexes], or [run] is cleared
    when the channel is closed.  [None] when the channel is neither
    closed nor holds a message. *)
Definition receiveBlockIndex (vars : maintainerVars) (run : bool)
    (t : indexState) : option (outcome (maintainerVars * bool * bool)
                               * indexState) :=
  match blockIndexChan (chans (workers t)) with
  | blockIndexMsg :: _ =>
      Some ((liftM popBlockIndex ;;+
             iret (mkVars (var_storeIndex vars) (var_saveStoreIndex vars)
                     (var_addedBlockIndexes vars
                      ++ [msg_blockIndex blockIndexMsg]),
                   run, true)) t)
  | [] =>
      if blockIndexClosed t then Some (iret (vars, false, false) t)
      else None
  end.

(** The first, non-blocking [select]: the end of the iteration when a
    message was received, or the variables and [run] with which the
    blocking [select] is entered. *)
Definition indexPollStep (c : indexPoll) (vars : maintainerVars)
    (t : indexState)
    : option (outcome (flow iterationEnd (maintainerVars * bool))
              * indexState) :=
  match c with
  | IPollPreflight =>
      match preflightGetChan t with
      | preflightGetMsg :: _ =>
          Some ((let+ r := servePreflight vars preflightGetMsg in
                 iret (Return r)) (popPreflight t))
      | [] => None
      end
  | IPollBlockIndex =>
      match receiveBlockIndex vars true t with
      | Some (Done (vars, run, more), t') =>
          if more then Some (Done (Return (Next vars run)), t')
          else Some (Done (Continue (vars, run)), t')
      | Some (Panicked, t') => Some (Panicked, t')
      | Some (OutOfFuel, t') => Some (OutOfFuel, t')
      | None => None
      end
  | IPollGetExistingContent =>
      match getExistingContentChan t with
      | getExistingContentMessage :: _ =>
          Some ((let+ r :=
                   serveGetExistingContent vars getExistingContentMessage in
                 iret (Return r)) (popGetExistingContent t))
      | [] => None
      end
  | IPollDefault =>
      match preflightGetChan t, blockIndexChan (chans (workers t)),
            getExistingContentChan t with
      | [], [], [] =>
          if blockIndexClosed t then None
          else Some (Done (Continue (vars, true)), t)
      | _, _, _ => None
      end
  end.

(** The blocking [select], entered when nothing was received. *)
Definition indexWaitStep (c : indexWait) (vars : maintainerVars)
    (run : bool) (t : indexState)
    : option (outcome iterationEnd * indexState) :=
  match c with
  | IWaitFlush =>
      match indexFlushChan t with
      | _ :: _ =>
          Some ((let+ vars := serveFlush vars in iret (Next vars run))
                  (popIndexFlush t))
      | [] => None
      end
  | IWaitPreflight =>
      match preflightGetChan t with
      | preflightGetMsg :: _ =>
          Some ((let+ r := servePreflight vars preflightGetMsg in
                 match r with
                 | Next vars _ => iret (Next vars run)
                 | Failed err => iret (Failed err)
                 end) (popPreflight t))
      | [] => None
      end
  | IWaitBlockIndex =>
      match receiveBlockIndex vars run t with
      | Some (Done (vars, run, _), t') => Some (Done (Next vars run), t')
      | Some (Panicked, t') => Some (Panicked, t')
      | Some (OutOfFuel, t') => Some (OutOfFuel, t')
      | None => None
      end
  | IWaitGetExistingContent =>
      match getExistingContentChan t with
      | getExistingContentMessage :: _ =>
          Some ((let+ r :=
                   serveGetExistingContent vars getExistingContentMessage in
                 match r with
                 | Next vars _ => iret (Next vars run)
                 | Failed err => iret (Failed err)
                 end) (popGetExistingContent t))
      | [] => None
      end
  end.

(** One iteration of [for run { ... }]. *)
Definition indexIteration (c1 : indexPoll) (c2 : indexWait)
    (vars : maintainerVars) (t : indexState)
    : option (outcome iterationEnd * indexState) :=
  match indexPollStep c1 vars t with
  | None => None
  | Some (Done (Return r), t') => Some (Done r, t')
  | Some (Done (Continue (vars, run)), t') => indexWaitStep c2 vars run t'
  | Some (Panicked, t') => Some (Panicked, t')
  | Some (OutOfFuel, t') => Some (OutOfFuel, t')
  end.

(** What follows the loop. *)
Definition finishIndex (vars : maintainerVars) : IM (option error) :=
  if decide (accessType = ReadOnly) then iret None
  else
    let+ merged :=
      if (0 <? length (var_addedBlockIndexes vars))%nat then
        let '(updatedStoreIndex, err) :=
          updateStoreIndex (var_storeIndex vars)
            (var_addedBlockIndexes vars) in
        if isErr err then
          iret (Return
                  (Wrapf err
                     "WARNING: Failed to update store index with added blocks"))
        else iret (Continue (mkVars updatedStoreIndex true []))
      else iret (Continue vars) in
    match merged with
    | Return err => iret err
    | Continue vars =>
        if var_saveStoreIndex vars then
          let+ (newIndex, err) :=
            liftFuel (updateRemoteStoreIndex fuel (var_storeIndex vars)) in
          if isErr err then iret err else iret None
        else iret None
    end.

(** The loop under a schedule for its [select] statements, and a
    schedule for the error state should it be entered.  The outer
    [None] means that a schedule ends too early or asks for a case that
    is not ready. *)
Fixpoint indexLoop (schedule : list (indexPoll * indexWait))
    (errorSchedule : list errorCase) (vars : maintainerVars)
    (t : indexState) : option (outcome (option error) * indexState) :=
  match schedule with
  | [] => None
  | (c1, c2) :: rest =>
      match indexIteration c1 c2 vars t with
      | None => None
      | Some (Done (Next vars true), t') =>
          indexLoop rest errorSchedule vars t'
      | Some (Done (Next vars false), t') => Some (finishIndex vars t')
      | Some (Done (Failed err), t') =>
          match storeIndexWorkerReplyErrorState errorSchedule t' with
          | Some t'' => Some (Done err, t'')
          | None => None
          end
      | Some (Panicked, t') => Some (Panicked, t')
      | Some (OutOfFuel, t') => Some (OutOfFuel, t')
      end
  end.

Definition contentIndexWorker (schedule : list (indexPoll * indexWait))
    (errorSchedule : list errorCase) (t : indexState)
    : option (outcome (option error) * indexState) :=
  match NewClient t with
  | (Done err, t') =>
      if isErr err then
        match storeIndexWorkerReplyErrorState errorSchedule t' with
        | Some t'' => Some (Done (Wrapf err blobStoreName), t'')
        | None => None
        end
      else indexLoop schedule errorSchedule (mkVars None false []) t'
  | (Panicked, t') => Some (Panicked, t')
  | (OutOfFuel, t') => Some (OutOfFuel, t')
  end.

End MaintainerLoop.
(** *** What the error state serves *)

(** The events of [storeIndexWorkerReplyErrorState]: a flush is answered
    with 0, a query for the existing content with [EINVAL]. *)
Definition errorStateEvent (e : indexEvent) : Prop :=
  match e with
  | IxFlushReply v => v = 0
  | IxExistingContentComplete _ storeIndex errno =>
      storeIndex = None /\ errno = EINVAL
  | _ => False
  end.

(** From [t] to [t']: the flush messages [flushed] and the queries
    [queries] were taken from their channels and answered, block index
    messages were dropped, and nothing else has changed. *)
Definition errorServed (t t' : indexState) : Prop :=
  blobStore (workers t') = blobStore (workers t)
  /\ trace (workers t') = trace (workers t)
  /\ prefetchBlockChan (chans (workers t'))
     = prefetchBlockChan (chans (workers t))
  /\ preflightGetChan t' = preflightGetChan t
  /\ blockIndexClosed t' = blockIndexClosed t
  /\ exists evs flushed queries dropped,
       indexTrace t' = indexTrace t ++ evs
       /\ Forall errorStateEvent evs
       /\ indexFlushChan t = flushed ++ indexFlushChan t'
       /\ indexFlushReplyChan t'
          = indexFlushReplyChan t ++ ((fun _ => 0) <$> flushed)
       /\ getExistingContentChan t = queries ++ getExistingContentChan t'
       /\ Forall (fun q =>
                    IxExistingContentComplete (existing_asyncCompleteAPI q)
                      None EINVAL ∈ evs) queries
       /\ blockIndexChan (chans (workers t))
          = dropped ++ blockIndexChan (chans (workers t')).

(** *** Small instances to run the maintainer *)

Definition testLongtailIndex : LongtailIndex := {|
  CreateStoreIndexFromBlocks := fun handles => (Some (omap id handles), 0);
  ReadBlockIndexFromBuffer := fun blob =>
    match blob with
    | x :: _ => (Some (mkBlockIndex (Z.of_N (Byte.to_N x)) []), 0)
    | [] => (None, EBADF)
    end;
  GetExistingStoreIndex := fun storeIndex _ _ => (storeIndex, 0)
|}.

(** No URI parses, and every path names an empty directory. *)
Definition testBackends : BlobBackends := {|
  urlParse := fun _ => None;
  NewGCSBlobStore := fun _ => CreateFailed (ErrDriver "no driver");
  NewS3BlobStore := fun _ => CreateFailed (ErrDriver "no driver");
  NewFSBlobStore := fun _ => Created (mkBlobStore ∅ [])
|}.

(** The state of a store with [n] workers around [s], with no request
    pending. *)
Definition testIndexState (n : Z) (s : remoteStore) : indexState :=
  mkIndexState s n [] [] [] [] false [].


(** A parser that knows one URI: the scheme [file] with nothing behind
    it. *)
Definition fileBackends : BlobBackends := {|
  urlParse := fun uri =>
    if decide (uri = "file://") then Some (mkURL "file" "") else None;
  NewGCSBlobStore := fun _ => CreateFailed (ErrDriver "no driver");
  NewS3BlobStore := fun _ => CreateFailed (ErrDriver "no driver");
  NewFSBlobStore := fun _ => Created (mkBlobStore ∅ [])
|}.

(** What the scan leaves in the slot of a key on a blob store that
    answers every call, by the object stored under the key: the zero
    value when there is no object, when its content does not decode and
    when the block path of the decoded hash is not the key, and the
    decoded block index otherwise.  A handle that is not valid returned
    with status 0 makes [GetBlockHash] panic. *)
Definition scannedSlot `{LongtailIndex} (blockKey : string)
    (content : option (list Byte.byte)) : outcome blockIndexHandle :=
  match content with
  | None => Done None
  | Some content =>
      match ReadBlockIndexFromBuffer content with
      | (Some bi, 0) =>
          Done (if decide (GetBlockPath "chunks" (GetBlockHash bi) = blockKey)
                then Some bi else None)
      | (None, 0) => Panicked
      | (_, _) => Done None
      end
  end.

(** *** What the maintainer leaves alone *)

(** The events of a reader of the blob store: no write, no lock taken
    for a write, no block index sent. *)
Definition readEvent (e : event) : Prop :=
  match e with
  | EvCall (CallWrite _ _) => False
  | EvCall (CallLockWriteVersion _) => False
  | EvSendBlockIndex _ => False
  | _ => True
  end.

Definition notListing (e : indexEvent) : Prop := e <> IxGetObjects.

(** [keepsBlockIndex m]: [m] neither sends to nor receives from the
    channel of the block indexes. *)
Definition keepsBlockIndex {A} (m : M A) : Prop :=
  forall s, blockIndexChan (chans (m s).2) = blockIndexChan (chans s).

(** From [t] to [t']: the channel of the block indexes is as it was,
    the calls on objects were those of a reader and the blobs were not
    listed. *)
Definition onlyRead (t t' : indexState) : Prop :=
  blockIndexChan (chans (workers t')) = blockIndexChan (chans (workers t))
  /\ blockIndexClosed t' = blockIndexClosed t
  /\ (exists evs,
        trace (workers t') = trace (workers t) ++ evs
        /\ Forall readEvent evs)
  /\ (exists ievs,
        indexTrace t' = indexTrace t ++ ievs /\ Forall notListing ievs).

(** [readsOnly m]: whatever its result, [m] only reads. *)
Definition readsOnly {A} (m : IM A) : Prop :=
  forall t, onlyRead t (m t).2.

(** The variables of a maintainer that has nothing to write. *)
Definition cleanVars (vars : maintainerVars) : Prop :=
  var_saveStoreIndex vars = false /\ var_addedBlockIndexes vars = [].

(** What an iteration of such a maintainer hands to the next one. *)
Definition cleanEnd (r : iterationEnd) : Prop :=
  match r with
  | Next vars _ => cleanVars vars
  | Failed _ => True
  end.

(** * Properties *)

(** ** The block path scheme *)

Section PathScheme.

Import Filepath.

Lemma str_app (a b : list ascii) : str (a ++ b) = str a +:+ str b.
Proof.
  unfold str. induction a as [|c a IH]; simpl; [done | by rewrite IH].
Qed.

Lemma str_bytes_of (s : string) : str (bytes_of s) = s.
Proof. apply string_of_list_ascii_of_string. Qed.

Lemma bytes_of_str (l : list ascii) : bytes_of (str l) = l.
Proof. apply list_ascii_of_string_of_list_ascii. Qed.

Lemma splitSlash_nonempty p : splitSlash p <> [].
Proof.
  destruct p as [|c p]; simpl; [done |].
  case_decide; [done |]. by destruct (splitSlash p).
Qed.

Lemma splitSlash_app a b :
  splitSlash (a ++ slash :: b) = splitSlash a ++ splitSlash b.
Proof.
  induction a as [|c a IH]; simpl.
  - done.
  - case_decide; [by rewrite IH |].
    rewrite IH. pose proof (splitSlash_nonempty a).
    by destruct (splitSlash a).
Qed.

Lemma splitSlash_plain c : slash ∉ c -> splitSlash c = [c].
Proof.
  induction c as [|x c IH]; intros Hc; simpl; [done |].
  rewrite not_elem_of_cons in Hc. destruct Hc as [Hx Hc].
  rewrite decide_False by done. by rewrite IH.
Qed.

Lemma cleanStep_plain r out e : plain e -> cleanStep r out e = e :: out.
Proof.
  intros (H1 & H2 & H3 & _). unfold cleanStep.
  by rewrite !decide_False.
Qed.

Lemma Clean_render p : Clean p = render (isRooted p) (scan p).
Proof. reflexivity. Qed.

Lemma isRooted_app p q : p <> [] -> isRooted (p ++ q) = isRooted p.
Proof. by destruct p. Qed.

Lemma scan_push p c :
  p <> [] -> plain c -> scan (p ++ slash :: c) = c :: scan p.
Proof.
  intros Hp Hc. unfold scan.
  rewrite isRooted_app by done.
  rewrite splitSlash_app, fold_left_app.
  rewrite (splitSlash_plain c) by apply Hc. simpl.
  by apply cleanStep_plain.
Qed.

Lemma joinSlash_snoc xs c :
  xs <> [] -> joinSlash (xs ++ [c]) = joinSlash xs ++ slash :: c.
Proof.
  induction xs as [|x xs IH]; intros Hxs; [done |].
  destruct xs as [|y xs]; [done |].
  change (joinSlash ((x :: y :: xs) ++ [c]))
    with (x ++ slash :: joinSlash ((y :: xs) ++ [c])).
  rewrite IH by done.
  change (joinSlash (x :: y :: xs)) with (x ++ slash :: joinSlash (y :: xs)).
  by rewrite <- app_assoc.
Qed.

(** Whatever was written so far, a real element written last ends the
    cleaned path. *)
Lemma render_push_suffix r out c :
  c <> [] -> exists pre, render r (c :: out) = pre ++ c.
Proof.
  intros Hc. unfold render. simpl rev.
  destruct (decide (rev out = [])) as [E|E].
  - rewrite E. simpl. destruct r.
    + by exists [slash].
    + exists []. by destruct c.
  - rewrite joinSlash_snoc by done. destruct r.
    + exists (slash :: joinSlash (rev out) ++ [slash]).
      simpl. by rewrite <- app_assoc.
    + exists (joinSlash (rev out) ++ [slash]).
      rewrite <- app_assoc. simpl.
      by destruct (joinSlash (rev out)).
Qed.

Lemma render_push r out c :
  out <> [] -> render r out <> [dot] ->
  render r (c :: out) = render r out ++ slash :: c.
Proof.
  intros Hout Hdot. unfold render in *. simpl rev.
  assert (rev out <> []) as E.
  { intros E. apply Hout. by rewrite <- (rev_involutive out), E. }
  rewrite joinSlash_snoc by done.
  destruct r; simpl in *; [done |].
  destruct (joinSlash (rev out)); [done | done].
Qed.

Lemma Clean_nonempty p : Clean p <> [].
Proof.
  unfold Clean. simpl.
  by destruct (if isRooted p then _ else _).
Qed.

Lemma hexDigit_hexChar d : hexChar (hexDigit d).
Proof.
  unfold hexChar, hexDigit. apply list_elem_of_In.
  destruct (Nat.lt_ge_cases (Z.to_nat d)
              (length (bytes_of "0123456789abcdef"))) as [Hlt|Hge].
  - by apply nth_In.
  - rewrite nth_overflow by done. simpl. by left.
Qed.

Lemma hexOfZ_hexChar n h : Forall hexChar (hexOfZ n h).
Proof.
  revert h. induction n as [|n IH]; intros h; simpl; [constructor |].
  apply Forall_app. split; [apply IH |].
  constructor; [apply hexDigit_hexChar | constructor].
Qed.

Lemma hexOfZ_length n h : length (hexOfZ n h) = n.
Proof.
  revert h. induction n as [|n IH]; intros h; simpl; [done |].
  rewrite length_app, IH. simpl. lia.
Qed.

Lemma hexChar_cases c :
  hexChar c -> c <> slash /\ c <> backslash /\ c <> dot.
Proof.
  unfold hexChar. intros Hc.
  repeat (apply elem_of_cons in Hc as [->|Hc]; [by repeat split |]).
  by apply elem_of_nil in Hc.
Qed.

Lemma hex16_no c h : c ∈ hex16 h -> hexChar c.
Proof.
  intros Hc. pose proof (hexOfZ_hexChar 16 h) as HF.
  rewrite Forall_forall in HF. by apply HF.
Qed.

Lemma blockFileName_eq h :
  blockFileName h = "0"%char :: "x"%char :: hex16 h ++ bytes_of ".lsb".
Proof. reflexivity. Qed.

Lemma blockFileName_not_in c h :
  ~ hexChar c -> c ∉ bytes_of "0x.lsb" -> c ∉ blockFileName h.
Proof.
  intros Hhex Hc. rewrite blockFileName_eq.
  rewrite !not_elem_of_cons, not_elem_of_app.
  repeat split.
  - intros ->. apply Hc. set_solver.
  - intros ->. apply Hc. set_solver.
  - intros Hin. by apply Hhex, (hex16_no c h).
  - intros Hin. apply Hc. set_solver.
Qed.

Lemma slash_not_hexChar : ~ hexChar slash.
Proof. intros H. by apply hexChar_cases in H as [? _]. Qed.

Lemma backslash_not_hexChar : ~ hexChar backslash.
Proof. intros H. by apply hexChar_cases in H as (_ & ? & _). Qed.

Lemma blockFileName_plain h : plain (blockFileName h).
Proof.
  repeat split; try done.
  apply blockFileName_not_in; [apply slash_not_hexChar |].
  unfold slash. set_solver.
Qed.

Lemma hex4_length h : length (hex4 h) = 4%nat.
Proof.
  unfold hex4, hex16. rewrite length_take, hexOfZ_length. done.
Qed.

Lemma hex4_hexChar h : Forall hexChar (hex4 h).
Proof. apply Forall_take, hexOfZ_hexChar. Qed.

Lemma hex4_plain h : plain (hex4 h).
Proof.
  pose proof (hex4_length h) as Hlen.
  repeat split.
  - intros E. by rewrite E in Hlen.
  - intros E. by rewrite E in Hlen.
  - intros E. by rewrite E in Hlen.
  - intros Hin. pose proof (hex4_hexChar h) as HF.
    rewrite Forall_forall in HF. by apply slash_not_hexChar, HF.
Qed.

Lemma slice_blockFileName h : slice 2 6 (blockFileName h) = hex4 h.
Proof.
  unfold slice, hex4. rewrite blockFileName_eq.
  change (drop 2 ("0"%char :: "x"%char :: hex16 h ++ bytes_of ".lsb"))
    with (hex16 h ++ bytes_of ".lsb").
  change (6 - 2)%nat with 4%nat.
  apply take_app_le. unfold hex16. rewrite hexOfZ_length. lia.
Qed.

Lemma isRooted_plain c : plain c -> isRooted c = false.
Proof.
  intros (H1 & _ & _ & H4). destruct c as [|x c]; [done |].
  simpl. apply bool_decide_eq_false. intros ->. apply H4. by left.
Qed.

Lemma Clean_plain c : plain c -> Clean c = c.
Proof.
  intros Hc. rewrite Clean_render. unfold scan.
  rewrite (isRooted_plain c) by done.
  rewrite (splitSlash_plain c) by apply Hc. simpl fold_left.
  rewrite cleanStep_plain by done.
  unfold render. simpl. destruct c; [by destruct Hc | done].
Qed.

Lemma Clean_push p c :
  p <> [] -> plain c ->
  Clean (p ++ slash :: c) = render (isRooted p) (c :: scan p).
Proof.
  intros Hp Hc. rewrite Clean_render, scan_push by done.
  by rewrite isRooted_app.
Qed.

(** Joining a real element to any directory gives a path that ends in
    that element. *)
Lemma Join_nil rest : Join ([] :: rest) = Join rest.
Proof. reflexivity. Qed.

Lemma Join_first e rest :
  e <> [] -> Join (e :: rest) = Clean (stringsJoin (e :: rest)).
Proof. intros He. simpl. by rewrite decide_False. Qed.

Lemma Join_suffix d f : plain f -> exists pre, Join [d; f] = pre ++ f.
Proof.
  intros Hf. assert (f <> []) as Hne by apply Hf.
  destruct (decide (d = [])) as [->|Hd].
  - rewrite Join_nil, Join_first by done.
    exists []. by apply Clean_plain.
  - rewrite Join_first by done.
    change (stringsJoin [d; f]) with (d ++ slash :: f).
    rewrite Clean_push by done. by apply render_push_suffix.
Qed.

Lemma replaceBackslash_app a b :
  replaceBackslash (a ++ b) = replaceBackslash a ++ replaceBackslash b.
Proof. apply map_app. Qed.

Lemma replaceBackslash_id s : backslash ∉ s -> replaceBackslash s = s.
Proof.
  induction s as [|c s IH]; intros Hs; simpl; [done |].
  rewrite not_elem_of_cons in Hs. destruct Hs as [Hc Hs].
  rewrite decide_False by done. by rewrite IH.
Qed.

Lemma replaceBackslash_clear s : backslash ∉ replaceBackslash s.
Proof.
  induction s as [|c s IH]; simpl; [apply not_elem_of_nil |].
  rewrite not_elem_of_cons. split; [| done].
  case_decide; [done | congruence].
Qed.

Lemma blockFileName_no_backslash h : backslash ∉ blockFileName h.
Proof.
  apply blockFileName_not_in; [apply backslash_not_hexChar |].
  unfold backslash. set_solver.
Qed.

Lemma hex4_no_backslash h : backslash ∉ hex4 h.
Proof.
  intros Hin. pose proof (hex4_hexChar h) as HF.
  rewrite Forall_forall in HF. by apply backslash_not_hexChar, HF.
Qed.

(** For every base path the result ends in the file name of the block. *)
Lemma GetBlockPathBytes_suffix b h :
  exists pre, GetBlockPathBytes b h = pre ++ blockFileName h.
Proof.
  unfold GetBlockPathBytes.
  destruct (Join_suffix (Join [b; slice 2 6 (blockFileName h)])
              (blockFileName h) (blockFileName_plain h)) as [pre ->].
  exists (replaceBackslash pre).
  rewrite replaceBackslash_app.
  by rewrite (replaceBackslash_id (blockFileName h))
    by apply blockFileName_no_backslash.
Qed.

(** A base path that [Clean] leaves alone, other than ["."] and ["/"],
    is extended by the shard directory and the file name. *)
Lemma GetBlockPathBytes_clean b h :
  Clean b = b -> b <> [dot] -> b <> [slash] -> backslash ∉ b ->
  GetBlockPathBytes b h = b ++ slash :: hex4 h ++ slash :: blockFileName h.
Proof.
  intros Hclean Hdot Hroot Hbs.
  assert (b <> []) as Hb.
  { intros ->. by apply Hdot. }
  assert (scan b <> []) as Hscan.
  { intros E. rewrite Clean_render, E in Hclean.
    unfold render in Hclean. simpl in Hclean.
    destruct (isRooted b); congruence. }
  assert (Clean (b ++ slash :: hex4 h) = b ++ slash :: hex4 h) as Hdir.
  { rewrite Clean_push by (done || apply hex4_plain).
    rewrite render_push; [| done |].
    - by rewrite <- Clean_render, Hclean.
    - by rewrite <- Clean_render, Hclean. }
  unfold GetBlockPathBytes. rewrite slice_blockFileName.
  assert (Join [b; hex4 h] = b ++ slash :: hex4 h) as ->.
  { by rewrite Join_first. }
  assert (Join [b ++ slash :: hex4 h; blockFileName h]
          = (b ++ slash :: hex4 h) ++ slash :: blockFileName h) as ->.
  { rewrite Join_first by (by destruct b).
    change (stringsJoin [b ++ slash :: hex4 h; blockFileName h])
      with ((b ++ slash :: hex4 h) ++ slash :: blockFileName h).
    rewrite Clean_push by ((by destruct b) || apply blockFileName_plain).
    rewrite isRooted_app by done.
    rewrite scan_push by (done || apply hex4_plain).
    rewrite render_push; [| done |].
    - rewrite <- (isRooted_app b (slash :: hex4 h)) by done.
      rewrite <- (scan_push b (hex4 h)) by (done || apply hex4_plain).
      by rewrite <- Clean_render, Hdir.
    - rewrite <- (isRooted_app b (slash :: hex4 h)) by done.
      rewrite <- (scan_push b (hex4 h)) by (done || apply hex4_plain).
      rewrite <- Clean_render, Hdir. by destruct b as [|? [|? ?]]. }
  rewrite <- app_assoc.
  change ((slash :: hex4 h) ++ slash :: blockFileName h)
    with (slash :: hex4 h ++ slash :: blockFileName h).
  apply replaceBackslash_id.
  rewrite not_elem_of_app, not_elem_of_cons, not_elem_of_app,
    not_elem_of_cons.
  split; [done |]. split; [done |].
  split; [apply hex4_no_backslash |].
  split; [done | apply blockFileName_no_backslash].
Qed.

Lemma hexValue_hexDigit d : 0 <= d < 16 -> hexValue (hexDigit d) = Some d.
Proof.
  intros Hd.
  assert (d = 0 \/ d = 1 \/ d = 2 \/ d = 3 \/ d = 4 \/ d = 5 \/ d = 6
          \/ d = 7 \/ d = 8 \/ d = 9 \/ d = 10 \/ d = 11 \/ d = 12
          \/ d = 13 \/ d = 14 \/ d = 15) as Hcases by lia.
  repeat (destruct Hcases as [->|Hcases]; [reflexivity |]).
  by subst.
Qed.

Lemma parseHexFrom_app acc l l' :
  parseHexFrom acc (l ++ l')
  = match parseHexFrom acc l with
    | Some a => parseHexFrom a l'
    | None => None
    end.
Proof.
  revert acc. induction l as [|c l IH]; intros acc; simpl; [done |].
  destruct (hexValue c); [apply IH | done].
Qed.

Lemma parseHexFrom_hexOfZ n acc h :
  parseHexFrom acc (hexOfZ n h)
  = Some (acc * 16 ^ Z.of_nat n + h mod 16 ^ Z.of_nat n).
Proof.
  revert acc h. induction n as [|n IH]; intros acc h.
  - simpl. rewrite Z.mod_1_r. f_equal. lia.
  - cbn [hexOfZ]. rewrite parseHexFrom_app, IH. cbn [parseHexFrom].
    change 15 with (Z.ones 4).
    rewrite Z.land_ones, Z.shiftr_div_pow2 by lia.
    change (2 ^ 4) with 16.
    rewrite hexValue_hexDigit by (apply Z.mod_pos_bound; lia).
    f_equal. rewrite Nat2Z.inj_succ, Z.pow_succ_r by lia.
    rewrite (Z.rem_mul_r h 16 (16 ^ Z.of_nat n)) by lia.
    lia.
Qed.

Lemma parseHexFrom_hex16 h :
  0 <= h < 2 ^ 64 -> parseHexFrom 0 (hex16 h) = Some h.
Proof.
  intros Hh. unfold hex16. rewrite parseHexFrom_hexOfZ.
  f_equal. change (16 ^ Z.of_nat 16) with (2 ^ 64).
  rewrite Z.mod_small by done. lia.
Qed.

Lemma blockHashOfPath_suffix pre h :
  0 <= h < 2 ^ 64 ->
  blockHashOfPath (str (pre ++ blockFileName h)) = Some h.
Proof.
  intros Hh. unfold blockHashOfPath. rewrite bytes_of_str.
  assert (length (hex16 h) = 16%nat) as Hlen
    by (unfold hex16; apply hexOfZ_length).
  assert (length (blockFileName h) = 22%nat) as Hfn.
  { rewrite blockFileName_eq. cbn [length].
    rewrite length_app, Hlen. reflexivity. }
  assert (length (pre ++ blockFileName h) - 20 = length pre + 2)%nat as ->.
  { rewrite length_app, Hfn. lia. }
  rewrite drop_app_add. rewrite blockFileName_eq.
  change (drop 2 ("0"%char :: "x"%char :: hex16 h ++ bytes_of ".lsb"))
    with (hex16 h ++ bytes_of ".lsb").
  rewrite take_app_le by lia.
  rewrite <- Hlen, firstn_all. by apply parseHexFrom_hex16.
Qed.

End PathScheme.

(** C3, as amended.  For every 64-bit block hash [h]: for a base path [b]
    that [filepath.Join] leaves as it stands, [GetBlockPath b h] is
    [b/hex4/0xhex16.lsb], where [hex16] is the lower-case sixteen-digit
    form of [h] and [hex4] is its first four digits (characters 2..5 of
    the file name [0xhex16.lsb]); for every base path the result has no
    backslash, ends in the file name, and [h] is read back from it. *)
Theorem GetBlockPath_scheme (b : string) (h : Z) :
  0 <= h < 2 ^ 64 ->
  (cleanBase b ->
   GetBlockPath b h
   = b +:+ "/" +:+ str (hex4 h) +:+ "/0x" +:+ str (hex16 h) +:+ ".lsb")
  /\ slice 2 6 (blockFileName h) = take 4 (hex16 h)
  /\ length (hex16 h) = 16%nat
  /\ Forall hexChar (hex16 h)
  /\ backslash ∉ bytes_of (GetBlockPath b h)
  /\ (exists pre,
        GetBlockPath b h = pre +:+ "0x" +:+ str (hex16 h) +:+ ".lsb")
  /\ blockHashOfPath (GetBlockPath b h) = Some h.
Proof.
  intros Hh.
  split; [| split; [| split; [| split; [| split; [| split]]]]].
  - intros (Hclean & Hdot & Hroot & Hbs). unfold GetBlockPath.
    rewrite GetBlockPathBytes_clean; try done.
    + rewrite blockFileName_eq.
      change (slash :: hex4 h ++ slash :: "0"%char :: "x"%char
                :: hex16 h ++ bytes_of ".lsb")
        with (bytes_of "/" ++ hex4 h ++ bytes_of "/0x"
                ++ hex16 h ++ bytes_of ".lsb").
      by rewrite !str_app, !str_bytes_of.
    + intros E. apply Hdot. by rewrite <- (str_bytes_of b), E.
    + intros E. apply Hroot. by rewrite <- (str_bytes_of b), E.
  - apply slice_blockFileName.
  - apply hexOfZ_length.
  - apply hexOfZ_hexChar.
  - unfold GetBlockPath. rewrite bytes_of_str.
    unfold GetBlockPathBytes. apply replaceBackslash_clear.
  - destruct (GetBlockPathBytes_suffix (bytes_of b) h) as [pre Hpre].
    exists (str pre). unfold GetBlockPath. rewrite Hpre, blockFileName_eq.
    change ("0"%char :: "x"%char :: hex16 h ++ bytes_of ".lsb")
      with (bytes_of "0x" ++ hex16 h ++ bytes_of ".lsb").
    by rewrite !str_app, !str_bytes_of.
  - destruct (GetBlockPathBytes_suffix (bytes_of b) h) as [pre Hpre].
    unfold GetBlockPath. rewrite Hpre. by apply blockHashOfPath_suffix.
Qed.

Lemma GetBlockPath_scheme_witness :
  GetBlockPath "chunks" 0x0123456789abcdef
  = "chunks/0123/0x0123456789abcdef.lsb"
  /\ blockHashOfPath (GetBlockPath "chunks" 0x0123456789abcdef)
     = Some 0x0123456789abcdef.
Proof.
  destruct (GetBlockPath_scheme "chunks" 0x0123456789abcdef) as
    (Hpath & _ & _ & _ & _ & _ & Hback); [lia |].
  split; [| exact Hback].
  rewrite Hpath; [reflexivity |].
  repeat split; try done.
  vm_compute. intros Hin.
  repeat (apply elem_of_cons in Hin as [Hin|Hin]; [discriminate |]).
  by apply elem_of_nil in Hin.
Defined.

(** C3 as the specification words it fails twice: the shard directory is
    made of the first four digits of the hash, not of its characters
    2..5, and a base path with a backslash is not kept as it stands. *)
Lemma GetBlockPath_spec_counterexample :
  GetBlockPath "chunks" 0x0123456789abcdef
  = "chunks/0123/0x0123456789abcdef.lsb"
  /\ spec_block_path "chunks" 0x0123456789abcdef
     = "chunks/2345/0x0123456789abcdef.lsb"
  /\ GetBlockPath "chunks" 0x0123456789abcdef
     <> spec_block_path "chunks" 0x0123456789abcdef
  /\ GetBlockPath "a\b" 0x0123456789abcdef
     = "a/b/0123/0x0123456789abcdef.lsb"
  /\ GetBlockPath "" 0x0123456789abcdef = "0123/0x0123456789abcdef.lsb".
Proof.
  split; [reflexivity |]. split; [reflexivity |].
  split; [vm_compute; discriminate |].
  split; reflexivity.
Qed.

(** ** Running the operations *)

(** The equations below run one primitive on a store given by its
    fields; they are used to execute the operations step by step. *)
Section Run.
Context `{LT : Longtail}.
Variables (objs : gmap string (list Byte.byte)) (scr : list fault)
  (ch : channels) (pm mpm : Z)
  (pb : gmap Z (option pendingPrefetchedBlock))
  (st : BlockStoreStats) (tr : list event).

Lemma bind_run {A B} (m : M A) (k : A -> M B) s a s' :
  m s = (Some a, s') -> bind m k s = k a s'.
Proof. intros H. unfold bind. by rewrite H. Qed.

Lemma bind_panic {A B} (m : M A) (k : A -> M B) s s' :
  m s = (None, s') -> bind m k s = (None, s').
Proof. intros H. unfold bind. by rewrite H. Qed.

Lemma emit_run e :
  emit e (mkStore (mkBlobStore objs scr) ch pm mpm pb st tr)
  = (Some tt, (mkStore (mkBlobStore objs scr) ch pm mpm pb st (tr ++ [e]))).
Proof. reflexivity. Qed.

Lemma logRetry_run msg key :
  logRetry msg key (mkStore (mkBlobStore objs scr) ch pm mpm pb st tr)
  = (Some tt, (mkStore (mkBlobStore objs scr) ch pm mpm pb st (tr ++ [EvLogKey msg key]))).
Proof. reflexivity. Qed.

Lemma OnGetComplete_run c sb errno :
  OnGetComplete c sb errno (mkStore (mkBlobStore objs scr) ch pm mpm pb st tr)
  = (Some tt, (mkStore (mkBlobStore objs scr) ch pm mpm pb st (tr ++ [EvGetComplete c sb errno]))).
Proof. reflexivity. Qed.

Lemma OnPutComplete_run c errno :
  OnPutComplete c errno (mkStore (mkBlobStore objs scr) ch pm mpm pb st tr)
  = (Some tt, (mkStore (mkBlobStore objs scr) ch pm mpm pb st (tr ++ [EvPutComplete c errno]))).
Proof. reflexivity. Qed.

Lemma Dispose_run sb :
  Dispose sb (mkStore (mkBlobStore objs scr) ch pm mpm pb st tr)
  = (Some tt, (mkStore (mkBlobStore objs scr) ch pm mpm pb st (tr ++ [EvDispose sb]))).
Proof. reflexivity. Qed.

Lemma AddStat_run k n :
  AddStat k n (mkStore (mkBlobStore objs scr) ch pm mpm pb st tr)
  = (Some tt, (mkStore (mkBlobStore objs scr) ch pm mpm pb (addStat st k n) tr)).
Proof. reflexivity. Qed.

Lemma AddPrefetchMemory_run d :
  AddPrefetchMemory d (mkStore (mkBlobStore objs scr) ch pm mpm pb st tr)
  = (Some tt, (mkStore (mkBlobStore objs scr) ch (wrapInt64 (pm + d)) mpm pb st tr)).
Proof. reflexivity. Qed.

Lemma getSlot_run h :
  getSlot h (mkStore (mkBlobStore objs scr) ch pm mpm pb st tr)
  = (Some (pb !! h), (mkStore (mkBlobStore objs scr) ch pm mpm pb st tr)).
Proof. reflexivity. Qed.

Lemma setSlot_run h v :
  setSlot h v (mkStore (mkBlobStore objs scr) ch pm mpm pb st tr)
  = (Some tt, (mkStore (mkBlobStore objs scr) ch pm mpm (<[h := v]> pb) st tr)).
Proof. reflexivity. Qed.

Lemma deleteSlot_run h :
  deleteSlot h (mkStore (mkBlobStore objs scr) ch pm mpm pb st tr)
  = (Some tt, (mkStore (mkBlobStore objs scr) ch pm mpm (delete h pb) st tr)).
Proof. reflexivity. Qed.

Lemma sendBlockIndex_run bi :
  sendBlockIndex bi (mkStore (mkBlobStore objs scr) ch pm mpm pb st tr)
  = (Some tt, (mkStore (mkBlobStore objs scr) (mkChannels (putBlockChan ch) (putClosed ch) (getBlockChan ch) (prefetchBlockChan ch) (blockIndexChan ch ++ [mkBlockIndexMessage bi]) (workerFlushChan ch) (workerFlushReplyChan ch)) pm mpm pb st (tr ++ [EvSendBlockIndex bi]))).
Proof. reflexivity. Qed.

Lemma drainPrefetchChan_run :
  drainPrefetchChan (mkStore (mkBlobStore objs scr) ch pm mpm pb st tr)
  = (Some tt, (mkStore (mkBlobStore objs scr) (mkChannels (putBlockChan ch) (putClosed ch) (getBlockChan ch) [] (blockIndexChan ch) (workerFlushChan ch) (workerFlushReplyChan ch)) pm mpm pb st tr)).
Proof. reflexivity. Qed.

Lemma popPut_run :
  popPut (mkStore (mkBlobStore objs scr) ch pm mpm pb st tr)
  = (Some tt, (mkStore (mkBlobStore objs scr) (mkChannels (tail (putBlockChan ch)) (putClosed ch) (getBlockChan ch) (prefetchBlockChan ch) (blockIndexChan ch) (workerFlushChan ch) (workerFlushReplyChan ch)) pm mpm pb st tr)).
Proof. reflexivity. Qed.

Lemma popGet_run :
  popGet (mkStore (mkBlobStore objs scr) ch pm mpm pb st tr)
  = (Some tt, (mkStore (mkBlobStore objs scr) (mkChannels (putBlockChan ch) (putClosed ch) (tail (getBlockChan ch)) (prefetchBlockChan ch) (blockIndexChan ch) (workerFlushChan ch) (workerFlushReplyChan ch)) pm mpm pb st tr)).
Proof. reflexivity. Qed.

Lemma popPrefetch_run :
  popPrefetch (mkStore (mkBlobStore objs scr) ch pm mpm pb st tr)
  = (Some tt, (mkStore (mkBlobStore objs scr) (mkChannels (putBlockChan ch) (putClosed ch) (getBlockChan ch) (tail (prefetchBlockChan ch)) (blockIndexChan ch) (workerFlushChan ch) (workerFlushReplyChan ch)) pm mpm pb st tr)).
Proof. reflexivity. Qed.

Lemma popFlush_run :
  popFlush (mkStore (mkBlobStore objs scr) ch pm mpm pb st tr)
  = (Some tt, (mkStore (mkBlobStore objs scr) (mkChannels (putBlockChan ch) (putClosed ch) (getBlockChan ch) (prefetchBlockChan ch) (blockIndexChan ch) (tail (workerFlushChan ch)) (workerFlushReplyChan ch)) pm mpm pb st tr)).
Proof. reflexivity. Qed.

Lemma sendFlushReply_run v :
  sendFlushReply v (mkStore (mkBlobStore objs scr) ch pm mpm pb st tr)
  = (Some tt, (mkStore (mkBlobStore objs scr) (mkChannels (putBlockChan ch) (putClosed ch) (getBlockChan ch) (prefetchBlockChan ch) (blockIndexChan ch) (workerFlushChan ch) (workerFlushReplyChan ch ++ [v])) pm mpm pb st (tr ++ [EvFlushReply v]))).
Proof. reflexivity. Qed.

Lemma NewObject_proceed key :
  NewObject key (mkStore (mkBlobStore objs (Proceed :: scr)) ch pm mpm pb st tr)
  = (Some (key, None), (mkStore (mkBlobStore objs scr) ch pm mpm pb st (tr ++ [EvCall (CallNewObject key)]))).
Proof. reflexivity. Qed.

Lemma NewObject_fail key e :
  NewObject key (mkStore (mkBlobStore objs (Fail e :: scr)) ch pm mpm pb st tr)
  = (Some (key, Some e), (mkStore (mkBlobStore objs scr) ch pm mpm pb st (tr ++ [EvCall (CallNewObject key)]))).
Proof. reflexivity. Qed.

Lemma NewObject_raced key blob :
  NewObject key (mkStore (mkBlobStore objs (Raced blob :: scr)) ch pm mpm pb st tr)
  = (Some (key, None), (mkStore (mkBlobStore objs scr) ch pm mpm pb st (tr ++ [EvCall (CallNewObject key)]))).
Proof. reflexivity. Qed.

Lemma NewObject_nil key :
  NewObject key (mkStore (mkBlobStore objs []) ch pm mpm pb st tr)
  = (Some (key, None), (mkStore (mkBlobStore objs []) ch pm mpm pb st (tr ++ [EvCall (CallNewObject key)]))).
Proof. reflexivity. Qed.

Lemma ObjExists_proceed key :
  ObjExists key (mkStore (mkBlobStore objs (Proceed :: scr)) ch pm mpm pb st tr)
  = (Some (isSome (objs !! key), None), (mkStore (mkBlobStore objs scr) ch pm mpm pb st (tr ++ [EvCall (CallExists key)]))).
Proof. reflexivity. Qed.

Lemma ObjExists_fail key e :
  ObjExists key (mkStore (mkBlobStore objs (Fail e :: scr)) ch pm mpm pb st tr)
  = (Some (false, Some e), (mkStore (mkBlobStore objs scr) ch pm mpm pb st (tr ++ [EvCall (CallExists key)]))).
Proof. reflexivity. Qed.

Lemma ObjExists_raced key blob :
  ObjExists key (mkStore (mkBlobStore objs (Raced blob :: scr)) ch pm mpm pb st tr)
  = (Some (true, None), (mkStore (mkBlobStore (<[key := blob]> objs) scr) ch pm mpm pb st (tr ++ [EvCall (CallExists key)]))).
Proof. reflexivity. Qed.

Lemma ObjExists_nil key :
  ObjExists key (mkStore (mkBlobStore objs []) ch pm mpm pb st tr)
  = (Some (isSome (objs !! key), None), (mkStore (mkBlobStore objs []) ch pm mpm pb st (tr ++ [EvCall (CallExists key)]))).
Proof. reflexivity. Qed.

Lemma ObjLockWriteVersion_proceed key :
  ObjLockWriteVersion key (mkStore (mkBlobStore objs (Proceed :: scr)) ch pm mpm pb st tr)
  = (Some (isSome (objs !! key), None), (mkStore (mkBlobStore objs scr) ch pm mpm pb st (tr ++ [EvCall (CallLockWriteVersion key)]))).
Proof. reflexivity. Qed.

Lemma ObjLockWriteVersion_fail key e :
  ObjLockWriteVersion key (mkStore (mkBlobStore objs (Fail e :: scr)) ch pm mpm pb st tr)
  = (Some (false, Some e), (mkStore (mkBlobStore objs scr) ch pm mpm pb st (tr ++ [EvCall (CallLockWriteVersion key)]))).
Proof. reflexivity. Qed.

Lemma ObjLockWriteVersion_raced key blob :
  ObjLockWriteVersion key (mkStore (mkBlobStore objs (Raced blob :: scr)) ch pm mpm pb st tr)
  = (Some (true, None), (mkStore (mkBlobStore (<[key := blob]> objs) scr) ch pm mpm pb st (tr ++ [EvCall (CallLockWriteVersion key)]))).
Proof. reflexivity. Qed.

Lemma ObjLockWriteVersion_nil key :
  ObjLockWriteVersion key (mkStore (mkBlobStore objs []) ch pm mpm pb st tr)
  = (Some (isSome (objs !! key), None), (mkStore (mkBlobStore objs []) ch pm mpm pb st (tr ++ [EvCall (CallLockWriteVersion key)]))).
Proof. reflexivity. Qed.

Lemma ObjWrite_proceed key data :
  ObjWrite key data (mkStore (mkBlobStore objs (Proceed :: scr)) ch pm mpm pb st tr)
  = (Some (true, None), (mkStore (mkBlobStore (<[key := data]> objs) scr) ch pm mpm pb st (tr ++ [EvCall (CallWrite key data)]))).
Proof. reflexivity. Qed.

Lemma ObjWrite_fail key data e :
  ObjWrite key data (mkStore (mkBlobStore objs (Fail e :: scr)) ch pm mpm pb st tr)
  = (Some (false, Some e), (mkStore (mkBlobStore objs scr) ch pm mpm pb st (tr ++ [EvCall (CallWrite key data)]))).
Proof. reflexivity. Qed.

Lemma ObjWrite_raced key data blob :
  ObjWrite key data (mkStore (mkBlobStore objs (Raced blob :: scr)) ch pm mpm pb st tr)
  = (Some (false, None), (mkStore (mkBlobStore (<[key := blob]> objs) scr) ch pm mpm pb st (tr ++ [EvCall (CallWrite key data)]))).
Proof. reflexivity. Qed.

Lemma ObjWrite_nil key data :
  ObjWrite key data (mkStore (mkBlobStore objs []) ch pm mpm pb st tr)
  = (Some (true, None), (mkStore (mkBlobStore (<[key := data]> objs) []) ch pm mpm pb st (tr ++ [EvCall (CallWrite key data)]))).
Proof. reflexivity. Qed.

Lemma ObjRead_fail key e :
  ObjRead key (mkStore (mkBlobStore objs (Fail e :: scr)) ch pm mpm pb st tr)
  = (Some (None, Some e), (mkStore (mkBlobStore objs scr) ch pm mpm pb st (tr ++ [EvCall (CallRead key)]))).
Proof. reflexivity. Qed.

Lemma ObjRead_raced key blob :
  ObjRead key (mkStore (mkBlobStore objs (Raced blob :: scr)) ch pm mpm pb st tr)
  = (Some (Some blob, None), (mkStore (mkBlobStore (<[key := blob]> objs) scr) ch pm mpm pb st (tr ++ [EvCall (CallRead key)]))).
Proof. reflexivity. Qed.

Lemma ObjRead_proceed key :
  ObjRead key (mkStore (mkBlobStore objs (Proceed :: scr)) ch pm mpm pb st tr)
  = (Some (match objs !! key with
           | Some blob => (Some blob, None)
           | None => (None, Some ErrENOENT)
           end),
     (mkStore (mkBlobStore objs scr) ch pm mpm pb st (tr ++ [EvCall (CallRead key)]))).
Proof.
  unfold ObjRead, blobCallM. simpl. by destruct (objs !! key).
Qed.

Lemma ObjRead_nil key :
  ObjRead key (mkStore (mkBlobStore objs []) ch pm mpm pb st tr)
  = (Some (match objs !! key with
           | Some blob => (Some blob, None)
           | None => (None, Some ErrENOENT)
           end),
     (mkStore (mkBlobStore objs []) ch pm mpm pb st (tr ++ [EvCall (CallRead key)]))).
Proof.
  unfold ObjRead, blobCallM. simpl. by destruct (objs !! key).
Qed.

End Run.

#[global] Hint Rewrite @emit_run @logRetry_run @OnGetComplete_run
  @OnPutComplete_run @Dispose_run @AddStat_run @AddPrefetchMemory_run
  @getSlot_run @setSlot_run @deleteSlot_run @sendBlockIndex_run
  @drainPrefetchChan_run @popPut_run @popGet_run @popPrefetch_run
  @popFlush_run @sendFlushReply_run
  @NewObject_proceed @NewObject_fail @NewObject_raced @NewObject_nil
  @ObjExists_proceed @ObjExists_fail @ObjExists_raced @ObjExists_nil
  @ObjLockWriteVersion_proceed @ObjLockWriteVersion_fail
  @ObjLockWriteVersion_raced @ObjLockWriteVersion_nil
  @ObjWrite_proceed @ObjWrite_fail @ObjWrite_raced @ObjWrite_nil
  @ObjRead_proceed @ObjRead_fail @ObjRead_raced @ObjRead_nil : run.

(** One step of execution: unfold the sequencing, run the primitive at
    the head, and reduce the tests on its result. *)
Ltac mstep :=
  first
    [ progress autorewrite with run
    | progress unfold bind, ret, panic
    | progress cbv beta iota zeta
    | progress cbn [isErr isSome negb andb orb fst snd writeFailed
                      Z.eqb Pos.eqb Nat.eqb Nat.ltb Nat.leb forM_ hasWaiters
                      storedBlock completeCallbacks get_blockHash
                      get_asyncCompleteAPI prefetch_blockHash
                      put_storedBlock put_asyncCompleteAPI
                      putBlockChan putClosed getBlockChan prefetchBlockChan
                      blockIndexChan workerFlushChan workerFlushReplyChan
                      tail length default ErrorToErrno Wrapf] ].

Ltac destruct_store s :=
  destruct s as [[?objs ?scr] ?ch ?pm ?mpm ?pb ?st ?tr];
  cbn [blobStore objects script chans prefetchMemory maxPrefetchMemory
         prefetchBlocks stats trace] in *.

Ltac mrun := repeat mstep.

(** ** The retry ladder of reads *)

Section ReadLadder.
Context `{LT : Longtail}.

Lemma NewObject_handle key s :
  exists e s1, NewObject key s = (Some (key, e), s1).
Proof.
  unfold NewObject, blobCallM.
  destruct (nextFault (blobStore s)) as [[| |] b]; eauto.
Qed.

Lemma blobCallM_total {A} c (f : fault -> BlobStore -> A * BlobStore) s :
  exists a s1, blobCallM c f s = (Some a, s1).
Proof.
  unfold blobCallM. destruct (nextFault (blobStore s)) as [flt b].
  destruct (f flt b). eauto.
Qed.

#[local] Arguments ObjRead : simpl never.
#[local] Arguments ObjExists : simpl never.

Ltac read_case key :=
  match goal with
  | |- context [ObjRead key ?s] =>
      let H := fresh "Hread" in
      destruct (blobCallM_total (CallRead key)
                  (fun flt b =>
                     match flt with
                     | Proceed =>
                         match objects b !! key with
                         | Some blob => ((Some blob, None), b)
                         | None => ((None, Some ErrENOENT), b)
                         end
                     | Fail e => ((None, Some e), b)
                     | Raced blob =>
                         ((Some blob, None), storeObject key blob b)
                     end) s) as ([? [?|]] & ? & H);
      change (blobCallM (CallRead key) _ s) with (ObjRead key s) in H;
      rewrite H; simpl
  end.

(** The code and the ladder of the specification are the same
    computation. *)
Lemma readBlobWithRetry_refines key s :
  readBlobWithRetry key s = read_with_retry key s.
Proof.
  unfold readBlobWithRetry, read_with_retry, retryLadder.
  cbn [readRetries]. unfold bind, logRetry, ret, emit.
  destruct (NewObject_handle key s) as ([e|] & s1 & ->); simpl; [done |].
  destruct (blobCallM_total (CallExists key)
              (fun flt b =>
                 match flt with
                 | Proceed => ((isSome (objects b !! key), None), b)
                 | Fail e => ((false, Some e), b)
                 | Raced blob => ((true, None), storeObject key blob b)
                 end) s1) as ([[|] [?|]] & s2 & H);
    change (blobCallM (CallExists key) _ s1) with (ObjExists key s1) in H;
    rewrite H; simpl; try done.
  read_case key; [| done].
  read_case key; [| done].
  read_case key; [| done].
  read_case key; done.
Qed.

(** Whatever the blob store does, the read returns, with a retry count
    between 0 and 3. *)
Lemma readBlobWithRetry_returns key s :
  exists d n e s',
    readBlobWithRetry key s = (Some (d, n, e), s') /\ 0 <= n <= 3.
Proof.
  unfold readBlobWithRetry. unfold bind, logRetry, ret, emit.
  destruct (NewObject_handle key s) as ([e|] & s1 & ->); simpl;
    [eexists _, _, _, _; split; [done | lia] |].
  destruct (blobCallM_total (CallExists key)
              (fun flt b =>
                 match flt with
                 | Proceed => ((isSome (objects b !! key), None), b)
                 | Fail e => ((false, Some e), b)
                 | Raced blob => ((true, None), storeObject key blob b)
                 end) s1) as ([[|] [?|]] & s2 & H);
    change (blobCallM (CallExists key) _ s1) with (ObjExists key s1) in H;
    rewrite H; simpl;
    try (eexists _, _, _, _; split; [done | lia]).
  read_case key; [| eexists _, _, _, _; split; [done | lia]].
  read_case key; [| eexists _, _, _, _; split; [done | lia]].
  read_case key; [| eexists _, _, _, _; split; [done | lia]].
  read_case key; eexists _, _, _, _; (split; [done | lia]).
Qed.

Lemma readBlobWithRetry_absent key s rest :
  objects (blobStore s) !! key = None ->
  script (blobStore s) = Proceed :: Proceed :: rest ->
  readBlobWithRetry key s
  = (Some (None, 0, Some ErrENOENT),
     afterCalls [EvCall (CallNewObject key); EvCall (CallExists key)]
       (objects (blobStore s)) rest s).
Proof.
  intros Hobj Hscr.
  destruct s as [[objs scr] ch pm mpm pb st tr]. simpl in *. subst scr.
  unfold afterCalls, with_trace, with_blobStore, readBlobWithRetry. simpl.
  repeat (mstep || rewrite Hobj).
  rewrite <- ?app_assoc. reflexivity.
Qed.

Lemma readBlobWithRetry_success key s d errs rest :
  objects (blobStore s) !! key = Some d ->
  (length errs <= 3)%nat ->
  script (blobStore s)
  = Proceed :: Proceed :: map Fail errs ++ Proceed :: rest ->
  readBlobWithRetry key s
  = (Some (Some d, Z.of_nat (length errs), None),
     afterCalls (ladderEvents key (length errs))
       (objects (blobStore s)) rest s).
Proof.
  intros Hobj Hlen Hscr.
  destruct s as [[objs scr] ch pm mpm pb st tr]. simpl in *. subst scr.
  unfold afterCalls, with_trace, with_blobStore. simpl.
  destruct errs as [|e1 [|e2 [|e3 [|e4 errs]]]]; simpl in Hlen; try lia;
    unfold readBlobWithRetry; simpl map; simpl app;
    repeat (mstep || rewrite Hobj);
    rewrite <- ?app_assoc; reflexivity.
Qed.

Lemma readBlobWithRetry_exhausted key s e1 e2 e3 e4 rest :
  isSome (objects (blobStore s) !! key) = true ->
  script (blobStore s)
  = Proceed :: Proceed :: Fail e1 :: Fail e2 :: Fail e3 :: Fail e4 :: rest ->
  readBlobWithRetry key s
  = (Some (None, 3, Some e4),
     afterCalls (ladderEvents key 3) (objects (blobStore s)) rest s).
Proof.
  intros Hobj Hscr.
  destruct s as [[objs scr] ch pm mpm pb st tr]. simpl in *. subst scr.
  unfold afterCalls, with_trace, with_blobStore, readBlobWithRetry. simpl.
  repeat (mstep || rewrite Hobj).
  rewrite <- ?app_assoc. reflexivity.
Qed.

End ReadLadder.

(** C7.  [readBlobWithRetry] is the retry ladder of the specification:
    the existence check comes first; an absent object gives the not-found
    error with retry count 0 and no read; otherwise the read is tried,
    retried at once, retried after 500 ms and retried after 2 s, and the
    first success returns the bytes with the number of retries used;
    after four failed reads the last error is returned with count 3.
    The count is always between 0 and 3. *)
Theorem readBlobWithRetry_ladder (key : string) (s : remoteStore) :
  readBlobWithRetry key s = read_with_retry key s
  /\ (forall rest,
        objects (blobStore s) !! key = None ->
        script (blobStore s) = Proceed :: Proceed :: rest ->
        readBlobWithRetry key s
        = (Some (None, 0, Some ErrENOENT),
           afterCalls [EvCall (CallNewObject key); EvCall (CallExists key)]
             (objects (blobStore s)) rest s))
  /\ (forall d errs rest,
        objects (blobStore s) !! key = Some d ->
        (length errs <= 3)%nat ->
        script (blobStore s)
        = Proceed :: Proceed :: map Fail errs ++ Proceed :: rest ->
        readBlobWithRetry key s
        = (Some (Some d, Z.of_nat (length errs), None),
           afterCalls (ladderEvents key (length errs))
             (objects (blobStore s)) rest s))
  /\ (forall e1 e2 e3 e4 rest,
        isSome (objects (blobStore s) !! key) = true ->
        script (blobStore s)
        = Proceed :: Proceed :: Fail e1 :: Fail e2 :: Fail e3 :: Fail e4
            :: rest ->
        readBlobWithRetry key s
        = (Some (None, 3, Some e4),
           afterCalls (ladderEvents key 3) (objects (blobStore s)) rest s))
  /\ (exists d n e s',
        readBlobWithRetry key s = (Some (d, n, e), s') /\ 0 <= n <= 3).
Proof.
  split; [apply readBlobWithRetry_refines |].
  split; [intros; by apply readBlobWithRetry_absent |].
  split; [intros; by apply readBlobWithRetry_success |].
  split; [intros; by eapply readBlobWithRetry_exhausted |].
  apply readBlobWithRetry_returns.
Qed.

(** A read that fails twice and then succeeds: two retries, the second
    one after the 500 ms sleep; and a read of an absent object. *)
Lemma readBlobWithRetry_ladder_witness :
  let s := testStore {["k" := [Byte.x01]]}
             [Proceed; Proceed; Fail (ErrDriver "a"); Fail (ErrDriver "b");
              Proceed] in
  (readBlobWithRetry "k" s).1
  = Some (Some [Byte.x01], 2, None)
  /\ trace (readBlobWithRetry "k" s).2
     = [EvCall (CallNewObject "k"); EvCall (CallExists "k");
        EvCall (CallRead "k");
        EvLogKey "Retrying getBlob" "k"; EvCall (CallRead "k");
        EvLogKey "Retrying 500 ms delayed getBlob" "k"; EvSleep 500;
        EvCall (CallRead "k")]
  /\ (readBlobWithRetry "k"
        (testStore ∅ [Proceed; Proceed])).1
     = Some (None, 0, Some ErrENOENT).
Proof.
  intros s.
  destruct (readBlobWithRetry_ladder "k" s)
    as (_ & _ & Hok & _).
  destruct (readBlobWithRetry_ladder "k"
              (testStore ∅ [Proceed; Proceed])) as (_ & Habs & _).
  rewrite (Hok [Byte.x01] [ErrDriver "a"; ErrDriver "b"] []);
    [| reflexivity | simpl; lia | reflexivity].
  rewrite (Habs []); [| reflexivity | reflexivity].
  repeat split.
Defined.

(** ** Putting a block *)

Section Put.
Context `{LT : Longtail}.

Lemma ErrnoToError_0 fallback : ErrnoToError 0 fallback = None.
Proof. reflexivity. Qed.

Lemma putStoredBlock_failed s sb blob e1 e2 e3 e4 rest :
  objects (blobStore s) !! blockKey sb = None ->
  WriteStoredBlockToBuffer (Some sb) = (blob, 0) ->
  script (blobStore s)
  = Proceed :: Proceed :: Fail e1 :: Fail e2 :: Fail e3 :: Fail e4 :: rest ->
  putStoredBlock sb s
  = (Some (ErrnoToError 0 ErrEIO),
     with_stats
       (addStat
          (addStat
             (addStat
                (addStat (addStat (stats s) PutStoredBlock_Count 1)
                   PutStoredBlock_RetryCount 1)
                PutStoredBlock_RetryCount 1)
             PutStoredBlock_RetryCount 1)
          PutStoredBlock_FailCount 1)
       (afterCalls (failedPutEvents (blockKey sb) blob)
          (objects (blobStore s)) rest s)).
Proof.
  intros Hobj Henc Hscr. destruct_store s. subst scr.
  unfold putStoredBlock. fold (blockKey sb).
  repeat first [mstep | rewrite Hobj | rewrite Henc].
  unfold afterCalls, with_stats, with_trace, with_blobStore, failedPutEvents.
  cbn [blobStore objects script chans prefetchMemory maxPrefetchMemory
         prefetchBlocks stats trace].
  rewrite <- ?app_assoc. reflexivity.
Qed.

Lemma workerPoll_put accessType s m q :
  accessType <> ReadOnly ->
  putBlockChan (chans s) = m :: q ->
  workerPoll accessType PollPut s
  = Some (match putStoredBlock (put_storedBlock m) (popPut s).2 with
          | (Some err, s1) =>
              (Some (PollEnd true 1),
               with_trace
                 (trace s1
                  ++ [EvPutComplete (put_asyncCompleteAPI m)
                        (ErrorToErrno err EIO)]) s1)
          | (None, s1) => (None, s1)
          end).
Proof.
  intros Hacc Hq. unfold workerPoll, peekPut. rewrite Hq.
  rewrite decide_False by done.
  unfold bind at 1. cbn [popPut snd].
  unfold bind at 1.
  destruct (putStoredBlock _ _) as [[err|] s1]; [| done].
  reflexivity.
Qed.

Lemma workerWait_put accessType run s m q :
  accessType <> ReadOnly ->
  putBlockChan (chans s) = m :: q ->
  workerWait accessType WaitPut run s
  = Some (match putStoredBlock (put_storedBlock m) (popPut s).2 with
          | (Some err, s1) =>
              (Some run,
               with_trace
                 (trace s1
                  ++ [EvPutComplete (put_asyncCompleteAPI m)
                        (ErrorToErrno err EIO)]) s1)
          | (None, s1) => (None, s1)
          end).
Proof.
  intros Hacc Hq. unfold workerWait, peekPut. rewrite Hq.
  rewrite !decide_False by done.
  destruct (prefetchMemory s <? maxPrefetchMemory s);
    unfold bind at 1; cbn [popPut snd]; unfold bind at 1;
    (destruct (putStoredBlock _ _) as [[err|] s1]; [| done]);
    reflexivity.
Qed.

(** An object that is present is not written: the block index is sent
    and the put succeeds. *)
Lemma putStoredBlock_present s sb d copy rest :
  objects (blobStore s) !! blockKey sb = Some d ->
  BlockIndexCopy (blockIndex sb) = (copy, None) ->
  script (blobStore s) = Proceed :: Proceed :: rest ->
  exists s',
    putStoredBlock sb s = (Some None, s')
    /\ trace s' = trace s ++ putEvents (blockKey sb) None copy
    /\ objects (blobStore s') = objects (blobStore s)
    /\ script (blobStore s') = rest
    /\ blockIndexChan (chans s')
       = blockIndexChan (chans s) ++ [mkBlockIndexMessage copy]
    /\ putBlockChan (chans s') = putBlockChan (chans s).
Proof.
  intros Hobj Hcopy Hscr. destruct_store s. subst scr.
  unfold putStoredBlock. fold (blockKey sb).
  repeat first [mstep | rewrite Hobj | rewrite Hcopy].
  eexists. split; [reflexivity |].
  cbn [blobStore objects script chans trace blockIndexChan putBlockChan].
  unfold putEvents. rewrite <- ?app_assoc. by repeat split.
Qed.

(** An object that is absent is written once, the block index is sent
    and the put succeeds. *)
Lemma putStoredBlock_absent s sb blob copy rest :
  objects (blobStore s) !! blockKey sb = None ->
  WriteStoredBlockToBuffer (Some sb) = (blob, 0) ->
  BlockIndexCopy (blockIndex sb) = (copy, None) ->
  script (blobStore s) = Proceed :: Proceed :: Proceed :: rest ->
  exists s',
    putStoredBlock sb s = (Some None, s')
    /\ trace s' = trace s ++ putEvents (blockKey sb) (Some blob) copy
    /\ objects (blobStore s') = <[blockKey sb := blob]> (objects (blobStore s))
    /\ script (blobStore s') = rest
    /\ blockIndexChan (chans s')
       = blockIndexChan (chans s) ++ [mkBlockIndexMessage copy]
    /\ putBlockChan (chans s') = putBlockChan (chans s).
Proof.
  intros Hobj Henc Hcopy Hscr. destruct_store s. subst scr.
  unfold putStoredBlock. fold (blockKey sb).
  repeat first [mstep | rewrite Hobj | rewrite Henc | rewrite Hcopy].
  eexists. split; [reflexivity |].
  cbn [blobStore objects script chans trace blockIndexChan putBlockChan].
  unfold putEvents. rewrite <- ?app_assoc. by repeat split.
Qed.

(** Whatever the blob store does, a put writes nothing when the object
    is there. *)
Lemma putStoredBlock_writes_only_absent s sb :
  isSome (objects (blobStore s) !! blockKey sb) = true ->
  exists evs,
    trace (putStoredBlock sb s).2 = trace s ++ evs
    /\ Forall (fun e => ~ isWrite e) evs.
Proof.
  intros Hobj. destruct_store s.
  destruct (objs !! blockKey sb) as [d|] eqn:Hd; [clear Hobj | done].
  unfold putStoredBlock. fold (blockKey sb).
  destruct (BlockIndexCopy (blockIndex sb)) as [copy [ce|]] eqn:Hcopy;
    (destruct scr as [|f1 scr];
       [| destruct f1; (destruct scr as [|f2 scr]; [| destruct f2])]);
    repeat first [mstep | rewrite Hd | rewrite Hcopy];
    cbn [trace snd];
    (eexists; split; [rewrite <- ?app_assoc; reflexivity |]);
    repeat constructor; simpl; tauto.
Qed.

Lemma putStoredBlock_twice s sb blob copy rest :
  objects (blobStore s) !! blockKey sb = None ->
  WriteStoredBlockToBuffer (Some sb) = (blob, 0) ->
  BlockIndexCopy (blockIndex sb) = (copy, None) ->
  script (blobStore s)
  = Proceed :: Proceed :: Proceed :: Proceed :: Proceed :: rest ->
  exists s1 s2,
    putStoredBlock sb s = (Some None, s1)
    /\ putStoredBlock sb s1 = (Some None, s2)
    /\ trace s2
       = trace s ++ putEvents (blockKey sb) (Some blob) copy
           ++ putEvents (blockKey sb) None copy
    /\ objects (blobStore s2) = <[blockKey sb := blob]> (objects (blobStore s))
    /\ blockIndexChan (chans s2)
       = blockIndexChan (chans s)
           ++ [mkBlockIndexMessage copy; mkBlockIndexMessage copy].
Proof.
  intros Hobj Henc Hcopy Hscr.
  destruct (putStoredBlock_absent s sb blob copy _ Hobj Henc Hcopy Hscr)
    as (s1 & Hput1 & Htr1 & Hobj1 & Hscr1 & Hbi1 & _).
  destruct (putStoredBlock_present s1 sb blob copy rest)
    as (s2 & Hput2 & Htr2 & Hobj2 & Hscr2 & Hbi2 & _);
    [by rewrite Hobj1, lookup_insert_eq | done | done |].
  exists s1, s2. split; [done |]. split; [done |].
  rewrite Htr2, Htr1, Hobj2, Hobj1, Hbi2, Hbi1, <- !app_assoc.
  done.
Qed.

(** The completion callback of a put fires after the block index was
    sent, with status 0. *)
Lemma workerPoll_put_absent accessType s m q blob copy rest :
  accessType <> ReadOnly ->
  putBlockChan (chans s) = m :: q ->
  objects (blobStore s) !! blockKey (put_storedBlock m) = None ->
  WriteStoredBlockToBuffer (Some (put_storedBlock m)) = (blob, 0) ->
  BlockIndexCopy (blockIndex (put_storedBlock m)) = (copy, None) ->
  script (blobStore s) = Proceed :: Proceed :: Proceed :: rest ->
  exists s',
    workerPoll accessType PollPut s = Some (Some (PollEnd true 1), s')
    /\ trace s'
       = trace s ++ putEvents (blockKey (put_storedBlock m)) (Some blob) copy
           ++ [EvPutComplete (put_asyncCompleteAPI m) 0].
Proof.
  intros Hacc Hq Hobj Henc Hcopy Hscr.
  rewrite (workerPoll_put accessType s m q) by done.
  destruct (putStoredBlock_absent (popPut s).2 (put_storedBlock m)
              blob copy rest) as (s1 & -> & Htr & _); try done.
  eexists. split; [reflexivity |].
  cbn [trace with_trace ErrorToErrno]. rewrite Htr.
  by rewrite <- app_assoc.
Qed.

Lemma workerPoll_put_present accessType s m q d copy rest :
  accessType <> ReadOnly ->
  putBlockChan (chans s) = m :: q ->
  objects (blobStore s) !! blockKey (put_storedBlock m) = Some d ->
  BlockIndexCopy (blockIndex (put_storedBlock m)) = (copy, None) ->
  script (blobStore s) = Proceed :: Proceed :: rest ->
  exists s',
    workerPoll accessType PollPut s = Some (Some (PollEnd true 1), s')
    /\ trace s'
       = trace s ++ putEvents (blockKey (put_storedBlock m)) None copy
           ++ [EvPutComplete (put_asyncCompleteAPI m) 0].
Proof.
  intros Hacc Hq Hobj Hcopy Hscr.
  rewrite (workerPoll_put accessType s m q) by done.
  destruct (putStoredBlock_present (popPut s).2 (put_storedBlock m)
              d copy rest) as (s1 & -> & Htr & _); try done.
  eexists. split; [reflexivity |].
  cbn [trace with_trace ErrorToErrno]. rewrite Htr.
  by rewrite <- app_assoc.
Qed.

Lemma workerPoll_put_failed accessType s m q blob e1 e2 e3 e4 rest :
  accessType <> ReadOnly ->
  putBlockChan (chans s) = m :: q ->
  objects (blobStore s) !! blockKey (put_storedBlock m) = None ->
  WriteStoredBlockToBuffer (Some (put_storedBlock m)) = (blob, 0) ->
  script (blobStore s)
  = Proceed :: Proceed :: Fail e1 :: Fail e2 :: Fail e3 :: Fail e4 :: rest ->
  exists s',
    workerPoll accessType PollPut s = Some (Some (PollEnd true 1), s')
    /\ trace s'
       = trace s ++ failedPutEvents (blockKey (put_storedBlock m)) blob
           ++ [EvPutComplete (put_asyncCompleteAPI m) 0]
    /\ objects (blobStore s') = objects (blobStore s)
    /\ blockIndexChan (chans s') = blockIndexChan (chans s).
Proof.
  intros Hacc Hq Hobj Henc Hscr.
  rewrite (workerPoll_put accessType s m q) by done.
  rewrite (putStoredBlock_failed (popPut s).2 (put_storedBlock m)
             blob e1 e2 e3 e4 rest) by done.
  eexists. split; [reflexivity |].
  rewrite ErrnoToError_0.
  destruct_store s.
  cbn [trace with_trace with_stats afterCalls popPut snd chans blobStore
         with_blobStore with_chans objects blockIndexChan ErrorToErrno
         prefetchMemory maxPrefetchMemory prefetchBlocks stats].
  by rewrite <- app_assoc.
Qed.

End Put.

(** C10.  When the object of a put is absent and all four writes fail,
    [putStoredBlock] counts the failure in [PutStoredBlock_FailCount] but
    returns the error made from the status of the encoding, which is 0,
    that is the nil error: nothing was stored, no block index was sent,
    and the worker invokes the completion callback of the put with
    status 0. *)
Theorem putStoredBlock_failed_write_reports_success `{LT : Longtail}
    (accessType : AccessType) (s : remoteStore) (m : putBlockMessage)
    (q : list putBlockMessage) (blob : list Byte.byte)
    (e1 e2 e3 e4 : error) (rest : list fault) :
  accessType <> ReadOnly ->
  putBlockChan (chans s) = m :: q ->
  objects (blobStore s) !! blockKey (put_storedBlock m) = None ->
  WriteStoredBlockToBuffer (Some (put_storedBlock m)) = (blob, 0) ->
  script (blobStore s)
  = Proceed :: Proceed :: Fail e1 :: Fail e2 :: Fail e3 :: Fail e4 :: rest ->
  (exists s1,
     putStoredBlock (put_storedBlock m) s = (Some None, s1)
     /\ None = ErrnoToError (WriteStoredBlockToBuffer
                               (Some (put_storedBlock m))).2 ErrEIO
     /\ stats s1 PutStoredBlock_FailCount
        = wrapUint64 (stats s PutStoredBlock_FailCount + 1)
     /\ trace s1
        = trace s ++ failedPutEvents (blockKey (put_storedBlock m)) blob
     /\ objects (blobStore s1) = objects (blobStore s)
     /\ blockIndexChan (chans s1) = blockIndexChan (chans s))
  /\ (exists s',
        workerPoll accessType PollPut s = Some (Some (PollEnd true 1), s')
        /\ trace s'
           = trace s ++ failedPutEvents (blockKey (put_storedBlock m)) blob
               ++ [EvPutComplete (put_asyncCompleteAPI m) 0]
        /\ objects (blobStore s') = objects (blobStore s)
        /\ blockIndexChan (chans s') = blockIndexChan (chans s)).
Proof.
  intros Hacc Hq Hobj Henc Hscr. split.
  - rewrite (putStoredBlock_failed s (put_storedBlock m) blob e1 e2 e3 e4 rest)
      by done.
    eexists. split; [reflexivity |]. rewrite Henc.
    destruct_store s. by repeat split.
  - by eapply workerPoll_put_failed.
Qed.

Lemma putStoredBlock_failed_write_witness :
  let m := mkPut (mkStoredBlock (mkBlockIndex 1 []) [Byte.x02]) 7%nat in
  let s := with_chans (mkChannels [m] false [] [] [] [] [])
             (testStore ∅
                [Proceed; Proceed; Fail (ErrDriver "a"); Fail (ErrDriver "b");
                 Fail (ErrDriver "c"); Fail (ErrDriver "d")]) in
  exists s',
    workerPoll (LT := testLongtail) ReadWrite PollPut s
    = Some (Some (PollEnd true 1), s')
    /\ last (trace s') = Some (EvPutComplete 7%nat 0)
    /\ objects (blobStore s') = ∅.
Proof.
  intros m s.
  destruct (putStoredBlock_failed_write_reports_success
              (LT := testLongtail) ReadWrite s m []
              [Byte.x01; Byte.x02]
              (ErrDriver "a") (ErrDriver "b") (ErrDriver "c") (ErrDriver "d")
              [])
    as [_ (s' & Hpoll & Htr & Hobj & _)];
    [done | reflexivity | reflexivity | reflexivity | reflexivity |].
  exists s'. split; [exact Hpoll |]. split; [| exact Hobj].
  rewrite Htr. reflexivity.
Defined.

(** C5.  On a store that accepts puts, [putStoredBlock] writes the
    encoded block to the key of the block only when no object is there:
    with the object present nothing is written whatever the blob store
    does; an absent object is written once.  In both cases a copy of the
    block index is sent to the maintainer before the put returns, and the
    completion callback fires after it with status 0.  Putting a block
    twice, one put after the other, on a blob store that answers every
    call writes once and succeeds twice. *)
Theorem putStoredBlock_writes_once `{LT : Longtail}
    (accessType : AccessType) (s : remoteStore) (m : putBlockMessage)
    (q : list putBlockMessage) (blob : list Byte.byte)
    (copy : Longtail_BlockIndex) :
  accessType <> ReadOnly ->
  putBlockChan (chans s) = m :: q ->
  WriteStoredBlockToBuffer (Some (put_storedBlock m)) = (blob, 0) ->
  BlockIndexCopy (blockIndex (put_storedBlock m)) = (copy, None) ->
  (isSome (objects (blobStore s) !! blockKey (put_storedBlock m)) = true ->
   exists evs,
     trace (putStoredBlock (put_storedBlock m) s).2 = trace s ++ evs
     /\ Forall (fun e => ~ isWrite e) evs)
  /\ (forall d rest,
        objects (blobStore s) !! blockKey (put_storedBlock m) = Some d ->
        script (blobStore s) = Proceed :: Proceed :: rest ->
        (exists s1,
           putStoredBlock (put_storedBlock m) s = (Some None, s1)
           /\ trace s1
              = trace s ++ putEvents (blockKey (put_storedBlock m)) None copy
           /\ objects (blobStore s1) = objects (blobStore s)
           /\ blockIndexChan (chans s1)
              = blockIndexChan (chans s) ++ [mkBlockIndexMessage copy])
        /\ (exists s',
              workerPoll accessType PollPut s
              = Some (Some (PollEnd true 1), s')
              /\ trace s'
                 = trace s
                     ++ putEvents (blockKey (put_storedBlock m)) None copy
                     ++ [EvPutComplete (put_asyncCompleteAPI m) 0]))
  /\ (forall rest,
        objects (blobStore s) !! blockKey (put_storedBlock m) = None ->
        script (blobStore s) = Proceed :: Proceed :: Proceed :: rest ->
        (exists s1,
           putStoredBlock (put_storedBlock m) s = (Some None, s1)
           /\ trace s1
              = trace s
                  ++ putEvents (blockKey (put_storedBlock m)) (Some blob) copy
           /\ objects (blobStore s1)
              = <[blockKey (put_storedBlock m) := blob]>
                  (objects (blobStore s))
           /\ blockIndexChan (chans s1)
              = blockIndexChan (chans s) ++ [mkBlockIndexMessage copy])
        /\ (exists s',
              workerPoll accessType PollPut s
              = Some (Some (PollEnd true 1), s')
              /\ trace s'
                 = trace s
                     ++ putEvents (blockKey (put_storedBlock m))
                          (Some blob) copy
                     ++ [EvPutComplete (put_asyncCompleteAPI m) 0]))
  /\ (forall rest,
        objects (blobStore s) !! blockKey (put_storedBlock m) = None ->
        script (blobStore s)
        = Proceed :: Proceed :: Proceed :: Proceed :: Proceed :: rest ->
        exists s1 s2,
          putStoredBlock (put_storedBlock m) s = (Some None, s1)
          /\ putStoredBlock (put_storedBlock m) s1 = (Some None, s2)
          /\ trace s2
             = trace s
                 ++ putEvents (blockKey (put_storedBlock m)) (Some blob) copy
                 ++ putEvents (blockKey (put_storedBlock m)) None copy
          /\ objects (blobStore s2)
             = <[blockKey (put_storedBlock m) := blob]>
                 (objects (blobStore s))
          /\ blockIndexChan (chans s2)
             = blockIndexChan (chans s)
                 ++ [mkBlockIndexMessage copy; mkBlockIndexMessage copy]).
Proof.
  intros Hacc Hq Henc Hcopy.
  split; [apply putStoredBlock_writes_only_absent |].
  split; [| split].
  - intros d rest Hobj Hscr. split.
    + destruct (putStoredBlock_present s (put_storedBlock m) d copy rest)
        as (s1 & ? & ? & ? & _ & ? & _); try done.
      by exists s1.
    + by eapply workerPoll_put_present.
  - intros rest Hobj Hscr. split.
    + destruct (putStoredBlock_absent s (put_storedBlock m) blob copy rest)
        as (s1 & ? & ? & ? & _ & ? & _); try done.
      by exists s1.
    + by eapply workerPoll_put_absent.
  - intros rest Hobj Hscr. by eapply putStoredBlock_twice.
Qed.

Lemma putStoredBlock_writes_once_witness :
  let sb := mkStoredBlock (mkBlockIndex 1 []) [Byte.x02] in
  let key := "chunks/0000/0x0000000000000001.lsb" in
  let s := with_chans (mkChannels [mkPut sb 7%nat] false [] [] [] [] [])
             (testStore ∅ [Proceed; Proceed; Proceed; Proceed; Proceed]) in
  exists s1 s2,
    putStoredBlock (LT := testLongtail) sb s = (Some None, s1)
    /\ putStoredBlock (LT := testLongtail) sb s1 = (Some None, s2)
    /\ trace s2
       = [EvCall (CallNewObject key); EvCall (CallExists key);
          EvCall (CallWrite key [Byte.x01; Byte.x02]);
          EvSendBlockIndex (mkBlockIndex 1 []);
          EvCall (CallNewObject key); EvCall (CallExists key);
          EvSendBlockIndex (mkBlockIndex 1 [])].
Proof.
  intros sb key s.
  destruct (putStoredBlock_writes_once (LT := testLongtail) ReadWrite s
              (mkPut sb 7%nat) [] [Byte.x01; Byte.x02] (mkBlockIndex 1 []))
    as (_ & _ & _ & Htwice);
    [done | reflexivity | reflexivity | reflexivity |].
  destruct (Htwice []) as (s1 & s2 & H1 & H2 & Htr & _);
    [reflexivity | reflexivity |].
  exists s1, s2. split; [exact H1 |]. split; [exact H2 |].
  rewrite Htr. reflexivity.
Defined.

(** ** Puts that overlap *)

Section ConcurrentPutsRun.
Context `{LT : Longtail}.

(** The two parts of [putStoredBlock], run one after the other, are
    [putStoredBlock]. *)
Lemma putStoredBlock_split storedBlock s :
  putStoredBlock storedBlock s
  = (let* r := putStoredBlock_check storedBlock in
     match r with
     | inl err => ret err
     | inr (objHandle, exists_, err) =>
         putStoredBlock_write storedBlock objHandle exists_ err
     end) s.
Proof.
  unfold putStoredBlock, putStoredBlock_check, putStoredBlock_write.
  cbv zeta. unfold bind at 1. symmetry. unfold bind at 1. unfold bind at 1.
  destruct (AddStat PutStoredBlock_Count 1 s) as [[[]|] s1]; [| done].
  unfold bind at 1. symmetry. unfold bind at 1.
  destruct (NewObject _ s1) as [[[objHandle err]|] s2]; [| done].
  destruct (isErr err); [done |].
  unfold bind at 1. symmetry. unfold bind at 1.
  destruct (ObjExists objHandle s2) as [[[exists_ err']|] s3]; [| done].
  reflexivity.
Qed.

(** A worker that takes both its steps in a row handles the message as
    the loop of [remoteWorker] does. *)
Lemma putStep_twice putMsg s :
  match putStep (PutTaken putMsg) s with
  | Some (PutChecked m objHandle exists_ err, s1) =>
      option_map snd (putStep (PutChecked m objHandle exists_ err) s1)
  | Some (_, s1) => Some s1
  | None => None
  end
  = match (let* err := putStoredBlock (put_storedBlock putMsg) in
           OnPutComplete (put_asyncCompleteAPI putMsg)
             (ErrorToErrno err EIO)) s with
    | (Some _, s') => Some s'
    | (None, _) => None
    end.
Proof.
  unfold bind at 1. rewrite putStoredBlock_split. unfold bind at 1.
  unfold putStep at 1.
  destruct (putStoredBlock_check (put_storedBlock putMsg) s)
    as [[[err|[[objHandle exists_] err]]|] s1]; [| | done].
  - unfold ret.
    by destruct (OnPutComplete _ _ s1) as [[[]|] s2].
  - unfold putStep, bind.
    destruct (putStoredBlock_write _ _ _ _ s1) as [[err'|] s2]; [| done].
    by destruct (OnPutComplete _ _ s2) as [[[]|] s3].
Qed.

End ConcurrentPutsRun.

(** C5 as the specification words it fails for puts that overlap.  Two
    workers take a put of the same block each, on an empty blob store
    that answers every call.  When each has the answer of [Exists]
    before the other writes, both find the object absent and both call
    [Write], with the same key and the same bytes, and both puts
    complete with status 0.  When the second worker starts after the
    first is done, there is one [Write]; and two, the second a retry,
    when the first [Write] fails. *)
Lemma putStoredBlock_overlap_counterexample :
  let sb := mkStoredBlock (mkBlockIndex 1 []) [Byte.x02] in
  let key := "chunks/0000/0x0000000000000001.lsb" in
  let blob := [Byte.x01; Byte.x02] in
  let ws := [PutTaken (mkPut sb 1%nat); PutTaken (mkPut sb 2%nat)] in
  let s := testStore ∅ [] in
  option_map (fun r => (r.1, trace r.2))
    (runPuts (LT := testLongtail) [0; 1; 0; 1]%nat ws s)
  = Some ([PutDone; PutDone],
          [EvCall (CallNewObject key); EvCall (CallExists key);
           EvCall (CallNewObject key); EvCall (CallExists key);
           EvCall (CallWrite key blob);
           EvSendBlockIndex (mkBlockIndex 1 []); EvPutComplete 1%nat 0;
           EvCall (CallWrite key blob);
           EvSendBlockIndex (mkBlockIndex 1 []); EvPutComplete 2%nat 0])
  /\ option_map (fun r => writeCalls (trace r.2))
       (runPuts (LT := testLongtail) [0; 0; 1; 1]%nat ws s)
     = Some [(key, blob)]
  /\ option_map
       (fun r => (writeCalls (trace r.2), putCompletions (trace r.2)))
       (runPuts (LT := testLongtail) [0; 0; 1; 1]%nat ws
          (testStore ∅ [Proceed; Proceed; Fail (ErrDriver "write")]))
     = Some ([(key, blob); (key, blob)], [(1%nat, 0); (2%nat, 0)])
  /\ ~ spec_put_idempotence (H := testLongtail) sb 1%nat 2%nat s.
Proof.
  intros sb key blob ws s.
  split; [vm_compute; reflexivity |].
  split; [vm_compute; reflexivity |].
  split; [vm_compute; reflexivity |].
  intros Hspec.
  assert (option_map fst
            (runPuts (LT := testLongtail) [0; 1; 0; 1]%nat ws s)
          = Some [PutDone; PutDone]) as Hws by (vm_compute; reflexivity).
  assert (option_map (fun r => length (writeCalls (trace r.2)))
            (runPuts (LT := testLongtail) [0; 1; 0; 1]%nat ws s)
          = Some 2%nat) as Hn by (vm_compute; reflexivity).
  destruct (runPuts (LT := testLongtail) [0; 1; 0; 1]%nat ws s)
    as [[ws' s']|] eqn:Hrun; [| discriminate Hws].
  cbn [option_map fst snd] in Hws, Hn.
  injection Hws as ->. injection Hn as Hn.
  destruct (Hspec _ _ Hrun) as [Hle _].
  rewrite Hn in Hle. cbn in Hle. lia.
Qed.

(** ** Events of a computation *)

Section Emits.
Context `{LT : Longtail}.

Lemma emits_ret {A} P (a : A) : emits P (ret a).
Proof. intros s. exists []. by rewrite app_nil_r. Qed.

Lemma emits_panic {A} P : emits P (@panic A).
Proof. intros s. exists []. by rewrite app_nil_r. Qed.

Lemma emits_bind {A B} P (m : M A) (k : A -> M B) :
  emits P m -> (forall a, emits P (k a)) -> emits P (bind m k).
Proof.
  intros Hm Hk s. unfold bind.
  destruct (Hm s) as (evs1 & Htr1 & HP1).
  destruct (m s) as [[a|] s1]; cbn [snd] in *.
  - destruct (Hk a s1) as (evs2 & Htr2 & HP2).
    exists (evs1 ++ evs2). rewrite Htr2, Htr1, app_assoc.
    split; [done | by apply Forall_app].
  - by exists evs1.
Qed.

Lemma emits_emit P e : P e -> emits P (emit e).
Proof. intros He s. exists [e]. split; [done | by constructor]. Qed.

Lemma emits_blobCallM {A} P c (f : fault -> BlobStore -> A * BlobStore) :
  P (EvCall c) -> emits P (blobCallM c f).
Proof.
  intros Hc s. exists [EvCall c]. unfold blobCallM.
  destruct (nextFault (blobStore s)) as [flt b]. destruct (f flt b).
  split; [done | by constructor].
Qed.

Lemma blobCallM_trace {A} c (f : fault -> BlobStore -> A * BlobStore)
    s a s1 :
  blobCallM c f s = (Some a, s1) -> trace s1 = trace s ++ [EvCall c].
Proof.
  unfold blobCallM. destruct (nextFault (blobStore s)) as [flt b].
  destruct (f flt b). by intros [= _ <-].
Qed.

Lemma emits_quiet {A} P (m : M A) :
  (forall s, trace (m s).2 = trace s) -> emits P m.
Proof. intros Hm s. exists []. by rewrite app_nil_r, Hm. Qed.

Lemma emits_forM {A} P (l : list A) (body : A -> M unit) :
  (forall a, emits P (body a)) -> emits P (forM_ l body).
Proof.
  intros Hbody. induction l as [|a l IH]; cbn [forM_].
  - apply emits_ret.
  - apply emits_bind; [apply Hbody | intros _; apply IH].
Qed.

Lemma emits_sendBlockIndex P bi :
  P (EvSendBlockIndex bi) -> emits P (sendBlockIndex bi).
Proof. intros He s. exists [EvSendBlockIndex bi]. split; [done | by constructor]. Qed.

Lemma emits_sendFlushReply P v :
  P (EvFlushReply v) -> emits P (sendFlushReply v).
Proof. intros He s. exists [EvFlushReply v]. split; [done | by constructor]. Qed.

End Emits.

(** Decompose a goal [emits P m] along the structure of [m]. *)
Ltac emits_step :=
  match goal with
  | |- emits _ (bind _ _) => apply emits_bind; [| intros ?]
  | |- emits _ (ret _) => apply emits_ret
  | |- emits _ panic => apply emits_panic
  | |- emits _ (emit _) => apply emits_emit
  | |- emits _ (logRetry _ _) => apply emits_emit
  | |- emits _ (OnGetComplete _ _ _) => apply emits_emit
  | |- emits _ (OnPutComplete _ _) => apply emits_emit
  | |- emits _ (Dispose _) => apply emits_emit
  | |- emits _ (NewObject _) => apply emits_blobCallM
  | |- emits _ (ObjExists _) => apply emits_blobCallM
  | |- emits _ (ObjRead _) => apply emits_blobCallM
  | |- emits _ (ObjWrite _ _) => apply emits_blobCallM
  | |- emits _ (ObjLockWriteVersion _) => apply emits_blobCallM
  | |- emits _ (sendBlockIndex _) => apply emits_sendBlockIndex
  | |- emits _ (sendFlushReply _) => apply emits_sendFlushReply
  | |- emits _ (AddStat _ _) => apply emits_quiet; reflexivity
  | |- emits _ (AddPrefetchMemory _) => apply emits_quiet; reflexivity
  | |- emits _ (getSlot _) => apply emits_quiet; reflexivity
  | |- emits _ (setSlot _ _) => apply emits_quiet; reflexivity
  | |- emits _ (deleteSlot _) => apply emits_quiet; reflexivity
  | |- emits _ drainPrefetchChan => apply emits_quiet; reflexivity
  | |- emits _ popPut => apply emits_quiet; reflexivity
  | |- emits _ popGet => apply emits_quiet; reflexivity
  | |- emits _ popPrefetch => apply emits_quiet; reflexivity
  | |- emits _ popFlush => apply emits_quiet; reflexivity
  | |- emits _ (forM_ _ _) => apply emits_forM; intros ?
  | |- emits _ (if ?b then _ else _) => destruct b
  | |- emits _ (match ?x with _ => _ end) => destruct x
  | |- emits _ (let '(_, _) := ?x in _) => destruct x
  end.

Ltac emits_auto := repeat emits_step.

(** ** Puts on a read-only store *)

Section ReadOnlyPut.
Context `{LT : Longtail}.

Lemma workerPoll_readonly_put s m q :
  putBlockChan (chans s) = m :: q ->
  workerPoll ReadOnly PollPut s
  = Some (Some PollContinue, deniedPut m s).
Proof.
  intros Hq. unfold workerPoll, peekPut. rewrite Hq.
  destruct_store s. reflexivity.
Qed.

Lemma workerWait_readonly_put run s m q :
  putBlockChan (chans s) = m :: q ->
  workerWait ReadOnly WaitPut run s = Some (Some run, deniedPut m s).
Proof.
  intros Hq. unfold workerWait, peekPut. rewrite Hq.
  destruct_store s. by destruct (pm <? mpm).
Qed.

End ReadOnlyPut.

(** ** A worker on a read-only store *)

Section ReadOnlyWorker.
Context `{LT : Longtail}.

Ltac ro_auto := emits_auto; try (split; cbn; tauto).

Lemma emits_readBlobWithRetry key :
  emits readOnlyEvent (readBlobWithRetry key).
Proof. unfold readBlobWithRetry. ro_auto. Qed.

Lemma emits_getStoredBlock h : emits readOnlyEvent (getStoredBlock h).
Proof.
  unfold getStoredBlock.
  apply emits_bind; [ro_auto | intros _].
  apply emits_bind; [apply emits_readBlobWithRetry | intros [[d n] e]].
  ro_auto.
Qed.

Lemma emits_deliverCopy sb err c : emits readOnlyEvent (deliverCopy sb err c).
Proof. unfold deliverCopy. ro_auto. Qed.

Lemma emits_fetchBlock getMsg : emits readOnlyEvent (fetchBlock getMsg).
Proof.
  unfold fetchBlock.
  apply emits_bind; [unfold fetchBlock_enter; ro_auto | intros [|]];
    [| apply emits_ret].
  apply emits_bind; [apply emits_getStoredBlock | intros [sb err]].
  unfold fetchBlock_leave. ro_auto. apply emits_deliverCopy.
Qed.

Lemma emits_prefetchBlock prefetchMsg :
  emits readOnlyEvent (prefetchBlock prefetchMsg).
Proof.
  unfold prefetchBlock.
  apply emits_bind; [unfold prefetchBlock_enter; ro_auto | intros [|]];
    [| apply emits_ret].
  apply emits_bind; [apply emits_getStoredBlock | intros [sb err]].
  destruct (isErr err); [apply emits_ret |].
  unfold prefetchBlock_leave. ro_auto; apply emits_deliverCopy.
Qed.

Lemma emits_collectFlushBlocks entries acc :
  emits readOnlyEvent (collectFlushBlocks entries acc).
Proof.
  revert acc. induction entries as [|[k v] entries IH]; intros acc;
    cbn [collectFlushBlocks].
  - apply emits_ret.
  - destruct (hasWaiters v); [| apply IH].
    apply emits_bind; [ro_auto | intros _; apply IH].
Qed.

Lemma emits_flushPrefetch : emits readOnlyEvent flushPrefetch.
Proof.
  unfold flushPrefetch.
  apply emits_bind; [ro_auto | intros _].
  apply emits_bind; [by apply emits_quiet | intros entries].
  apply emits_bind; [apply emits_collectFlushBlocks | intros flushBlocks].
  apply emits_forM. intros h. unfold flushOne. ro_auto.
Qed.

(** Read off the events of a step from what its computation emits. *)
Lemma emits_run {A} (m : M A) s r s' :
  emits readOnlyEvent m -> Some (m s) = Some (r, s') ->
  exists evs, trace s' = trace s ++ evs /\ Forall readOnlyEvent evs.
Proof.
  intros Hm Hrun. apply (inj Some) in Hrun.
  specialize (Hm s). by rewrite Hrun in Hm.
Qed.

Ltac by_emits := let H := fresh in intros H; eapply emits_run; [| exact H].

Lemma workerPoll_readonly c s r s' :
  workerPoll ReadOnly c s = Some (r, s') ->
  exists evs, trace s' = trace s ++ evs /\ Forall readOnlyEvent evs.
Proof.
  unfold workerPoll. destruct c.
  - destruct (peekPut s) as [putMsg| |]; [| | done];
      by_emits.
    + rewrite decide_True by done. ro_auto.
    + apply emits_ret.
  - destruct (getBlockChan (chans s)) as [|getMsg q]; [done |].
    by_emits.
    apply emits_bind; [ro_auto | intros _].
    apply emits_bind; [apply emits_fetchBlock | intros _]. apply emits_ret.
  - destruct (peekPut s); try done.
    destruct (getBlockChan (chans s)); [| done].
    by_emits. apply emits_ret.
Qed.

Lemma workerWait_readonly c run s r s' :
  workerWait ReadOnly c run s = Some (r, s') ->
  exists evs, trace s' = trace s ++ evs /\ Forall readOnlyEvent evs.
Proof.
  assert (emits readOnlyEvent
            (popFlush ;;; flushPrefetch ;;; sendFlushReply 0 ;;; ret run))
    as Hflush.
  { apply emits_bind; [ro_auto | intros _].
    apply emits_bind; [apply emits_flushPrefetch | intros _]. ro_auto. }
  assert (forall getMsg,
            emits readOnlyEvent (popGet ;;; fetchBlock getMsg ;;; ret run))
    as Hget.
  { intros getMsg. apply emits_bind; [ro_auto | intros _].
    apply emits_bind; [apply emits_fetchBlock | intros _]. apply emits_ret. }
  assert (forall putMsg,
            emits readOnlyEvent
              (popPut ;;;
               OnPutComplete (put_asyncCompleteAPI putMsg) EACCES ;;;
               ret run)) as Hput by (intros; ro_auto).
  unfold workerWait.
  destruct (prefetchMemory s <? maxPrefetchMemory s), c;
    try done;
    repeat match goal with
    | |- context [match workerFlushChan (chans s) with _ => _ end] =>
        destruct (workerFlushChan (chans s)); [done |]
    | |- context [match getBlockChan (chans s) with _ => _ end] =>
        destruct (getBlockChan (chans s)); [done |]
    | |- context [match prefetchBlockChan (chans s) with _ => _ end] =>
        destruct (prefetchBlockChan (chans s)); [done |]
    | |- context [match peekPut s with _ => _ end] =>
        destruct (peekPut s); [| | done]
    end;
    by_emits;
    try rewrite decide_True by done;
    try apply Hflush; try apply Hget; try apply Hput; try apply emits_ret.
  apply emits_bind; [ro_auto | intros _].
  apply emits_bind; [apply emits_prefetchBlock | intros _]. apply emits_ret.
Qed.

Lemma workerIteration_readonly c1 c2 s r s' :
  workerIteration ReadOnly c1 c2 s = Some (r, s') ->
  exists evs, trace s' = trace s ++ evs /\ Forall readOnlyEvent evs.
Proof.
  unfold workerIteration.
  destruct (workerPoll ReadOnly c1 s) as [[[[|run received]|] s1]|] eqn:Hpoll;
    [| | | done].
  - intros [= <- <-]. by eapply workerPoll_readonly.
  - destruct (workerPoll_readonly _ _ _ _ Hpoll) as (evs1 & Htr1 & HP1).
    destruct (received =? 0).
    + intros Hwait.
      destruct (workerWait_readonly _ _ _ _ _ Hwait) as (evs2 & Htr2 & HP2).
      exists (evs1 ++ evs2). rewrite Htr2, Htr1, app_assoc.
      split; [done | by apply Forall_app].
    + intros [= <- <-]. by exists evs1.
  - intros [= <- <-]. by eapply workerPoll_readonly.
Qed.

(** Whatever the worker of a read-only store receives, and in whatever
    order, it never calls [Write] and never sends a block index. *)
Lemma workerLoop_readonly schedule s r s' :
  workerLoop ReadOnly schedule s = Some (r, s') ->
  exists evs, trace s' = trace s ++ evs /\ Forall readOnlyEvent evs.
Proof.
  revert s. induction schedule as [|[c1 c2] schedule IH]; intros s; [done |].
  cbn [workerLoop].
  destruct (workerIteration ReadOnly c1 c2 s) as [[[[|]|] s1]|] eqn:Hit;
    [| | | done];
    destruct (workerIteration_readonly _ _ _ _ _ Hit) as (evs1 & Htr1 & HP1).
  - intros Hrest. destruct (IH _ Hrest) as (evs2 & Htr2 & HP2).
    exists (evs1 ++ evs2). rewrite Htr2, Htr1, app_assoc.
    split; [done | by apply Forall_app].
  - intros Hrun.
    destruct (emits_run (flushPrefetch ;;; ret None) s1 r s')
      as (evs2 & Htr2 & HP2); [| exact Hrun |].
    { apply emits_bind; [apply emits_flushPrefetch | intros _].
      apply emits_ret. }
    exists (evs1 ++ evs2). rewrite Htr2, Htr1, app_assoc.
    split; [done | by apply Forall_app].
  - intros [= <- <-]. by exists evs1.
Qed.

Lemma emits_NewClientM : emits readOnlyEvent NewClientM.
Proof. apply emits_blobCallM. split; cbn; tauto. Qed.

Lemma remoteWorker_readonly schedule s r s' :
  remoteWorker ReadOnly schedule s = Some (r, s') ->
  exists evs, trace s' = trace s ++ evs /\ Forall readOnlyEvent evs.
Proof.
  unfold remoteWorker.
  destruct (NewClientM s) as [[err|] s1] eqn:Hclient;
    destruct (emits_run NewClientM s _ s1 emits_NewClientM
                (f_equal Some Hclient)) as (evs1 & Htr1 & HP1).
  - destruct (isErr err).
    + intros [= <- <-]. by exists evs1.
    + intros Hloop.
      destruct (workerLoop_readonly _ _ _ _ Hloop) as (evs2 & Htr2 & HP2).
      exists (evs1 ++ evs2). rewrite Htr2, Htr1, app_assoc.
      split; [done | by apply Forall_app].
  - intros [= <- <-]. by exists evs1.
Qed.

End ReadOnlyWorker.

(** C4.  On a store opened [ReadOnly], a put message received by a worker
    is answered with [EACCES] in each of the three places of the loop
    that receive from the put channel: the first [select], and the
    blocking [select] below and at or above the prefetch memory limit.
    The message is taken from the channel and the callback is invoked;
    the blob store is not called, and no block index is sent.  Over a
    whole run of the worker, whatever it receives, no [Write] is called
    and no block index is sent. *)
Theorem readonly_put_denied `{LT : Longtail} (s : remoteStore)
    (m : putBlockMessage) (q : list putBlockMessage) :
  putBlockChan (chans s) = m :: q ->
  workerPoll ReadOnly PollPut s = Some (Some PollContinue, deniedPut m s)
  /\ (forall run,
        prefetchMemory s < maxPrefetchMemory s ->
        workerWait ReadOnly WaitPut run s = Some (Some run, deniedPut m s))
  /\ (forall run,
        maxPrefetchMemory s <= prefetchMemory s ->
        workerWait ReadOnly WaitPut run s = Some (Some run, deniedPut m s))
  /\ (forall c2,
        workerIteration ReadOnly PollPut c2 s
        = Some (Some true, deniedPut m s))
  /\ trace (deniedPut m s)
     = trace s ++ [EvPutComplete (put_asyncCompleteAPI m) EACCES]
  /\ blobStore (deniedPut m s) = blobStore s
  /\ blockIndexChan (chans (deniedPut m s)) = blockIndexChan (chans s)
  /\ putBlockChan (chans (deniedPut m s)) = q
  /\ stats (deniedPut m s) = stats s
  /\ prefetchBlocks (deniedPut m s) = prefetchBlocks s
  /\ (forall schedule t r t',
        remoteWorker ReadOnly schedule t = Some (r, t') ->
        exists evs, trace t' = trace t ++ evs /\ Forall readOnlyEvent evs).
Proof.
  intros Hq.
  split; [by eapply workerPoll_readonly_put |].
  split; [intros; by eapply workerWait_readonly_put |].
  split; [intros; by eapply workerWait_readonly_put |].
  split.
  { intros c2. unfold workerIteration.
    by rewrite (workerPoll_readonly_put s m q). }
  split; [| split; [| split; [| split; [| split; [| split]]]]];
    try (destruct_store s; cbn in Hq; unfold deniedPut; cbn;
         by rewrite ?Hq).
  intros schedule t r t'. apply remoteWorker_readonly.
Qed.

Lemma readonly_put_denied_witness :
  let m := mkPut (mkStoredBlock (mkBlockIndex 1 []) [Byte.x02]) 7%nat in
  let s := with_chans (mkChannels [m] false [] [] [] [] []) (testStore ∅ []) in
  workerPoll (LT := testLongtail) ReadOnly PollPut s
  = Some (Some PollContinue,
          with_trace [EvPutComplete 7%nat EACCES] (testStore ∅ [])).
Proof.
  intros m s.
  destruct (readonly_put_denied (LT := testLongtail) s m [])
    as [Hpoll _]; [reflexivity |].
  rewrite Hpoll. reflexivity.
Defined.

(** ** Corrupted blocks *)

Section HashMismatch.
Context `{LT : Longtail}.

Lemma ErrnoToError_EBADF : ErrnoToError EBADF ErrEBADF = Some ErrEBADF.
Proof. unfold ErrnoToError. simpl. by destruct (errnoSentinel EBADF). Qed.

Lemma getStoredBlock_mismatch s h data sb errs rest :
  objects (blobStore s) !! GetBlockPath "chunks" h = Some data ->
  (length errs <= 3)%nat ->
  script (blobStore s)
  = Proceed :: Proceed :: map Fail errs ++ Proceed :: rest ->
  ReadStoredBlockFromBuffer data = (Some sb, 0) ->
  GetBlockHash (blockIndex sb) <> h ->
  getStoredBlock h s
  = (Some (None, Some ErrEBADF),
     with_stats
       (addStat
          (addStat
             (addStat (addStat (stats s) GetStoredBlock_Count 1)
                GetStoredBlock_RetryCount (Z.of_nat (length errs)))
             GetStoredBlock_Byte_Count (Z.of_nat (length data)))
          GetStoredBlock_FailCount 1)
       (afterCalls (ladderEvents (GetBlockPath "chunks" h) (length errs))
          (objects (blobStore s)) rest s)).
Proof.
  intros Hobj Hlen Hscr Hdec Hne. destruct_store s. subst scr.
  unfold getStoredBlock.
  set (key := GetBlockPath "chunks" h) in *.
  unfold bind at 1. rewrite AddStat_run. cbv beta iota.
  unfold bind at 1.
  rewrite (readBlobWithRetry_success key _ data errs rest) by done.
  unfold afterCalls, with_trace, with_blobStore.
  cbn [blobStore objects script chans prefetchMemory maxPrefetchMemory
         prefetchBlocks stats trace].
  apply Z.eqb_neq in Hne.
  repeat first [mstep | rewrite Hdec | rewrite Hne].
  by rewrite ErrnoToError_EBADF.
Qed.

Lemma prefetchBlock_error_returns s prefetchMsg s0 s1 sb e :
  prefetchBlock_enter prefetchMsg s = (Some true, s0) ->
  getStoredBlock (prefetch_blockHash prefetchMsg) s0 = (Some (sb, Some e), s1) ->
  prefetchBlock prefetchMsg s = (Some tt, s1).
Proof.
  intros Henter Hget. unfold prefetchBlock.
  unfold bind at 1. rewrite Henter. unfold bind at 1. by rewrite Hget.
Qed.

Lemma prefetchBlock_mismatch s h data sb errs rest :
  prefetchBlocks s !! h = None ->
  objects (blobStore s) !! GetBlockPath "chunks" h = Some data ->
  (length errs <= 3)%nat ->
  script (blobStore s)
  = Proceed :: Proceed :: map Fail errs ++ Proceed :: rest ->
  ReadStoredBlockFromBuffer data = (Some sb, 0) ->
  GetBlockHash (blockIndex sb) <> h ->
  exists s',
    prefetchBlock (mkPrefetch h) s = (Some tt, s')
    /\ prefetchBlocks s' = <[h := Some (mkPending None [])]> (prefetchBlocks s)
    /\ prefetchMemory s' = prefetchMemory s
    /\ stats s' GetStoredBlock_FailCount
       = wrapUint64 (stats s GetStoredBlock_FailCount + 1)
    /\ trace s' = trace s ++ ladderEvents (GetBlockPath "chunks" h) (length errs).
Proof.
  intros Hslot Hobj Hlen Hscr Hdec Hne. destruct_store s. subst scr.
  unfold prefetchBlock, prefetchBlock_enter.
  repeat first [mstep | rewrite Hslot].
  rewrite (getStoredBlock_mismatch _ h data sb errs rest) by done.
  eexists. split; [reflexivity |]. by repeat split.
Qed.

Lemma fetchBlock_mismatch s h c data sb errs rest :
  prefetchBlocks s !! h = None ->
  objects (blobStore s) !! GetBlockPath "chunks" h = Some data ->
  (length errs <= 3)%nat ->
  script (blobStore s)
  = Proceed :: Proceed :: map Fail errs ++ Proceed :: rest ->
  ReadStoredBlockFromBuffer data = (Some sb, 0) ->
  GetBlockHash (blockIndex sb) <> h ->
  exists s',
    fetchBlock (mkGet h c) s = (Some tt, s')
    /\ prefetchBlocks s' = <[h := None]> (prefetchBlocks s)
    /\ prefetchMemory s' = prefetchMemory s
    /\ trace s'
       = trace s ++ ladderEvents (GetBlockPath "chunks" h) (length errs)
           ++ [EvGetComplete c None EBADF].
Proof.
  intros Hslot Hobj Hlen Hscr Hdec Hne. destruct_store s. subst scr.
  unfold fetchBlock, fetchBlock_enter.
  repeat first [mstep | rewrite Hslot].
  rewrite (getStoredBlock_mismatch _ h data sb errs rest) by done.
  unfold fetchBlock_leave, afterCalls, with_stats, with_trace, with_blobStore.
  cbn [blobStore objects script chans prefetchMemory maxPrefetchMemory
         prefetchBlocks stats trace].
  repeat first [mstep | rewrite lookup_insert_eq].
  eexists. split; [reflexivity |].
  cbn [prefetchBlocks prefetchMemory trace].
  rewrite insert_insert_eq, <- app_assoc. by repeat split.
Qed.

End HashMismatch.

(** C6.  When the bytes fetched for hash [h] decode to a block whose own
    hash is another one, [getStoredBlock] returns the bad-file error
    [EBADF] and adds exactly 1 to [GetStoredBlock_FailCount]; it does not
    touch the cache.  [prefetchBlock] returns as soon as
    [getStoredBlock] returns an error, so the slot it reserved stays
    empty and [prefetchMemory] is unchanged; a [fetchBlock] completes its
    callback with [EBADF] and without a block. *)
Theorem getStoredBlock_hash_mismatch `{LT : Longtail} (s : remoteStore)
    (h : Z) (data : list Byte.byte) (sb : storedBlockData)
    (errs : list error) (rest : list fault) :
  objects (blobStore s) !! GetBlockPath "chunks" h = Some data ->
  (length errs <= 3)%nat ->
  script (blobStore s)
  = Proceed :: Proceed :: map Fail errs ++ Proceed :: rest ->
  ReadStoredBlockFromBuffer data = (Some sb, 0) ->
  GetBlockHash (blockIndex sb) <> h ->
  (exists s1,
     getStoredBlock h s = (Some (None, Some ErrEBADF), s1)
     /\ ErrorToErrno (Some ErrEBADF) EIO = EBADF
     /\ stats s1 GetStoredBlock_FailCount
        = wrapUint64 (stats s GetStoredBlock_FailCount + 1)
     /\ prefetchBlocks s1 = prefetchBlocks s
     /\ prefetchMemory s1 = prefetchMemory s)
  /\ (prefetchBlocks s !! h = None ->
      exists s2,
        prefetchBlock (mkPrefetch h) s = (Some tt, s2)
        /\ prefetchBlocks s2
           = <[h := Some (mkPending None [])]> (prefetchBlocks s)
        /\ prefetchMemory s2 = prefetchMemory s
        /\ stats s2 GetStoredBlock_FailCount
           = wrapUint64 (stats s GetStoredBlock_FailCount + 1)
        /\ trace s2
           = trace s ++ ladderEvents (GetBlockPath "chunks" h) (length errs))
  /\ (forall c,
        prefetchBlocks s !! h = None ->
        exists s3,
          fetchBlock (mkGet h c) s = (Some tt, s3)
          /\ prefetchBlocks s3 = <[h := None]> (prefetchBlocks s)
          /\ prefetchMemory s3 = prefetchMemory s
          /\ trace s3
             = trace s ++ ladderEvents (GetBlockPath "chunks" h) (length errs)
                 ++ [EvGetComplete c None EBADF])
  /\ (forall t prefetchMsg t0 t1 sb' e,
        prefetchBlock_enter prefetchMsg t = (Some true, t0) ->
        getStoredBlock (prefetch_blockHash prefetchMsg) t0
        = (Some (sb', Some e), t1) ->
        prefetchBlock prefetchMsg t = (Some tt, t1)).
Proof.
  intros Hobj Hlen Hscr Hdec Hne.
  split; [| split; [| split]].
  - rewrite (getStoredBlock_mismatch s h data sb errs rest) by done.
    eexists. split; [reflexivity |]. destruct_store s. by repeat split.
  - intros Hslot. by eapply prefetchBlock_mismatch.
  - intros c Hslot. by eapply fetchBlock_mismatch.
  - intros. by eapply prefetchBlock_error_returns.
Qed.

(** Scenario 4 of the specification: the object stored for hash 1 holds
    a block whose hash is 2. *)
Lemma getStoredBlock_hash_mismatch_witness :
  let key := "chunks/0000/0x0000000000000001.lsb" in
  let s := testStore {[key := [Byte.x02; Byte.x09]]}
             [Proceed; Proceed; Proceed] in
  exists s1,
    getStoredBlock (LT := testLongtail) 1 s = (Some (None, Some ErrEBADF), s1)
    /\ stats s1 GetStoredBlock_FailCount = 1
    /\ prefetchBlocks s1 = ∅.
Proof.
  intros key s.
  destruct (getStoredBlock_hash_mismatch (LT := testLongtail) s 1
              [Byte.x02; Byte.x09]
              (mkStoredBlock (mkBlockIndex 2 []) [Byte.x09]) [] [])
    as [(s1 & Hget & _ & Hfail & Hcache & _) _];
    [reflexivity | simpl; lia | reflexivity | reflexivity | done |].
  exists s1. split; [exact Hget |]. split; [| exact Hcache].
  rewrite Hfail. reflexivity.
Defined.

(** ** Delivery to the waiters of a prefetch *)

Section PrefetchWaiters.
Context `{LT : Longtail}.

Lemma deliverCopy_run sb c objs scr ch pm mpm pb st tr :
  deliverCopy sb None c (mkStore (mkBlobStore objs scr) ch pm mpm pb st tr)
  = (Some tt,
     mkStore (mkBlobStore objs scr) ch pm mpm pb st
       (tr ++ [copyCompletion sb c])).
Proof.
  unfold deliverCopy, copyCompletion, copyResult. cbn [isErr isSome].
  destruct (WriteStoredBlockToBuffer sb) as [buf errno].
  destruct (negb (errno =? 0)); [reflexivity |].
  destruct (ReadStoredBlockFromBuffer buf) as [blockCopy errno'].
  by destruct (negb (errno' =? 0)).
Qed.

(** The loop over the indices [i .. i+n-1] serves the callbacks at these
    indices, in order. *)
Lemma deliver_indices sb cbs n i objs scr ch pm mpm pb st tr :
  (i + n <= length cbs)%nat ->
  forM_ (seq i n)
    (fun j =>
       match cbs !! j with
       | Some c => deliverCopy sb None c
       | None => panic
       end)
    (mkStore (mkBlobStore objs scr) ch pm mpm pb st tr)
  = (Some tt,
     mkStore (mkBlobStore objs scr) ch pm mpm pb st
       (tr ++ map (copyCompletion sb) (take n (drop i cbs)))).
Proof.
  revert i tr. induction n as [|n IH]; intros i tr Hlen.
  - cbn [seq forM_ take map]. by rewrite app_nil_r.
  - cbn [seq forM_].
    destruct (cbs !! i) as [c|] eqn:Hc;
      [| apply lookup_ge_None in Hc; lia].
    unfold bind. rewrite deliverCopy_run.
    rewrite IH by lia.
    rewrite (drop_S cbs c i Hc). cbn [take map].
    by rewrite <- app_assoc.
Qed.

Lemma callbackOf_served sb l c0 :
  omap callbackOf (map (copyCompletion sb) l ++ [EvGetComplete c0 sb 0])
  = l ++ [c0].
Proof.
  rewrite omap_app. f_equal.
  induction l as [|c l IH]; [done |].
  cbn [map omap list_omap copyCompletion callbackOf]. by rewrite IH.
Qed.

Lemma prefetchBlock_leave_waiters s h sb slot c0 cbs :
  prefetchBlocks s !! h = Some (Some slot) ->
  completeCallbacks slot = c0 :: cbs ->
  prefetchBlock_leave (mkPrefetch h) (Some sb) None s
  = (Some tt,
     with_trace
       (trace s
        ++ map (copyCompletion (Some sb)) (take (length cbs - 1) cbs)
        ++ [EvGetComplete c0 (Some sb) 0])
       (with_prefetchBlocks (<[h := None]> (prefetchBlocks s)) s)).
Proof.
  intros Hslot Hcbs. destruct_store s.
  unfold prefetchBlock_leave.
  repeat first [mstep | rewrite Hslot | rewrite Hcbs].
  replace (S (length cbs) - 1 - 1)%nat with (length cbs - 1)%nat by lia.
  rewrite deliver_indices by (cbn [length]; lia).
  mrun. cbn [lookup list_lookup]. mrun.
  unfold with_trace, with_prefetchBlocks.
  cbn [blobStore objects script chans prefetchMemory maxPrefetchMemory
         prefetchBlocks stats trace drop].
  by rewrite <- app_assoc.
Qed.

Lemma servedByPrefetch_cons c0 cbs :
  servedByPrefetch (c0 :: cbs) = take (length cbs - 1) cbs ++ [c0].
Proof.
  unfold servedByPrefetch. cbn [length drop take].
  by replace (S (length cbs) - 2)%nat with (length cbs - 1)%nat by lia.
Qed.

Lemma servedByPrefetch_length cbs :
  (1 <= length cbs)%nat ->
  length (servedByPrefetch cbs)
  = if decide (length cbs = 1%nat) then 1%nat else (length cbs - 1)%nat.
Proof.
  destruct cbs as [|c0 cbs]; cbn [length]; [lia |]. intros _.
  rewrite servedByPrefetch_cons, length_app, length_take. cbn [length].
  case_decide; lia.
Qed.

(** With two waiters or more, the last one is not served. *)
Lemma servedByPrefetch_misses_last cbs c :
  (2 <= length cbs)%nat -> NoDup cbs -> last cbs = Some c ->
  c ∉ servedByPrefetch cbs.
Proof.
  intros Hlen Hnd Hlast. rewrite last_lookup in Hlast.
  destruct cbs as [|c0 cbs]; [done |].
  rewrite servedByPrefetch_cons. cbn [length pred] in *.
  intros Hin. apply elem_of_app in Hin as [Hin|Hin].
  - apply list_elem_of_lookup in Hin as [j Hj].
    apply lookup_take_Some in Hj as [Hj Hlt].
    assert ((c0 :: cbs) !! S j = Some c) as Hj' by done.
    pose proof (NoDup_lookup _ _ _ _ Hnd Hj' Hlast). lia.
  - apply list_elem_of_singleton in Hin as ->.
    assert ((c0 :: cbs) !! 0%nat = Some c0) as H0 by done.
    pose proof (NoDup_lookup _ _ _ _ Hnd H0 Hlast). lia.
Qed.

End PrefetchWaiters.

(** C2.  When the read of a prefetch succeeded and the slot holds the
    waiting callbacks [c0 :: rest] (K of them, K >= 1), the delivery
    serves the waiters at the indices from 1 up to, but not including,
    the last index K-1, each with a copy of the block, and then the
    waiter at index 0 with the block itself.  One waiter is served once;
    K >= 2 waiters get K-1 completions, and the waiter at the last index
    gets none. *)
Theorem prefetchBlock_serves_all_but_last `{LT : Longtail}
    (s : remoteStore) (h : Z) (sb : storedBlockData)
    (slot : pendingPrefetchedBlock) (c0 : callback) (rest : list callback) :
  prefetchBlocks s !! h = Some (Some slot) ->
  completeCallbacks slot = c0 :: rest ->
  exists s' evs,
    prefetchBlock_leave (mkPrefetch h) (Some sb) None s = (Some tt, s')
    /\ workerStep GoOn (PrefetchRead (mkPrefetch h) (Some sb) None) s
       = Some (Idle, s')
    /\ trace s' = trace s ++ evs
    /\ evs
       = map (copyCompletion (Some sb))
           (take (length (c0 :: rest) - 2) (drop 1 (c0 :: rest)))
         ++ [EvGetComplete c0 (Some sb) 0]
    /\ omap callbackOf evs = servedByPrefetch (c0 :: rest)
    /\ (rest = [] -> evs = [EvGetComplete c0 (Some sb) 0])
    /\ length evs
       = (if decide (length (c0 :: rest) = 1%nat) then 1%nat
          else (length (c0 :: rest) - 1)%nat)
    /\ (forall c,
          (2 <= length (c0 :: rest))%nat -> NoDup (c0 :: rest) ->
          last (c0 :: rest) = Some c ->
          c ∉ omap callbackOf evs)
    /\ prefetchBlocks s' = <[h := None]> (prefetchBlocks s)
    /\ prefetchMemory s' = prefetchMemory s.
Proof.
  intros Hslot Hcbs.
  pose proof (prefetchBlock_leave_waiters s h sb slot c0 rest Hslot Hcbs)
    as Hrun.
  eexists _, _. split; [exact Hrun |].
  split; [cbn [workerStep]; by rewrite Hrun |].
  split; [destruct_store s; reflexivity |].
  assert (omap callbackOf
            (map (copyCompletion (Some sb)) (take (length rest - 1) rest)
             ++ [EvGetComplete c0 (Some sb) 0])
          = servedByPrefetch (c0 :: rest)) as Hserved.
  { by rewrite callbackOf_served, servedByPrefetch_cons. }
  split.
  { cbn [length drop].
    by replace (S (length rest) - 2)%nat with (length rest - 1)%nat by lia. }
  split; [exact Hserved |].
  split; [by intros -> |].
  split.
  { rewrite length_app, length_map, length_take. cbn [length].
    case_decide; lia. }
  split.
  { intros c Hlen Hnd Hlast. rewrite Hserved.
    by apply servedByPrefetch_misses_last. }
  destruct_store s. by split.
Qed.

(** Three waiters 10, 11 and 12: the waiter 11 is served, then the
    waiter 10; the waiter 12 is not. *)
Lemma prefetchBlock_serves_all_but_last_witness :
  let sb := mkStoredBlock (mkBlockIndex 1 []) [Byte.x02] in
  let s := with_prefetchBlocks
             {[1 := Some (mkPending None [10; 11; 12]%nat)]}
             (testStore ∅ []) in
  exists s',
    prefetchBlock_leave (LT := testLongtail) (mkPrefetch 1) (Some sb) None s
    = (Some tt, s')
    /\ trace s'
       = [EvGetComplete 11%nat (Some sb) 0; EvGetComplete 10%nat (Some sb) 0].
Proof.
  intros sb s.
  destruct (prefetchBlock_serves_all_but_last (LT := testLongtail) s 1 sb
              (mkPending None [10; 11; 12]%nat) 10%nat [11; 12]%nat)
    as (s' & evs & Hrun & _ & Htr & Hevs & _);
    [reflexivity | reflexivity |].
  exists s'. split; [exact Hrun |].
  rewrite Htr, Hevs. reflexivity.
Defined.

(** ** Flushing the prefetch cache *)

Section Flush.
Context `{LT : Longtail}.

#[local] Instance waitedFor_dec kv : Decision (waitedFor kv).
Proof. unfold waitedFor. apply _. Defined.

Lemma wrapInt64_add_wrap x y : wrapInt64 (x + wrapInt64 y) = wrapInt64 (x + y).
Proof.
  unfold wrapInt64.
  replace (x + ((y + 2 ^ 63) mod 2 ^ 64 - 2 ^ 63) + 2 ^ 63)
    with (x + (y + 2 ^ 63) mod 2 ^ 64) by lia.
  rewrite Z.add_mod_idemp_r by lia. f_equal. f_equal. lia.
Qed.

Lemma wrapInt64_id x : - 2 ^ 63 <= x < 2 ^ 63 -> wrapInt64 x = x.
Proof. intros Hx. unfold wrapInt64. rewrite Z.mod_small; lia. Qed.

Lemma collectFlushBlocks_run entries acc objs scr ch pm mpm pb st tr :
  collectFlushBlocks entries acc
    (mkStore (mkBlobStore objs scr) ch pm mpm pb st tr)
  = (Some (acc ++ (filter (fun kv => ~ waitedFor kv) entries).*1),
     mkStore (mkBlobStore objs scr) ch pm mpm pb st
       (tr ++ map stillWaitingLog (filter waitedFor entries))).
Proof.
  revert acc tr. induction entries as [|[k v] entries IH]; intros acc tr.
  - cbn. by rewrite !app_nil_r.
  - cbn [collectFlushBlocks]. destruct (hasWaiters v) eqn:Hw.
    + unfold bind. rewrite emit_run, IH.
      rewrite (filter_cons_True waitedFor) by done.
      rewrite (filter_cons_False (fun kv => ~ waitedFor kv))
        by (unfold waitedFor; cbn; rewrite Hw; tauto).
      cbn [map]. by rewrite <- app_assoc.
    + rewrite IH.
      rewrite (filter_cons_False waitedFor)
        by (unfold waitedFor; cbn; congruence).
      rewrite (filter_cons_True (fun kv => ~ waitedFor kv))
        by (unfold waitedFor; cbn; congruence).
      cbn [fmap list_fmap fst]. by rewrite <- app_assoc.
Qed.

Lemma flushOne_run h v objs scr ch pm mpm pb st tr :
  pb !! h = Some v ->
  flushOne h (mkStore (mkBlobStore objs scr) ch pm mpm pb st tr)
  = (Some tt,
     mkStore (mkBlobStore objs scr) ch (releaseMemory pm v) mpm
       (delete h pb) st (tr ++ disposed v)).
Proof.
  intros Hv. unfold flushOne. unfold bind at 1. rewrite getSlot_run, Hv.
  destruct v as [[[sb|] cbs]|]; mrun; cbn [disposed releaseMemory storedBlock];
    by rewrite ?app_nil_r, <- ?app_assoc.
Qed.

Lemma flushLoop_run kvs objs scr ch pm mpm pb st tr :
  NoDup kvs.*1 ->
  (forall k v, (k, v) ∈ kvs -> pb !! k = Some v) ->
  forM_ kvs.*1 flushOne (mkStore (mkBlobStore objs scr) ch pm mpm pb st tr)
  = (Some tt,
     mkStore (mkBlobStore objs scr) ch (foldl releaseMemory pm kvs.*2) mpm
       (foldl (fun m k => delete k m) pb kvs.*1) st
       (tr ++ concat (map (fun kv => disposed kv.2) kvs))).
Proof.
  revert pm pb tr. induction kvs as [|[k v] kvs IH]; intros pm pb tr Hnd Hin.
  - cbn. by rewrite app_nil_r.
  - cbn [fmap list_fmap fst snd forM_ foldl map concat] in *.
    apply NoDup_cons in Hnd as [Hk Hnd].
    unfold bind. rewrite (flushOne_run k v) by (apply Hin; by left).
    rewrite IH; [by rewrite <- app_assoc | done |].
    intros k' v' Hkv. rewrite lookup_delete_ne.
    + apply Hin. by right.
    + intros <-. apply Hk. apply list_elem_of_fmap. by exists (k, v').
Qed.

Lemma foldl_delete_lookup (ks : list Z)
    (m : gmap Z (option pendingPrefetchedBlock)) i :
  foldl (fun m k => delete k m) m ks !! i
  = if decide (i ∈ ks) then None else m !! i.
Proof.
  revert m. induction ks as [|k ks IH]; intros m; cbn [foldl].
  - rewrite decide_False; [done | apply not_elem_of_nil].
  - rewrite IH. destruct (decide (i = k)) as [->|Hne].
    + rewrite lookup_delete_eq.
      rewrite (decide_True (P := k ∈ k :: ks)) by (by left).
      by case_decide.
    + rewrite lookup_delete_ne by done.
      destruct (decide (i ∈ ks)) as [Hin|Hin].
      * by rewrite decide_True by (by right).
      * by rewrite decide_False
          by (intros [?|?]%elem_of_cons; done).
Qed.

Lemma foldl_releaseMemory pm vs :
  - 2 ^ 63 <= pm < 2 ^ 63 ->
  foldl releaseMemory pm vs
  = wrapInt64 (pm - foldr (fun v acc => heldSize v + acc) 0 vs).
Proof.
  intros Hpm.
  assert (forall a, foldl releaseMemory (wrapInt64 a) vs
                    = wrapInt64
                        (a - foldr (fun v acc => heldSize v + acc) 0 vs))
    as Hgen.
  { induction vs as [|v vs IH]; intros a; cbn [foldl foldr].
    - f_equal; lia.
    - destruct v as [[[sb|] cbs]|]; cbn [releaseMemory heldSize storedBlock].
      + rewrite wrapInt64_add_wrap.
        rewrite Z.add_comm, wrapInt64_add_wrap, IH. f_equal; lia.
      + rewrite IH. f_equal; lia.
      + rewrite IH. f_equal; lia. }
  rewrite <- (wrapInt64_id pm) at 1 by done. apply Hgen.
Qed.

Lemma NoDup_fst_filter (P : Z * option pendingPrefetchedBlock -> Prop)
    `{!forall x, Decision (P x)} (l : list (Z * option pendingPrefetchedBlock)) :
  NoDup l.*1 -> NoDup (filter P l).*1.
Proof.
  induction l as [|[k v] l IH]; [done |]. cbn [fmap list_fmap fst].
  intros [Hk Hnd]%NoDup_cons. rewrite filter_cons. case_decide.
  - cbn [fmap list_fmap fst]. apply NoDup_cons. split; [| by apply IH].
    intros Hin. apply Hk. apply list_elem_of_fmap in Hin as [[k' v'] [-> Hin]].
    apply list_elem_of_filter in Hin as [_ Hin].
    apply list_elem_of_fmap. by exists (k', v').
  - by apply IH.
Qed.

Lemma sumSizes_snd kvs :
  foldr (fun v acc => heldSize v + acc) 0 kvs.*2 = sumSizes kvs.
Proof.
  unfold sumSizes. induction kvs as [|[k v] kvs IH]; [done |].
  cbn. by rewrite IH.
Qed.


Lemma flushPrefetch_run objs scr ch pm mpm pb st tr :
  flushPrefetch (mkStore (mkBlobStore objs scr) ch pm mpm pb st tr)
  = (Some tt,
     mkStore (mkBlobStore objs scr)
       (mkChannels (putBlockChan ch) (putClosed ch) (getBlockChan ch) []
          (blockIndexChan ch) (workerFlushChan ch) (workerFlushReplyChan ch))
       (foldl releaseMemory pm
          (filter (fun kv => ~ waitedFor kv) (map_to_list pb)).*2)
       mpm
       (foldl (fun m k => delete k m) pb
          (filter (fun kv => ~ waitedFor kv) (map_to_list pb)).*1)
       st
       (tr ++ map stillWaitingLog (filter waitedFor (map_to_list pb))
        ++ concat (map (fun kv => disposed kv.2)
                     (filter (fun kv => ~ waitedFor kv) (map_to_list pb))))).
Proof.
  unfold flushPrefetch. unfold bind at 1. rewrite drainPrefetchChan_run.
  unfold bind at 1. cbn [prefetchBlocks].
  unfold bind at 1. rewrite collectFlushBlocks_run. cbn [app].
  rewrite flushLoop_run.
  - by rewrite <- app_assoc.
  - apply NoDup_fst_filter, NoDup_fst_map_to_list.
  - intros k v [_ Hin]%list_elem_of_filter.
    by apply elem_of_map_to_list.
Qed.

Lemma flushed_map (pb : gmap Z (option pendingPrefetchedBlock)) :
  foldl (fun m k => delete k m) pb
    (filter (fun kv => ~ waitedFor kv) (map_to_list pb)).*1
  = filter waitedFor pb.
Proof.
  apply map_eq. intros i. rewrite foldl_delete_lookup. case_decide as Hin.
  - apply list_elem_of_fmap in Hin as [[k v] [Hk Hin]]. cbn in Hk. subst k.
    apply list_elem_of_filter in Hin as [Hnw Hin].
    apply elem_of_map_to_list in Hin.
    symmetry. apply map_lookup_filter_None. right.
    intros x Hx. by simplify_eq.
  - destruct (pb !! i) as [v|] eqn:Hv.
    + symmetry. apply map_lookup_filter_Some. split; [done |].
      destruct (decide (waitedFor (i, v))) as [|Hnw]; [done |].
      exfalso. apply Hin. apply list_elem_of_fmap. exists (i, v).
      split; [done |]. apply list_elem_of_filter. split; [done |].
      by apply elem_of_map_to_list.
    + symmetry. apply map_lookup_filter_None. by left.
Qed.

End Flush.

(** C9.  [flushPrefetch] empties the prefetch channel; then every entry
    of the map that is a tombstone or whose slot has no waiting callback
    is removed, the block it holds being disposed and its size taken off
    [prefetchMemory]; every slot with a waiting callback stays in the map
    as it is, with one line printed for it.  The blob store and the
    statistics are not touched.  The entries are visited in the order of
    [map_to_list]. *)
Theorem flushPrefetch_spec `{LT : Longtail} (s : remoteStore) :
  - 2 ^ 63 <= prefetchMemory s < 2 ^ 63 ->
  exists s',
    flushPrefetch s = (Some tt, s')
    /\ prefetchBlockChan (chans s') = []
    /\ putBlockChan (chans s') = putBlockChan (chans s)
    /\ getBlockChan (chans s') = getBlockChan (chans s)
    /\ blockIndexChan (chans s') = blockIndexChan (chans s)
    /\ prefetchBlocks s'
       = filter (fun kv => hasWaiters kv.2 = true) (prefetchBlocks s)
    /\ (forall k v,
          prefetchBlocks s !! k = Some v -> hasWaiters v = true ->
          prefetchBlocks s' !! k = Some v)
    /\ (forall k v,
          prefetchBlocks s !! k = Some v -> hasWaiters v = false ->
          prefetchBlocks s' !! k = None)
    /\ prefetchMemory s'
       = wrapInt64
           (prefetchMemory s
            - sumSizes (filter (fun kv => hasWaiters kv.2 <> true)
                          (map_to_list (prefetchBlocks s))))
    /\ trace s'
       = trace s
         ++ map stillWaitingLog
              (filter (fun kv => hasWaiters kv.2 = true)
                 (map_to_list (prefetchBlocks s)))
         ++ concat
              (map (fun kv => disposed kv.2)
                 (filter (fun kv => hasWaiters kv.2 <> true)
                    (map_to_list (prefetchBlocks s))))
    /\ blobStore s' = blobStore s
    /\ stats s' = stats s.
Proof.
  intros Hpm. destruct_store s.
  rewrite flushPrefetch_run. eexists. split; [reflexivity |].
  cbn [blobStore objects script chans prefetchMemory maxPrefetchMemory
         prefetchBlocks stats trace prefetchBlockChan putBlockChan
         getBlockChan blockIndexChan].
  rewrite flushed_map.
  split; [done |]. split; [done |]. split; [done |]. split; [done |].
  split; [done |].
  split.
  { intros k v Hk Hw. by apply map_lookup_filter_Some. }
  split.
  { intros k v Hk Hw. apply map_lookup_filter_None. right.
    intros x Hx. simplify_eq. unfold waitedFor. cbn. congruence. }
  split.
  { rewrite foldl_releaseMemory by done. by rewrite sumSizes_snd. }
  done.
Qed.

(** A cache with a waited-for slot (hash 1), a completed slot holding a
    block of two bytes (hash 2) and a tombstone (hash 3). *)
Lemma flushPrefetch_spec_witness :
  let sb := mkStoredBlock (mkBlockIndex 2 []) [Byte.x05; Byte.x06] in
  let s := with_prefetchMemory 2
             (with_prefetchBlocks
                {[1 := Some (mkPending None [10%nat]);
                  2 := Some (mkPending (Some sb) []);
                  3 := None]}
                (with_chans
                   (mkChannels [] false [] [mkPrefetch 9] [] [] [])
                   (testStore ∅ []))) in
  exists s',
    flushPrefetch (LT := testLongtail) s = (Some tt, s')
    /\ prefetchBlockChan (chans s') = []
    /\ prefetchBlocks s' !! 1 = Some (Some (mkPending None [10%nat]))
    /\ prefetchBlocks s' !! 2 = None
    /\ prefetchBlocks s' !! 3 = None
    /\ prefetchMemory s' = 0.
Proof.
  intros sb s.
  destruct (flushPrefetch_spec (LT := testLongtail) s)
    as (s' & Hrun & Hch & _ & _ & _ & _ & Hkeep & Hdrop & Hmem & _);
    [cbn; lia |].
  exists s'. split; [exact Hrun |]. split; [exact Hch |].
  split; [by apply Hkeep |].
  split; [by apply (Hdrop 2 (Some (mkPending (Some sb) []))) |].
  split; [by apply (Hdrop 3 None) |].
  rewrite Hmem. vm_compute. reflexivity.
Defined.

Section UpdateIndexTrace.
Context `{LT : Longtail}.

(** Every attempt starts by locking the write version of the object. *)
Lemma tryUpdate_locks_first updated key s :
  exists evs,
    trace (tryUpdateRemoteStoreIndex updated key s).2
    = trace s ++ EvCall (CallLockWriteVersion key) :: evs.
Proof.
  unfold tryUpdateRemoteStoreIndex.
  destruct (blobCallM_total (CallLockWriteVersion key)
              (fun flt b =>
                 match flt with
                 | Proceed => ((isSome (objects b !! key), None), b)
                 | Fail e => ((false, Some e), b)
                 | Raced blob => ((true, None), storeObject key blob b)
                 end) s) as ([ex err] & s1 & Hlock).
  pose proof (blobCallM_trace _ _ _ _ _ Hlock) as Htr.
  change (blobCallM (CallLockWriteVersion key) _ s)
    with (ObjLockWriteVersion key s) in Hlock.
  unfold bind at 1. rewrite Hlock. cbv beta iota.
  match goal with
  | |- context [trace (?k s1).2] =>
      assert (emits (fun _ => True) k) as Hk
  end.
  { emits_auto; exact I. }
  destruct (Hk s1) as (evs & Hevs & _).
  exists evs. rewrite Htr, <- app_assoc in Hevs. exact Hevs.
Qed.

End UpdateIndexTrace.

(** ** Updating the store index *)

Section UpdateIndex.
Context `{LT : Longtail}.

Lemma attempt_succeeds updated key cur objs rest ch pm mpm pb st tr :
  objs !! key = cur ->
  codecAccepts updated cur ->
  tryUpdateRemoteStoreIndex updated key
    (mkStore (mkBlobStore objs (attemptScript cur Proceed ++ rest))
       ch pm mpm pb st tr)
  = (Some (true, returnedIndex updated cur, None),
     mkStore
       (mkBlobStore (<[key := writtenBlob updated cur]> objs) rest)
       ch pm mpm pb st (tr ++ attemptEvents updated key cur)).
Proof.
  intros Hobj Hok. unfold tryUpdateRemoteStoreIndex, attemptEvents,
    writtenBlob, writtenIndex, returnedIndex, mergedIndex, attemptScript.
  destruct cur as [blob|]; cbn [isSome app codecAccepts] in *.
  - destruct Hok as (Hdec & Hmerge & Henc). unfold mergedIndex in *.
    destruct (ReadStoreIndexFromBuffer blob) as [remote e1] eqn:Hremote.
    cbn [fst snd] in *. subst e1.
    destruct (MergeStoreIndex updated remote) as [merged e2] eqn:Hmerged.
    cbn [fst snd] in *. subst e2.
    destruct (WriteStoreIndexToBuffer merged) as [out e3] eqn:Hout.
    cbn [fst snd] in *. subst e3.
    repeat first [mstep | rewrite Hobj | rewrite Hout | rewrite Hremote
                 | rewrite Hmerged | progress unfold id].
    by rewrite <- !app_assoc.
  - destruct (WriteStoreIndexToBuffer updated) as [out e3] eqn:Hout.
    cbn [fst snd] in *. subst e3.
    repeat first [mstep | rewrite Hobj | rewrite Hout].
    by rewrite <- !app_assoc.
Qed.

Lemma attempt_drifts updated key cur r objs rest ch pm mpm pb st tr :
  objs !! key = cur ->
  codecAccepts updated cur ->
  tryUpdateRemoteStoreIndex updated key
    (mkStore (mkBlobStore objs (attemptScript cur (Raced r) ++ rest))
       ch pm mpm pb st tr)
  = (Some (false, None, None),
     mkStore (mkBlobStore (<[key := r]> objs) rest)
       ch pm mpm pb st (tr ++ attemptEvents updated key cur)).
Proof.
  intros Hobj Hok. unfold tryUpdateRemoteStoreIndex, attemptEvents,
    writtenBlob, writtenIndex, returnedIndex, mergedIndex, attemptScript.
  destruct cur as [blob|]; cbn [isSome app codecAccepts] in *.
  - destruct Hok as (Hdec & Hmerge & Henc). unfold mergedIndex in *.
    destruct (ReadStoreIndexFromBuffer blob) as [remote e1] eqn:Hremote.
    cbn [fst snd] in *. subst e1.
    destruct (MergeStoreIndex updated remote) as [merged e2] eqn:Hmerged.
    cbn [fst snd] in *. subst e2.
    destruct (WriteStoreIndexToBuffer merged) as [out e3] eqn:Hout.
    cbn [fst snd] in *. subst e3.
    repeat first [mstep | rewrite Hobj | rewrite Hout | rewrite Hremote
                 | rewrite Hmerged | progress unfold id].
    by rewrite <- !app_assoc.
  - destruct (WriteStoreIndexToBuffer updated) as [out e3] eqn:Hout.
    cbn [fst snd] in *. subst e3.
    repeat first [mstep | rewrite Hobj | rewrite Hout].
    by rewrite <- !app_assoc.
Qed.

(** The loop: success ends it with the index of the attempt, an error
    ends it with the error wrapped, and a drifted write starts the next
    attempt. *)
Lemma updateLoop_step fuel key updated objHandle s :
  updateLoop (S fuel) key updated objHandle s
  = match tryUpdateRemoteStoreIndex updated objHandle s with
    | (Some (true, newStoreIndex, _), s1) => (Some (Some (newStoreIndex, None)), s1)
    | (Some (false, _, Some e), s1) =>
        (Some (Some (None,
           Some (ErrWrap e
             "updateRemoteStoreIndex: tryUpdateRemoteStoreIndex(store.lsi) failed"))),
         s1)
    | (Some (false, _, None), s1) =>
        updateLoop fuel key updated objHandle
          (with_trace
             (trace s1 ++ [EvLogKey "Retrying updating remote store index" key])
             s1)
    | (None, s1) => (None, s1)
    end.
Proof.
  cbn [updateLoop]. unfold bind at 1.
  destruct (tryUpdateRemoteStoreIndex updated objHandle s)
    as [[[[[|] idx] [e|]]|] s1]; try reflexivity.
Qed.

Lemma updateLoop_converges updated key racers :
  forall cur n objs rest ch pm mpm pb st tr,
  objs !! key = cur ->
  codecAccepts updated cur ->
  Forall (fun r => codecAccepts updated (Some r)) racers ->
  updateLoop (S (length racers + n)) key updated key
    (mkStore
       (mkBlobStore objs
          (raceScript cur racers
           ++ attemptScript (contentAfter cur racers) Proceed ++ rest))
       ch pm mpm pb st tr)
  = (Some (Some (returnedIndex updated (contentAfter cur racers), None)),
     mkStore
       (mkBlobStore
          (<[key := writtenBlob updated (contentAfter cur racers)]>
             (foldl (fun m r => <[key := r]> m) objs racers))
          rest)
       ch pm mpm pb st (tr ++ raceEvents updated key cur racers)).
Proof.
  induction racers as [|r rs IH];
    intros cur n objs rest ch pm mpm pb st tr Hobj Hok Hall.
  - cbn [raceScript contentAfter foldl raceEvents length app].
    rewrite updateLoop_step, attempt_succeeds by done. reflexivity.
  - change (contentAfter cur (r :: rs)) with (contentAfter (Some r) rs).
    cbn [raceScript raceEvents length foldl Nat.add].
    rewrite updateLoop_step. rewrite <- app_assoc.
    rewrite attempt_drifts by done.
    apply Forall_cons in Hall as [Hr Hall].
    unfold with_trace.
    cbn [blobStore chans prefetchMemory maxPrefetchMemory
           prefetchBlocks stats trace].
    rewrite (IH (Some r)); [| apply lookup_insert_eq | done | done].
    by rewrite <- !app_assoc.
Qed.

End UpdateIndex.

Section UpdateIndexSpec.
Context `{LT : Longtail}.

Lemma attemptEvents_locks updated key cur :
  length (List.filter isLock (attemptEvents updated key cur)) = 1%nat.
Proof. by destruct cur. Qed.

Lemma raceEvents_locks updated key cur racers :
  length (List.filter isLock (raceEvents updated key cur racers))
  = S (length racers).
Proof.
  revert cur. induction racers as [|r rs IH]; intros cur;
    cbn [raceEvents length].
  - apply attemptEvents_locks.
  - rewrite List.filter_app, length_app, attemptEvents_locks.
    cbn [List.filter isLock]. by rewrite IH.
Qed.

Lemma updateRemoteStoreIndex_converges updated s racers n rest :
  codecAccepts updated (objects (blobStore s) !! "store.lsi") ->
  Forall (fun r => codecAccepts updated (Some r)) racers ->
  script (blobStore s)
  = Proceed
    :: raceScript (objects (blobStore s) !! "store.lsi") racers
    ++ attemptScript
         (contentAfter (objects (blobStore s) !! "store.lsi") racers) Proceed
    ++ rest ->
  updateRemoteStoreIndex (S (length racers + n)) updated s
  = (Some (Some (returnedIndex updated
                   (contentAfter (objects (blobStore s) !! "store.lsi")
                      racers), None)),
     afterCalls
       (EvCall (CallNewObject "store.lsi")
        :: raceEvents updated "store.lsi"
             (objects (blobStore s) !! "store.lsi") racers)
       (<["store.lsi" :=
            writtenBlob updated
              (contentAfter (objects (blobStore s) !! "store.lsi") racers)]>
          (foldl (fun m r => <["store.lsi" := r]> m)
             (objects (blobStore s)) racers))
       rest s).
Proof.
  intros Hok Hall Hscr. destruct_store s. subst scr.
  unfold updateRemoteStoreIndex. unfold bind at 1.
  rewrite NewObject_proceed. cbv beta iota zeta. cbn [isErr isSome].
  rewrite updateLoop_converges by done.
  unfold afterCalls, with_trace, with_blobStore.
  cbn [blobStore objects script chans prefetchMemory maxPrefetchMemory
         prefetchBlocks stats trace].
  by rewrite <- app_assoc.
Qed.

End UpdateIndexSpec.

(** C1.  [updateRemoteStoreIndex] runs [tryUpdateRemoteStoreIndex] on
    the object ["store.lsi"] until an attempt succeeds.  Every attempt
    starts with [LockWriteVersion].  When the object existed, the attempt
    reads and decodes it, merges the new index with it, encodes and
    writes the merged index, and a successful write returns the merged
    index; when it did not exist, the new index is encoded and written
    as it is (and the zero-value index is returned).  A write that
    reports a changed version makes the loop start the next attempt:
    with any number of writers that replace the object between a lock
    and a write, the loop ends after one more attempt than there were
    such writers, having merged with the content of the last of them. *)
Theorem updateRemoteStoreIndex_retries_until_success `{LT : Longtail}
    (updated : Longtail_StoreIndex) (s : remoteStore)
    (racers : list (list Byte.byte)) (n : nat) (rest : list fault) :
  codecAccepts updated (objects (blobStore s) !! "store.lsi") ->
  Forall (fun r => codecAccepts updated (Some r)) racers ->
  script (blobStore s)
  = Proceed
    :: raceScript (objects (blobStore s) !! "store.lsi") racers
    ++ attemptScript
         (contentAfter (objects (blobStore s) !! "store.lsi") racers) Proceed
    ++ rest ->
  (exists s',
     updateRemoteStoreIndex (S (length racers + n)) updated s
     = (Some (Some (returnedIndex updated
                      (contentAfter (objects (blobStore s) !! "store.lsi")
                         racers), None)), s')
     /\ trace s'
        = trace s
          ++ EvCall (CallNewObject "store.lsi")
          :: raceEvents updated "store.lsi"
               (objects (blobStore s) !! "store.lsi") racers
     /\ objects (blobStore s') !! "store.lsi"
        = Some (writtenBlob updated
                  (contentAfter (objects (blobStore s) !! "store.lsi")
                     racers))
     /\ length (List.filter isLock
                  (raceEvents updated "store.lsi"
                     (objects (blobStore s) !! "store.lsi") racers))
        = S (length racers))
  /\ (forall t,
        exists evs,
          trace (tryUpdateRemoteStoreIndex updated "store.lsi" t).2
          = trace t ++ EvCall (CallLockWriteVersion "store.lsi") :: evs)
  /\ (forall fuel t,
        updateLoop (S fuel) "store.lsi" updated "store.lsi" t
        = match tryUpdateRemoteStoreIndex updated "store.lsi" t with
          | (Some (true, newStoreIndex, _), t1) =>
              (Some (Some (newStoreIndex, None)), t1)
          | (Some (false, _, Some e), t1) =>
              (Some (Some (None,
                 Some (ErrWrap e
                   "updateRemoteStoreIndex: tryUpdateRemoteStoreIndex(store.lsi) failed"))),
               t1)
          | (Some (false, _, None), t1) =>
              updateLoop fuel "store.lsi" updated "store.lsi"
                (with_trace
                   (trace t1
                    ++ [EvLogKey "Retrying updating remote store index"
                          "store.lsi"])
                   t1)
          | (None, t1) => (None, t1)
          end).
Proof.
  intros Hok Hall Hscr. split; [| split].
  - rewrite (updateRemoteStoreIndex_converges updated s racers n rest)
      by done.
    eexists. split; [reflexivity |].
    destruct_store s. unfold afterCalls.
    cbn [with_trace with_blobStore trace blobStore objects].
    split; [done |]. split; [apply lookup_insert_eq |].
    apply raceEvents_locks.
  - intros t. apply tryUpdate_locks_first.
  - intros fuel t. apply updateLoop_step.
Qed.

(** The index [[1]] is written while the object holds [[2]], and two
    other writers store [[3]] and then [[4]] in the way: the third
    attempt succeeds and returns the merge with [[4]]. *)
Lemma updateRemoteStoreIndex_retries_witness :
  let idx := fun l => Some (map (fun h => mkBlockIndex h []) l) in
  let s := testStore {["store.lsi" := [Byte.x02]]}
             [Proceed;
              Proceed; Proceed; Raced [Byte.x03];
              Proceed; Proceed; Raced [Byte.x04];
              Proceed; Proceed; Proceed] in
  exists s',
    updateRemoteStoreIndex (LT := testLongtail) 3 (idx [1]) s
    = (Some (Some (idx [1; 4], None)), s')
    /\ objects (blobStore s') !! "store.lsi" = Some [Byte.x01; Byte.x04].
Proof.
  intros idx s.
  destruct (updateRemoteStoreIndex_retries_until_success
              (LT := testLongtail) (idx [1]) s [[Byte.x03]; [Byte.x04]]
              0%nat [])
    as [(s' & Hrun & _ & Hobj & _) _];
    [by repeat split | by repeat constructor | reflexivity |].
  exists s'. split; [exact Hrun | exact Hobj].
Defined.

(** ** The prefetch memory counter *)

Section PrefetchMemory.
Context `{LT : Longtail}.

(** A prefetch that completes with no waiter stores its block and adds
    the size of the block, whatever the slot held before. *)
Lemma prefetchBlock_leave_stores s h sb slot :
  prefetchBlocks s !! h = Some (Some slot) ->
  completeCallbacks slot = [] ->
  prefetchBlock_leave (mkPrefetch h) (Some sb) None s
  = (Some tt,
     with_prefetchMemory (wrapInt64 (prefetchMemory s + GetBlockSize sb))
       (with_prefetchBlocks
          (<[h := Some (mkPending (Some sb) [])]> (prefetchBlocks s)) s)).
Proof.
  intros Hslot Hcbs. destruct_store s. unfold prefetchBlock_leave.
  repeat first [mstep | rewrite Hslot | rewrite Hcbs].
  reflexivity.
Qed.

(** A fetch that finds a completed block claims it: the slot becomes a
    tombstone and the size of the block is taken off. *)
Lemma fetchBlock_enter_claims s h c sb cbs :
  prefetchBlocks s !! h = Some (Some (mkPending (Some sb) cbs)) ->
  fetchBlock_enter (mkGet h c) s
  = (Some false,
     with_trace (trace s ++ [EvGetComplete c (Some sb) 0])
       (with_prefetchMemory (wrapInt64 (prefetchMemory s - GetBlockSize sb))
          (with_prefetchBlocks (<[h := None]> (prefetchBlocks s)) s))).
Proof.
  intros Hslot. destruct_store s. unfold fetchBlock_enter.
  repeat first [mstep | rewrite Hslot].
  unfold with_trace, with_prefetchMemory, with_prefetchBlocks.
  cbn [blobStore objects script chans prefetchMemory maxPrefetchMemory
         prefetchBlocks stats trace].
  by rewrite wrapInt64_add_wrap.
Qed.

End PrefetchMemory.

(** ** The counter under one worker *)

Section OneWorker.
Context `{LT : Longtail}.

Lemma keepsCache_ret {A} (a : A) : keepsCache (ret a).
Proof. by intros s. Qed.

Lemma keepsCache_panic {A} : keepsCache (@panic A).
Proof. by intros s. Qed.

Lemma keepsCache_bind {A B} (m : M A) (k : A -> M B) :
  keepsCache m -> (forall a, keepsCache (k a)) -> keepsCache (bind m k).
Proof.
  intros Hm Hk s. unfold bind. destruct (Hm s) as [Hpb Hpm].
  destruct (m s) as [[a|] s1]; cbn [snd] in *; [| done].
  destruct (Hk a s1) as [Hpb' Hpm']. by rewrite Hpb', Hpm'.
Qed.

Lemma keepsCache_blobCallM {A} c (f : fault -> BlobStore -> A * BlobStore) :
  keepsCache (blobCallM c f).
Proof.
  intros s. unfold blobCallM.
  destruct (nextFault (blobStore s)) as [flt b]. by destruct (f flt b).
Qed.

Lemma keepsCache_readBlobWithRetry key : keepsCache (readBlobWithRetry key).
Proof.
  unfold readBlobWithRetry.
  repeat first
    [ apply keepsCache_bind; [| intros ?]
    | apply keepsCache_ret
    | apply keepsCache_blobCallM
    | by intros ?
    | match goal with
      | |- keepsCache (if ?b then _ else _) => destruct b
      | |- keepsCache (match ?x with _ => _ end) => destruct x
      end ].
Qed.

Lemma keepsCache_getStoredBlock h : keepsCache (getStoredBlock h).
Proof.
  unfold getStoredBlock.
  apply keepsCache_bind; [by intros ? | intros _].
  apply keepsCache_bind; [apply keepsCache_readBlobWithRetry |].
  intros [[d n] e].
  repeat first
    [ apply keepsCache_bind; [| intros ?]
    | apply keepsCache_ret
    | apply keepsCache_panic
    | by intros ?
    | match goal with
      | |- keepsCache (if ?b then _ else _) => destruct b
      | |- keepsCache (match ?x with _ => _ end) => destruct x
      | |- keepsCache (let '(_, _) := ?x in _) => destruct x
      end ].
Qed.

Lemma sumSizes_perm l l' : l ≡ₚ l' -> sumSizes l = sumSizes l'.
Proof.
  unfold sumSizes. induction 1 as [|x l l' _ IH|x y l|???? IH1 ? IH2];
    cbn [foldr]; lia || congruence.
Qed.

Lemma cachedBytes_delete (m : gmap Z (option pendingPrefetchedBlock)) h v :
  m !! h = Some v -> cachedBytes m = heldSize v + cachedBytes (delete h m).
Proof.
  intros Hv. unfold cachedBytes.
  by rewrite <- (sumSizes_perm _ _ (map_to_list_delete m h v Hv)).
Qed.

Lemma cachedBytes_insert (m : gmap Z (option pendingPrefetchedBlock)) h v :
  cachedBytes (<[h := v]> m) = heldSize v + cachedBytes (delete h m).
Proof.
  rewrite <- (insert_delete_eq m). unfold cachedBytes.
  rewrite (sumSizes_perm _ _
             (map_to_list_insert (delete h m) h v (lookup_delete_eq m h))).
  reflexivity.
Qed.

Lemma cachedBytes_delete_None (m : gmap Z (option pendingPrefetchedBlock)) h :
  m !! h = None -> cachedBytes (delete h m) = cachedBytes m.
Proof. intros Hv. by rewrite delete_id. Qed.

(** Replacing a slot changes the sum by the sizes held after and before. *)
Lemma cachedBytes_replace (m : gmap Z (option pendingPrefetchedBlock)) h v :
  cachedBytes (<[h := v]> m)
  = cachedBytes m + heldSize v
    - match m !! h with Some old => heldSize old | None => 0 end.
Proof.
  rewrite cachedBytes_insert. destruct (m !! h) as [old|] eqn:Hold.
  - rewrite (cachedBytes_delete m h old Hold). lia.
  - rewrite cachedBytes_delete_None by done. lia.
Qed.

Lemma wrapInt64_wrap_add x y : wrapInt64 (wrapInt64 x + y) = wrapInt64 (x + y).
Proof. by rewrite Z.add_comm, wrapInt64_add_wrap, Z.add_comm. Qed.

Lemma cachedBytes_flushed kvs :
  forall pb : gmap Z (option pendingPrefetchedBlock),
  NoDup kvs.*1 ->
  (forall k v, (k, v) ∈ kvs -> pb !! k = Some v) ->
  cachedBytes pb
  = sumSizes kvs + cachedBytes (foldl (fun m k => delete k m) pb kvs.*1).
Proof.
  induction kvs as [|[k v] kvs IH]; intros pb Hnd Hin.
  - cbn. unfold sumSizes. cbn. lia.
  - cbn [fmap list_fmap fst foldl] in *.
    apply NoDup_cons in Hnd as [Hk Hnd].
    rewrite (cachedBytes_delete pb k v) by (apply Hin; by left).
    rewrite (IH (delete k pb)); [unfold sumSizes; cbn; lia | done |].
    intros k' v' Hkv. rewrite lookup_delete_ne.
    + apply Hin. by right.
    + intros <-. apply Hk. apply list_elem_of_fmap. by exists (k, v').
Qed.

Lemma foldl_releaseMemory_wrap a vs :
  foldl releaseMemory (wrapInt64 a) vs
  = wrapInt64 (a - foldr (fun v acc => heldSize v + acc) 0 vs).
Proof.
  revert a. induction vs as [|v vs IH]; intros a; cbn [foldl foldr].
  - f_equal; lia.
  - destruct v as [[[sb|] cbs]|]; cbn [releaseMemory heldSize storedBlock].
    + rewrite wrapInt64_add_wrap, wrapInt64_wrap_add, IH. f_equal; lia.
    + rewrite IH. f_equal; lia.
    + rewrite IH. f_equal; lia.
Qed.

End OneWorker.

Section OneWorkerInvariant.
Context `{LT : Longtail}.

Lemma flushPrefetch_invariant s :
  cacheInvariant s -> cacheInvariant (flushPrefetch s).2.
Proof.
  unfold cacheInvariant. destruct_store s. intros ->.
  rewrite flushPrefetch_run. cbn [snd prefetchMemory prefetchBlocks].
  set (flushed := filter _ (map_to_list pb)).
  rewrite foldl_releaseMemory_wrap, sumSizes_snd.
  f_equal.
  rewrite (cachedBytes_flushed flushed pb).
  - lia.
  - apply NoDup_fst_filter, NoDup_fst_map_to_list.
  - intros k v [_ Hin]%list_elem_of_filter. by apply elem_of_map_to_list.
Qed.

Lemma fetchBlock_invariant getMsg s :
  cacheInvariant s -> cacheInvariant (fetchBlock getMsg s).2.
Proof.
  unfold cacheInvariant. destruct getMsg as [h c]. destruct_store s.
  intros ->. unfold fetchBlock, fetchBlock_enter.
  destruct (pb !! h) as [[[[sb|] cbs]|]|] eqn:Hslot;
    repeat first [mstep | rewrite Hslot];
    cbn [snd prefetchMemory prefetchBlocks].
  - rewrite wrapInt64_add_wrap, wrapInt64_wrap_add, cachedBytes_replace, Hslot.
    cbn [heldSize storedBlock]. f_equal; lia.
  - rewrite cachedBytes_replace, Hslot. cbn [heldSize storedBlock].
    f_equal; lia.
  - match goal with
    | |- context [getStoredBlock h ?t] =>
        destruct (keepsCache_getStoredBlock h t) as [Hpb Hpm];
        destruct (getStoredBlock h t) as [[[sb err]|] s2]
    end; cbn [snd prefetchMemory prefetchBlocks] in *.
    + destruct_store s2. subst. unfold fetchBlock_leave.
      repeat first [mstep | rewrite lookup_insert_eq].
      cbn [snd prefetchMemory prefetchBlocks].
      rewrite insert_insert_eq, cachedBytes_replace, Hslot.
      cbn [heldSize]. f_equal; lia.
    + rewrite Hpb, Hpm, cachedBytes_replace, Hslot.
      cbn [heldSize storedBlock]. f_equal; lia.
  - match goal with
    | |- context [getStoredBlock h ?t] =>
        destruct (keepsCache_getStoredBlock h t) as [Hpb Hpm];
        destruct (getStoredBlock h t) as [[[sb err]|] s2]
    end; cbn [snd prefetchMemory prefetchBlocks] in *.
    + destruct_store s2. subst. unfold fetchBlock_leave.
      repeat first [mstep | rewrite lookup_insert_eq].
      cbn [snd prefetchMemory prefetchBlocks].
      rewrite insert_insert_eq, cachedBytes_replace, Hslot.
      cbn [heldSize]. f_equal; lia.
    + rewrite Hpb, Hpm, cachedBytes_replace, Hslot.
      cbn [heldSize storedBlock]. f_equal; lia.
Qed.

Lemma prefetchBlock_invariant prefetchMsg s :
  cacheInvariant s -> cacheInvariant (prefetchBlock prefetchMsg s).2.
Proof.
  unfold cacheInvariant. destruct prefetchMsg as [h]. destruct_store s.
  intros ->. unfold prefetchBlock, prefetchBlock_enter.
  destruct (pb !! h) as [slot|] eqn:Hslot;
    repeat first [mstep | rewrite Hslot];
    cbn [snd prefetchMemory prefetchBlocks]; [done |].
  match goal with
  | |- context [getStoredBlock h ?t] =>
      destruct (keepsCache_getStoredBlock h t) as [Hpb Hpm];
      destruct (getStoredBlock h t) as [[[sb [err|]]|] s2]
  end; cbn [snd prefetchMemory prefetchBlocks isErr isSome] in *.
  - rewrite Hpb, Hpm, cachedBytes_replace, Hslot.
    cbn [heldSize storedBlock]. f_equal; lia.
  - destruct_store s2. subst. unfold prefetchBlock_leave.
    destruct sb as [sb|];
      repeat first [mstep | rewrite lookup_insert_eq];
      cbn [snd prefetchMemory prefetchBlocks].
    + rewrite insert_insert_eq, wrapInt64_wrap_add, cachedBytes_replace, Hslot.
      cbn [heldSize storedBlock]. f_equal; lia.
    + rewrite cachedBytes_replace, Hslot.
      cbn [heldSize storedBlock]. f_equal; lia.
  - rewrite Hpb, Hpm, cachedBytes_replace, Hslot.
    cbn [heldSize storedBlock]. f_equal; lia.
Qed.

(** With one worker, which runs every operation to its end before the
    next one, the counter agrees with the cache after every operation. *)
Lemma cacheInvariant_one_worker s :
  cacheInvariant s ->
  (forall getMsg, cacheInvariant (fetchBlock getMsg s).2)
  /\ (forall prefetchMsg, cacheInvariant (prefetchBlock prefetchMsg s).2)
  /\ cacheInvariant (flushPrefetch s).2.
Proof.
  intros Hinv. split; [| split].
  - intros getMsg. by apply fetchBlock_invariant.
  - intros prefetchMsg. by apply prefetchBlock_invariant.
  - by apply flushPrefetch_invariant.
Qed.

End OneWorkerInvariant.

(** C8 on the code.  Two workers and one block of two bytes under hash 1.
    Worker 0 starts a prefetch of hash 1; before it has read the block,
    worker 1 runs [flushPrefetch], which removes the waiterless slot, and
    then prefetches hash 1 itself, from the first critical section to the
    second, which stores the block and adds 2 to [prefetchMemory].
    Worker 0 now reads the block and completes: it finds a slot without
    waiters, stores its block over the one that is there and adds 2
    again.  Both workers are idle, the cache holds one block of two bytes
    and [prefetchMemory] is 4. *)
Theorem prefetchMemory_counts_overwritten_block_twice :
  let key := "chunks/0000/0x0000000000000001.lsb" in
  let s0 := testStore {[key := [Byte.x01; Byte.x05; Byte.x06]]} [] in
  let schedule :=
    [(0%nat, StartPrefetch (mkPrefetch 1));
     (1%nat, StartFlush);
     (1%nat, StartPrefetch (mkPrefetch 1));
     (1%nat, GoOn); (1%nat, GoOn);
     (0%nat, GoOn); (0%nat, GoOn)] in
  prefetchMemory s0 = cachedBytes (LT := testLongtail) (prefetchBlocks s0)
  /\ exists s',
       runWorkers (LT := testLongtail) schedule [Idle; Idle] s0
       = Some ([Idle; Idle], s')
       /\ quiescent [Idle; Idle]
       /\ prefetchBlocks s'
          = {[1 := Some (mkPending
                           (Some (mkStoredBlock (mkBlockIndex 1 [])
                                    [Byte.x05; Byte.x06])) [])]}
       /\ cachedBytes (LT := testLongtail) (prefetchBlocks s') = 2
       /\ prefetchMemory s' = 4
       /\ prefetchMemory s'
          <> cachedBytes (LT := testLongtail) (prefetchBlocks s').
Proof.
  intros key s0 schedule. split; [reflexivity |].
  assert (match runWorkers (LT := testLongtail) schedule [Idle; Idle] s0 with
          | Some (ws, s') => Some (ws, prefetchBlocks s', prefetchMemory s')
          | None => None
          end
          = Some ([Idle; Idle],
                  {[1 := Some (mkPending
                                 (Some (mkStoredBlock (mkBlockIndex 1 [])
                                          [Byte.x05; Byte.x06])) [])]},
                  4)) as Hview by (vm_compute; reflexivity).
  destruct (runWorkers schedule [Idle; Idle] s0) as [[ws s']|];
    [| discriminate].
  injection Hview as -> Hcache Hmem.
  exists s'. split; [reflexivity |].
  split; [by repeat constructor |].
  split; [exact Hcache |].
  rewrite Hcache, Hmem.
  split; [reflexivity |]. split; [reflexivity |].
  vm_compute. discriminate.
Qed.

(** ** One worker: sequences of cache operations *)

Section CacheOps.
Context `{LT : Longtail}.

Lemma runCacheOp_invariant op s :
  cacheInvariant s -> cacheInvariant (runCacheOp op s).2.
Proof.
  destruct op; cbn [runCacheOp].
  - apply fetchBlock_invariant.
  - apply prefetchBlock_invariant.
  - apply flushPrefetch_invariant.
Qed.

End CacheOps.

(** X1.  One worker runs each operation to its end before the next.  If
    [prefetchMemory] equals the bytes held by the cache (as an [int64])
    before a sequence of gets, prefetches and flushes, it does so after
    it, whatever the blob store answers and also when an operation
    panics. *)
Theorem prefetchMemory_tracks_cache_sequentially `{LT : Longtail}
    (ops : list cacheOp) (s : remoteStore) :
  cacheInvariant s ->
  cacheInvariant (forM_ ops runCacheOp s).2.
Proof.
  revert s. induction ops as [|op ops IH]; intros s Hinv; [exact Hinv |].
  cbn [forM_]. unfold bind.
  pose proof (runCacheOp_invariant op s Hinv) as Hop.
  destruct (runCacheOp op s) as [[[]|] s1]; cbn [snd] in *.
  - by apply IH.
  - exact Hop.
Qed.

Lemma prefetchMemory_tracks_cache_witness :
  @cacheInvariant testLongtail (testStore ∅ [])
  /\ @cacheInvariant testLongtail
       (forM_ [OpPrefetch (mkPrefetch 1); OpFetch (mkGet 1 0%nat); OpFlush]
          (runCacheOp (H := testLongtail)) (testStore ∅ [])).2.
Proof.
  assert (@cacheInvariant testLongtail (testStore ∅ [])) as H0
    by reflexivity.
  split; [exact H0 |].
  exact (prefetchMemory_tracks_cache_sequentially (LT := testLongtail)
           [OpPrefetch (mkPrefetch 1); OpFetch (mkGet 1 0%nat); OpFlush]
           (testStore ∅ []) H0).
Defined.

(** ** A get after a prefetch that failed *)

Section FailedPrefetch.
Context `{LT : Longtail}.

#[local] Existing Instance waitedFor_dec.

Lemma prefetchBlock_failed_run s h sb e :
  prefetchBlocks s !! h = None ->
  (getStoredBlock h
     (with_prefetchBlocks
        (<[h := Some (mkPending None [])]> (prefetchBlocks s)) s)).1
  = Some (sb, Some e) ->
  prefetchBlock (mkPrefetch h) s
  = (Some tt,
     (getStoredBlock h
        (with_prefetchBlocks
           (<[h := Some (mkPending None [])]> (prefetchBlocks s)) s)).2).
Proof.
  intros Hslot Hget. destruct_store s.
  unfold with_prefetchBlocks in *.
  cbn [blobStore chans prefetchMemory maxPrefetchMemory prefetchBlocks
         stats trace] in *.
  unfold prefetchBlock, prefetchBlock_enter.
  repeat first [mstep | rewrite Hslot].
  destruct (getStoredBlock h _) as [r s1]. cbn [fst snd] in *. subst r.
  by mrun.
Qed.

Lemma fetchBlock_pending_run s h c cbs :
  prefetchBlocks s !! h = Some (Some (mkPending None cbs)) ->
  fetchBlock (mkGet h c) s
  = (Some tt,
     with_prefetchBlocks
       (<[h := Some (mkPending None (cbs ++ [c]))]> (prefetchBlocks s)) s).
Proof.
  intros Hslot. destruct_store s. unfold with_prefetchBlocks.
  cbn [blobStore chans prefetchMemory maxPrefetchMemory prefetchBlocks
         stats trace].
  unfold fetchBlock, fetchBlock_enter.
  by repeat first [mstep | rewrite Hslot].
Qed.

Lemma flushPrefetch_keeps_waiters s h v :
  prefetchBlocks s !! h = Some v -> hasWaiters v = true ->
  prefetchBlocks (flushPrefetch s).2 !! h = Some v.
Proof.
  intros Hslot Hw. destruct_store s. rewrite flushPrefetch_run.
  cbn [snd prefetchBlocks]. rewrite flushed_map.
  by apply map_lookup_filter_Some.
Qed.

Lemma flushPrefetch_completes_nothing s :
  exists evs,
    trace (flushPrefetch s).2 = trace s ++ evs
    /\ Forall (fun e => callbackOf e = None) evs.
Proof.
  destruct_store s. rewrite flushPrefetch_run. cbn [snd trace].
  eexists. split; [reflexivity |].
  apply Forall_app. split.
  - apply Forall_forall. intros e [kv [-> _]]%list_elem_of_fmap. done.
  - apply Forall_forall. intros e Hin.
    apply list_elem_of_In, in_concat in Hin as (l & Hl & Hin).
    apply in_map_iff in Hl as ([k [[[sb|] cbs]|]] & <- & _);
      cbn in Hin; intuition (subst; done).
Qed.

End FailedPrefetch.

(** X2.  When the read of a prefetch fails, [prefetchBlock] returns and
    leaves its reserved slot in the cache.  A get for the same hash then
    finds the slot, adds its callback to the waiters and returns: it
    calls nothing on the blob store and completes nothing.  A flush
    keeps the slot, since it has a waiter, and completes nothing
    either. *)
Theorem get_after_failed_prefetch_is_not_completed `{LT : Longtail}
    (s : remoteStore) (h : Z) (c : callback)
    (sb : Longtail_StoredBlock) (e : error) :
  let reserved :=
    with_prefetchBlocks
      (<[h := Some (mkPending None [])]> (prefetchBlocks s)) s in
  let s1 := (getStoredBlock h reserved).2 in
  let s2 :=
    with_prefetchBlocks
      (<[h := Some (mkPending None [c])]> (prefetchBlocks s1)) s1 in
  prefetchBlocks s !! h = None ->
  (getStoredBlock h reserved).1 = Some (sb, Some e) ->
  prefetchBlock (mkPrefetch h) s = (Some tt, s1)
  /\ prefetchBlocks s1 !! h = Some (Some (mkPending None []))
  /\ fetchBlock (mkGet h c) s1 = (Some tt, s2)
  /\ trace s2 = trace s1
  /\ blobStore s2 = blobStore s1
  /\ prefetchBlocks (flushPrefetch s2).2 !! h
     = Some (Some (mkPending None [c]))
  /\ exists evs,
       trace (flushPrefetch s2).2 = trace s2 ++ evs
       /\ Forall (fun e => callbackOf e = None) evs.
Proof.
  intros reserved s1 s2 Hslot Hget.
  assert (prefetchBlocks s1 !! h = Some (Some (mkPending None []))) as Hs1.
  { subst s1. destruct (keepsCache_getStoredBlock h reserved) as [-> _].
    subst reserved. destruct s. cbn. apply lookup_insert_eq. }
  split; [exact (prefetchBlock_failed_run s h sb e Hslot Hget) |].
  split; [exact Hs1 |].
  split; [exact (fetchBlock_pending_run s1 h c [] Hs1) |].
  split; [by destruct s1 |]. split; [by destruct s1 |].
  split; [| apply flushPrefetch_completes_nothing].
  apply flushPrefetch_keeps_waiters; [| done].
  subst s2. destruct s1. cbn. apply lookup_insert_eq.
Qed.

Lemma get_after_failed_prefetch_witness :
  let s := testStore ∅ [] in
  let reserved :=
    with_prefetchBlocks
      (<[1 := Some (mkPending None [])]> (prefetchBlocks s)) s in
  let s1 := (getStoredBlock (LT := testLongtail) 1 reserved).2 in
  let s2 :=
    with_prefetchBlocks
      (<[1 := Some (mkPending None [7%nat])]> (prefetchBlocks s1)) s1 in
  fetchBlock (LT := testLongtail) (mkGet 1 7%nat) s1 = (Some tt, s2)
  /\ prefetchBlocks (flushPrefetch (LT := testLongtail) s2).2 !! 1
     = Some (Some (mkPending None [7%nat])).
Proof.
  intros s reserved s1 s2.
  assert (prefetchBlocks s !! 1 = None) as Hslot by reflexivity.
  assert ((getStoredBlock (LT := testLongtail) 1 reserved).1
          = Some (None, Some ErrENOENT)) as Hget by (vm_compute; reflexivity).
  pose proof (get_after_failed_prefetch_is_not_completed
                (LT := testLongtail) s 1 7%nat None ErrENOENT Hslot Hget)
    as (_ & _ & Hfetch & _ & _ & Hflush & _).
  split; [exact Hfetch | exact Hflush].
Defined.

(** ** A get that misses the cache *)

Section FetchMiss.
Context `{LT : Longtail}.

#[local] Existing Instance waitedFor_dec.

(** The store with the slot of [h] reserved for a read in flight. *)
Lemma fetchBlock_enter_miss s g :
  (forall b, prefetchBlocks s !! get_blockHash g <> Some (Some b)) ->
  fetchBlock_enter g s
  = (Some true,
     with_prefetchBlocks
       (<[get_blockHash g := Some (mkPending None [])]> (prefetchBlocks s))
       s).
Proof.
  intros Hmiss. destruct g as [h c]. destruct_store s.
  unfold with_prefetchBlocks, fetchBlock_enter.
  cbn [get_blockHash blobStore chans prefetchMemory maxPrefetchMemory
         prefetchBlocks stats trace] in *.
  destruct (pb !! h) as [[b|]|] eqn:Hslot;
    [by destruct (Hmiss b) | |];
    by repeat first [mstep | rewrite Hslot].
Qed.

Lemma flushPrefetch_removes s h v :
  prefetchBlocks s !! h = Some v -> hasWaiters v = false ->
  prefetchBlocks (flushPrefetch s).2 !! h = None.
Proof.
  intros Hslot Hw. destruct_store s. rewrite flushPrefetch_run.
  cbn [snd prefetchBlocks]. rewrite flushed_map.
  apply map_lookup_filter_None. right. intros x Hx.
  simplify_eq. unfold waitedFor. cbn. by rewrite Hw.
Qed.

Lemma flushPrefetch_returns s : (flushPrefetch s).1 = Some tt.
Proof. destruct_store s. by rewrite flushPrefetch_run. Qed.

Lemma fetchBlock_leave_absent s g sb err :
  prefetchBlocks s !! get_blockHash g = None ->
  fetchBlock_leave g sb err s = (None, s).
Proof.
  intros Hslot. destruct_store s. unfold fetchBlock_leave.
  by repeat first [mstep | rewrite Hslot].
Qed.

Lemma fetchBlock_leave_reserved s g sb err cbs :
  prefetchBlocks s !! get_blockHash g = Some (Some (mkPending None cbs)) ->
  fetchBlock_leave g sb err s
  = bind (forM_ cbs (deliverCopy sb err))
      (fun _ => OnGetComplete (get_asyncCompleteAPI g) sb
                  (ErrorToErrno err EIO))
      (with_prefetchBlocks (<[get_blockHash g := None]> (prefetchBlocks s))
         s).
Proof.
  intros Hslot. destruct_store s. unfold fetchBlock_leave, with_prefetchBlocks.
  cbn [blobStore chans prefetchMemory maxPrefetchMemory prefetchBlocks
         stats trace].
  unfold bind at 1. rewrite getSlot_run, Hslot.
  cbn [completeCallbacks]. unfold bind at 1. rewrite setSlot_run.
  reflexivity.
Qed.

End FetchMiss.

(** X3.  A flush between the two critical sections of a get makes the
    worker panic.  The get reserves a slot without waiters and reads the
    block; a flush run by another worker in between deletes the slot,
    and the second critical section then reads the callbacks of a slot
    that is no longer in the map. *)
Theorem flush_during_fetch_panics `{LT : Longtail}
    (s : remoteStore) (g : getBlockMessage)
    (sb : Longtail_StoredBlock) (err : option error) :
  let s1 := (fetchBlock_enter g s).2 in
  let s2 := (flushPrefetch s1).2 in
  let s3 := (getStoredBlock (get_blockHash g) s2).2 in
  (forall b, prefetchBlocks s !! get_blockHash g <> Some (Some b)) ->
  (getStoredBlock (get_blockHash g) s2).1 = Some (sb, err) ->
  workerStep (StartFetch g) Idle s = Some (FetchReading g, s1)
  /\ workerStep StartFlush Idle s1 = Some (Idle, s2)
  /\ workerStep GoOn (FetchReading g) s2 = Some (FetchRead g sb err, s3)
  /\ prefetchBlocks s3 !! get_blockHash g = None
  /\ fetchBlock_leave g sb err s3 = (None, s3)
  /\ runWorkers
       [(0%nat, StartFetch g); (1%nat, StartFlush);
        (0%nat, GoOn); (0%nat, GoOn)] [Idle; Idle] s
     = None.
Proof.
  intros s1 s2 s3 Hmiss Hget.
  pose proof (fetchBlock_enter_miss s g Hmiss) as Henter.
  assert (workerStep (StartFetch g) Idle s = Some (FetchReading g, s1)) as H1.
  { subst s1. cbn [workerStep]. by rewrite Henter. }
  assert (workerStep StartFlush Idle s1 = Some (Idle, s2)) as H2.
  { subst s2. cbn [workerStep].
    pose proof (flushPrefetch_returns s1) as Hr.
    destruct (flushPrefetch s1) as [[[]|] t]; [done | discriminate]. }
  assert (workerStep GoOn (FetchReading g) s2 = Some (FetchRead g sb err, s3))
    as H3.
  { subst s3. cbn [workerStep].
    destruct (getStoredBlock (get_blockHash g) s2) as [r t].
    cbn [fst snd] in *. by subst r. }
  assert (prefetchBlocks s3 !! get_blockHash g = None) as Hgone.
  { subst s3. destruct (keepsCache_getStoredBlock (get_blockHash g) s2)
      as [-> _].
    subst s2. apply (flushPrefetch_removes _ _ (Some (mkPending None [])));
      [| done].
    subst s1. rewrite Henter. destruct s. cbn. apply lookup_insert_eq. }
  pose proof (fetchBlock_leave_absent s3 g sb err Hgone) as Hleave.
  split; [exact H1 |]. split; [exact H2 |]. split; [exact H3 |].
  split; [exact Hgone |]. split; [exact Hleave |].
  cbn [runWorkers lookup list_lookup]. rewrite H1.
  cbn [runWorkers lookup list_lookup insert list_insert]. rewrite H2.
  cbn [runWorkers lookup list_lookup insert list_insert]. rewrite H3.
  cbn [runWorkers lookup list_lookup insert list_insert].
  cbn [workerStep]. by rewrite Hleave.
Qed.

Lemma flush_during_fetch_panics_witness :
  runWorkers (LT := testLongtail)
    [(0%nat, StartFetch (mkGet 1 0%nat)); (1%nat, StartFlush);
     (0%nat, GoOn); (0%nat, GoOn)] [Idle; Idle] (testStore ∅ [])
  = None.
Proof.
  assert (forall b,
            prefetchBlocks (testStore ∅ []) !! get_blockHash (mkGet 1 0%nat)
            <> Some (Some b)) as Hmiss by (intros b; discriminate).
  assert ((getStoredBlock (LT := testLongtail) (get_blockHash (mkGet 1 0%nat))
             (flushPrefetch (LT := testLongtail)
                (fetchBlock_enter (LT := testLongtail) (mkGet 1 0%nat)
                   (testStore ∅ [])).2).2).1
          = Some (None, Some ErrENOENT)) as Hget by (vm_compute; reflexivity).
  exact (proj2 (proj2 (proj2 (proj2 (proj2
           (flush_during_fetch_panics (LT := testLongtail)
              (testStore ∅ []) (mkGet 1 0%nat) None (Some ErrENOENT)
              Hmiss Hget)))))).
Defined.

(** ** Entries of the cache *)

Section CacheEntries.
Context `{LT : Longtail}.

Lemma keepsEntry_ret {A} h (a : A) : keepsEntry h (ret a).
Proof. by intros s. Qed.

Lemma keepsEntry_panic {A} h : keepsEntry h (@panic A).
Proof. by intros s. Qed.

Lemma keepsEntry_bind {A B} h (m : M A) (k : A -> M B) :
  keepsEntry h m -> (forall a, keepsEntry h (k a)) -> keepsEntry h (bind m k).
Proof.
  intros Hm Hk s Hs. unfold bind. specialize (Hm s Hs).
  destruct (m s) as [[a|] s1]; cbn [snd] in *; [| done].
  by apply Hk.
Qed.

Lemma keepsEntry_keepsCache {A} h (m : M A) : keepsCache m -> keepsEntry h m.
Proof. intros Hm s Hs. by destruct (Hm s) as [-> _]. Qed.

Lemma keepsCache_emit e : keepsCache (emit e).
Proof. by intros []. Qed.

Lemma keepsEntry_setSlot h h' v : keepsEntry h (setSlot h' v).
Proof.
  intros s Hs. destruct s. cbn in *.
  apply lookup_insert_is_Some. destruct (decide (h' = h)); auto.
Qed.

Lemma keepsEntry_AddPrefetchMemory h d : keepsEntry h (AddPrefetchMemory d).
Proof. intros s Hs. by destruct s. Qed.

Lemma keepsEntry_forM {A} h (l : list A) (body : A -> M unit) :
  (forall a, keepsEntry h (body a)) -> keepsEntry h (forM_ l body).
Proof.
  intros Hbody. induction l as [|a l IH]; cbn [forM_].
  - apply keepsEntry_ret.
  - apply keepsEntry_bind; [apply Hbody | intros _; apply IH].
Qed.

Lemma keepsCache_deliverCopy sb err c : keepsCache (deliverCopy sb err c).
Proof.
  unfold deliverCopy. destruct (isErr err); [apply keepsCache_emit |].
  destruct (WriteStoredBlockToBuffer sb) as [buf errno].
  destruct (negb (errno =? 0)); [apply keepsCache_emit |].
  destruct (ReadStoredBlockFromBuffer buf) as [copy errno'].
  destruct (negb (errno' =? 0)); apply keepsCache_emit.
Qed.

Ltac entry_step h :=
  first
    [ apply keepsEntry_ret | apply keepsEntry_panic
    | apply keepsEntry_setSlot | apply keepsEntry_AddPrefetchMemory
    | apply keepsEntry_keepsCache, keepsCache_emit
    | apply keepsEntry_keepsCache, keepsCache_deliverCopy
    | apply keepsEntry_keepsCache, keepsCache_getStoredBlock
    | apply keepsEntry_forM; intros ?
    | apply keepsEntry_bind; [| intros ?] ].

Lemma keepsEntry_getSlot_bind {B} h h' (k : _ -> M B) :
  (forall v, keepsEntry h (k v)) -> keepsEntry h (bind (getSlot h') k).
Proof. intros Hk s Hs. unfold bind, getSlot. by apply Hk. Qed.

Lemma keepsEntry_fetchBlock_leave h g sb err :
  keepsEntry h (fetchBlock_leave g sb err).
Proof.
  unfold fetchBlock_leave. apply keepsEntry_getSlot_bind.
  intros [[b|]|]; unfold OnGetComplete, Dispose; repeat entry_step h.
Qed.

Lemma keepsEntry_prefetchBlock_leave h p sb err :
  keepsEntry h (prefetchBlock_leave p sb err).
Proof.
  unfold prefetchBlock_leave. apply keepsEntry_getSlot_bind.
  intros [[b|]|]; unfold OnGetComplete, Dispose; repeat entry_step h.
  destruct (length (completeCallbacks b) =? 0)%nat.
  - destruct sb; repeat entry_step h.
  - repeat entry_step h.
    + destruct (completeCallbacks b !! _); repeat entry_step h.
    + destruct (completeCallbacks b !! _); repeat entry_step h.
Qed.

Lemma fetchBlock_enter_entry g s :
  is_Some (prefetchBlocks (fetchBlock_enter g s).2 !! get_blockHash g).
Proof.
  destruct g as [h c]. destruct_store s. unfold fetchBlock_enter.
  cbn [get_blockHash get_asyncCompleteAPI].
  destruct (pb !! h) as [[[[sb|] cbs]|]|] eqn:Hslot;
    repeat first [mstep | rewrite Hslot];
    cbn [snd prefetchBlocks]; rewrite lookup_insert_eq; by eexists.
Qed.

Lemma fetchBlock_entry g s :
  is_Some (prefetchBlocks (fetchBlock g s).2 !! get_blockHash g).
Proof.
  unfold fetchBlock. unfold bind at 1.
  pose proof (fetchBlock_enter_entry g s) as Hentry.
  destruct (fetchBlock_enter g s) as [[[|]|] s1]; cbn [snd] in *;
    [| done | done].
  revert s1 Hentry.
  change (keepsEntry (get_blockHash g)
            (bind (getStoredBlock (get_blockHash g))
               (fun '(storedBlock, getStoredBlockErr) =>
                  fetchBlock_leave g storedBlock getStoredBlockErr))).
  apply keepsEntry_bind;
    [apply keepsEntry_keepsCache, keepsCache_getStoredBlock |].
  intros [sb err]. apply keepsEntry_fetchBlock_leave.
Qed.

Lemma prefetchBlock_entry p s :
  is_Some (prefetchBlocks (prefetchBlock p s).2 !! prefetch_blockHash p).
Proof.
  destruct p as [h]. unfold prefetchBlock. unfold bind at 1.
  assert (is_Some (prefetchBlocks (prefetchBlock_enter (mkPrefetch h) s).2
                   !! h)) as Hentry.
  { destruct_store s. unfold prefetchBlock_enter.
    cbn [prefetch_blockHash].
    destruct (pb !! h) as [v|] eqn:Hslot;
      repeat first [mstep | rewrite Hslot]; cbn [snd prefetchBlocks];
      [by rewrite Hslot | rewrite lookup_insert_eq; by eexists]. }
  cbn [prefetch_blockHash].
  destruct (prefetchBlock_enter (mkPrefetch h) s) as [[[|]|] s1];
    cbn [snd] in *; [| done | done].
  revert s1 Hentry.
  change (keepsEntry h
            (bind (getStoredBlock h)
               (fun '(storedBlock, getErr) =>
                  if isErr getErr then ret tt
                  else prefetchBlock_leave (mkPrefetch h) storedBlock
                         getErr))).
  apply keepsEntry_bind;
    [apply keepsEntry_keepsCache, keepsCache_getStoredBlock |].
  intros [sb err]. destruct (isErr err); [apply keepsEntry_ret |].
  apply keepsEntry_prefetchBlock_leave.
Qed.

Lemma prefetchBlock_present s h :
  is_Some (prefetchBlocks s !! h) ->
  prefetchBlock (mkPrefetch h) s = (Some tt, s).
Proof.
  intros [v Hv]. destruct_store s. unfold prefetchBlock, prefetchBlock_enter.
  by repeat first [mstep | rewrite Hv].
Qed.

End CacheEntries.

(** X4.  After a get or a prefetch for a hash, whatever its outcome, the
    cache has an entry for the hash, and a prefetch message for it does
    nothing: it returns without a call on the blob store.  In particular
    a prefetch that failed is not tried again by a later prefetch
    message. *)
Theorem prefetchBlock_after_request_is_noop `{LT : Longtail}
    (s : remoteStore) (h : Z) (c : callback) :
  let afterGet := (fetchBlock (mkGet h c) s).2 in
  let afterPrefetch := (prefetchBlock (mkPrefetch h) s).2 in
  prefetchBlock (mkPrefetch h) afterGet = (Some tt, afterGet)
  /\ prefetchBlock (mkPrefetch h) afterPrefetch = (Some tt, afterPrefetch).
Proof.
  intros afterGet afterPrefetch. split; apply prefetchBlock_present.
  - apply (fetchBlock_entry (mkGet h c)).
  - apply (prefetchBlock_entry (mkPrefetch h)).
Qed.

(** X5.  A get that finds no block and no read in flight for its hash
    reads the block itself and invokes its callback exactly once, with
    what [getStoredBlock] returned: the block, or the status of the
    error.  The slot it reserved is left as a tombstone, and nothing but
    the read touches the blob store, the statistics or the memory
    counter. *)
Theorem fetchBlock_miss_completes_once `{LT : Longtail}
    (s : remoteStore) (g : getBlockMessage)
    (sb : Longtail_StoredBlock) (err : option error) :
  let h := get_blockHash g in
  let reserved :=
    with_prefetchBlocks
      (<[h := Some (mkPending None [])]> (prefetchBlocks s)) s in
  let s1 := (getStoredBlock h reserved).2 in
  (forall b, prefetchBlocks s !! h <> Some (Some b)) ->
  (getStoredBlock h reserved).1 = Some (sb, err) ->
  fetchBlock g s
  = (Some tt,
     with_trace
       (trace s1
        ++ [EvGetComplete (get_asyncCompleteAPI g) sb
              (ErrorToErrno err EIO)])
       (with_prefetchBlocks (<[h := None]> (prefetchBlocks s)) s1)).
Proof.
  intros h reserved s1 Hmiss Hget.
  unfold fetchBlock. unfold bind at 1.
  rewrite (fetchBlock_enter_miss s g Hmiss). fold h. fold reserved.
  unfold bind at 1.
  pose proof (keepsCache_getStoredBlock h reserved) as [Hpb _].
  fold s1 in Hpb. subst s1.
  destruct (getStoredBlock h reserved) as [r s1]. cbn [fst snd] in *.
  subst r.
  rewrite (fetchBlock_leave_reserved s1 g sb err []).
  - fold h. rewrite Hpb. subst reserved. destruct s, s1.
    cbn [forM_]. unfold bind, ret. cbn.
    unfold with_trace, with_prefetchBlocks. cbn.
    by rewrite insert_insert_eq.
  - fold h. rewrite Hpb. subst reserved. destruct s. cbn.
    apply lookup_insert_eq.
Qed.

Lemma fetchBlock_miss_witness :
  (fetchBlock (LT := testLongtail) (mkGet 1 0%nat)
     (testStore {[GetBlockPath "chunks" 1 := [Byte.x01; Byte.x05]]} [])).1
  = Some tt.
Proof.
  assert (forall b,
            prefetchBlocks
              (testStore {[GetBlockPath "chunks" 1 := [Byte.x01; Byte.x05]]}
                 [])
            !! get_blockHash (mkGet 1 0%nat) <> Some (Some b)) as Hmiss
    by (intros b; discriminate).
  rewrite (fetchBlock_miss_completes_once (LT := testLongtail) _
             (mkGet 1 0%nat)
             (Some (mkStoredBlock (mkBlockIndex 1 []) [Byte.x05])) None
             Hmiss); [reflexivity |].
  vm_compute. reflexivity.
Defined.

Section FetchRuns.
Context `{LT : Longtail}.

Lemma getStoredBlock_missing objs ch pm mpm pb st tr h :
  objs !! GetBlockPath "chunks" h = None ->
  getStoredBlock h (mkStore (mkBlobStore objs []) ch pm mpm pb st tr)
  = (Some (None, Some ErrENOENT),
     mkStore (mkBlobStore objs []) ch pm mpm pb
       (addStat
          (addStat (addStat st GetStoredBlock_Count 1)
             GetStoredBlock_RetryCount 0)
          GetStoredBlock_FailCount 1)
       (tr ++ [EvCall (CallNewObject (GetBlockPath "chunks" h));
               EvCall (CallExists (GetBlockPath "chunks" h))])).
Proof.
  intros Hobj. unfold getStoredBlock, readBlobWithRetry.
  repeat first [mstep | rewrite Hobj].
  rewrite <- ?app_assoc. reflexivity.
Qed.

Lemma getStoredBlock_found objs ch pm mpm pb st tr h data sb :
  objs !! GetBlockPath "chunks" h = Some data ->
  ReadStoredBlockFromBuffer data = (Some sb, 0) ->
  GetBlockHash (blockIndex sb) = h ->
  getStoredBlock h (mkStore (mkBlobStore objs []) ch pm mpm pb st tr)
  = (Some (Some sb, None),
     mkStore (mkBlobStore objs []) ch pm mpm pb
       (addStat
          (addStat
             (addStat (addStat st GetStoredBlock_Count 1)
                GetStoredBlock_RetryCount 0)
             GetStoredBlock_Byte_Count (Z.of_nat (length data)))
          GetStoredBlock_Chunk_Count (GetChunkCount (blockIndex sb)))
       (tr ++ [EvCall (CallNewObject (GetBlockPath "chunks" h));
               EvCall (CallExists (GetBlockPath "chunks" h));
               EvCall (CallRead (GetBlockPath "chunks" h))])).
Proof.
  intros Hobj Hdec Hhash. unfold getStoredBlock, readBlobWithRetry.
  repeat first [mstep | rewrite Hobj | rewrite Hdec | rewrite Hhash
               | rewrite Z.eqb_refl].
  rewrite <- ?app_assoc. reflexivity.
Qed.

End FetchRuns.

(** X6.  A get for a block that is not in the blob store: after
    [NewObject] and the existence check, without a read, the callback is
    invoked once with no block and status [ENOENT]; the get is counted,
    with no retry and one failure, and the slot is left as a
    tombstone. *)
Theorem fetchBlock_missing_block `{LT : Longtail}
    (s : remoteStore) (h : Z) (c : callback) :
  let key := GetBlockPath "chunks" h in
  (forall b, prefetchBlocks s !! h <> Some (Some b)) ->
  objects (blobStore s) !! key = None ->
  script (blobStore s) = [] ->
  fetchBlock (mkGet h c) s
  = (Some tt,
     mkStore (blobStore s) (chans s) (prefetchMemory s)
       (maxPrefetchMemory s) (<[h := None]> (prefetchBlocks s))
       (addStat
          (addStat (addStat (stats s) GetStoredBlock_Count 1)
             GetStoredBlock_RetryCount 0)
          GetStoredBlock_FailCount 1)
       (trace s
        ++ [EvCall (CallNewObject key); EvCall (CallExists key);
            EvGetComplete c None ENOENT])).
Proof.
  intros key Hmiss Hobj Hscr. destruct_store s. subst scr.
  unfold fetchBlock, fetchBlock_enter. cbn [get_blockHash].
  destruct (pb !! h) as [[b|]|] eqn:Hslot; [by destruct (Hmiss b) | |].
  all: repeat first [mstep | rewrite Hslot].
  all: rewrite getStoredBlock_missing by done.
  all: unfold fetchBlock_leave;
    repeat first [mstep | rewrite lookup_insert_eq].
  all: rewrite insert_insert_eq, <- ?app_assoc; reflexivity.
Qed.

Lemma fetchBlock_missing_block_witness :
  trace (fetchBlock (LT := testLongtail) (mkGet 1 0%nat)
           (testStore ∅ [])).2
  = [EvCall (CallNewObject (GetBlockPath "chunks" 1));
     EvCall (CallExists (GetBlockPath "chunks" 1));
     EvGetComplete 0%nat None ENOENT].
Proof.
  rewrite (fetchBlock_missing_block (LT := testLongtail)
             (testStore ∅ []) 1 0%nat);
    [reflexivity | intros b; discriminate | reflexivity | reflexivity].
Defined.

(** X7.  A block that was prefetched is served from the cache.  On a
    blob store that answers every call, a prefetch followed by a get for
    the same hash reads the block once; the get calls nothing on the
    blob store, invokes its callback with the prefetched block and
    status 0, turns the slot into a tombstone and gives back the memory
    the prefetch had counted. *)
Theorem prefetched_block_is_served_from_cache `{LT : Longtail}
    (s : remoteStore) (h : Z) (c : callback)
    (data : list Byte.byte) (sb : storedBlockData) :
  let key := GetBlockPath "chunks" h in
  prefetchBlocks s !! h = None ->
  objects (blobStore s) !! key = Some data ->
  script (blobStore s) = [] ->
  ReadStoredBlockFromBuffer data = (Some sb, 0) ->
  GetBlockHash (blockIndex sb) = h ->
  exists s1 s2,
    prefetchBlock (mkPrefetch h) s = (Some tt, s1)
    /\ trace s1
       = trace s
         ++ [EvCall (CallNewObject key); EvCall (CallExists key);
             EvCall (CallRead key)]
    /\ prefetchBlocks s1 !! h = Some (Some (mkPending (Some sb) []))
    /\ prefetchMemory s1 = wrapInt64 (prefetchMemory s + GetBlockSize sb)
    /\ fetchBlock (mkGet h c) s1 = (Some tt, s2)
    /\ trace s2 = trace s1 ++ [EvGetComplete c (Some sb) 0]
    /\ prefetchBlocks s2 = <[h := None]> (prefetchBlocks s)
    /\ prefetchMemory s2 = wrapInt64 (prefetchMemory s)
    /\ blobStore s2 = blobStore s
    /\ stats s2 = stats s1.
Proof.
  intros key Hslot Hobj Hscr Hdec Hhash. destruct_store s. subst scr.
  eexists _, _.
  split.
  { unfold prefetchBlock, prefetchBlock_enter. cbn [prefetch_blockHash].
    repeat first [mstep | rewrite Hslot].
    rewrite (getStoredBlock_found _ _ _ _ _ _ _ h data sb) by done.
    unfold prefetchBlock_leave.
    repeat first [mstep | rewrite lookup_insert_eq].
    reflexivity. }
  cbn [trace prefetchBlocks prefetchMemory blobStore stats].
  split; [by rewrite <- ?app_assoc |].
  split; [by rewrite lookup_insert_eq |].
  split; [done |].
  split.
  { unfold fetchBlock, fetchBlock_enter. cbn [get_blockHash].
    repeat first [mstep | rewrite lookup_insert_eq].
    reflexivity. }
  cbn [trace prefetchBlocks prefetchMemory blobStore stats].
  split; [done |].
  split; [by rewrite !insert_insert_eq |].
  split; [| done].
  rewrite wrapInt64_add_wrap, wrapInt64_wrap_add. f_equal. lia.
Qed.

Lemma prefetched_block_is_served_witness :
  exists s1 s2,
    prefetchBlock (LT := testLongtail) (mkPrefetch 1)
      (testStore {[GetBlockPath "chunks" 1 := [Byte.x01; Byte.x05]]} [])
    = (Some tt, s1)
    /\ fetchBlock (LT := testLongtail) (mkGet 1 0%nat) s1 = (Some tt, s2)
    /\ prefetchMemory s2 = 0.
Proof.
  destruct (prefetched_block_is_served_from_cache (LT := testLongtail)
              (testStore {[GetBlockPath "chunks" 1 := [Byte.x01; Byte.x05]]}
                 [])
              1 0%nat [Byte.x01; Byte.x05]
              (mkStoredBlock (mkBlockIndex 1 []) [Byte.x05]))
    as (s1 & s2 & H1 & _ & _ & _ & H2 & _ & _ & Hmem & _);
    [reflexivity | vm_compute; reflexivity | reflexivity | reflexivity
    | reflexivity |].
  exists s1, s2. split; [exact H1 |]. split; [exact H2 | exact Hmem].
Defined.

(** ** Putting and getting a block *)

Section PutGet.
Context `{LT : Longtail}.

(** A put of an absent block on a blob store that answers every call:
    the state it leaves, whether the copy of the block index succeeds
    or not. *)
Lemma putStoredBlock_stores objs ch pm mpm pb st tr sb blob :
  objs !! blockKey sb = None ->
  WriteStoredBlockToBuffer (Some sb) = (blob, 0) ->
  exists r ch' tr',
    putStoredBlock sb (mkStore (mkBlobStore objs []) ch pm mpm pb st tr)
    = (Some r,
       mkStore (mkBlobStore (<[blockKey sb := blob]> objs) []) ch' pm mpm pb
         (addStat
            (addStat (addStat st PutStoredBlock_Count 1)
               PutStoredBlock_Byte_Count (Z.of_nat (length blob)))
            PutStoredBlock_Chunk_Count (GetChunkCount (blockIndex sb)))
         tr').
Proof.
  intros Hobj Henc. unfold putStoredBlock. fold (blockKey sb).
  destruct (BlockIndexCopy (blockIndex sb)) as [copy [ce|]] eqn:Hcopy;
    repeat first [mstep | rewrite Hobj | rewrite Henc | rewrite Hcopy];
    by eexists _, _, _.
Qed.

End PutGet.

(** X8.  A block that was put can be got.  On a blob store that answers
    every call and does not hold the block yet, [putStoredBlock] writes
    the encoded block under the key of its hash, and a [getStoredBlock]
    for that hash then returns what decoding the stored bytes gives: the
    block itself when decoding inverts encoding.  The bytes and the
    chunks of the block are added to the counters of both
    directions. *)
Theorem put_then_get_returns_block `{LT : Longtail}
    (s : remoteStore) (sb : storedBlockData) (blob : list Byte.byte) :
  let h := GetBlockHash (blockIndex sb) in
  let s1 := (putStoredBlock sb s).2 in
  let s2 := (getStoredBlock h s1).2 in
  objects (blobStore s) !! blockKey sb = None ->
  script (blobStore s) = [] ->
  WriteStoredBlockToBuffer (Some sb) = (blob, 0) ->
  ReadStoredBlockFromBuffer blob = (Some sb, 0) ->
  objects (blobStore s1) = <[blockKey sb := blob]> (objects (blobStore s))
  /\ getStoredBlock h s1 = (Some (Some sb, None), s2)
  /\ objects (blobStore s2) = objects (blobStore s1)
  /\ stats s2 PutStoredBlock_Byte_Count
     = wrapUint64 (stats s PutStoredBlock_Byte_Count
                   + Z.of_nat (length blob))
  /\ stats s2 GetStoredBlock_Byte_Count
     = wrapUint64 (stats s GetStoredBlock_Byte_Count
                   + Z.of_nat (length blob))
  /\ stats s2 GetStoredBlock_FailCount = stats s GetStoredBlock_FailCount
  /\ stats s2 PutStoredBlock_FailCount = stats s PutStoredBlock_FailCount.
Proof.
  intros h s1 s2 Hobj Hscr Henc Hdec. destruct_store s. subst scr.
  destruct (putStoredBlock_stores objs ch pm mpm pb st tr sb blob Hobj Henc)
    as (r & ch' & tr' & Hput).
  subst s2 s1. rewrite Hput. cbn [snd].
  rewrite (getStoredBlock_found _ _ _ _ _ _ _ h blob sb);
    [| by rewrite lookup_insert_eq | done | done].
  cbn [snd blobStore objects stats].
  split; [done |]. split; [done |]. split; [done |].
  unfold addStat.
  repeat split; repeat (case_decide; try discriminate); reflexivity.
Qed.

Lemma put_then_get_witness :
  let sb := mkStoredBlock (mkBlockIndex 1 []) [Byte.x05] in
  getStoredBlock (LT := testLongtail) 1
    (putStoredBlock (LT := testLongtail) sb (testStore ∅ [])).2
  = (Some (Some sb, None),
     (getStoredBlock (LT := testLongtail) 1
        (putStoredBlock (LT := testLongtail) sb (testStore ∅ [])).2).2).
Proof.
  intros sb.
  exact (proj1 (proj2
           (put_then_get_returns_block (LT := testLongtail)
              (testStore ∅ []) sb [Byte.x01; Byte.x05]
              eq_refl eq_refl eq_refl eq_refl))).
Defined.

(** ** The retry ladder of writes *)

Section PutLadder.
Context `{LT : Longtail}.

Lemma wrapUint64_add_wrap x y :
  wrapUint64 (wrapUint64 x + y) = wrapUint64 (x + y).
Proof. unfold wrapUint64. by rewrite Zplus_mod_idemp_l. Qed.

Lemma retriedPut_retries k st :
  wrapUint64 (retriedPut k st PutStoredBlock_RetryCount)
  = wrapUint64 (st PutStoredBlock_RetryCount + Z.of_nat k).
Proof.
  induction k as [|k IH]; cbn [retriedPut].
  - by rewrite Z.add_0_r.
  - change (addStat (retriedPut k st) PutStoredBlock_RetryCount 1
              PutStoredBlock_RetryCount)
      with (wrapUint64 (retriedPut k st PutStoredBlock_RetryCount + 1)).
    unfold wrapUint64 at 1 2. rewrite Zmod_mod.
    change ((retriedPut k st PutStoredBlock_RetryCount + 1) mod 2 ^ 64)
      with (wrapUint64 (retriedPut k st PutStoredBlock_RetryCount + 1)).
    rewrite <- wrapUint64_add_wrap, IH, wrapUint64_add_wrap.
    f_equal. lia.
Qed.

Lemma retriedPut_other k st x :
  x <> PutStoredBlock_RetryCount -> retriedPut k st x = st x.
Proof.
  intros Hx. induction k as [|k IH]; cbn [retriedPut]; [done |].
  unfold addStat at 1. by rewrite decide_False.
Qed.

Lemma putStoredBlock_ladder_run objs ch pm mpm pb st tr sb blob copy errs
    rest :
  objs !! blockKey sb = None ->
  WriteStoredBlockToBuffer (Some sb) = (blob, 0) ->
  BlockIndexCopy (blockIndex sb) = (copy, None) ->
  (length errs <= 3)%nat ->
  putStoredBlock sb
    (mkStore
       (mkBlobStore objs
          (Proceed :: Proceed :: map Fail errs ++ Proceed :: rest))
       ch pm mpm pb st tr)
  = (Some None,
     mkStore (mkBlobStore (<[blockKey sb := blob]> objs) rest)
       (mkChannels (putBlockChan ch) (putClosed ch) (getBlockChan ch)
          (prefetchBlockChan ch)
          (blockIndexChan ch ++ [mkBlockIndexMessage copy])
          (workerFlushChan ch) (workerFlushReplyChan ch))
       pm mpm pb
       (addStat
          (addStat
             (retriedPut (length errs) (addStat st PutStoredBlock_Count 1))
             PutStoredBlock_Byte_Count (Z.of_nat (length blob)))
          PutStoredBlock_Chunk_Count (GetChunkCount (blockIndex sb)))
       (tr
        ++ [EvCall (CallNewObject (blockKey sb));
            EvCall (CallExists (blockKey sb));
            EvCall (CallWrite (blockKey sb) blob)]
        ++ concat (map (putRetryEvents (blockKey sb) blob)
                     (seq 0 (length errs)))
        ++ [EvSendBlockIndex copy])).
Proof.
  intros Hobj Henc Hcopy Hlen.
  destruct errs as [|e1 [|e2 [|e3 [|e4 errs]]]]; cbn [length] in Hlen;
    try lia; clear Hlen;
    unfold putStoredBlock; fold (blockKey sb); cbn [map app];
    repeat first [mstep | rewrite Hobj | rewrite Henc | rewrite Hcopy];
    cbn [length seq map concat putRetryEvents app retriedPut];
    rewrite <- ?app_assoc; reflexivity.
Qed.

End PutLadder.

(** X9.  The write of a put is retried like a read: at once, after
    500 ms and after 2 s.  When the first [k] writes fail, [k] at most
    3, and the next one goes through, the put succeeds: the block is
    stored, the block index is sent, [PutStoredBlock_RetryCount] grows
    by [k] (as a [uint64]) and [PutStoredBlock_FailCount] stays as it
    is. *)
Theorem putStoredBlock_retries_writes `{LT : Longtail}
    (s : remoteStore) (sb : storedBlockData) (blob : list Byte.byte)
    (copy : Longtail_BlockIndex) (errs : list error) (rest : list fault) :
  let key := blockKey sb in
  let s' := (putStoredBlock sb s).2 in
  objects (blobStore s) !! key = None ->
  WriteStoredBlockToBuffer (Some sb) = (blob, 0) ->
  BlockIndexCopy (blockIndex sb) = (copy, None) ->
  (length errs <= 3)%nat ->
  script (blobStore s)
  = Proceed :: Proceed :: map Fail errs ++ Proceed :: rest ->
  putStoredBlock sb s = (Some None, s')
  /\ trace s'
     = trace s
       ++ [EvCall (CallNewObject key); EvCall (CallExists key);
           EvCall (CallWrite key blob)]
       ++ concat (map (putRetryEvents key blob) (seq 0 (length errs)))
       ++ [EvSendBlockIndex copy]
  /\ objects (blobStore s') = <[key := blob]> (objects (blobStore s))
  /\ script (blobStore s') = rest
  /\ wrapUint64 (stats s' PutStoredBlock_RetryCount)
     = wrapUint64 (stats s PutStoredBlock_RetryCount
                   + Z.of_nat (length errs))
  /\ stats s' PutStoredBlock_FailCount = stats s PutStoredBlock_FailCount
  /\ blockIndexChan (chans s')
     = blockIndexChan (chans s) ++ [mkBlockIndexMessage copy].
Proof.
  intros key s' Hobj Henc Hcopy Hlen Hscr. subst s' key.
  destruct_store s. subst scr.
  rewrite (putStoredBlock_ladder_run objs ch pm mpm pb st tr sb blob copy
             errs rest Hobj Henc Hcopy Hlen).
  cbn [snd trace blobStore objects script stats chans blockIndexChan].
  split; [reflexivity |]. split; [reflexivity |].
  split; [reflexivity |]. split; [reflexivity |].
  split; [| split; [| reflexivity]].
  - unfold addStat at 1 2. rewrite !decide_False by done.
    rewrite retriedPut_retries. unfold addStat.
    by rewrite decide_False.
  - unfold addStat at 1 2. rewrite !decide_False by done.
    rewrite retriedPut_other by done. unfold addStat.
    by rewrite decide_False.
Qed.

Lemma putStoredBlock_retries_witness :
  let sb := mkStoredBlock (mkBlockIndex 1 []) [Byte.x05] in
  let s :=
    testStore ∅ [Proceed; Proceed; Fail (ErrDriver "timeout"); Proceed] in
  putStoredBlock (LT := testLongtail) sb s
  = (Some None, (putStoredBlock (LT := testLongtail) sb s).2)
  /\ objects (blobStore (putStoredBlock (LT := testLongtail) sb s).2)
     = {[blockKey sb := [Byte.x01; Byte.x05]]}.
Proof.
  intros sb s.
  destruct (putStoredBlock_retries_writes (LT := testLongtail) s sb
              [Byte.x01; Byte.x05] (mkBlockIndex 1 [])
              [ErrDriver "timeout"] [])
    as (Hput & _ & Hobjs & _);
    [reflexivity | reflexivity | reflexivity | cbn; lia | reflexivity |].
  split; [exact Hput | exact Hobjs].
Defined.

(** ** The end of a worker *)

Section WorkerEnd.
Context `{LT : Longtail}.

Lemma keepsPuts_ret {A} (a : A) : keepsPuts (ret a).
Proof. by intros s. Qed.

Lemma keepsPuts_panic {A} : keepsPuts (@panic A).
Proof. by intros s. Qed.

Lemma keepsPuts_bind {A B} (m : M A) (k : A -> M B) :
  keepsPuts m -> (forall a, keepsPuts (k a)) -> keepsPuts (bind m k).
Proof.
  intros Hm Hk s. unfold bind. destruct (Hm s) as [Hq Hc].
  destruct (m s) as [[a|] s1]; cbn [snd] in *; [| done].
  destruct (Hk a s1) as [Hq' Hc']. by rewrite Hq', Hc'.
Qed.

Lemma keepsPuts_blobCallM {A} c (f : fault -> BlobStore -> A * BlobStore) :
  keepsPuts (blobCallM c f).
Proof.
  intros s. unfold blobCallM.
  destruct (nextFault (blobStore s)) as [flt b]. by destruct (f flt b).
Qed.

Lemma keepsPuts_same {A} (m : M A) :
  (forall s, putBlockChan (chans (m s).2) = putBlockChan (chans s)) ->
  (forall s, putClosed (chans (m s).2) = putClosed (chans s)) ->
  keepsPuts m.
Proof. intros Hq Hc s. by split. Qed.

Lemma keepsPuts_forM {A} (l : list A) (body : A -> M unit) :
  (forall a, keepsPuts (body a)) -> keepsPuts (forM_ l body).
Proof.
  intros Hbody. induction l as [|a l IH]; cbn [forM_].
  - apply keepsPuts_ret.
  - apply keepsPuts_bind; [apply Hbody | intros _; apply IH].
Qed.

Ltac puts_step :=
  match goal with
  | |- keepsPuts (bind _ _) => apply keepsPuts_bind; [| intros ?]
  | |- keepsPuts (ret _) => apply keepsPuts_ret
  | |- keepsPuts panic => apply keepsPuts_panic
  | |- keepsPuts (NewObject _) => apply keepsPuts_blobCallM
  | |- keepsPuts (ObjExists _) => apply keepsPuts_blobCallM
  | |- keepsPuts (ObjRead _) => apply keepsPuts_blobCallM
  | |- keepsPuts (ObjWrite _ _) => apply keepsPuts_blobCallM
  | |- keepsPuts (ObjLockWriteVersion _) => apply keepsPuts_blobCallM
  | |- keepsPuts (forM_ _ _) => apply keepsPuts_forM; intros ?
  | |- keepsPuts (if ?b then _ else _) => destruct b
  | |- keepsPuts (match ?x with _ => _ end) => destruct x
  | |- keepsPuts (let '(_, _) := ?x in _) => destruct x
  | |- keepsPuts _ => apply keepsPuts_same; reflexivity
  end.

Ltac puts_auto := repeat puts_step.

Lemma keepsPuts_readBlobWithRetry key : keepsPuts (readBlobWithRetry key).
Proof. unfold readBlobWithRetry. puts_auto. Qed.

Lemma keepsPuts_getStoredBlock h : keepsPuts (getStoredBlock h).
Proof.
  unfold getStoredBlock.
  apply keepsPuts_bind; [puts_auto | intros _].
  apply keepsPuts_bind; [apply keepsPuts_readBlobWithRetry | intros [[d n] e]].
  puts_auto.
Qed.

Lemma keepsPuts_putStoredBlock sb : keepsPuts (putStoredBlock sb).
Proof. unfold putStoredBlock. puts_auto. Qed.

Lemma keepsPuts_deliverCopy sb err c : keepsPuts (deliverCopy sb err c).
Proof. unfold deliverCopy. puts_auto. Qed.

Lemma keepsPuts_fetchBlock getMsg : keepsPuts (fetchBlock getMsg).
Proof.
  unfold fetchBlock.
  apply keepsPuts_bind; [unfold fetchBlock_enter; puts_auto | intros [|]];
    [| apply keepsPuts_ret].
  apply keepsPuts_bind; [apply keepsPuts_getStoredBlock | intros [sb err]].
  unfold fetchBlock_leave. puts_auto. apply keepsPuts_deliverCopy.
Qed.

Lemma keepsPuts_prefetchBlock prefetchMsg :
  keepsPuts (prefetchBlock prefetchMsg).
Proof.
  unfold prefetchBlock.
  apply keepsPuts_bind; [unfold prefetchBlock_enter; puts_auto | intros [|]];
    [| apply keepsPuts_ret].
  apply keepsPuts_bind; [apply keepsPuts_getStoredBlock | intros [sb err]].
  destruct (isErr err); [apply keepsPuts_ret |].
  unfold prefetchBlock_leave. puts_auto; apply keepsPuts_deliverCopy.
Qed.

Lemma keepsPuts_collectFlushBlocks entries acc :
  keepsPuts (collectFlushBlocks entries acc).
Proof.
  revert acc. induction entries as [|[k v] entries IH]; intros acc;
    cbn [collectFlushBlocks].
  - apply keepsPuts_ret.
  - destruct (hasWaiters v); [| apply IH].
    apply keepsPuts_bind; [puts_auto | intros _; apply IH].
Qed.

Lemma keepsPuts_flushPrefetch : keepsPuts flushPrefetch.
Proof.
  unfold flushPrefetch.
  apply keepsPuts_bind; [puts_auto | intros _].
  apply keepsPuts_bind; [puts_auto | intros entries].
  apply keepsPuts_bind; [apply keepsPuts_collectFlushBlocks | intros fb].
  apply keepsPuts_forM. intros h. unfold flushOne. puts_auto.
Qed.

(** Every operation only appends to the trace. *)
Lemma grows_getStoredBlock h : emits anyEvent (getStoredBlock h).
Proof.
  unfold getStoredBlock.
  apply emits_bind; [emits_auto | intros _].
  apply emits_bind;
    [unfold readBlobWithRetry; emits_auto; done | intros [[d n] e]].
  emits_auto; done.
Qed.

Lemma grows_putStoredBlock sb : emits anyEvent (putStoredBlock sb).
Proof. unfold putStoredBlock. emits_auto; done. Qed.

Lemma grows_deliverCopy sb err c : emits anyEvent (deliverCopy sb err c).
Proof. unfold deliverCopy. emits_auto; done. Qed.

Lemma grows_fetchBlock getMsg : emits anyEvent (fetchBlock getMsg).
Proof.
  unfold fetchBlock.
  apply emits_bind;
    [unfold fetchBlock_enter; emits_auto; done | intros [|]];
    [| apply emits_ret].
  apply emits_bind; [apply grows_getStoredBlock | intros [sb err]].
  unfold fetchBlock_leave. emits_auto; try done. apply grows_deliverCopy.
Qed.

Lemma grows_prefetchBlock prefetchMsg :
  emits anyEvent (prefetchBlock prefetchMsg).
Proof.
  unfold prefetchBlock.
  apply emits_bind;
    [unfold prefetchBlock_enter; emits_auto; done | intros [|]];
    [| apply emits_ret].
  apply emits_bind; [apply grows_getStoredBlock | intros [sb err]].
  destruct (isErr err); [apply emits_ret |].
  unfold prefetchBlock_leave. emits_auto; try done; apply grows_deliverCopy.
Qed.

Lemma grows_flushPrefetch : emits anyEvent flushPrefetch.
Proof.
  intros s. destruct_store s. rewrite flushPrefetch_run. cbn [snd trace].
  eexists. split; [reflexivity |]. by apply Forall_forall.
Qed.

Lemma putsHandled_refl s : putsHandled s s.
Proof.
  split; [done |]. exists [], []. by rewrite app_nil_r.
Qed.

Lemma putsHandled_trans s1 s2 s3 :
  putsHandled s1 s2 -> putsHandled s2 s3 -> putsHandled s1 s3.
Proof.
  intros [Hc1 (evs1 & h1 & Htr1 & Hq1 & Hall1)]
         [Hc2 (evs2 & h2 & Htr2 & Hq2 & Hall2)].
  split; [congruence |].
  exists (evs1 ++ evs2), (h1 ++ h2).
  rewrite Htr2, Htr1, Hq1, Hq2, !app_assoc. split; [done |]. split; [done |].
  apply Forall_app. split.
  - eapply Forall_impl; [exact Hall1 |].
    intros m [errno Hin]. exists errno. apply elem_of_app. by left.
  - eapply Forall_impl; [exact Hall2 |].
    intros m [errno Hin]. exists errno. apply elem_of_app. by right.
Qed.

Lemma putsHandled_quiet {A} (m : M A) s :
  keepsPuts m -> emits anyEvent m -> putsHandled s (m s).2.
Proof.
  intros Hk He. destruct (Hk s) as [Hq Hc]. destruct (He s) as (evs & Htr & _).
  split; [done |]. exists evs, []. by rewrite Hq.
Qed.

Lemma putsHandled_run {A} (m : M A) s r s1 :
  keepsPuts m -> emits anyEvent m -> Some (m s) = Some (r, s1) ->
  putsHandled s s1.
Proof.
  intros Hk He Hrun. apply (inj Some) in Hrun.
  pose proof (putsHandled_quiet m s Hk He) as H. by rewrite Hrun in H.
Qed.

(** A put message taken by a worker: the text of the three receive
    sites, up to the value the site leaves. *)
Lemma putsHandled_put {R} accessType (resRO resRW : R) m q s res s1 :
  putBlockChan (chans s) = m :: q ->
  Some ((popPut ;;;
         if decide (accessType = ReadOnly) then
           OnPutComplete (put_asyncCompleteAPI m) EACCES ;;; ret resRO
         else
           let* err := putStoredBlock (put_storedBlock m) in
           OnPutComplete (put_asyncCompleteAPI m) (ErrorToErrno err EIO) ;;;
           ret resRW) s)
  = Some (Some res, s1) ->
  putsHandled s s1.
Proof.
  intros Hq Hrun. apply (inj Some) in Hrun.
  destruct_store s. cbn [putBlockChan] in Hq.
  unfold bind at 1 in Hrun. rewrite popPut_run in Hrun.
  case_decide.
  - revert Hrun. mrun. intros [= _ <-].
    split; [done |]. cbn [trace chans putBlockChan putClosed].
    exists [EvPutComplete (put_asyncCompleteAPI m) EACCES], [m].
    rewrite Hq. split; [done |]. split; [done |].
    constructor; [| done]. exists EACCES. by apply list_elem_of_singleton.
  - unfold bind at 1 in Hrun.
    match type of Hrun with
    | context [putStoredBlock ?sb ?t] =>
        destruct (keepsPuts_putStoredBlock sb t) as [Hkq Hkc];
        destruct (grows_putStoredBlock sb t) as (evs & Htr & _);
        destruct (putStoredBlock sb t) as [[err|] s2]; [| discriminate]
    end.
    cbn [snd chans putBlockChan putClosed trace] in *.
    destruct_store s2. revert Hrun. mrun. intros [= _ <-].
    split; [done |]. cbn [trace chans putBlockChan putClosed].
    exists (evs ++ [EvPutComplete (put_asyncCompleteAPI m)
                      (ErrorToErrno err EIO)]), [m].
    rewrite Htr, Hkq, Hq, app_assoc. split; [done |]. split; [done |].
    constructor; [| done]. exists (ErrorToErrno err EIO).
    apply elem_of_app. right. by apply list_elem_of_singleton.
Qed.

Lemma peekPut_message s m :
  peekPut s = Message _ m -> exists q, putBlockChan (chans s) = m :: q.
Proof.
  unfold peekPut. destruct (putBlockChan (chans s)) as [|m' q].
  - by destruct (putClosed (chans s)).
  - intros [= ->]. by exists q.
Qed.

Lemma peekPut_closed s :
  peekPut s = ChannelClosed _ ->
  putClosed (chans s) = true /\ putBlockChan (chans s) = [].
Proof.
  unfold peekPut. destruct (putBlockChan (chans s)) as [|m' q]; [| done].
  by destruct (putClosed (chans s)).
Qed.

Lemma workerPoll_puts accessType c s res s1 :
  workerPoll accessType c s = Some (Some res, s1) ->
  putsHandled s s1
  /\ forall received,
       res = PollEnd false received ->
       putClosed (chans s) = true /\ putBlockChan (chans s1) = [].
Proof.
  destruct c; unfold workerPoll.
  - destruct (peekPut s) as [m| |] eqn:Hpeek; [| | done].
    + destruct (peekPut_message s m Hpeek) as [q Hq]. intros Hrun.
      split; [by eapply putsHandled_put |].
      intros received ->. apply (inj Some) in Hrun. revert Hrun.
      unfold bind at 1. destruct (popPut s) as [[[]|] s0]; [| done].
      case_decide.
      * unfold bind at 1.
        destruct (OnPutComplete _ _ s0) as [[[]|] s2]; [| done]. done.
      * unfold bind at 1.
        destruct (putStoredBlock _ s0) as [[err|] s2]; [| done].
        unfold bind at 1.
        destruct (OnPutComplete _ _ s2) as [[[]|] s3]; [| done]. done.
    + intros [= <- <-]. split; [apply putsHandled_refl |].
      intros _ _. by apply peekPut_closed.
  - destruct (getBlockChan (chans s)) as [|getMsg q]; [done |].
    intros Hrun. split.
    + eapply putsHandled_run; [| | exact Hrun].
      * apply keepsPuts_bind; [by apply keepsPuts_same | intros _].
        apply keepsPuts_bind; [apply keepsPuts_fetchBlock | intros _].
        apply keepsPuts_ret.
      * apply emits_bind; [by apply emits_quiet | intros _].
        apply emits_bind; [apply grows_fetchBlock | intros _].
        apply emits_ret.
    + intros received ->. apply (inj Some) in Hrun. revert Hrun.
      unfold bind at 1. destruct (popGet s) as [[[]|] s0]; [| done].
      unfold bind at 1. destruct (fetchBlock _ s0) as [[[]|] s2]; done.
  - destruct (peekPut s); [done | done |].
    destruct (getBlockChan (chans s)); [| done].
    intros [= <- <-]. split; [apply putsHandled_refl | done].
Qed.

Lemma returns_ret {A} (v : A) t :
  (ret v t).1 = Some v \/ (ret v t).1 = None.
Proof. by left. Qed.

Lemma returns_bind {A B} (m : M A) (k : A -> M B) (v : B) :
  (forall a t, (k a t).1 = Some v \/ (k a t).1 = None) ->
  forall t, (bind m k t).1 = Some v \/ (bind m k t).1 = None.
Proof.
  intros Hk t. unfold bind. destruct (m t) as [[a|] t1]; [apply Hk | by right].
Qed.

Lemma workerWait_puts accessType c run s run' s1 :
  workerWait accessType c run s = Some (Some run', s1) ->
  putsHandled s s1
  /\ (run' = false ->
      run = false
      \/ putClosed (chans s) = true /\ putBlockChan (chans s1) = []).
Proof.
  assert (forall (m : M bool),
            keepsPuts m -> emits anyEvent m ->
            (forall t, (m t).1 = Some run \/ (m t).1 = None) ->
            Some (m s) = Some (Some run', s1) ->
            putsHandled s s1
            /\ (run' = false ->
                run = false
                \/ putClosed (chans s) = true
                   /\ putBlockChan (chans s1) = [])) as Hquiet.
  { intros m Hk He Hres Hrun. split; [by eapply putsHandled_run |].
    intros ->. left. apply (inj Some) in Hrun.
    destruct (Hres s) as [Hr|Hr]; rewrite Hrun in Hr; cbn in Hr; congruence. }
  assert (forall m : putBlockMessage,
            peekPut s = Message _ m ->
            Some ((popPut ;;;
                   if decide (accessType = ReadOnly) then
                     OnPutComplete (put_asyncCompleteAPI m) EACCES ;;;
                     ret run
                   else
                     let* err := putStoredBlock (put_storedBlock m) in
                     OnPutComplete (put_asyncCompleteAPI m)
                       (ErrorToErrno err EIO) ;;;
                     ret run) s)
            = Some (Some run', s1) ->
            putsHandled s s1
            /\ (run' = false ->
                run = false
                \/ putClosed (chans s) = true
                   /\ putBlockChan (chans s1) = [])) as Hput.
  { intros m Hpeek Hrun.
    destruct (peekPut_message s m Hpeek) as [q Hq].
    split; [by eapply putsHandled_put |].
    intros ->. left. apply (inj Some) in Hrun. revert Hrun.
    unfold bind at 1. destruct (popPut s) as [[[]|] s0]; [| done].
    case_decide.
    - unfold bind at 1.
      destruct (OnPutComplete _ _ s0) as [[[]|] s2]; [| done].
      by intros [= -> _].
    - unfold bind at 1.
      destruct (putStoredBlock _ s0) as [[err|] s2]; [| done].
      unfold bind at 1.
      destruct (OnPutComplete _ _ s2) as [[[]|] s3]; [| done].
      by intros [= -> _]. }
  assert (peekPut s = ChannelClosed _ ->
          Some (ret false s) = Some (Some run', s1) ->
          putsHandled s s1
          /\ (run' = false ->
              run = false
              \/ putClosed (chans s) = true
                 /\ putBlockChan (chans s1) = [])) as Hclosed.
  { intros Hpeek [= <- <-]. split; [apply putsHandled_refl |].
    intros _. right. by apply peekPut_closed. }
  assert (keepsPuts (popFlush ;;; flushPrefetch ;;; sendFlushReply 0 ;;;
                     ret run)) as Hkflush.
  { apply keepsPuts_bind; [by apply keepsPuts_same | intros _].
    apply keepsPuts_bind; [apply keepsPuts_flushPrefetch | intros _].
    apply keepsPuts_bind; [by apply keepsPuts_same | intros _].
    apply keepsPuts_ret. }
  assert (emits anyEvent (popFlush ;;; flushPrefetch ;;; sendFlushReply 0 ;;;
                          ret run)) as Heflush.
  { apply emits_bind; [by apply emits_quiet | intros _].
    apply emits_bind; [apply grows_flushPrefetch | intros _].
    apply emits_bind; [by apply emits_sendFlushReply | intros _].
    apply emits_ret. }
  assert (forall t,
            ((popFlush ;;; flushPrefetch ;;; sendFlushReply 0 ;;; ret run) t).1
            = Some run
            \/ ((popFlush ;;; flushPrefetch ;;; sendFlushReply 0 ;;; ret run)
                  t).1 = None) as Hrflush.
  { repeat (apply returns_bind; intros ?). apply returns_ret. }
  assert (forall g, keepsPuts (popGet ;;; fetchBlock g ;;; ret run)) as Hkget.
  { intros g. apply keepsPuts_bind; [by apply keepsPuts_same | intros _].
    apply keepsPuts_bind; [apply keepsPuts_fetchBlock | intros _].
    apply keepsPuts_ret. }
  assert (forall g, emits anyEvent (popGet ;;; fetchBlock g ;;; ret run))
    as Heget.
  { intros g. apply emits_bind; [by apply emits_quiet | intros _].
    apply emits_bind; [apply grows_fetchBlock | intros _].
    apply emits_ret. }
  assert (forall g t,
            ((popGet ;;; fetchBlock g ;;; ret run) t).1 = Some run
            \/ ((popGet ;;; fetchBlock g ;;; ret run) t).1 = None) as Hrget.
  { intros g. repeat (apply returns_bind; intros ?). apply returns_ret. }
  unfold workerWait.
  destruct (prefetchMemory s <? maxPrefetchMemory s); destruct c.
  - destruct (workerFlushChan (chans s)); [done |]. by apply Hquiet.
  - destruct (peekPut s) as [m| |] eqn:Hpeek; [by apply Hput | auto | done].
  - destruct (getBlockChan (chans s)) as [|g q]; [done |]. by apply Hquiet.
  - destruct (prefetchBlockChan (chans s)) as [|p q]; [done |].
    apply Hquiet.
    + apply keepsPuts_bind; [by apply keepsPuts_same | intros _].
      apply keepsPuts_bind; [apply keepsPuts_prefetchBlock | intros _].
      apply keepsPuts_ret.
    + apply emits_bind; [by apply emits_quiet | intros _].
      apply emits_bind; [apply grows_prefetchBlock | intros _].
      apply emits_ret.
    + repeat (apply returns_bind; intros ?). apply returns_ret.
  - destruct (workerFlushChan (chans s)); [done |]. by apply Hquiet.
  - destruct (peekPut s) as [m| |] eqn:Hpeek; [by apply Hput | auto | done].
  - destruct (getBlockChan (chans s)) as [|g q]; [done |]. by apply Hquiet.
  - done.
Qed.

Lemma workerIteration_puts accessType c1 c2 s run s1 :
  workerIteration accessType c1 c2 s = Some (Some run, s1) ->
  putsHandled s s1
  /\ (run = false ->
      putClosed (chans s) = true /\ putBlockChan (chans s1) = []).
Proof.
  unfold workerIteration.
  destruct (workerPoll accessType c1 s) as [[[res|] s0]|] eqn:Hpoll;
    [| done | done].
  destruct (workerPoll_puts _ _ _ _ _ Hpoll) as [Hh0 Hend0].
  destruct res as [|run0 received].
  - intros [= <- <-]. by split.
  - destruct (received =? 0).
    + intros Hwait.
      destruct (workerWait_puts _ _ _ _ _ _ Hwait) as [Hh1 Hend1].
      split; [by eapply putsHandled_trans |].
      intros Hfalse. destruct (Hend1 Hfalse) as [->|[Hc Hq]].
      * destruct (Hend0 _ eq_refl) as [Hc Hq]. split; [done |].
        destruct Hh1 as [_ (evs & handled & _ & Hq1 & _)].
        rewrite Hq in Hq1. symmetry in Hq1.
        by apply app_eq_nil in Hq1 as [_ ?].
      * split; [| done]. destruct Hh0 as [Hc0 _]. congruence.
    + intros [= <- <-]. split; [done |].
      intros ->. by apply (Hend0 received).
Qed.

Lemma workerLoop_puts accessType schedule s r s' :
  workerLoop accessType schedule s = Some (Some r, s') ->
  r = None
  /\ putsHandled s s'
  /\ putClosed (chans s) = true
  /\ putBlockChan (chans s') = []
  /\ prefetchBlockChan (chans s') = [].
Proof.
  revert s. induction schedule as [|[c1 c2] rest IH]; intros s; [done |].
  cbn [workerLoop].
  destruct (workerIteration accessType c1 c2 s) as [[[[|]|] s1]|] eqn:Hit;
    [| | done | done].
  - destruct (workerIteration_puts _ _ _ _ _ _ Hit) as [Hh _].
    intros Hrest. destruct (IH _ Hrest) as (-> & Hh' & Hc & Hq & Hp).
    split; [done |]. split; [by eapply putsHandled_trans |].
    split; [| done]. destruct Hh as [Hc1 _]. congruence.
  - destruct (workerIteration_puts _ _ _ _ _ _ Hit) as [Hh Hend].
    destruct (Hend eq_refl) as [Hc Hq].
    intros Hrun. apply (inj Some) in Hrun. revert Hrun.
    unfold bind at 1.
    pose proof (putsHandled_quiet flushPrefetch s1 keepsPuts_flushPrefetch
                  grows_flushPrefetch) as Hflush.
    destruct (keepsPuts_flushPrefetch s1) as [Hfq _].
    assert (prefetchBlockChan (chans (flushPrefetch s1).2) = []) as Hdrain.
    { clear. destruct_store s1. by rewrite flushPrefetch_run. }
    destruct (flushPrefetch s1) as [[[]|] s2]; [| done].
    cbn [snd] in *. intros [= <- <-].
    split; [done |]. split; [by eapply putsHandled_trans |].
    split; [done |]. split; [congruence | done].
Qed.

(** The call that creates the client of a worker: it fails when the
    blob store answers it with an error. *)
Lemma NewClientM_run s :
  NewClientM s
  = (Some (match script (blobStore s) with
           | Fail e :: _ => Some e
           | _ => None
           end),
     with_trace (trace s ++ [EvCall CallNewClient])
       (with_blobStore
          (mkBlobStore (objects (blobStore s)) (tail (script (blobStore s))))
          s)).
Proof.
  destruct_store s. by destruct scr as [|[]].
Qed.

End WorkerEnd.



(** ** Errors of the update of the store index *)

Section UpdateErrors.
Context `{LT : Longtail}.

Lemma updateRemoteStoreIndex_undecodable fuel updated objs ch pm mpm pb st
    tr blob idx errno :
  objs !! "store.lsi" = Some blob ->
  ReadStoreIndexFromBuffer blob = (idx, errno) ->
  errno <> 0 ->
  updateRemoteStoreIndex (S fuel) updated
    (mkStore (mkBlobStore objs []) ch pm mpm pb st tr)
  = (Some (Some (None,
       Wrapf
         (Wrapf (ErrnoToError errno ErrEIO)
            "updateRemoteStoreIndex: longtaillib.ReadStoreIndexFromBuffer() failed")
         "updateRemoteStoreIndex: tryUpdateRemoteStoreIndex(store.lsi) failed")),
     mkStore (mkBlobStore objs []) ch pm mpm pb st
       (tr ++ [EvCall (CallNewObject "store.lsi");
               EvCall (CallLockWriteVersion "store.lsi");
               EvCall (CallRead "store.lsi")])).
Proof.
  intros Hobj Hdec Herrno.
  assert ((errno =? 0) = false) as Hne by (by apply Z.eqb_neq).
  assert (exists e, ErrnoToError errno ErrEIO = Some e) as [e He].
  { unfold ErrnoToError. rewrite Hne. destruct (errnoSentinel errno); eauto. }
  rewrite He.
  unfold updateRemoteStoreIndex. cbn [updateLoop].
  unfold tryUpdateRemoteStoreIndex.
  repeat first [mstep | rewrite Hobj | rewrite Hdec | rewrite Hne
               | rewrite He | progress unfold id].
  rewrite <- ?app_assoc. reflexivity.
Qed.

End UpdateErrors.

(** X11.  A store index that cannot be decoded is not overwritten.  When
    [store.lsi] exists and [ReadStoreIndexFromBuffer] rejects its
    content, [updateRemoteStoreIndex] locks and reads the object, calls
    no [Write], leaves the object as it is and returns the zero-value
    index with the error of the decoder, wrapped by both functions; the
    loop does not retry. *)
Theorem updateRemoteStoreIndex_keeps_undecodable_index `{LT : Longtail}
    (fuel : nat) (updatedStoreIndex : Longtail_StoreIndex)
    (s : remoteStore) (blob : list Byte.byte) :
  let key := "store.lsi" in
  let errno := (ReadStoreIndexFromBuffer blob).2 in
  let s' := (updateRemoteStoreIndex (S fuel) updatedStoreIndex s).2 in
  objects (blobStore s) !! key = Some blob ->
  script (blobStore s) = [] ->
  errno <> 0 ->
  updateRemoteStoreIndex (S fuel) updatedStoreIndex s
  = (Some (Some (None,
       Wrapf
         (Wrapf (ErrnoToError errno ErrEIO)
            "updateRemoteStoreIndex: longtaillib.ReadStoreIndexFromBuffer() failed")
         "updateRemoteStoreIndex: tryUpdateRemoteStoreIndex(store.lsi) failed")),
     s')
  /\ isSome (ErrnoToError errno ErrEIO) = true
  /\ trace s'
     = trace s
       ++ [EvCall (CallNewObject key); EvCall (CallLockWriteVersion key);
           EvCall (CallRead key)]
  /\ blobStore s' = blobStore s.
Proof.
  intros key errno s' Hobj Hscr Herrno.
  destruct_store s. subst scr.
  destruct (ReadStoreIndexFromBuffer blob) as [idx errno'] eqn:Hdec.
  cbn [snd] in errno. subst errno.
  pose proof (updateRemoteStoreIndex_undecodable fuel updatedStoreIndex
                objs ch pm mpm pb st tr blob idx errno' Hobj Hdec Herrno)
    as Hrun.
  subst s'. rewrite Hrun. cbn [snd trace blobStore].
  split; [reflexivity |]. split; [| by split].
  unfold ErrnoToError. rewrite (proj2 (Z.eqb_neq _ _) Herrno).
  by destruct (errnoSentinel errno').
Qed.

Lemma updateRemoteStoreIndex_keeps_undecodable_witness :
  let LT' : Longtail := {|
    GetBlockSize := fun sb => Z.of_nat (length (blockData sb));
    WriteStoredBlockToBuffer := testEncodeBlock;
    ReadStoredBlockFromBuffer := testDecodeBlock;
    BlockIndexCopy := fun bi => (bi, None);
    ReadStoreIndexFromBuffer := fun _ => (None, EBADF);
    MergeStoreIndex := testMergeIndex;
    WriteStoreIndexToBuffer := testEncodeIndex;
    errnoSentinel := fun _ => true |} in
  let s := testStore {["store.lsi" := [Byte.x07]]} [] in
  blobStore (updateRemoteStoreIndex (LT := LT') 1 (Some []) s).2
  = blobStore s.
Proof.
  intros LT' s.
  destruct (updateRemoteStoreIndex_keeps_undecodable_index (LT := LT')
              0 (Some []) s [Byte.x07])
    as (_ & _ & _ & Hstore);
    [reflexivity | reflexivity | discriminate |].
  exact Hstore.
Defined.

(** ** Splitting a URI *)

Section SplitURI.

Lemma LastIndex_range s c : -1 <= LastIndex s c < Z.of_nat (length s).
Proof.
  induction s as [|x s IH]; cbn [LastIndex length]; [lia |].
  destruct (LastIndex s c =? -1) eqn:Hi; [case_decide; lia |].
  apply Z.eqb_neq in Hi. lia.
Qed.

Lemma LastIndex_none s c : LastIndex s c = -1 <-> c ∉ s.
Proof.
  induction s as [|x s IH]; cbn [LastIndex].
  - split; [intros _; apply not_elem_of_nil | done].
  - destruct (LastIndex s c =? -1) eqn:Hi.
    + apply Z.eqb_eq in Hi. case_decide as Hx.
      * subst x. split; [done |]. intros Hn. exfalso. apply Hn. by left.
      * split; [| done]. intros _ [?|Hin]%elem_of_cons; [done |].
        by apply IH in Hi.
    + apply Z.eqb_neq in Hi. split.
      * intros Heq. pose proof (LastIndex_range s c). lia.
      * intros Hn. exfalso. apply Hi, IH. intros Hin. apply Hn. by right.
Qed.

(** At the last occurrence of [c] the string splits into what is in
    front of it and a rest without [c]. *)
Lemma LastIndex_split s c :
  c ∈ s ->
  s = take (Z.to_nat (LastIndex s c)) s
      ++ c :: drop (Z.to_nat (LastIndex s c + 1)) s
  /\ c ∉ drop (Z.to_nat (LastIndex s c + 1)) s.
Proof.
  induction s as [|x s IH]; [by intros ?%elem_of_nil |].
  intros Hin. cbn [LastIndex].
  destruct (LastIndex s c =? -1) eqn:Hi.
  - apply Z.eqb_eq in Hi. pose proof (proj1 (LastIndex_none s c) Hi) as Hno.
    apply elem_of_cons in Hin as [->|Hin]; [| done].
    rewrite decide_True by done. cbn. done.
  - apply Z.eqb_neq in Hi.
    assert (c ∈ s) as Hs.
    { destruct (decide (c ∈ s)) as [|Hn]; [done |].
      by apply LastIndex_none in Hn. }
    destruct (IH Hs) as [Heq Hno].
    pose proof (LastIndex_range s c) as Hr.
    replace (Z.to_nat (LastIndex s c + 1))
      with (S (Z.to_nat (LastIndex s c))) by lia.
    replace (Z.to_nat (LastIndex s c + 1 + 1))
      with (S (Z.to_nat (LastIndex s c + 1))) by lia.
    cbn [take drop]. split; [| done]. cbn. f_equal. exact Heq.
Qed.

End SplitURI.

(** X12.  [splitURI] cuts a URI at its last slash; the name behind it
    has no slash, and parent, slash and name give the URI back.  A
    backslash is used only when the URI has no slash at all, even if it
    comes after the last slash; with neither separator the parent is
    empty and the name is the whole URI. *)
Theorem splitURI_splits_at_last_separator (uri : string) :
  let parent := bytes_of (splitURI uri).1 in
  let name := bytes_of (splitURI uri).2 in
  (slash ∈ bytes_of uri ->
   bytes_of uri = parent ++ slash :: name /\ slash ∉ name)
  /\ (slash ∉ bytes_of uri -> backslash ∈ bytes_of uri ->
      bytes_of uri = parent ++ backslash :: name /\ backslash ∉ name)
  /\ (slash ∉ bytes_of uri -> backslash ∉ bytes_of uri ->
      parent = [] /\ name = bytes_of uri).
Proof.
  intros parent name. subst parent name. unfold splitURI, splitURIBytes.
  set (u := bytes_of uri).
  pose proof (LastIndex_range u slash) as Hrs.
  pose proof (LastIndex_range u backslash) as Hrb.
  split; [| split].
  - intros Hin.
    assert ((LastIndex u slash =? -1) = false) as Hi.
    { apply Z.eqb_neq. intros Hi. by apply LastIndex_none in Hi. }
    rewrite Hi, Hi. cbn [fst snd]. rewrite !bytes_of_str.
    by apply LastIndex_split.
  - intros Hno Hin.
    assert ((LastIndex u slash =? -1) = true) as Hi
      by (by apply Z.eqb_eq, LastIndex_none).
    assert ((LastIndex u backslash =? -1) = false) as Hj.
    { apply Z.eqb_neq. intros Hj. by apply LastIndex_none in Hj. }
    rewrite Hi, Hj. cbn [fst snd]. rewrite !bytes_of_str.
    by apply LastIndex_split.
  - intros Hno Hnb.
    assert ((LastIndex u slash =? -1) = true) as Hi
      by (by apply Z.eqb_eq, LastIndex_none).
    assert ((LastIndex u backslash =? -1) = true) as Hj
      by (by apply Z.eqb_eq, LastIndex_none).
    rewrite Hi, Hj. cbn [fst snd]. by rewrite !bytes_of_str.
Qed.

(** ** Compacting the block indexes of a batch *)

Section Compact.

Lemma drop_S_eq {A} (a b : list A) i :
  drop i a = drop i b -> drop (S i) a = drop (S i) b.
Proof.
  intros H. replace (S i) with (i + 1)%nat by lia.
  by rewrite <- !drop_drop, H.
Qed.

Lemma compactLoop_spec (original : list blockIndexHandle) n i cur w :
  (i + n = length original)%nat ->
  length cur = length original ->
  (w <= i)%nat ->
  take w cur = filter (fun b => is_Some b) (take i original) ->
  drop i cur = drop i original ->
  let '(moved, writeIndex) := compactLoop n i cur w in
  take writeIndex moved = filter (fun b => is_Some b) original.
Proof.
  revert i cur w. induction n as [|n IH]; intros i cur w Hn Hlen Hw Htake Hdrop.
  - cbn [compactLoop]. rewrite Htake.
    by rewrite take_ge by lia.
  - cbn [compactLoop].
    assert (i < length original)%nat as Hi by lia.
    destruct (lookup_lt_is_Some_2 original i Hi) as [b Hb].
    assert (cur !! i = Some b) as Hcur.
    { rewrite <- (Nat.add_0_r i) at 1. rewrite <- lookup_drop, Hdrop.
      by rewrite lookup_drop, Nat.add_0_r. }
    unfold blockIndexHandle in *. rewrite Hcur.
    assert (take (S i) original = take i original ++ [b]) as Hsnoc
      by (by apply take_S_r).
    destruct b as [bi|].
    + apply IH.
      * lia.
      * destruct (w <? i)%nat; [by rewrite length_insert | done].
      * lia.
      * rewrite Hsnoc, filter_app, <- Htake.
        rewrite filter_cons_True by (by eexists). rewrite filter_nil.
        destruct (w <? i)%nat eqn:Hlt.
        -- apply Nat.ltb_lt in Hlt.
           rewrite (take_S_r _ _ (Some bi))
             by (apply list_lookup_insert_eq; lia).
           by rewrite take_insert_ge by lia.
        -- apply Nat.ltb_ge in Hlt. assert (w = i) as -> by lia.
           by apply take_S_r.
      * destruct (w <? i)%nat eqn:Hlt.
        -- apply Nat.ltb_lt in Hlt. rewrite drop_insert_lt by lia.
           by apply drop_S_eq.
        -- by apply drop_S_eq.
    + apply IH.
      * lia.
      * done.
      * lia.
      * rewrite Hsnoc, filter_app, <- Htake.
        rewrite filter_cons_False by (by intros [? ?]).
        by rewrite filter_nil, app_nil_r.
      * by apply drop_S_eq.
Qed.

End Compact.

(** X13.  After a batch the valid block indexes are moved to the front
    of the slice in place, and the slice is cut behind them.  What is
    left is exactly the valid entries of the batch, each once, in the
    order of the batch: the entries that failed to load are dropped and
    no entry is lost or duplicated by the moves. *)
Theorem compactBlockIndexes_keeps_valid
    (batchBlockIndexes : list blockIndexHandle) :
  compactBlockIndexes batchBlockIndexes
  = filter (fun b => is_Some b) batchBlockIndexes.
Proof.
  unfold compactBlockIndexes.
  pose proof (compactLoop_spec batchBlockIndexes (length batchBlockIndexes)
                0 batchBlockIndexes 0) as H.
  destruct (compactLoop _ 0 batchBlockIndexes 0) as [moved writeIndex].
  by apply H.
Qed.

(** ** Running the maintainer *)

Section IndexRun.
Context `{LT : Longtail} `{LI : LongtailIndex} `{BB : BlobBackends}.
Variables (s : remoteStore) (wc : Z) (pf : list preflightGetMessage)
  (ge : list getExistingContentMessage) (ifl ifr : list Z) (bc : bool)
  (itr : list indexEvent).

Lemma liftM_run {A} (m : M A) :
  liftM m (mkIndexState s wc pf ge ifl ifr bc itr)
  = match m s with
    | (Some a, s') => (Done a, mkIndexState s' wc pf ge ifl ifr bc itr)
    | (None, s') => (Panicked, mkIndexState s' wc pf ge ifl ifr bc itr)
    end.
Proof. reflexivity. Qed.

Lemma liftFuel_run {A} (m : M (option A)) :
  liftFuel m (mkIndexState s wc pf ge ifl ifr bc itr)
  = match m s with
    | (Some (Some a), s') =>
        (Done a, mkIndexState s' wc pf ge ifl ifr bc itr)
    | (Some None, s') => (OutOfFuel, mkIndexState s' wc pf ge ifl ifr bc itr)
    | (None, s') => (Panicked, mkIndexState s' wc pf ge ifl ifr bc itr)
    end.
Proof. reflexivity. Qed.

Lemma iemit_run e :
  iemit e (mkIndexState s wc pf ge ifl ifr bc itr)
  = (Done tt, mkIndexState s wc pf ge ifl ifr bc (itr ++ [e])).
Proof. reflexivity. Qed.

Lemma ilog_run msg :
  ilog msg (mkIndexState s wc pf ge ifl ifr bc itr)
  = (Done tt, mkIndexState s wc pf ge ifl ifr bc (itr ++ [IxLog msg])).
Proof. reflexivity. Qed.

Lemma sendIndexFlushReply_run v :
  sendIndexFlushReply v (mkIndexState s wc pf ge ifl ifr bc itr)
  = (Done tt,
     mkIndexState s wc pf ge ifl (ifr ++ [v]) bc (itr ++ [IxFlushReply v])).
Proof. reflexivity. Qed.

End IndexRun.

Section IndexCalls.
Context `{LT : Longtail} `{LI : LongtailIndex} `{BB : BlobBackends}.
Variables (objs : gmap string (list Byte.byte)) (scr : list fault)
  (ch : channels) (pm mpm : Z)
  (pb : gmap Z (option pendingPrefetchedBlock))
  (st : BlockStoreStats) (tr : list event)
  (wc : Z) (pf : list preflightGetMessage)
  (ge : list getExistingContentMessage) (ifl ifr : list Z) (bc : bool)
  (itr : list indexEvent).

Lemma NewClient_nil :
  NewClient
    (mkIndexState (mkStore (mkBlobStore objs []) ch pm mpm pb st tr)
       wc pf ge ifl ifr bc itr)
  = (Done None,
     mkIndexState (mkStore (mkBlobStore objs []) ch pm mpm pb st tr)
       wc pf ge ifl ifr bc (itr ++ [IxNewClient])).
Proof. reflexivity. Qed.

Lemma NewClient_proceed :
  NewClient
    (mkIndexState
       (mkStore (mkBlobStore objs (Proceed :: scr)) ch pm mpm pb st tr)
       wc pf ge ifl ifr bc itr)
  = (Done None,
     mkIndexState (mkStore (mkBlobStore objs scr) ch pm mpm pb st tr)
       wc pf ge ifl ifr bc (itr ++ [IxNewClient])).
Proof. reflexivity. Qed.

Lemma NewClient_fail e :
  NewClient
    (mkIndexState
       (mkStore (mkBlobStore objs (Fail e :: scr)) ch pm mpm pb st tr)
       wc pf ge ifl ifr bc itr)
  = (Done (Some e),
     mkIndexState (mkStore (mkBlobStore objs scr) ch pm mpm pb st tr)
       wc pf ge ifl ifr bc (itr ++ [IxNewClient])).
Proof. reflexivity. Qed.

Lemma GetObjects_nil :
  GetObjects
    (mkIndexState (mkStore (mkBlobStore objs []) ch pm mpm pb st tr)
       wc pf ge ifl ifr bc itr)
  = (Done ((fun kv : string * list Byte.byte =>
              (kv.1, Z.of_nat (length kv.2))) <$> map_to_list objs, None),
     mkIndexState (mkStore (mkBlobStore objs []) ch pm mpm pb st tr)
       wc pf ge ifl ifr bc (itr ++ [IxGetObjects])).
Proof. reflexivity. Qed.

Lemma GetObjects_proceed :
  GetObjects
    (mkIndexState
       (mkStore (mkBlobStore objs (Proceed :: scr)) ch pm mpm pb st tr)
       wc pf ge ifl ifr bc itr)
  = (Done ((fun kv : string * list Byte.byte =>
              (kv.1, Z.of_nat (length kv.2))) <$> map_to_list objs, None),
     mkIndexState (mkStore (mkBlobStore objs scr) ch pm mpm pb st tr)
       wc pf ge ifl ifr bc (itr ++ [IxGetObjects])).
Proof. reflexivity. Qed.

Lemma GetObjects_fail e :
  GetObjects
    (mkIndexState
       (mkStore (mkBlobStore objs (Fail e :: scr)) ch pm mpm pb st tr)
       wc pf ge ifl ifr bc itr)
  = (Done ([], Some e),
     mkIndexState (mkStore (mkBlobStore objs scr) ch pm mpm pb st tr)
       wc pf ge ifl ifr bc (itr ++ [IxGetObjects])).
Proof. reflexivity. Qed.

End IndexCalls.

Create Rewrite HintDb irun.

#[global] Hint Rewrite @liftM_run @liftFuel_run @iemit_run @ilog_run
  @sendIndexFlushReply_run
  @NewClient_nil @NewClient_proceed @NewClient_fail
  @GetObjects_nil @GetObjects_proceed @GetObjects_fail : irun.

(** One step of execution in the maintainer's monad. *)
Ltac istep :=
  first
    [ progress autorewrite with irun
    | progress unfold ibind, iret, ipanic, outOfFuel
    | mstep
    | progress cbn [iforM_ imapM bool_decide] ].

Ltac irun := repeat istep.

Ltac destruct_index t :=
  destruct t as [?s ?wc ?pf ?ge ?ifl ?ifr ?bc ?itr];
  cbn [workers workerCount preflightGetChan getExistingContentChan
         indexFlushChan indexFlushReplyChan blockIndexClosed indexTrace]
    in *.

(** ** Errors while the index is loaded *)

Section StoreIndexNoError.
Context `{LT : Longtail} `{LI : LongtailIndex} `{BB : BlobBackends}.

Lemma ibind_done {A B} (m : IM A) (k : A -> IM B) t b t' :
  ibind m k t = (Done b, t') ->
  exists a t1, m t = (Done a, t1) /\ k a t1 = (Done b, t').
Proof.
  unfold ibind. destruct (m t) as [[a| |] t1]; [| done | done].
  intros H. by exists a, t1.
Qed.

Lemma readKnownStoreIndex_errno path accessType storeIndex saveStoreIndex t
    storeIndex' saveStoreIndex' errno t' :
  accessType <> ReadOnly ->
  readKnownStoreIndex path accessType storeIndex saveStoreIndex t
  = (Done (storeIndex', saveStoreIndex', errno), t') ->
  errno = 0.
Proof.
  intros Hacc. unfold readKnownStoreIndex.
  case_decide; [by intros [= _ _ <- _] |].
  rewrite bool_decide_false by done. cbn [andb].
  intros (r1 & t1 & H1 & H2)%ibind_done.
  injection H1 as <- <-.
  apply ibind_done in H2 as (si & t2 & _ & H2).
  by injection H2 as _ _ <- _.
Qed.

Lemma loadStoreIndex_return fuel path accessType storeIndex saveStoreIndex t
    r t' :
  accessType <> ReadOnly ->
  loadStoreIndex fuel path accessType storeIndex saveStoreIndex t
  = (Done (Return r), t') ->
  r = (None, false, None).
Proof.
  intros Hacc. unfold loadStoreIndex.
  intros ([[si sv] errno] & t1 & H1 & H2)%ibind_done.
  apply readKnownStoreIndex_errno in H1 as ->; [| done].
  destruct (negb (isSome si)); [| done].
  rewrite decide_False in H2 by done.
  apply ibind_done in H2 as ([idx err] & t2 & _ & H2).
  destruct (isErr err).
  - by injection H2 as <- _.
  - apply ibind_done in H2 as (_ & t3 & _ & H2).
    apply ibind_done in H2 as ([idx' err'] & t4 & _ & H2).
    apply ibind_done in H2 as (sv' & t5 & _ & H2).
    done.
Qed.

Lemma sendPrefetches_run hashes objs scr ch pm mpm pb st tr wc pf ge ifl ifr
    bc itr :
  iforM_ hashes (fun blockHash => liftM (sendPrefetch blockHash))
    (mkIndexState (mkStore (mkBlobStore objs scr) ch pm mpm pb st tr)
       wc pf ge ifl ifr bc itr)
  = (Done tt,
     mkIndexState
       (mkStore (mkBlobStore objs scr)
          (mkChannels (putBlockChan ch) (putClosed ch) (getBlockChan ch)
             (prefetchBlockChan ch ++ (mkPrefetch <$> hashes))
             (blockIndexChan ch) (workerFlushChan ch)
             (workerFlushReplyChan ch))
          pm mpm pb st tr)
       wc pf ge ifl ifr bc itr).
Proof.
  revert ch. induction hashes as [|h hashes IH]; intros ch; cbn [iforM_].
  - unfold iret. cbn [fmap list_fmap]. rewrite app_nil_r. by destruct ch.
  - unfold ibind at 1. rewrite liftM_run.
    unfold sendPrefetch at 1, with_chans.
    cbn [chans blobStore prefetchMemory maxPrefetchMemory prefetchBlocks
           stats trace].
    rewrite IH.
    cbn [putBlockChan putClosed getBlockChan prefetchBlockChan
           blockIndexChan workerFlushChan workerFlushReplyChan].
    by rewrite <- app_assoc.
Qed.

Lemma getStoreIndex_listing_fails fuel path saveStoreIndex added objs rest
    ch pm mpm pb st tr wc pf ge ifl ifr bc itr e :
  getStoreIndex fuel path Init None saveStoreIndex added
    (mkIndexState (mkStore (mkBlobStore objs (Fail e :: rest)) ch pm mpm pb
                     st tr) wc pf ge ifl ifr bc itr)
  = (Done (None, false, None),
     mkIndexState (mkStore (mkBlobStore objs rest) ch pm mpm pb st tr)
       wc pf ge ifl ifr bc (itr ++ [IxGetObjects])).
Proof.
  unfold getStoreIndex, loadStoreIndex, readKnownStoreIndex.
  cbn [isSome negb]. rewrite decide_True by done.
  unfold buildStoreIndexFromStoreBlocks.
  irun. reflexivity.
Qed.

Lemma servePreflight_listing_fails fuel path sv added msg objs rest ch pm
    mpm pb st tr wc pf ge ifl ifr bc itr e :
  servePreflight fuel path Init (mkVars None sv added) msg
    (mkIndexState (mkStore (mkBlobStore objs (Fail e :: rest)) ch pm mpm pb
                     st tr) wc pf ge ifl ifr bc itr)
  = (Done (Next (mkVars None false added) true),
     mkIndexState
       (mkStore (mkBlobStore objs rest)
          (mkChannels (putBlockChan ch) (putClosed ch) (getBlockChan ch)
             (prefetchBlockChan ch
              ++ (mkPrefetch <$> preflight_blockHashes msg))
             (blockIndexChan ch) (workerFlushChan ch)
             (workerFlushReplyChan ch))
          pm mpm pb st tr)
       wc pf ge ifl ifr bc
       (itr
        ++ [IxGetObjects;
            IxPreflightComplete (preflight_asyncCompleteAPI msg)
              (preflight_blockHashes msg) 0])).
Proof.
  unfold servePreflight.
  cbn [var_storeIndex var_saveStoreIndex var_addedBlockIndexes].
  unfold ibind at 1. rewrite getStoreIndex_listing_fails.
  cbn [isErr isSome]. unfold onPreflighMessage.
  unfold ibind at 1. unfold ibind at 1. rewrite sendPrefetches_run.
  irun. by rewrite <- app_assoc.
Qed.

End StoreIndexNoError.

(** X14.  On a store opened [Init] or [ReadWrite], [getStoreIndex]
    called without added block indexes returns no error, whatever the
    blob store does.  The one error return of that path wraps
    [ErrnoToError(errno, ErrENOMEM)], and [errno] is 0 there, so the
    wrapped error is nil: a failure to list or scan the blocks is not
    reported to the caller. *)
Theorem getStoreIndex_reports_no_rebuild_error
    `{LT : Longtail} `{LI : LongtailIndex} `{BB : BlobBackends}
    (fuel : nat) (path : string) (accessType : AccessType)
    (storeIndex : Longtail_StoreIndex) (saveStoreIndex : bool)
    (t t' : indexState) (idx : Longtail_StoreIndex) (save : bool)
    (err : option error) :
  accessType <> ReadOnly ->
  getStoreIndex fuel path accessType storeIndex saveStoreIndex [] t
  = (Done (idx, save, err), t') ->
  err = None.
Proof.
  intros Hacc Hrun. unfold getStoreIndex in Hrun.
  apply ibind_done in Hrun as (loaded & t1 & H1 & H2).
  destruct loaded as [r|[si sv]].
  - destruct (negb (isSome storeIndex)); [| done].
    apply loadStoreIndex_return in H1 as ->; [| done].
    by injection H2 as _ _ <- _.
  - cbn in H2. by injection H2 as _ _ <- _.
Qed.

Lemma getStoreIndex_reports_no_rebuild_error_witness :
  let t :=
    testIndexState 1 (testStore ∅ [Fail (ErrDriver "listing failed")]) in
  (getStoreIndex (LT := testLongtail) (LI := testLongtailIndex)
     (BB := testBackends) 1 "" Init None false [] t).1
  = Done (None, false, None).
Proof.
  intros t.
  destruct (getStoreIndex (LT := testLongtail) (LI := testLongtailIndex)
              (BB := testBackends) 1 "" Init None false [] t)
    as [[[[idx save] err]| |] t'] eqn:Hrun.
  - assert (err = None) as ->.
    { eapply (getStoreIndex_reports_no_rebuild_error (LT := testLongtail)
                (LI := testLongtailIndex) (BB := testBackends));
        [| exact Hrun]. discriminate. }
    assert ((getStoreIndex (LT := testLongtail) (LI := testLongtailIndex)
               (BB := testBackends) 1 "" Init None false [] t).1
            = Done (None, false, None)) as Hval by (vm_compute; reflexivity).
    rewrite Hrun in Hval. exact Hval.
  - exfalso.
    assert ((getStoreIndex (LT := testLongtail) (LI := testLongtailIndex)
               (BB := testBackends) 1 "" Init None false [] t).1
            = Done (None, false, None)) as Hval by (vm_compute; reflexivity).
    by rewrite Hrun in Hval.
  - exfalso.
    assert ((getStoreIndex (LT := testLongtail) (LI := testLongtailIndex)
               (BB := testBackends) 1 "" Init None false [] t).1
            = Done (None, false, None)) as Hval by (vm_compute; reflexivity).
    by rewrite Hrun in Hval.
Defined.

(** X15.  A preflight request succeeds although the index could not be
    built.  On a store opened [Init] whose blob store fails to list its
    objects, the maintainer answers a preflight request as if nothing
    had happened: [getStoreIndex] returns the zero-value index and a
    nil error, a prefetch message is queued for every hash of the
    request, and the callback is invoked with the hashes and status 0.
    The maintainer goes on with a store index that is not valid. *)
Theorem preflight_succeeds_when_listing_fails
    `{LT : Longtail} `{LI : LongtailIndex} `{BB : BlobBackends}
    (fuel : nat) (path : string) (vars : maintainerVars)
    (msg : preflightGetMessage) (e : error) (rest : list fault)
    (t : indexState) :
  let t' := (servePreflight fuel path Init vars msg t).2 in
  var_storeIndex vars = None ->
  script (blobStore (workers t)) = Fail e :: rest ->
  servePreflight fuel path Init vars msg t
  = (Done (Next (mkVars None false (var_addedBlockIndexes vars)) true), t')
  /\ indexTrace t'
     = indexTrace t
       ++ [IxGetObjects;
           IxPreflightComplete (preflight_asyncCompleteAPI msg)
             (preflight_blockHashes msg) 0]
  /\ prefetchBlockChan (chans (workers t'))
     = prefetchBlockChan (chans (workers t))
       ++ (mkPrefetch <$> preflight_blockHashes msg)
  /\ trace (workers t') = trace (workers t)
  /\ objects (blobStore (workers t')) = objects (blobStore (workers t)).
Proof.
  intros t' Hidx Hscr.
  destruct vars as [si sv added]. cbn [var_storeIndex] in Hidx. subst si.
  destruct_index t. destruct_store s. subst scr.
  pose proof (servePreflight_listing_fails fuel path sv added msg objs rest
                ch pm mpm pb st tr wc pf ge ifl ifr bc itr e) as Hrun.
  subst t'. rewrite Hrun.
  cbn [snd indexTrace workers chans prefetchBlockChan trace blobStore
         objects var_addedBlockIndexes].
  by repeat split.
Qed.

Lemma preflight_succeeds_when_listing_fails_witness :
  let t :=
    testIndexState 1 (testStore ∅ [Fail (ErrDriver "listing failed")]) in
  indexTrace
    (servePreflight (LT := testLongtail) (LI := testLongtailIndex)
       (BB := testBackends) 1 "" Init (mkVars None false [])
       (mkPreflight [1; 2] 5%nat) t).2
  = [IxGetObjects; IxPreflightComplete 5%nat [1; 2] 0].
Proof.
  intros t.
  exact (proj1 (proj2
           (preflight_succeeds_when_listing_fails (LT := testLongtail)
              (LI := testLongtailIndex) (BB := testBackends)
              1 "" (mkVars None false []) (mkPreflight [1; 2] 5%nat)
              (ErrDriver "listing failed") [] t eq_refl eq_refl))).
Defined.

(** ** The error state of the maintainer *)

Section ErrorState.

Lemma errorServed_refl t : errorServed t t.
Proof.
  repeat (split; [done |]). exists [], [], [], [].
  rewrite !app_nil_r. by repeat split.
Qed.

Lemma errorServed_trans t1 t2 t3 :
  errorServed t1 t2 -> errorServed t2 t3 -> errorServed t1 t3.
Proof.
  intros (Hb1 & Ht1 & Hp1 & Hf1 & Hc1 & evs1 & fl1 & q1 & d1
          & He1 & Ha1 & Hfl1 & Hr1 & Hq1 & Hs1 & Hd1)
         (Hb2 & Ht2 & Hp2 & Hf2 & Hc2 & evs2 & fl2 & q2 & d2
          & He2 & Ha2 & Hfl2 & Hr2 & Hq2 & Hs2 & Hd2).
  split; [congruence |]. split; [congruence |]. split; [congruence |].
  split; [congruence |]. split; [congruence |].
  exists (evs1 ++ evs2), (fl1 ++ fl2), (q1 ++ q2), (d1 ++ d2).
  rewrite He2, He1, Hr2, Hr1, Hfl1, Hfl2, Hq1, Hq2, Hd1, Hd2, fmap_app,
    !app_assoc.
  split; [done |]. split; [by apply Forall_app |].
  split; [done |]. split; [done |]. split; [done |].
  split; [| done].
  apply Forall_app. split.
  - eapply Forall_impl; [exact Hs1 |]. intros q Hin.
    apply elem_of_app. by left.
  - eapply Forall_impl; [exact Hs2 |]. intros q Hin.
    apply elem_of_app. by right.
Qed.

Lemma errorStateStep_served c t go t' :
  errorStateStep c t = Some (go, t') ->
  errorServed t t'
  /\ (go = false ->
      blockIndexClosed t = true
      /\ blockIndexChan (chans (workers t')) = []).
Proof.
  destruct c; unfold errorStateStep.
  - destruct_index t. destruct ifl as [|v ifl]; [done |].
    intros [= <- <-]. split; [| done].
    repeat (split; [done |]).
    exists [IxFlushReply 0], [v], [], [].
    cbn. rewrite ?app_nil_r. repeat split; try done.
    all: by repeat constructor.
  - destruct (blockIndexChan (chans (workers t))) as [|m q] eqn:Hq.
    + destruct (blockIndexClosed t) eqn:Hc; [| done].
      intros [= <- <-]. split; [apply errorServed_refl | done].
    + intros [= <- <-]. split; [| done].
      destruct_index t. destruct_store s. cbn in Hq.
      repeat (split; [done |]).
      exists [], [], [], [m].
      cbn. rewrite ?app_nil_r, ?Hq. by repeat split.
  - destruct_index t. destruct ge as [|q ge]; [done |].
    intros [= <- <-]. split; [| done].
    repeat (split; [done |]).
    exists [IxExistingContentComplete (existing_asyncCompleteAPI q) None
              EINVAL], [], [q], [].
    cbn. rewrite ?app_nil_r. repeat split; try done.
    all: repeat constructor; try done; by apply list_elem_of_singleton.
Qed.

End ErrorState.

(** X16.  The error state of the maintainer.  When
    [storeIndexWorkerReplyErrorState] returns, the block index channel
    is closed and empty.  Until then it has answered every flush
    message it took with 0 and every query for the existing content
    with the zero-value index and [EINVAL], and it has dropped the
    block index messages.  It does nothing else: no call on the blob
    store, and the preflight channel is not read, so a preflight
    request made after an error is not answered. *)
Theorem storeIndexWorkerReplyErrorState_serves_errors
    (schedule : list errorCase) (t t' : indexState) :
  storeIndexWorkerReplyErrorState schedule t = Some t' ->
  blockIndexClosed t = true
  /\ blockIndexChan (chans (workers t')) = []
  /\ errorServed t t'.
Proof.
  revert t. induction schedule as [|c rest IH]; intros t; [done |].
  cbn [storeIndexWorkerReplyErrorState].
  destruct (errorStateStep c t) as [[[|] t1]|] eqn:Hstep; [| | done].
  - destruct (errorStateStep_served _ _ _ _ Hstep) as [Hs _].
    intros Hrest. destruct (IH _ Hrest) as (Hc & Hq & Hs').
    split; [| split; [done | by eapply errorServed_trans]].
    destruct Hs as (_ & _ & _ & _ & Hc1 & _). congruence.
  - destruct (errorStateStep_served _ _ _ _ Hstep) as [Hs Hend].
    intros [= <-]. destruct (Hend eq_refl) as [Hc Hq].
    split; [done |]. split; [done | exact Hs].
Qed.

Lemma storeIndexWorkerReplyErrorState_witness :
  let t :=
    mkIndexState (testStore ∅ []) 1 [mkPreflight [1] 0%nat]
      [mkGetExisting [7] 0 3%nat] [1] [] true [] in
  exists t',
    storeIndexWorkerReplyErrorState
      [ErrFlush; ErrGetExistingContent; ErrBlockIndex] t = Some t'
    /\ preflightGetChan t' = [mkPreflight [1] 0%nat]
    /\ indexFlushReplyChan t' = [0].
Proof.
  intros t.
  destruct (storeIndexWorkerReplyErrorState
              [ErrFlush; ErrGetExistingContent; ErrBlockIndex] t)
    as [t'|] eqn:Hrun; [| discriminate].
  exists t'. split; [reflexivity |].
  destruct (storeIndexWorkerReplyErrorState_serves_errors _ _ _ Hrun)
    as (_ & _ & _ & _ & _ & Hpf & _).
  split; [exact Hpf |].
  injection Hrun as <-. reflexivity.
Defined.

(** ** Rebuilding the index from the blocks *)

Section Rebuild.
Context `{LT : Longtail} `{LI : LongtailIndex} `{BB : BlobBackends}.


Lemma inFuel_bind {A B} (m : IM A) (k : A -> IM B) t :
  (m t).1 <> OutOfFuel ->
  (forall a t1, (k a t1).1 <> OutOfFuel) ->
  (ibind m k t).1 <> OutOfFuel.
Proof.
  intros Hm Hk. unfold ibind. destruct (m t) as [[a| |] t1]; cbn in *;
    [apply Hk | done | done].
Qed.

Lemma inFuel_liftM {A} (m : M A) t : (liftM m t).1 <> OutOfFuel.
Proof. unfold liftM. by destruct (m (workers t)) as [[a|] s']. Qed.

Lemma inFuel_loadBlockIndex key t : (loadBlockIndex key t).1 <> OutOfFuel.
Proof.
  unfold loadBlockIndex. apply inFuel_bind; [apply inFuel_liftM |].
  intros [[d n] err] t1. destruct (isErr err); [done |].
  destruct (ReadBlockIndexFromBuffer _) as [[bi|] errno];
    destruct (negb (errno =? 0)); try done.
  case_decide; [done |]. by apply inFuel_bind.
Qed.

Lemma inFuel_imapM {A B} (f : A -> IM B) l t :
  (forall a t1, (f a t1).1 <> OutOfFuel) ->
  (imapM f l t).1 <> OutOfFuel.
Proof.
  intros Hf. revert t. induction l as [|a l IH]; intros t; [done |].
  cbn [imapM]. apply inFuel_bind; [apply Hf |]. intros b t1.
  by apply inFuel_bind.
Qed.

Lemma inFuel_newClients n t : (newClients n t).1 <> OutOfFuel.
Proof.
  revert t. induction n as [|n IH]; intros t; [done |].
  cbn [newClients].
  apply inFuel_bind;
    [unfold NewClient, iblobCall; by destruct (newClientOn _) |].
  intros err t1. by destruct (isErr err).
Qed.

Lemma inFuel_scanBatches fuel batchCount blockKeys batchStart storeIndex t :
  1 <= batchCount ->
  0 <= batchStart ->
  Z.of_nat (length blockKeys) - batchStart <= Z.of_nat fuel ->
  (scanBatches fuel batchCount blockKeys batchStart storeIndex t).1
  <> OutOfFuel.
Proof.
  intros Hcount. revert batchStart storeIndex t.
  induction fuel as [|fuel IH]; intros batchStart storeIndex t Hstart Hfuel.
  - cbn [scanBatches].
    destruct (batchStart <? Z.of_nat (length blockKeys)) eqn:Hlt; [| done].
    apply Z.ltb_lt in Hlt. lia.
  - cbn [scanBatches].
    destruct (batchStart <? Z.of_nat (length blockKeys)) eqn:Hlt; [| done].
    apply Z.ltb_lt in Hlt. cbn [negb].
    apply inFuel_bind; [apply inFuel_imapM, inFuel_loadBlockIndex |].
    intros handles t1.
    destruct (CreateStoreIndexFromBlocks _) as [batchIdx errno].
    destruct (negb (errno =? 0)); [done |].
    destruct (MergeStoreIndex _ _) as [newIdx errno'].
    destruct (negb (errno' =? 0)); [done |].
    apply inFuel_bind; [done |]. intros _ t2.
    apply IH; destruct (_ <? _) eqn:Hb;
      try apply Z.ltb_lt in Hb; try apply Z.ltb_ge in Hb; lia.
Qed.

(** With no goroutine per batch the loop makes no progress. *)
Lemma scanBatches_stuck fuel blockKeys storeIndex idx0 t :
  blockKeys <> [] ->
  CreateStoreIndexFromBlocks [] = (idx0, 0) ->
  (forall a, isSome a = true ->
             exists b, MergeStoreIndex a idx0 = (b, 0) /\ isSome b = true) ->
  isSome storeIndex = true ->
  (scanBatches fuel 0 blockKeys 0 storeIndex t).1 = OutOfFuel.
Proof.
  intros Hkeys Hcreate Hmerge. revert storeIndex t.
  assert ((0 <? Z.of_nat (length blockKeys)) = true) as Hlt.
  { apply Z.ltb_lt. destruct blockKeys; [done | cbn [length]; lia]. }
  assert ((Z.of_nat (length blockKeys) <? 0 + 0) = false) as Hge
    by (apply Z.ltb_ge; lia).
  induction fuel as [|fuel IH]; intros storeIndex t Hvalid;
    cbn [scanBatches]; rewrite Hlt; [done |].
  cbn [negb]. rewrite Hge. change (Z.to_nat 0) with 0%nat.
  rewrite take_0. cbn [imapM]. unfold ibind at 1. unfold iret at 1.
  cbv beta iota. rewrite (eq_refl : compactBlockIndexes [] = []).
  rewrite Hcreate. cbn [negb Z.eqb].
  destruct (Hmerge storeIndex Hvalid) as (newIdx & -> & Hnew).
  cbn [negb Z.eqb].
  unfold ibind at 1. unfold ilog, iemit. change (0 + 0) with 0.
  by apply IH.
Qed.

(** A block index is taken into a batch only under the key made from
    its own hash. *)
Lemma loadBlockIndex_key key t bi t' :
  loadBlockIndex key t = (Done (Some bi), t') ->
  GetBlockPath "chunks" (GetBlockHash bi) = key.
Proof.
  unfold loadBlockIndex. unfold ibind at 1.
  destruct (liftM (readBlobWithRetry key) t) as [[[[d n] err]| |] t1];
    [| done | done].
  destruct (isErr err); [done |].
  destruct (ReadBlockIndexFromBuffer _) as [[bi'|] errno];
    destruct (negb (errno =? 0)); try done.
  case_decide as Hkey.
  - by intros [= <- _].
  - unfold ibind. by destruct (ilog _ t1) as [[[]| |] t2].
Qed.

End Rebuild.

(** X17.  The scan of the blocks ends when the store has at least one
    worker: with [workerCount >= 1], [getStoreIndexFromBlocks] returns
    or panics within one round of its loop for each block key, whatever
    the blob store answers, since every round then takes at least one
    key. *)
Theorem getStoreIndexFromBlocks_terminates
    `{LT : Longtail} `{LI : LongtailIndex}
    (fuel : nat) (blockKeys : list string) (t : indexState) :
  1 <= workerCount t ->
  (length blockKeys <= fuel)%nat ->
  (getStoreIndexFromBlocks fuel blockKeys t).1 <> OutOfFuel.
Proof.
  intros Hwc Hfuel. unfold getStoreIndexFromBlocks.
  destruct (CreateStoreIndexFromBlocks []) as [idx errno].
  destruct (negb (errno =? 0)); [done |].
  unfold ibind at 1. cbn [fst snd].
  destruct (Z.of_nat (length blockKeys) <? workerCount t) eqn:Hmin.
  - apply Z.ltb_lt in Hmin.
    destruct (Z.of_nat (length blockKeys) <? 0) eqn:Hneg;
      [apply Z.ltb_lt in Hneg; lia |].
    apply inFuel_bind; [apply inFuel_newClients |].
    intros err t1. destruct (isErr err); [done |].
    destruct blockKeys as [|k blockKeys].
    + by destruct fuel.
    + apply inFuel_scanBatches; cbn [length] in *; lia.
  - apply Z.ltb_ge in Hmin.
    destruct (workerCount t <? 0) eqn:Hneg;
      [apply Z.ltb_lt in Hneg; lia |].
    apply inFuel_bind; [apply inFuel_newClients |].
    intros err t1. destruct (isErr err); [done |].
    apply inFuel_scanBatches; lia.
Qed.

Lemma getStoreIndexFromBlocks_terminates_witness :
  (getStoreIndexFromBlocks (LT := testLongtail) (LI := testLongtailIndex)
     2 ["chunks/0000/0x0000000000000001.lsb"; "chunks/junk.lsb"]
     (testIndexState 1 (testStore ∅ []))).1
  <> OutOfFuel.
Proof.
  apply (getStoreIndexFromBlocks_terminates (LT := testLongtail)
           (LI := testLongtailIndex)); [cbn; lia | cbn; lia].
Defined.

(** X18.  With [workerCount = 0] the scan of a store that has blocks
    does not end: the batches are empty, [batchStart] stays 0 and the
    loop condition stays true.  Stated for a library whose
    [CreateStoreIndexFromBlocks] of no blocks succeeds with a valid
    index, and whose merges of a valid index with it do. *)
Theorem getStoreIndexFromBlocks_without_workers_loops
    `{LT : Longtail} `{LI : LongtailIndex}
    (blockKeys : list string) (t : indexState)
    (idx0 : Longtail_StoreIndex) :
  workerCount t = 0 ->
  blockKeys <> [] ->
  CreateStoreIndexFromBlocks [] = (idx0, 0) ->
  isSome idx0 = true ->
  (forall a, isSome a = true ->
             exists b, MergeStoreIndex a idx0 = (b, 0) /\ isSome b = true) ->
  forall fuel, (getStoreIndexFromBlocks fuel blockKeys t).1 = OutOfFuel.
Proof.
  intros Hwc Hkeys Hcreate Hvalid Hmerge fuel. unfold getStoreIndexFromBlocks.
  rewrite Hcreate. cbn [negb Z.eqb]. unfold ibind at 1. rewrite Hwc.
  assert ((Z.of_nat (length blockKeys) <? 0) = false) as ->
    by (apply Z.ltb_ge; lia).
  cbn [Z.ltb Z.compare Z.to_nat newClients]. unfold ibind at 1, iret at 1.
  cbn [isErr isSome]. by apply (scanBatches_stuck fuel blockKeys idx0 idx0).
Qed.

Lemma getStoreIndexFromBlocks_without_workers_witness :
  (getStoreIndexFromBlocks (LT := testLongtail) (LI := testLongtailIndex)
     5 ["chunks/0000/0x0000000000000001.lsb"]
     (testIndexState 0 (testStore ∅ []))).1
  = OutOfFuel.
Proof.
  apply (getStoreIndexFromBlocks_without_workers_loops (LT := testLongtail)
           (LI := testLongtailIndex) _ _ (Some []));
    [reflexivity | discriminate | reflexivity | reflexivity |].
  intros [a|] Ha; [| discriminate]. by eexists.
Defined.

Section ScannedBlocks.
Context `{LT : Longtail} `{LI : LongtailIndex}.

(** What a goroutine of the scan leaves in its slot, by what its read
    returned. *)
Lemma loadBlockIndex_slot key t handle t' :
  loadBlockIndex key t = (Done handle, t') ->
  exists data n err s1,
    readBlobWithRetry key (workers t) = (Some (data, n, err), s1)
    /\ match handle with
       | Some bi =>
           err = None
           /\ ReadBlockIndexFromBuffer (default [] data) = (Some bi, 0)
           /\ GetBlockPath "chunks" (GetBlockHash bi) = key
       | None =>
           err <> None
           \/ (ReadBlockIndexFromBuffer (default [] data)).2 <> 0
           \/ exists bi,
                ReadBlockIndexFromBuffer (default [] data) = (Some bi, 0)
                /\ GetBlockPath "chunks" (GetBlockHash bi) <> key
       end.
Proof.
  unfold loadBlockIndex. unfold ibind at 1, liftM.
  destruct (readBlobWithRetry key (workers t)) as [[[[data n] err]|] s1];
    [| done].
  intros Hrun. exists data, n, err, s1. split; [done |].
  destruct err as [e|]; cbn [isErr isSome] in Hrun.
  { injection Hrun as <- _. by left. }
  destruct (ReadBlockIndexFromBuffer (default [] data)) as [blockIndex errno]
    eqn:Hdec.
  destruct (errno =? 0) eqn:Herrno; cbn [negb] in Hrun.
  - apply Z.eqb_eq in Herrno as ->.
    destruct blockIndex as [bi|]; [| done].
    case_decide as Hkey.
    + injection Hrun as <- _. done.
    + unfold ibind in Hrun.
      destruct (ilog _ _) as [[[]| |] t2]; [| done | done].
      injection Hrun as <- _. right. right. by exists bi.
  - apply Z.eqb_neq in Herrno. injection Hrun as <- _. right. by left.
Qed.

(** On a blob store that answers every call the slot is decided by the
    object stored under the key, and the blob store is left as it
    was. *)
Lemma loadBlockIndex_content key t o t1 :
  script (blobStore (workers t)) = [] ->
  loadBlockIndex key t = (o, t1) ->
  o = scannedSlot key (objects (blobStore (workers t)) !! key)
  /\ blobStore (workers t1) = blobStore (workers t).
Proof.
  intros Hscr. destruct_index t. destruct_store s. subst scr.
  unfold loadBlockIndex, scannedSlot. unfold ibind at 1.
  rewrite liftM_run. unfold readBlobWithRetry.
  destruct (objs !! key) as [content|] eqn:Hobj.
  - repeat first [mstep | rewrite Hobj].
    unfold id.
    destruct (ReadBlockIndexFromBuffer content) as [[bi|] errno].
    + destruct errno as [|p|p]; cbn [Z.eqb negb];
        [| by intros [= <- <-] | by intros [= <- <-]].
      case_decide; [by intros [= <- <-] |].
      unfold ibind. rewrite ilog_run. by intros [= <- <-].
    + destruct errno; by intros [= <- <-].
  - repeat first [mstep | rewrite Hobj]. by intros [= <- <-].
Qed.

Lemma imapM_loadBlockIndex_content keys :
  forall t handles t',
  script (blobStore (workers t)) = [] ->
  imapM loadBlockIndex keys t = (Done handles, t') ->
  Forall2
    (fun key handle =>
       scannedSlot key (objects (blobStore (workers t)) !! key)
       = Done handle)
    keys handles.
Proof.
  induction keys as [|key keys IH]; intros t handles t' Hscr; cbn [imapM].
  - intros [= <- _]. constructor.
  - unfold ibind at 1.
    destruct (loadBlockIndex key t) as [[h| |] t1] eqn:Hload;
      [| done | done].
    destruct (loadBlockIndex_content key t _ _ Hscr Hload) as [Hslot Hstore].
    unfold ibind at 1.
    destruct (imapM loadBlockIndex keys t1) as [[hs| |] t2] eqn:Hrest;
      [| done | done].
    intros [= <- _]. constructor; [done |].
    rewrite <- Hstore.
    eapply IH; [by rewrite Hstore | exact Hrest].
Qed.

End ScannedBlocks.

(** X19.  What the scan of the blocks keeps.  Whatever the blob store
    answers, the goroutine of a key leaves a block index in its slot
    exactly when the read of the key returned no error, the decoder
    returned that block index for what was read with status 0, and the
    block path of its hash is the key; it leaves the zero value exactly
    when the read failed, the content did not decode, or the block is
    stored under another name.  So every block index of a batch sits
    in the slot of the key made from its own hash.  On a blob store
    that answers every call, each slot of a batch is decided by the
    object stored under its key. *)
Theorem scanned_blocks_match_their_keys
    `{LT : Longtail} `{LI : LongtailIndex}
    (blockKeys : list string) (t t' : indexState)
    (handles : list blockIndexHandle) :
  imapM loadBlockIndex blockKeys t = (Done handles, t') ->
  Forall2
    (fun key handle =>
       forall bi, handle = Some bi ->
                  GetBlockPath "chunks" (GetBlockHash bi) = key)
    blockKeys handles
  /\ (forall key t0 handle t1,
        loadBlockIndex key t0 = (Done handle, t1) ->
        exists data n err s1,
          readBlobWithRetry key (workers t0) = (Some (data, n, err), s1)
          /\ match handle with
             | Some bi =>
                 err = None
                 /\ ReadBlockIndexFromBuffer (default [] data)
                    = (Some bi, 0)
                 /\ GetBlockPath "chunks" (GetBlockHash bi) = key
             | None =>
                 err <> None
                 \/ (ReadBlockIndexFromBuffer (default [] data)).2 <> 0
                 \/ exists bi,
                      ReadBlockIndexFromBuffer (default [] data)
                      = (Some bi, 0)
                      /\ GetBlockPath "chunks" (GetBlockHash bi) <> key
             end)
  /\ (script (blobStore (workers t)) = [] ->
      Forall2
        (fun key handle =>
           scannedSlot key (objects (blobStore (workers t)) !! key)
           = Done handle)
        blockKeys handles).
Proof.
  intros Hrun. split; [| split].
  - revert t t' handles Hrun. induction blockKeys as [|key keys IH];
      intros t t' handles; cbn [imapM].
    + intros [= <- _]. constructor.
    + unfold ibind at 1.
      destruct (loadBlockIndex key t) as [[h| |] t1] eqn:Hload;
        [| done | done].
      unfold ibind at 1.
      destruct (imapM loadBlockIndex keys t1) as [[hs| |] t2] eqn:Hrest;
        [| done | done].
      intros [= <- _]. constructor; [| by eapply IH].
      intros bi ->. by eapply loadBlockIndex_key.
  - intros key t0 handle t1. apply loadBlockIndex_slot.
  - intros Hscr. by eapply imapM_loadBlockIndex_content.
Qed.

Lemma scanned_blocks_match_their_keys_witness :
  let t :=
    testIndexState 1
      (testStore
         {["chunks/0000/0x0000000000000001.lsb" := [Byte.x01; Byte.x05];
           "chunks/junk.lsb" := [Byte.x01; Byte.x05]]} []) in
  let keys := ["chunks/0000/0x0000000000000001.lsb"; "chunks/junk.lsb"] in
  (imapM (loadBlockIndex (LI := testLongtailIndex)) keys t).1
  = Done [Some (mkBlockIndex 1 []); None]
  /\ Forall2
       (fun key handle =>
          forall bi, handle = Some bi ->
                     GetBlockPath "chunks" (GetBlockHash bi) = key)
       keys [Some (mkBlockIndex 1 []); None].
Proof.
  intros t keys.
  assert ((imapM (loadBlockIndex (LI := testLongtailIndex)) keys t).1
          = Done [Some (mkBlockIndex 1 []); None]) as Hval
    by (vm_compute; reflexivity).
  split; [exact Hval |].
  destruct (imapM (loadBlockIndex (LI := testLongtailIndex)) keys t)
    as [o t'] eqn:Hrun.
  cbn [fst] in Hval. subst o.
  exact (proj1 (scanned_blocks_match_their_keys (LT := testLongtail)
                  (LI := testLongtailIndex) keys t t' _ Hrun)).
Defined.

(** ** The keys of the blocks *)

Section BlockItems.

Lemma blockItems_filter blobs items :
  blockItems blobs items
  = items
    ++ (filter (fun blob : string * Z =>
                  blob.2 <> 0 /\ HasSuffix blob.1 ".lsb" = true) blobs).*1.
Proof.
  revert items. induction blobs as [|[name size] blobs IH]; intros items;
    cbn [blockItems].
  - by rewrite filter_nil, app_nil_r.
  - destruct (size =? 0) eqn:Hsize.
    + apply Z.eqb_eq in Hsize. rewrite IH.
      by rewrite filter_cons_False by (cbn; tauto).
    + apply Z.eqb_neq in Hsize.
      destruct (HasSuffix name ".lsb") eqn:Hsuffix; rewrite IH.
      * rewrite filter_cons_True by done. cbn [fmap list_fmap fst].
        by rewrite <- app_assoc.
      * rewrite filter_cons_False; [done |]. cbn. intros [_ ?]. congruence.
Qed.

Lemma HasSuffix_app pre x :
  HasSuffix (str (pre ++ bytes_of x)) x = true.
Proof.
  unfold HasSuffix. rewrite bytes_of_str, length_app.
  apply andb_true_intro. split.
  - apply Nat.leb_le. lia.
  - apply bool_decide_eq_true.
    replace (length pre + length (bytes_of x) - length (bytes_of x))%nat
      with (length pre) by lia.
    by rewrite drop_app_length.
Qed.

Lemma GetBlockPath_lsb base h : HasSuffix (GetBlockPath base h) ".lsb" = true.
Proof.
  unfold GetBlockPath.
  destruct (GetBlockPathBytes_suffix (bytes_of base) h) as [pre ->].
  assert (pre ++ blockFileName h
          = (pre ++ bytes_of "0x" ++ hex16 h) ++ bytes_of ".lsb") as ->.
  { unfold blockFileName. by rewrite <- !app_assoc. }
  apply HasSuffix_app.
Qed.

End BlockItems.

(** X20.  The rebuild scans exactly the blobs that are not empty and
    whose name ends in [".lsb"], in the order of the listing.  The key
    under which [putStoredBlock] stores a block always ends in
    [".lsb"], so a block that is listed with a size other than 0 is
    scanned, whatever the base path; the store index [store.lsi] is
    never taken for a block. *)
Theorem blockItems_selects_blocks (blobs : list (string * Z)) :
  blockItems blobs []
  = (filter (fun blob : string * Z =>
               blob.2 <> 0 /\ HasSuffix blob.1 ".lsb" = true) blobs).*1
  /\ (forall base h size,
        size <> 0 -> (GetBlockPath base h, size) ∈ blobs ->
        GetBlockPath base h ∈ blockItems blobs [])
  /\ "store.lsi" ∉ blockItems blobs [].
Proof.
  rewrite blockItems_filter. cbn [app]. split; [done |]. split.
  - intros base h size Hsize Hin. apply list_elem_of_fmap.
    exists (GetBlockPath base h, size). split; [done |].
    apply list_elem_of_filter. split; [| done].
    split; [done | apply GetBlockPath_lsb].
  - intros Hin. apply list_elem_of_fmap in Hin as ([name size] & Hname & Hin).
    cbn in Hname. subst name.
    apply list_elem_of_filter in Hin as [[_ Hsuffix] _].
    cbn in Hsuffix. discriminate.
Qed.

(** ** Flushing the index *)

Section FlushIndex.
Context `{LT : Longtail} `{LI : LongtailIndex}.

(** A flush with added blocks first merges them into the index. *)
Lemma serveFlush_merges fuel accessType vars updated t :
  accessType <> ReadOnly ->
  var_addedBlockIndexes vars <> [] ->
  updateStoreIndex (var_storeIndex vars) (var_addedBlockIndexes vars)
  = (updated, None) ->
  serveFlush fuel accessType vars t
  = serveFlush fuel accessType (mkVars updated true []) t.
Proof.
  intros Hacc Hadded Hupd. unfold serveFlush.
  cbn [var_addedBlockIndexes var_storeIndex var_saveStoreIndex length].
  destruct (var_addedBlockIndexes vars) as [|bi added] eqn:Hvars; [done |].
  rewrite bool_decide_false by done.
  cbn [length Nat.ltb Nat.leb negb andb]. rewrite Hupd.
  cbn [isErr isSome]. reflexivity.
Qed.

Lemma attempt_write_fails updated key cur objs rest ch pm mpm pb st tr e :
  objs !! key = cur ->
  codecAccepts updated cur ->
  tryUpdateRemoteStoreIndex updated key
    (mkStore (mkBlobStore objs (attemptScript cur (Fail e) ++ rest))
       ch pm mpm pb st tr)
  = (Some (false, None,
           Some (ErrWrap e "updateRemoteStoreIndex: objHandle.Write() failed")),
     mkStore (mkBlobStore objs rest) ch pm mpm pb st
       (tr ++ attemptEvents updated key cur)).
Proof.
  intros Hobj Hok. unfold tryUpdateRemoteStoreIndex, attemptEvents,
    writtenBlob, writtenIndex, attemptScript.
  destruct cur as [blob|]; cbn [isSome app codecAccepts] in *.
  - destruct Hok as (Hdec & Hmerge & Henc). unfold mergedIndex in *.
    destruct (ReadStoreIndexFromBuffer blob) as [remote e1] eqn:Hremote.
    cbn [fst snd] in *. subst e1.
    destruct (MergeStoreIndex updated remote) as [merged e2] eqn:Hmerged.
    cbn [fst snd] in *. subst e2.
    destruct (WriteStoreIndexToBuffer merged) as [out e3] eqn:Hout.
    cbn [fst snd] in *. subst e3.
    repeat first [mstep | rewrite Hobj | rewrite Hout | rewrite Hremote
                 | rewrite Hmerged | progress unfold id].
    by rewrite <- !app_assoc.
  - destruct (WriteStoreIndexToBuffer updated) as [out e3] eqn:Hout.
    cbn [fst snd] in *. subst e3.
    repeat first [mstep | rewrite Hobj | rewrite Hout].
    by rewrite <- !app_assoc.
Qed.

Lemma updateRemoteStoreIndex_write_fails fuel updated objs rest ch pm mpm pb
    st tr e :
  codecAccepts updated (objs !! "store.lsi") ->
  updateRemoteStoreIndex (S fuel) updated
    (mkStore
       (mkBlobStore objs
          (Proceed :: attemptScript (objs !! "store.lsi") (Fail e) ++ rest))
       ch pm mpm pb st tr)
  = (Some (Some (None,
       Some (ErrWrap
               (ErrWrap e "updateRemoteStoreIndex: objHandle.Write() failed")
               "updateRemoteStoreIndex: tryUpdateRemoteStoreIndex(store.lsi) failed"))),
     mkStore (mkBlobStore objs rest) ch pm mpm pb st
       (tr ++ EvCall (CallNewObject "store.lsi")
           :: attemptEvents updated "store.lsi" (objs !! "store.lsi"))).
Proof.
  intros Hok. unfold updateRemoteStoreIndex. unfold bind at 1.
  rewrite NewObject_proceed. cbv beta iota zeta. cbn [isErr isSome].
  rewrite updateLoop_step, attempt_write_fails by done.
  by rewrite <- app_assoc.
Qed.

(** A flush of an index that is marked for saving, when the write goes
    through. *)
Lemma serveFlush_saves n accessType storeIndex objs rest ch pm mpm pb st tr
    wc pf ge ifl ifr bc itr :
  codecAccepts storeIndex (objs !! "store.lsi") ->
  serveFlush (S n) accessType (mkVars storeIndex true [])
    (mkIndexState
       (mkStore
          (mkBlobStore objs
             (Proceed :: attemptScript (objs !! "store.lsi") Proceed ++ rest))
          ch pm mpm pb st tr)
       wc pf ge ifl ifr bc itr)
  = (Done
       (mkVars
          (if isSome (returnedIndex storeIndex (objs !! "store.lsi"))
           then returnedIndex storeIndex (objs !! "store.lsi")
           else storeIndex)
          false []),
     mkIndexState
       (mkStore
          (mkBlobStore
             (<["store.lsi" := writtenBlob storeIndex (objs !! "store.lsi")]>
                objs)
             rest)
          ch pm mpm pb st
          (tr ++ EvCall (CallNewObject "store.lsi")
              :: attemptEvents storeIndex "store.lsi" (objs !! "store.lsi")))
       wc pf ge ifl (ifr ++ [0]) bc (itr ++ [IxFlushReply 0])).
Proof.
  intros Hok. unfold serveFlush.
  cbn [var_addedBlockIndexes var_storeIndex var_saveStoreIndex length
         Nat.ltb Nat.leb andb].
  pose proof (updateRemoteStoreIndex_converges storeIndex
                (mkStore
                   (mkBlobStore objs
                      (Proceed
                       :: attemptScript (objs !! "store.lsi") Proceed
                       ++ rest))
                   ch pm mpm pb st tr) [] n rest) as Hrun.
  cbn [blobStore objects script raceScript contentAfter foldl raceEvents
         length Nat.add app] in Hrun.
  specialize (Hrun Hok (Forall_nil_2 _) eq_refl).
  unfold ibind at 1, iret at 1. cbv beta iota.
  cbn [var_addedBlockIndexes var_storeIndex var_saveStoreIndex].
  unfold ibind at 1. unfold ibind at 1.
  rewrite liftFuel_run. rewrite Hrun.
  unfold afterCalls, with_trace, with_blobStore, with_workers.
  cbn [blobStore objects script chans prefetchMemory maxPrefetchMemory
         prefetchBlocks stats trace workers workerCount preflightGetChan
         getExistingContentChan indexFlushChan indexFlushReplyChan
         blockIndexClosed indexTrace isErr isSome].
  unfold iret at 1.
  cbn [var_addedBlockIndexes var_storeIndex var_saveStoreIndex].
  unfold ibind, iret. rewrite sendIndexFlushReply_run. reflexivity.
Qed.

(** A flush of an index that is marked for saving, when the write
    fails. *)
Lemma serveFlush_write_fails n accessType storeIndex objs rest ch pm mpm pb
    st tr wc pf ge ifl ifr bc itr e :
  codecAccepts storeIndex (objs !! "store.lsi") ->
  serveFlush (S n) accessType (mkVars storeIndex true [])
    (mkIndexState
       (mkStore
          (mkBlobStore objs
             (Proceed :: attemptScript (objs !! "store.lsi") (Fail e)
              ++ rest))
          ch pm mpm pb st tr)
       wc pf ge ifl ifr bc itr)
  = (Done (mkVars storeIndex true []),
     mkIndexState
       (mkStore (mkBlobStore objs rest) ch pm mpm pb st
          (tr ++ EvCall (CallNewObject "store.lsi")
              :: attemptEvents storeIndex "store.lsi" (objs !! "store.lsi")))
       wc pf ge ifl (ifr ++ [ENOMEM]) bc (itr ++ [IxFlushReply ENOMEM])).
Proof.
  intros Hok. unfold serveFlush.
  cbn [var_addedBlockIndexes var_storeIndex var_saveStoreIndex length
         Nat.ltb Nat.leb andb].
  unfold ibind at 1, iret at 1. cbv beta iota.
  cbn [var_addedBlockIndexes var_storeIndex var_saveStoreIndex].
  unfold ibind at 1. unfold ibind at 1.
  rewrite liftFuel_run.
  rewrite updateRemoteStoreIndex_write_fails by done.
  unfold with_workers.
  cbn [workers workerCount preflightGetChan getExistingContentChan
         indexFlushChan indexFlushReplyChan blockIndexClosed indexTrace
         isErr isSome ErrorToErrno].
  unfold ibind, iret. rewrite sendIndexFlushReply_run. reflexivity.
Qed.

End FlushIndex.

(** X21.  A flush persists the blocks that were added.  On a store that
    is not read-only, when blocks were reported since the last save, the
    library merges them into the known index and accepts the content of
    [store.lsi], and the calls on the blob store go through, the flush
    stores in [store.lsi] the merge of the new index with what the
    object held (the new index itself when the object was absent),
    replies 0, and leaves the maintainer with no added block and
    nothing to save. *)
Theorem flush_persists_added_blocks `{LT : Longtail} `{LI : LongtailIndex}
    (n : nat) (accessType : AccessType) (vars : maintainerVars)
    (updated : Longtail_StoreIndex) (rest : list fault) (t : indexState) :
  let cur := objects (blobStore (workers t)) !! "store.lsi" in
  accessType <> ReadOnly ->
  var_addedBlockIndexes vars <> [] ->
  updateStoreIndex (var_storeIndex vars) (var_addedBlockIndexes vars)
  = (updated, None) ->
  codecAccepts updated cur ->
  script (blobStore (workers t))
  = Proceed :: attemptScript cur Proceed ++ rest ->
  let r := serveFlush (S n) accessType vars t in
  r.1 = Done (mkVars
                (if isSome (returnedIndex updated cur)
                 then returnedIndex updated cur else updated)
                false [])
  /\ objects (blobStore (workers r.2))
     = <["store.lsi" := writtenBlob updated cur]>
         (objects (blobStore (workers t)))
  /\ indexFlushReplyChan r.2 = indexFlushReplyChan t ++ [0].
Proof.
  intros cur Hacc Hadded Hupd Hok Hscr r. subst r cur.
  rewrite (serveFlush_merges (S n) accessType vars updated t) by done.
  destruct_index t. destruct_store s. subst scr.
  rewrite serveFlush_saves by done.
  cbn [fst snd workers blobStore objects indexFlushReplyChan].
  by repeat split.
Qed.

Lemma flush_persists_added_blocks_witness :
  let vars := mkVars (Some [mkBlockIndex 1 []]) false [mkBlockIndex 2 []] in
  let t := testIndexState 1 (testStore {["store.lsi" := [Byte.x03]]}
                               [Proceed; Proceed; Proceed; Proceed]) in
  let r := serveFlush (LT := testLongtail) (LI := testLongtailIndex)
             1 ReadWrite vars t in
  r.1 = Done (mkVars
                (Some [mkBlockIndex 2 []; mkBlockIndex 1 [];
                       mkBlockIndex 3 []])
                false [])
  /\ objects (blobStore (workers r.2))
     = <["store.lsi" := [Byte.x02; Byte.x01; Byte.x03]]>
         {["store.lsi" := [Byte.x03]]}
  /\ indexFlushReplyChan r.2 = [0].
Proof.
  intros vars t.
  exact (flush_persists_added_blocks (LT := testLongtail)
           (LI := testLongtailIndex) 0 ReadWrite vars
           (Some [mkBlockIndex 2 []; mkBlockIndex 1 []]) [] t
           ltac:(discriminate) ltac:(discriminate) eq_refl
           (conj eq_refl (conj eq_refl eq_refl)) eq_refl).
Defined.

(** X22.  A flush that fails is not lost.  When the write of
    [store.lsi] fails, the flush replies [ENOMEM], leaves the object as
    it was and keeps the merged index marked for saving, with no added
    block left; the next flush, when its calls go through, stores that
    index and replies 0. *)
Theorem failed_flush_is_retried `{LT : Longtail} `{LI : LongtailIndex}
    (n m : nat) (accessType : AccessType) (vars : maintainerVars)
    (updated : Longtail_StoreIndex) (e : error) (rest : list fault)
    (t : indexState) :
  let cur := objects (blobStore (workers t)) !! "store.lsi" in
  accessType <> ReadOnly ->
  var_addedBlockIndexes vars <> [] ->
  updateStoreIndex (var_storeIndex vars) (var_addedBlockIndexes vars)
  = (updated, None) ->
  codecAccepts updated cur ->
  script (blobStore (workers t))
  = Proceed :: attemptScript cur (Fail e)
    ++ Proceed :: attemptScript cur Proceed ++ rest ->
  let r1 := serveFlush (S n) accessType vars t in
  let r2 := serveFlush (S m) accessType (mkVars updated true []) r1.2 in
  r1.1 = Done (mkVars updated true [])
  /\ objects (blobStore (workers r1.2)) = objects (blobStore (workers t))
  /\ r2.1 = Done (mkVars
                    (if isSome (returnedIndex updated cur)
                     then returnedIndex updated cur else updated)
                    false [])
  /\ objects (blobStore (workers r2.2))
     = <["store.lsi" := writtenBlob updated cur]>
         (objects (blobStore (workers t)))
  /\ indexFlushReplyChan r2.2 = indexFlushReplyChan t ++ [ENOMEM; 0].
Proof.
  intros cur Hacc Hadded Hupd Hok Hscr r1 r2. subst r2 r1 cur.
  rewrite (serveFlush_merges (S n) accessType vars updated t) by done.
  destruct_index t. destruct_store s. subst scr.
  rewrite serveFlush_write_fails by done. cbn [fst snd].
  rewrite serveFlush_saves by done.
  cbn [fst snd workers blobStore objects indexFlushReplyChan].
  rewrite <- app_assoc. by repeat split.
Qed.

Lemma failed_flush_is_retried_witness :
  let vars := mkVars None false [mkBlockIndex 2 []] in
  let t := testIndexState 1
             (testStore ∅ [Proceed; Proceed; Fail (ErrDriver "write");
                           Proceed; Proceed; Proceed]) in
  let r1 := serveFlush (LT := testLongtail) (LI := testLongtailIndex)
              1 ReadWrite vars t in
  let r2 := serveFlush (LT := testLongtail) (LI := testLongtailIndex)
              1 ReadWrite (mkVars (Some [mkBlockIndex 2 []]) true []) r1.2 in
  r1.1 = Done (mkVars (Some [mkBlockIndex 2 []]) true [])
  /\ objects (blobStore (workers r1.2)) = ∅
  /\ r2.1 = Done (mkVars (Some [mkBlockIndex 2 []]) false [])
  /\ objects (blobStore (workers r2.2)) = <["store.lsi" := [Byte.x02]]> ∅
  /\ indexFlushReplyChan r2.2 = [ENOMEM; 0].
Proof.
  intros vars t.
  exact (failed_flush_is_retried (LT := testLongtail)
           (LI := testLongtailIndex) 0 0 ReadWrite vars
           (Some [mkBlockIndex 2 []]) (ErrDriver "write") [] t
           ltac:(discriminate) ltac:(discriminate) eq_refl eq_refl eq_refl).
Defined.

(** ** Blobs by URI *)

(** X23.  A [file] URI whose parent has no path makes [ReadFromURI] and
    [WriteToURI] panic.  The URI is split at its last separator and the
    part before it is parsed; when that part has the scheme [file] and
    an empty path, [createBlobStoreForURI] slices the path from its
    second character, which is out of range, so no blob store is
    created and nothing is read or written. *)
Theorem file_uri_without_path_panics `{BB : BlobBackends} (uri : string)
    (data : list Byte.byte) (blobStoreURL : URL) :
  urlParse (splitURI uri).1 = Some blobStoreURL ->
  Scheme blobStoreURL = "file" ->
  Path blobStoreURL = "" ->
  ReadFromURI uri = None /\ WriteToURI uri data = None.
Proof.
  intros Hparse Hscheme Hpath. unfold ReadFromURI, WriteToURI.
  destruct (splitURI uri) as [uriParent uriName]. cbn [fst] in Hparse.
  unfold createBlobStoreForURI. rewrite Hparse, Hscheme, Hpath.
  by split.
Qed.

Lemma file_uri_without_path_witness :
  splitURI "file:///store.lsi" = ("file://", "store.lsi")
  /\ ReadFromURI (H := fileBackends) "file:///store.lsi" = None
  /\ WriteToURI (H := fileBackends) "file:///store.lsi" [Byte.x01] = None.
Proof.
  split; [vm_compute; reflexivity |].
  exact (file_uri_without_path_panics (BB := fileBackends)
           "file:///store.lsi" [Byte.x01] (mkURL "file" "")
           ltac:(vm_compute; reflexivity) eq_refl eq_refl).
Defined.

(** ** The maintainer of a read-only store *)

Section OnlyRead.

Lemma onlyRead_refl t : onlyRead t t.
Proof.
  repeat split; [by exists []; rewrite app_nil_r ..].
Qed.

Lemma onlyRead_trans t1 t2 t3 :
  onlyRead t1 t2 -> onlyRead t2 t3 -> onlyRead t1 t3.
Proof.
  intros (Hq & Hc & (evs & Htr & Hevs) & (ievs & Hitr & Hievs))
         (Hq' & Hc' & (evs' & Htr' & Hevs') & (ievs' & Hitr' & Hievs')).
  split; [congruence |]. split; [congruence |]. split.
  - exists (evs ++ evs'). rewrite Htr', Htr, app_assoc.
    split; [done | by apply Forall_app].
  - exists (ievs ++ ievs'). rewrite Hitr', Hitr, app_assoc.
    split; [done | by apply Forall_app].
Qed.

Lemma readsOnly_ret {A} (a : A) : readsOnly (iret a).
Proof. intros t. apply onlyRead_refl. Qed.

Lemma readsOnly_panic {A} : readsOnly (@ipanic A).
Proof. intros t. apply onlyRead_refl. Qed.

Lemma readsOnly_bind {A B} (m : IM A) (k : A -> IM B) :
  readsOnly m -> (forall a, readsOnly (k a)) -> readsOnly (ibind m k).
Proof.
  intros Hm Hk t. unfold ibind. specialize (Hm t).
  destruct (m t) as [[a| |] t1]; cbn [snd] in *; [| done | done].
  eapply onlyRead_trans; [exact Hm | apply Hk].
Qed.

Lemma readsOnly_liftM {A} (m : M A) :
  emits readEvent m -> keepsBlockIndex m -> readsOnly (liftM m).
Proof.
  intros Hm Hq t. unfold liftM. specialize (Hm (workers t)).
  specialize (Hq (workers t)).
  destruct (m (workers t)) as [[a|] s']; cbn [snd] in *;
    (split; [done |]; split; [done |]; split; [done |];
     by exists []; rewrite app_nil_r).
Qed.

Lemma readsOnly_iemit e : notListing e -> readsOnly (iemit e).
Proof.
  intros He t. unfold iemit, with_indexTrace. cbn [snd].
  split; [done |]. split; [done |]. split.
  - by exists []; rewrite app_nil_r.
  - exists [e]. split; [done | by constructor].
Qed.

Lemma readsOnly_iforM {A} (l : list A) (body : A -> IM unit) :
  (forall a, readsOnly (body a)) -> readsOnly (iforM_ l body).
Proof.
  intros Hbody. induction l as [|a l IH]; cbn [iforM_].
  - apply readsOnly_ret.
  - apply readsOnly_bind; [apply Hbody | intros _; apply IH].
Qed.

Lemma keepsBlockIndex_ret {A} (a : A) : keepsBlockIndex (ret a).
Proof. by intros s. Qed.

Lemma keepsBlockIndex_bind {A B} (m : M A) (k : A -> M B) :
  keepsBlockIndex m -> (forall a, keepsBlockIndex (k a)) ->
  keepsBlockIndex (bind m k).
Proof.
  intros Hm Hk s. unfold bind. specialize (Hm s).
  destruct (m s) as [[a|] s1]; cbn [snd] in *; [| done].
  by rewrite Hk.
Qed.

Lemma keepsBlockIndex_blobCallM {A} c
    (f : fault -> BlobStore -> A * BlobStore) :
  keepsBlockIndex (blobCallM c f).
Proof.
  intros s. unfold blobCallM.
  destruct (nextFault (blobStore s)) as [flt b]. by destruct (f flt b).
Qed.

End OnlyRead.

Ltac keeps_step :=
  match goal with
  | |- keepsBlockIndex (bind _ _) => apply keepsBlockIndex_bind; [| intros ?]
  | |- keepsBlockIndex (ret _) => apply keepsBlockIndex_ret
  | |- keepsBlockIndex (NewObject _) => apply keepsBlockIndex_blobCallM
  | |- keepsBlockIndex (ObjExists _) => apply keepsBlockIndex_blobCallM
  | |- keepsBlockIndex (ObjRead _) => apply keepsBlockIndex_blobCallM
  | |- keepsBlockIndex (if ?b then _ else _) => destruct b
  | |- keepsBlockIndex (match ?x with _ => _ end) => destruct x
  | |- keepsBlockIndex (let '(_, _) := ?x in _) => destruct x
  | |- keepsBlockIndex _ => intros ?; reflexivity
  end.

(** Decompose a goal [readsOnly m] along the structure of [m]. *)
Ltac reads_step :=
  match goal with
  | |- readsOnly (ibind _ _) => apply readsOnly_bind; [| intros ?]
  | |- readsOnly (iret _) => apply readsOnly_ret
  | |- readsOnly ipanic => apply readsOnly_panic
  | |- readsOnly (iemit _) => apply readsOnly_iemit; discriminate
  | |- readsOnly (ilog _) => apply readsOnly_iemit; discriminate
  | |- readsOnly (sendIndexFlushReply _) =>
      apply (readsOnly_iemit (IxFlushReply _)); discriminate
  | |- readsOnly (iforM_ _ _) => apply readsOnly_iforM; intros ?
  | |- readsOnly (if ?b then _ else _) => destruct b
  | |- readsOnly (match ?x with _ => _ end) => destruct x
  | |- readsOnly (let '(_, _) := ?x in _) => destruct x
  end.

Section ReadOnlyMaintainer.
Context `{LT : Longtail} `{LI : LongtailIndex} `{BB : BlobBackends}.
Variables (fuel : nat) (path : string).

Lemma emits_readEvent_readBlobWithRetry key :
  emits readEvent (readBlobWithRetry key).
Proof. unfold readBlobWithRetry. emits_auto; exact I. Qed.

Lemma keepsBlockIndex_readBlobWithRetry key :
  keepsBlockIndex (readBlobWithRetry key).
Proof. unfold readBlobWithRetry. repeat keeps_step. Qed.

Lemma readsOnly_readStoreStoreIndex : readsOnly readStoreStoreIndex.
Proof.
  unfold readStoreStoreIndex.
  apply readsOnly_bind; [| intros [[blobData n] err]; repeat reads_step].
  apply readsOnly_liftM;
    [apply emits_readEvent_readBlobWithRetry
    | apply keepsBlockIndex_readBlobWithRetry].
Qed.

Lemma readsOnly_readKnownStoreIndex accessType storeIndex saveStoreIndex :
  readsOnly (readKnownStoreIndex path accessType storeIndex saveStoreIndex).
Proof.
  unfold readKnownStoreIndex.
  repeat first [apply readsOnly_readStoreStoreIndex | reads_step].
Qed.

Lemma readsOnly_loadStoreIndex storeIndex saveStoreIndex :
  readsOnly (loadStoreIndex fuel path ReadOnly storeIndex saveStoreIndex).
Proof.
  unfold loadStoreIndex.
  apply readsOnly_bind; [apply readsOnly_readKnownStoreIndex |].
  intros [[si sv] errno]. destruct (negb (isSome si)); [| apply readsOnly_ret].
  rewrite decide_True by done. repeat reads_step.
Qed.

Lemma readsOnly_getStoreIndex storeIndex saveStoreIndex :
  readsOnly
    (getStoreIndex fuel path ReadOnly storeIndex saveStoreIndex []).
Proof.
  unfold getStoreIndex.
  apply readsOnly_bind.
  - destruct (negb (isSome storeIndex));
      [apply readsOnly_loadStoreIndex | apply readsOnly_ret].
  - intros [r|[si sv]]; cbn [length Nat.ltb Nat.leb]; apply readsOnly_ret.
Qed.

Lemma readKnownStoreIndex_save accessType storeIndex saveStoreIndex t
    storeIndex' saveStoreIndex' errno t' :
  accessType <> Init ->
  readKnownStoreIndex path accessType storeIndex saveStoreIndex t
  = (Done (storeIndex', saveStoreIndex', errno), t') ->
  saveStoreIndex' = saveStoreIndex.
Proof.
  intros Hacc. unfold readKnownStoreIndex.
  rewrite decide_False by done.
  intros ([si e] & t1 & _ & H2)%ibind_done.
  apply ibind_done in H2 as (si2 & t2 & _ & H2).
  by injection H2 as _ <- _ _.
Qed.

Lemma loadStoreIndex_save storeIndex saveStoreIndex t loaded t' :
  loadStoreIndex fuel path ReadOnly storeIndex saveStoreIndex t
  = (Done loaded, t') ->
  match loaded with
  | Return (_, save, _) => save = false
  | Continue (_, save) => save = saveStoreIndex
  end.
Proof.
  unfold loadStoreIndex.
  intros ([[si sv] errno] & t1 & H1 & H2)%ibind_done.
  apply readKnownStoreIndex_save in H1 as ->; [| done].
  destruct (negb (isSome si)).
  - rewrite decide_True in H2 by done.
    destruct (CreateStoreIndexFromBlocks []) as [idx e].
    destruct (negb (e =? 0)); by injection H2 as <- _.
  - by injection H2 as <- _.
Qed.

Lemma getStoreIndex_save storeIndex t storeIndex' saveStoreIndex' err t' :
  getStoreIndex fuel path ReadOnly storeIndex false [] t
  = (Done (storeIndex', saveStoreIndex', err), t') ->
  saveStoreIndex' = false.
Proof.
  unfold getStoreIndex.
  intros (loaded & t1 & H1 & H2)%ibind_done.
  destruct (negb (isSome storeIndex)).
  - apply loadStoreIndex_save in H1.
    destruct loaded as [[[si sv] e]|[si sv]]; cbn in H2.
    + injection H2 as _ <- _ _. done.
    + injection H2 as _ <- _ _. done.
  - injection H1 as <- _. cbn in H2. by injection H2 as _ <- _ _.
Qed.

Lemma readsOnly_sendPrefetch blockHash :
  readsOnly (liftM (sendPrefetch blockHash)).
Proof.
  apply readsOnly_liftM.
  - apply emits_quiet. reflexivity.
  - intros s. reflexivity.
Qed.

Lemma readsOnly_servePreflight vars msg :
  cleanVars vars ->
  readsOnly (servePreflight fuel path ReadOnly vars msg).
Proof.
  intros [Hsave Hadded]. unfold servePreflight. rewrite Hadded.
  apply readsOnly_bind; [apply readsOnly_getStoreIndex |].
  intros [[si sv] err]. unfold onPreflighMessage.
  repeat first [apply readsOnly_sendPrefetch | reads_step].
Qed.

Lemma readsOnly_serveGetExistingContent vars msg :
  cleanVars vars ->
  readsOnly (serveGetExistingContent fuel path ReadOnly vars msg).
Proof.
  intros [Hsave Hadded]. unfold serveGetExistingContent. rewrite Hadded.
  apply readsOnly_bind; [apply readsOnly_getStoreIndex |].
  intros [[si sv] err]. unfold onGetExistingContentMessage.
  repeat reads_step.
Qed.

Lemma servePreflight_clean vars msg t vars' run t' :
  cleanVars vars ->
  servePreflight fuel path ReadOnly vars msg t
  = (Done (Next vars' run), t') ->
  cleanVars vars'.
Proof.
  intros [Hsave Hadded]. unfold servePreflight. rewrite Hsave, Hadded.
  intros ([[si sv] err] & t1 & H1 & H2)%ibind_done.
  apply getStoreIndex_save in H1 as ->.
  destruct (isErr err).
  - apply ibind_done in H2 as (_ & t2 & _ & H2). by injection H2.
  - apply ibind_done in H2 as (_ & t2 & _ & H2). by injection H2 as <- _ _.
Qed.

Lemma serveGetExistingContent_clean vars msg t vars' run t' :
  cleanVars vars ->
  serveGetExistingContent fuel path ReadOnly vars msg t
  = (Done (Next vars' run), t') ->
  cleanVars vars'.
Proof.
  intros [Hsave Hadded]. unfold serveGetExistingContent.
  rewrite Hsave, Hadded.
  intros ([[si sv] err] & t1 & H1 & H2)%ibind_done.
  apply getStoreIndex_save in H1 as ->.
  destruct (isErr err).
  - apply ibind_done in H2 as (_ & t2 & _ & H2). by injection H2.
  - apply ibind_done in H2 as (_ & t2 & _ & H2). by injection H2 as <- _ _.
Qed.

(** A flush of a maintainer that has nothing to write is a reply. *)
Lemma serveFlush_clean accessType vars t :
  cleanVars vars ->
  serveFlush fuel accessType vars t = (sendIndexFlushReply 0 ;;+ iret vars) t.
Proof.
  intros [Hsave Hadded]. unfold serveFlush. rewrite Hadded.
  cbn [length Nat.ltb Nat.leb andb]. unfold ibind at 1, iret at 1.
  cbv beta iota. rewrite Hsave. reflexivity.
Qed.

Lemma readsOnly_NewClient : readsOnly NewClient.
Proof.
  intros t. unfold NewClient, iblobCall.
  destruct (newClientOn (blobStore (workers t))) as [err b'].
  cbn [snd]. split; [done |]. split; [done |]. split.
  - by exists []; rewrite app_nil_r.
  - exists [IxNewClient]. split; [done | by repeat constructor].
Qed.

Lemma errorState_served errorSchedule t t' :
  storeIndexWorkerReplyErrorState errorSchedule t = Some t' ->
  errorServed t t'.
Proof.
  revert t. induction errorSchedule as [|c rest IH]; intros t; [done |].
  cbn [storeIndexWorkerReplyErrorState].
  destruct (errorStateStep c t) as [[[|] t1]|] eqn:Hstep; [| | done].
  - destruct (errorStateStep_served _ _ _ _ Hstep) as [Hs _].
    intros Hrest. eapply errorServed_trans; [exact Hs | by apply IH].
  - destruct (errorStateStep_served _ _ _ _ Hstep) as [Hs _].
    by intros [= <-].
Qed.

Lemma errorServed_onlyRead t t' :
  blockIndexChan (chans (workers t)) = [] ->
  errorServed t t' -> onlyRead t t'.
Proof.
  intros Hq (Hb & Htr & _ & _ & Hc & evs & fl & qs & dr & Hitr & Hevs & _
             & _ & _ & _ & Hdr).
  rewrite Hq in Hdr. symmetry in Hdr. apply app_eq_nil in Hdr as [_ Hq'].
  split; [congruence |]. split; [done |]. split.
  - exists []. by rewrite app_nil_r.
  - exists evs. split; [done |].
    eapply Forall_impl; [exact Hevs |]. by intros [] He.
Qed.

Lemma readsOnly_run {A} (m : IM A) t o t' :
  readsOnly m -> m t = (o, t') -> onlyRead t t'.
Proof. intros Hm Hrun. specialize (Hm t). by rewrite Hrun in Hm. Qed.

Lemma receiveBlockIndex_empty vars run t r :
  blockIndexChan (chans (workers t)) = [] ->
  receiveBlockIndex vars run t = Some r ->
  r = (Done (vars, false, false), t).
Proof.
  intros Hq. unfold receiveBlockIndex. rewrite Hq.
  destruct (blockIndexClosed t); [| done]. by intros [= <-].
Qed.

Lemma indexPollStep_readonly c vars t o t' :
  cleanVars vars ->
  blockIndexChan (chans (workers t)) = [] ->
  indexPollStep fuel path ReadOnly c vars t = Some (o, t') ->
  onlyRead t t'
  /\ match o with
     | Done (Return r) => cleanEnd r
     | Done (Continue (vars', _)) => cleanVars vars'
     | _ => True
     end.
Proof.
  intros Hvars Hq. destruct c; unfold indexPollStep.
  - destruct (preflightGetChan t) as [|msg q]; [done |]. intros [= Hrun].
    split.
    + change (onlyRead (popPreflight t) t').
      eapply readsOnly_run; [| exact Hrun].
      apply readsOnly_bind; [by apply readsOnly_servePreflight |].
      intros r. apply readsOnly_ret.
    + destruct o as [[r|[vars' run]]| |]; [| | done | done].
      * apply ibind_done in Hrun as (r0 & t1 & H1 & [= <- _]).
        destruct r0 as [vars' run|err]; [| done].
        by eapply servePreflight_clean.
      * by apply ibind_done in Hrun as (r0 & t1 & H1 & [=]).
  - destruct (receiveBlockIndex vars true t) as [r|] eqn:Hrecv; [| done].
    apply receiveBlockIndex_empty in Hrecv as ->; [| done].
    intros [= <- <-]. split; [apply onlyRead_refl | done].
  - destruct (getExistingContentChan t) as [|msg q]; [done |].
    intros [= Hrun]. split.
    + change (onlyRead (popGetExistingContent t) t').
      eapply readsOnly_run; [| exact Hrun].
      apply readsOnly_bind; [by apply readsOnly_serveGetExistingContent |].
      intros r. apply readsOnly_ret.
    + destruct o as [[r|[vars' run]]| |]; [| | done | done].
      * apply ibind_done in Hrun as (r0 & t1 & H1 & [= <- _]).
        destruct r0 as [vars' run|err]; [| done].
        by eapply serveGetExistingContent_clean.
      * by apply ibind_done in Hrun as (r0 & t1 & H1 & [=]).
  - destruct (preflightGetChan t), (blockIndexChan (chans (workers t))),
      (getExistingContentChan t); try done.
    destruct (blockIndexClosed t); [done |].
    intros [= <- <-]. split; [apply onlyRead_refl | done].
Qed.

Lemma indexWaitStep_readonly c vars run t o t' :
  cleanVars vars ->
  blockIndexChan (chans (workers t)) = [] ->
  indexWaitStep fuel path ReadOnly c vars run t = Some (o, t') ->
  onlyRead t t'
  /\ match o with
     | Done r => cleanEnd r
     | _ => True
     end.
Proof.
  intros Hvars Hq. destruct c; unfold indexWaitStep.
  - destruct (indexFlushChan t) as [|v q]; [done |]. intros [= Hrun].
    unfold ibind in Hrun at 1. rewrite serveFlush_clean in Hrun by done.
    split.
    + change (onlyRead (popIndexFlush t) t').
      destruct ((sendIndexFlushReply 0 ;;+ iret vars) (popIndexFlush t))
        as [o1 t1] eqn:Hreply.
      assert (onlyRead (popIndexFlush t) t1) as Hread.
      { eapply readsOnly_run; [| exact Hreply]. repeat reads_step. }
      destruct o1; by injection Hrun as _ <-.
    + unfold ibind, sendIndexFlushReply, iret in Hrun.
      by injection Hrun as <- _.
  - destruct (preflightGetChan t) as [|msg q]; [done |]. intros [= Hrun].
    split.
    + change (onlyRead (popPreflight t) t').
      eapply readsOnly_run; [| exact Hrun].
      apply readsOnly_bind; [by apply readsOnly_servePreflight |].
      intros r. repeat reads_step.
    + destruct o as [r| |]; [| done | done].
      apply ibind_done in Hrun as (r0 & t1 & H1 & H2).
      destruct r0 as [vars' run'|err]; injection H2 as <- _; [| done].
      by eapply servePreflight_clean.
  - destruct (receiveBlockIndex vars run t) as [r|] eqn:Hrecv; [| done].
    apply receiveBlockIndex_empty in Hrecv as ->; [| done].
    intros [= <- <-]. split; [apply onlyRead_refl | done].
  - destruct (getExistingContentChan t) as [|msg q]; [done |].
    intros [= Hrun]. split.
    + change (onlyRead (popGetExistingContent t) t').
      eapply readsOnly_run; [| exact Hrun].
      apply readsOnly_bind; [by apply readsOnly_serveGetExistingContent |].
      intros r. repeat reads_step.
    + destruct o as [r| |]; [| done | done].
      apply ibind_done in Hrun as (r0 & t1 & H1 & H2).
      destruct r0 as [vars' run'|err]; injection H2 as <- _; [| done].
      by eapply serveGetExistingContent_clean.
Qed.

Lemma indexIteration_readonly c1 c2 vars t o t' :
  cleanVars vars ->
  blockIndexChan (chans (workers t)) = [] ->
  indexIteration fuel path ReadOnly c1 c2 vars t = Some (o, t') ->
  onlyRead t t'
  /\ match o with
     | Done r => cleanEnd r
     | _ => True
     end.
Proof.
  intros Hvars Hq. unfold indexIteration.
  destruct (indexPollStep fuel path ReadOnly c1 vars t) as [[o1 t1]|]
    eqn:Hpoll; [| done].
  destruct (indexPollStep_readonly _ _ _ _ _ Hvars Hq Hpoll) as [Hread Hend].
  destruct o1 as [[r|[vars1 run1]]| |].
  - by intros [= <- <-].
  - intros Hwait.
    assert (blockIndexChan (chans (workers t1)) = []) as Hq1.
    { destruct Hread as [-> _]. done. }
    destruct (indexWaitStep_readonly _ _ _ _ _ _ Hend Hq1 Hwait)
      as [Hread' Hend'].
    split; [by eapply onlyRead_trans | done].
  - by intros [= <- <-].
  - by intros [= <- <-].
Qed.

Lemma indexLoop_readonly schedule errorSchedule :
  forall vars t o t',
  cleanVars vars ->
  blockIndexChan (chans (workers t)) = [] ->
  indexLoop fuel path ReadOnly schedule errorSchedule vars t = Some (o, t') ->
  onlyRead t t'.
Proof.
  induction schedule as [|[c1 c2] rest IH]; intros vars t o t' Hvars Hq;
    [done |].
  cbn [indexLoop].
  destruct (indexIteration fuel path ReadOnly c1 c2 vars t) as [[o1 t1]|]
    eqn:Hiter; [| done].
  destruct (indexIteration_readonly _ _ _ _ _ _ Hvars Hq Hiter)
    as [Hread Hend].
  assert (blockIndexChan (chans (workers t1)) = []) as Hq1.
  { destruct Hread as [-> _]. done. }
  destruct o1 as [[vars1 [|]|err]| |].
  - intros Hrest. eapply onlyRead_trans; [exact Hread |].
    by eapply IH.
  - unfold finishIndex. rewrite decide_True by done.
    by intros [= <- <-].
  - destruct (storeIndexWorkerReplyErrorState errorSchedule t1) as [t2|]
      eqn:Herr; [| done].
    intros [= <- <-]. eapply onlyRead_trans; [exact Hread |].
    apply errorServed_onlyRead; [done | by eapply errorState_served].
  - by intros [= <- <-].
  - by intros [= <- <-].
Qed.

Lemma contentIndexWorker_readonly schedule errorSchedule t o t' :
  blockIndexChan (chans (workers t)) = [] ->
  contentIndexWorker fuel path ReadOnly schedule errorSchedule t
  = Some (o, t') ->
  onlyRead t t'.
Proof.
  intros Hq. unfold contentIndexWorker.
  pose proof (readsOnly_NewClient t) as Hread.
  destruct (NewClient t) as [[err| |] t1]; cbn [snd] in Hread.
  - assert (blockIndexChan (chans (workers t1)) = []) as Hq1.
    { destruct Hread as [-> _]. done. }
    destruct (isErr err).
    + destruct (storeIndexWorkerReplyErrorState errorSchedule t1) as [t2|]
        eqn:Herr; [| done].
      intros [= <- <-]. eapply onlyRead_trans; [exact Hread |].
      apply errorServed_onlyRead; [done | by eapply errorState_served].
    + intros Hloop. eapply onlyRead_trans; [exact Hread |].
      eapply indexLoop_readonly; [| done | exact Hloop]. done.
  - by intros [= <- <-].
  - by intros [= <- <-].
Qed.

End ReadOnlyMaintainer.

(** X24.  The maintainer of a read-only store only reads.  On a store
    opened [ReadOnly] to which no block index is reported, under every
    schedule of its [select] statements, [contentIndexWorker] makes no
    [Write] and no [LockWriteVersion] call on an object, and never lists
    the blobs: it neither stores [store.lsi] nor rebuilds the index
    from the blocks. *)
Theorem readonly_maintainer_only_reads
    `{LT : Longtail} `{LI : LongtailIndex} `{BB : BlobBackends}
    (fuel : nat) (optionalStoreIndexPath : string)
    (schedule : list (indexPoll * indexWait))
    (errorSchedule : list errorCase) (t t' : indexState)
    (o : outcome (option error)) :
  blockIndexChan (chans (workers t)) = [] ->
  contentIndexWorker fuel optionalStoreIndexPath ReadOnly schedule
    errorSchedule t
  = Some (o, t') ->
  (exists evs,
     trace (workers t') = trace (workers t) ++ evs /\ Forall readEvent evs)
  /\ (exists ievs,
        indexTrace t' = indexTrace t ++ ievs /\ Forall notListing ievs).
Proof.
  intros Hq Hrun.
  destruct (contentIndexWorker_readonly _ _ _ _ _ _ _ Hq Hrun)
    as (_ & _ & Htr & Hitr).
  by split.
Qed.

Lemma readonly_maintainer_only_reads_witness :
  let t :=
    mkIndexState (testStore {["store.lsi" := [Byte.x01]]} []) 1
      [mkPreflight [1] 0%nat] [] [1] [] true [] in
  exists t',
    contentIndexWorker (LT := testLongtail) (LI := testLongtailIndex)
      (BB := testBackends) 1 "" ReadOnly
      [(IPollPreflight, IWaitFlush); (IPollBlockIndex, IWaitFlush)] [] t
    = Some (Done None, t')
    /\ (exists evs,
          trace (workers t') = [] ++ evs /\ Forall readEvent evs)
    /\ (exists ievs,
          indexTrace t' = [] ++ ievs /\ Forall notListing ievs).
Proof.
  intros t.
  destruct (contentIndexWorker (LT := testLongtail) (LI := testLongtailIndex)
              (BB := testBackends) 1 "" ReadOnly
              [(IPollPreflight, IWaitFlush); (IPollBlockIndex, IWaitFlush)]
              [] t) as [[o t']|] eqn:Hrun; [| discriminate].
  exists t'.
  assert (o = Done None) as -> by (by vm_compute in Hrun; injection Hrun).
  split; [reflexivity |].
  exact (readonly_maintainer_only_reads (LT := testLongtail)
           (LI := testLongtailIndex) (BB := testBackends) 1 ""
           [(IPollPreflight, IWaitFlush); (IPollBlockIndex, IWaitFlush)] []
           t t' (Done None) eq_refl Hrun).
Defined.

(** ** The end of the maintainer *)

Section CloseIndex.
Context `{LT : Longtail} `{LI : LongtailIndex} `{BB : BlobBackends}.
Variables (fuel : nat) (path : string) (accessType : AccessType).

(** With no request pending and the channel of the block indexes
    closed, the loop can only take the block indexes that are queued,
    and leaves when the channel is empty. *)
Lemma indexLoop_drains msgs errorSchedule :
  forall schedule vars b pbc pcl gbc pfc wfc wfrc pm mpm pb st tr wc ifr itr
         r,
  indexLoop fuel path accessType schedule errorSchedule vars
    (mkIndexState
       (mkStore b (mkChannels pbc pcl gbc pfc msgs wfc wfrc) pm mpm pb st tr)
       wc [] [] [] ifr true itr)
  = Some r ->
  r = finishIndex fuel accessType
        (mkVars (var_storeIndex vars) (var_saveStoreIndex vars)
           (var_addedBlockIndexes vars ++ (msg_blockIndex <$> msgs)))
        (mkIndexState
           (mkStore b (mkChannels pbc pcl gbc pfc [] wfc wfrc) pm mpm pb st
              tr)
           wc [] [] [] ifr true itr).
Proof.
  induction msgs as [|m q IH];
    intros [|[c1 c2] rest] vars b pbc pcl gbc pfc wfc wfrc pm mpm pb st tr wc
      ifr itr r; try done.
  - cbn [indexLoop]. unfold indexIteration, indexPollStep, indexWaitStep,
      receiveBlockIndex.
    cbn [preflightGetChan getExistingContentChan indexFlushChan workers chans
           blockIndexChan blockIndexClosed].
    destruct vars as [si sv added].
    destruct c1; try done. unfold iret.
    destruct c2; try done.
    cbn [fmap list_fmap var_storeIndex var_saveStoreIndex
           var_addedBlockIndexes].
    rewrite app_nil_r. by intros [= <-].
  - cbn [indexLoop]. unfold indexIteration, indexPollStep,
      receiveBlockIndex.
    cbn [preflightGetChan getExistingContentChan indexFlushChan workers chans
           blockIndexChan blockIndexClosed].
    destruct c1; try done.
    unfold ibind at 1. rewrite liftM_run. unfold popBlockIndex, with_chans.
    cbn [chans blobStore prefetchMemory maxPrefetchMemory prefetchBlocks
           stats trace putBlockChan putClosed getBlockChan prefetchBlockChan
           blockIndexChan workerFlushChan workerFlushReplyChan tail].
    unfold iret. intros Hrest. apply IH in Hrest. subst r.
    cbn [var_storeIndex var_saveStoreIndex var_addedBlockIndexes fmap
           list_fmap].
    by rewrite <- app_assoc.
Qed.

Lemma finishIndex_saves n vars updated objs rest ch pm mpm pb st tr wc pf ge
    ifl ifr bc itr :
  accessType <> ReadOnly ->
  var_addedBlockIndexes vars <> [] ->
  updateStoreIndex (var_storeIndex vars) (var_addedBlockIndexes vars)
  = (updated, None) ->
  codecAccepts updated (objs !! "store.lsi") ->
  finishIndex (S n) accessType vars
    (mkIndexState
       (mkStore
          (mkBlobStore objs
             (Proceed :: attemptScript (objs !! "store.lsi") Proceed ++ rest))
          ch pm mpm pb st tr)
       wc pf ge ifl ifr bc itr)
  = (Done None,
     mkIndexState
       (mkStore
          (mkBlobStore
             (<["store.lsi" := writtenBlob updated (objs !! "store.lsi")]>
                objs)
             rest)
          ch pm mpm pb st
          (tr ++ EvCall (CallNewObject "store.lsi")
              :: attemptEvents updated "store.lsi" (objs !! "store.lsi")))
       wc pf ge ifl ifr bc itr).
Proof.
  intros Hacc Hadded Hupd Hok. unfold finishIndex.
  rewrite decide_False by done.
  destruct (var_addedBlockIndexes vars) as [|bi added] eqn:Hvars; [done |].
  cbn [length Nat.ltb Nat.leb]. rewrite Hupd. cbn [isErr isSome].
  unfold ibind at 1, iret at 1. cbv beta iota.
  cbn [var_saveStoreIndex var_storeIndex].
  pose proof (updateRemoteStoreIndex_converges updated
                (mkStore
                   (mkBlobStore objs
                      (Proceed
                       :: attemptScript (objs !! "store.lsi") Proceed
                       ++ rest))
                   ch pm mpm pb st tr) [] n rest) as Hrun.
  cbn [blobStore objects script raceScript contentAfter foldl raceEvents
         length Nat.add app] in Hrun.
  specialize (Hrun Hok (Forall_nil_2 _) eq_refl).
  unfold ibind at 1. rewrite liftFuel_run. rewrite Hrun.
  unfold afterCalls, with_trace, with_blobStore.
  cbn [blobStore objects script chans prefetchMemory maxPrefetchMemory
         prefetchBlocks stats trace isErr isSome].
  reflexivity.
Qed.

End CloseIndex.



(** ** Added blocks and requests *)

Section AddedBlocks.
Context `{LT : Longtail} `{LI : LongtailIndex} `{BB : BlobBackends}.

(** A preflight request served with a valid index and added blocks: no
    call on the blob store is made. *)
Lemma servePreflight_known fuel path accessType si sv added u1 msg objs scr
    ch pm mpm pb st tr wc pf ge ifl ifr bc itr :
  isSome si = true ->
  added <> [] ->
  updateStoreIndex si added = (u1, None) ->
  servePreflight fuel path accessType (mkVars si sv added) msg
    (mkIndexState (mkStore (mkBlobStore objs scr) ch pm mpm pb st tr)
       wc pf ge ifl ifr bc itr)
  = (Done (Next (mkVars u1 true added) true),
     mkIndexState
       (mkStore (mkBlobStore objs scr)
          (mkChannels (putBlockChan ch) (putClosed ch) (getBlockChan ch)
             (prefetchBlockChan ch
              ++ (mkPrefetch <$> preflight_blockHashes msg))
             (blockIndexChan ch) (workerFlushChan ch)
             (workerFlushReplyChan ch))
          pm mpm pb st tr)
       wc pf ge ifl ifr bc
       (itr
        ++ [IxPreflightComplete (preflight_asyncCompleteAPI msg)
              (preflight_blockHashes msg) 0])).
Proof.
  intros Hvalid Hadded Hupd. unfold servePreflight, getStoreIndex.
  cbn [var_storeIndex var_saveStoreIndex var_addedBlockIndexes].
  rewrite Hvalid. cbn [negb].
  unfold ibind at 1. unfold ibind at 1. unfold iret at 1. cbv beta iota.
  destruct added as [|bi added]; [done |].
  cbn [length Nat.ltb Nat.leb]. rewrite Hupd. cbn [isErr isSome].
  unfold iret at 1. cbn [isErr isSome]. unfold onPreflighMessage.
  unfold ibind at 1. unfold ibind at 1. rewrite sendPrefetches_run.
  rewrite iemit_run. reflexivity.
Qed.

End AddedBlocks.

(** X26.  Added blocks are merged at every request.  [getStoreIndex]
    merges the added block indexes into the index it returns and clears
    its own copy of the list only: the maintainer keeps the list.  After
    a preflight request served from a valid index, the index holds the
    added blocks, is marked for saving, and the list is as before; the
    flush that follows merges the list into that index once more and
    stores the result. *)
Theorem added_blocks_are_merged_again
    `{LT : Longtail} `{LI : LongtailIndex} `{BB : BlobBackends}
    (n : nat) (path : string) (accessType : AccessType)
    (vars : maintainerVars) (msg : preflightGetMessage)
    (u1 u2 : Longtail_StoreIndex) (rest : list fault) (t : indexState) :
  let cur := objects (blobStore (workers t)) !! "store.lsi" in
  let added := var_addedBlockIndexes vars in
  accessType <> ReadOnly ->
  isSome (var_storeIndex vars) = true ->
  added <> [] ->
  updateStoreIndex (var_storeIndex vars) added = (u1, None) ->
  updateStoreIndex u1 added = (u2, None) ->
  codecAccepts u2 cur ->
  script (blobStore (workers t))
  = Proceed :: attemptScript cur Proceed ++ rest ->
  let r1 := servePreflight (S n) path accessType vars msg t in
  let r2 := serveFlush (S n) accessType (mkVars u1 true added) r1.2 in
  r1.1 = Done (Next (mkVars u1 true added) true)
  /\ trace (workers r1.2) = trace (workers t)
  /\ r2.1 = Done (mkVars
                    (if isSome (returnedIndex u2 cur)
                     then returnedIndex u2 cur else u2)
                    false [])
  /\ objects (blobStore (workers r2.2))
     = <["store.lsi" := writtenBlob u2 cur]>
         (objects (blobStore (workers t))).
Proof.
  intros cur added Hacc Hvalid Hadded Hu1 Hu2 Hok Hscr r1 r2.
  subst r2 r1 cur added. destruct vars as [si sv added].
  cbn [var_storeIndex var_saveStoreIndex var_addedBlockIndexes] in *.
  destruct_index t. destruct_store s. subst scr.
  rewrite (servePreflight_known (S n) path accessType si sv added u1)
    by done.
  cbn [fst snd workers trace].
  rewrite (serveFlush_merges (S n) accessType (mkVars u1 true added) u2)
    by done.
  rewrite serveFlush_saves by done.
  cbn [fst snd workers blobStore objects].
  by repeat split.
Qed.

Lemma added_blocks_are_merged_again_witness :
  let vars := mkVars (Some [mkBlockIndex 1 []]) false [mkBlockIndex 2 []] in
  let t := testIndexState 1 (testStore ∅ [Proceed; Proceed; Proceed]) in
  let r1 := servePreflight (LT := testLongtail) (LI := testLongtailIndex)
              (BB := testBackends) 1 "" ReadWrite vars
              (mkPreflight [] 0%nat) t in
  let r2 := serveFlush (LT := testLongtail) (LI := testLongtailIndex) 1
              ReadWrite
              (mkVars (Some [mkBlockIndex 2 []; mkBlockIndex 1 []]) true
                 [mkBlockIndex 2 []]) r1.2 in
  r1.1 = Done (Next (mkVars (Some [mkBlockIndex 2 []; mkBlockIndex 1 []])
                       true [mkBlockIndex 2 []]) true)
  /\ trace (workers r1.2) = []
  /\ r2.1 = Done (mkVars
                    (Some [mkBlockIndex 2 []; mkBlockIndex 2 [];
                           mkBlockIndex 1 []])
                    false [])
  /\ objects (blobStore (workers r2.2))
     = <["store.lsi" := [Byte.x02; Byte.x02; Byte.x01]]> ∅.
Proof.
  intros vars t.
  exact (added_blocks_are_merged_again (LT := testLongtail)
           (LI := testLongtailIndex) (BB := testBackends) 0 "" ReadWrite
           vars (mkPreflight [] 0%nat)
           (Some [mkBlockIndex 2 []; mkBlockIndex 1 []])
           (Some [mkBlockIndex 2 []; mkBlockIndex 2 []; mkBlockIndex 1 []])
           [] t ltac:(discriminate) eq_refl ltac:(discriminate) eq_refl
           eq_refl eq_refl eq_refl).
Defined.
